(** * RSI alert bot: a shallow embedding of [src/index.ts]

    The TypeScript program watches the RSI of BTC/USDT and pushes alerts
    to Telegram chats and channels.  This development embeds

    - the indicator ([calculateRSI], [getCurrentRSI]) over IEEE 754
      binary64 numbers, which is what a JavaScript [number] is;
    - the alert policy ([shouldSendAlert]);
    - the dispatcher ([sendRSIAlert]) and the command handlers, as
      programs of a small state-and-exception monad over a [World] that
      holds the registry [userConfigs], the clock and the Telegram
      endpoint.

    Logging ([console.log], [console.error]) has no effect on any value
    the program computes and is left out.  In this first part a command
    handler and a monitoring cycle each run to their end before the next
    one starts.  The part "Commands that overlap" embeds the command
    handlers once more with their [await]s as points of suspension, and
    relates the two. *)

From Stdlib Require Import ZArith List Floats Lia Bool Ascii String.
From stdpp Require Import base gmap strings list.

Import ListNotations.

(** ** JavaScript numbers *)

Module JS.

(** A [number] is a binary64 float. *)
Abbreviation number := float (only parsing).

(** The double nearest to an integer (round to nearest, ties to even);
    exact on the safe integers. *)
Definition of_Z (z : Z) : number :=
  SF2Prim (binary_normalize prec emax z 0 false).

Definition of_nat (n : nat) : number := of_Z (Z.of_nat n).

(** [Math.round]: the integer nearest to [x], ties towards +infinity.
    NaN, the infinities and the zeros are returned unchanged, and a
    result that rounds to zero keeps the sign of [x]. *)
Definition Math_round (x : number) : number :=
  match Prim2SF x with
  | S754_finite s m e =>
      if (0 <=? e)%Z then x
      else
        let v := if s then Z.neg m else Z.pos m in
        let n := ((2 * v + 2 ^ (- e)) / 2 ^ (1 - e))%Z in
        SF2Prim (binary_normalize prec emax n 0 s)
  | _ => x
  end.

End JS.

(** ** Exceptions and results *)

Inductive exn : Type :=
| NotEnoughPrices (needed : nat)   (* calculateRSI's [throw new Error] *)
| BinanceUnavailable               (* getBinanceKlines' [throw new Error] *)
| TelegramError                    (* a rejected [bot.sendMessage] *)
| TypeError.                       (* a property access on [undefined] *)

Inductive result (A : Type) : Type :=
| Ok (a : A)
| Throw (e : exn).
Arguments Ok {A} a.
Arguments Throw {A} e.

(** ** Data *)

Record KlineData : Type := {
  openTime : Z;
  open : string;
  high : string;
  low : string;
  close : string;
  volume : string;
  closeTime : Z;
  quoteAssetVolume : string;
  numberOfTrades : Z;
  takerBuyBaseAssetVolume : string;
  takerBuyQuoteAssetVolume : string;
  ignore : string
}.

Record Thresholds : Type := {
  oversold : Z;
  overbought : Z
}.

Record UserConfig : Type := {
  chatId : Z;
  rsiThresholds : Thresholds;
  alertsEnabled : bool;
  lastAlertTime : Z;
  channels : list string
}.

Record RSIData : Type := {
  value : float;
  timestamp : Z;
  price : float
}.

(** ** Configuration constants *)

Definition RSI_PERIOD : nat := 14.
Definition CHECK_INTERVAL : Z := 10000.
Definition ALERT_COOLDOWN : Z := 300000.

(** ** The indicator *)

Section Indicator.

Open Scope float_scope.

(** [prices[i] - prices[i - 1]] for [i = 1 .. length - 1]. *)
Fixpoint differences (prices : list float) : list float :=
  match prices with
  | [] => []
  | previous :: rest =>
      match rest with
      | [] => []
      | current :: _ => (current - previous) :: differences rest
      end
  end.

(** [difference > 0 ? difference : 0] *)
Definition gain (difference : float) : float :=
  if 0 <? difference then difference else 0.

(** [difference < 0 ? Math.abs(difference) : 0] *)
Definition loss (difference : float) : float :=
  if difference <? 0 then abs difference else 0.

(** [xs.slice(0, period).reduce((sum, x) => sum + x, 0) / period] *)
Definition initialAvg (xs : list float) (period : nat) : float :=
  fold_left (fun sum x => sum + x) (firstn period xs) 0 / JS.of_nat period.

(** One pass of the smoothing loop:
    [avg = ((avg * (period - 1)) + current) / period]. *)
Definition smooth (period : nat) (avg current : float) : float :=
  ((avg * (JS.of_nat period - 1)) + current) / JS.of_nat period.

(** The loop [for (let i = period; i < gains.length; i++)], which
    updates both averages at each index. *)
Definition smoothAll (period : nat) (gains losses : list float)
    (init : float * float) : float * float :=
  fold_left
    (fun avgs gl => (smooth period (fst avgs) (fst gl),
                     smooth period (snd avgs) (snd gl)))
    (skipn period (combine gains losses)) init.

Definition calculateRSI (prices : list float) (period : nat) : result float :=
  if (length prices <? period + 1)%nat then Throw (NotEnoughPrices (period + 1))
  else
    let gains := map gain (differences prices) in
    let losses := map loss (differences prices) in
    let initialAvgGain := initialAvg gains period in
    let initialAvgLoss := initialAvg losses period in
    let '(avgGain, avgLoss) :=
      smoothAll period gains losses (initialAvgGain, initialAvgLoss) in
    if avgLoss =? 0 then Ok 100
    else
      let rs := avgGain / avgLoss in
      let rsi := 100 - (100 / (1 + rs)) in
      Ok (JS.Math_round (rsi * 100) / 100).

End Indicator.

(** [getCurrentRSI], given the candles [getBinanceKlines('5m', RSI_PERIOD + 10)]
    resolved to and the value [Date.now()] returns.  [parseFloat] is the
    host's parser of decimal strings. *)

Section CurrentRSI.

Variable parseFloat : string -> float.

Definition getCurrentRSI (klines : list KlineData) (now : Z) : result RSIData :=
  let closePrices := map (fun kline => parseFloat (close kline)) klines in
  match calculateRSI closePrices RSI_PERIOD with
  | Throw e => Throw e
  | Ok rsiValue =>
      (* closePrices[closePrices.length - 1]; calculateRSI has thrown on
         fewer than RSI_PERIOD + 1 prices, so the index is in range *)
      let currentPrice := nth (length closePrices - 1) closePrices nan in
      Ok {| value := rsiValue; timestamp := now; price := currentPrice |}
  end.

End CurrentRSI.

(** ** The alert policy *)

(** [now] is what [Date.now()] returns inside the call.  The thresholds
    are integers of the registry, compared as numbers; [a >= b] is
    written [b <=? a]. *)
Definition shouldSendAlert (userConfig : UserConfig) (rsiData : RSIData) (now : Z) : bool :=
  if negb (alertsEnabled userConfig) then false
  else
    let timeSinceLastAlert := (now - lastAlertTime userConfig)%Z in
    if (timeSinceLastAlert <? ALERT_COOLDOWN)%Z then false
    else
      let isOversold :=
        (value rsiData <=? JS.of_Z (oversold (rsiThresholds userConfig)))%float in
      let isOverbought :=
        (JS.of_Z (overbought (rsiThresholds userConfig)) <=? value rsiData)%float in
      isOversold || isOverbought.

(** ** The Telegram endpoint, the clock and the registry *)

(** [bot.sendMessage] takes a numeric chat id or a channel name. *)
Inductive Dest : Type :=
| Chat (id : Z)
| Channel (name : string).

(** The texts the program sends, one constructor per template. *)
Inductive Message : Type :=
| AlertMsg (isOversold : bool) (rsiData : RSIData)
| ChannelWarning (channel : string)
| Welcome
| OutOfRange
| OversoldSet (v : Z)
| OverboughtSet (v : Z)
| UseStartFirst
| InvalidFormat
| AlreadyListed (channel : string)
| ProbeMsg (isUsername : bool) (channel : string)
| ChannelAdded (isUsername : bool) (channel : string)
| CouldNotAdd (isUsername : bool) (channel : string)
| NotListed (channel : string)
| ChannelRemoved (channel : string)
| ChannelList (chs : list string)
| NoChannels
| StatusMsg (userConfig : UserConfig) (currentRSI : option RSIData)
| AlertsToggled (enabled : bool)
| HelpMsg.

(** One call of [bot.sendMessage] and whether its promise resolved. *)
Record Attempt : Type := {
  to : Dest;
  text : Message;
  delivered : bool
}.

(** What Telegram answers to a call: whether the promise resolves, and
    the time the [await] takes. *)
Record Reply : Type := {
  resolves : bool;
  elapsed : Z
}.

(** The state the program runs in.  [telegram] is the behaviour of the
    outside service: any function of the calls made so far and of the
    current call. *)
Record World : Type := {
  userConfigs : gmap Z UserConfig;
  lastRSIValue : option RSIData;
  clock : Z;
  sendLog : list Attempt;
  telegram : list Attempt -> Dest -> Message -> Reply
}.

(** ** A state and exception monad for the asynchronous code

    An [await]ed call either resolves or throws; the state reached so
    far is kept in both cases, as in the source. *)

Definition M (A : Type) : Type := World -> result A * World.

Definition ret {A} (a : A) : M A := fun w => (Ok a, w).

Definition bind {A B} (m : M A) (k : A -> M B) : M B :=
  fun w =>
    match m w with
    | (Ok a, w') => k a w'
    | (Throw e, w') => (Throw e, w')
    end.

Definition throw {A} (e : exn) : M A := fun w => (Throw e, w).

(** [try { m } catch (error) { handler }] *)
Definition try_catch {A} (m : M A) (handler : exn -> M A) : M A :=
  fun w =>
    match m w with
    | (Ok a, w') => (Ok a, w')
    | (Throw e, w') => handler e w'
    end.

Declare Scope monad_scope.
Delimit Scope monad_scope with monad.
Notation "x <- m ;; k" := (bind m (fun x => k))
  (at level 100, m at next level, right associativity) : monad_scope.
Notation "m ;; k" := (bind m (fun _ => k))
  (at level 100, right associativity) : monad_scope.
Open Scope monad_scope.

(** [for (const x of xs) { body }] *)
Fixpoint forEach {A} (xs : list A) (body : A -> M unit) : M unit :=
  match xs with
  | [] => ret tt
  | x :: rest => body x ;; forEach rest body
  end.

(** [Date.now()] *)
Definition Date_now : M Z := fun w => (Ok (clock w), w).

(** [await bot.sendMessage(dest, text)] *)
Definition sendMessage (dest : Dest) (msg : Message) : M unit :=
  fun w =>
    let reply := telegram w (sendLog w) dest msg in
    let w' := {| userConfigs := userConfigs w;
                 lastRSIValue := lastRSIValue w;
                 clock := clock w + elapsed reply;
                 sendLog := sendLog w ++ [{| to := dest; text := msg;
                                             delivered := resolves reply |}];
                 telegram := telegram w |} in
    if resolves reply then (Ok tt, w') else (Throw TelegramError, w').

(** [userConfigs.get(chatId)] *)
Definition getConfig (id : Z) : M (option UserConfig) :=
  fun w => (Ok (userConfigs w !! id), w).

(** [userConfigs.set(chatId, userConfig)]; also stands for an assignment
    to a field of the object stored under [chatId]. *)
Definition setConfig (id : Z) (userConfig : UserConfig) : M unit :=
  fun w =>
    (Ok tt, {| userConfigs := <[id := userConfig]> (userConfigs w);
               lastRSIValue := lastRSIValue w;
               clock := clock w;
               sendLog := sendLog w;
               telegram := telegram w |}).

(** [lastRSIValue = rsiData] *)
Definition setLastRSIValue (rsiData : RSIData) : M unit :=
  fun w =>
    (Ok tt, {| userConfigs := userConfigs w;
               lastRSIValue := Some rsiData;
               clock := clock w;
               sendLog := sendLog w;
               telegram := telegram w |}).

(** Field updates of a [UserConfig]. *)
Definition with_oversold (v : Z) (c : UserConfig) : UserConfig :=
  {| chatId := chatId c;
     rsiThresholds := {| oversold := v; overbought := overbought (rsiThresholds c) |};
     alertsEnabled := alertsEnabled c;
     lastAlertTime := lastAlertTime c;
     channels := channels c |}.

Definition with_overbought (v : Z) (c : UserConfig) : UserConfig :=
  {| chatId := chatId c;
     rsiThresholds := {| oversold := oversold (rsiThresholds c); overbought := v |};
     alertsEnabled := alertsEnabled c;
     lastAlertTime := lastAlertTime c;
     channels := channels c |}.

Definition with_alertsEnabled (b : bool) (c : UserConfig) : UserConfig :=
  {| chatId := chatId c;
     rsiThresholds := rsiThresholds c;
     alertsEnabled := b;
     lastAlertTime := lastAlertTime c;
     channels := channels c |}.

Definition with_lastAlertTime (t : Z) (c : UserConfig) : UserConfig :=
  {| chatId := chatId c;
     rsiThresholds := rsiThresholds c;
     alertsEnabled := alertsEnabled c;
     lastAlertTime := t;
     channels := channels c |}.

Definition with_channels (chs : list string) (c : UserConfig) : UserConfig :=
  {| chatId := chatId c;
     rsiThresholds := rsiThresholds c;
     alertsEnabled := alertsEnabled c;
     lastAlertTime := lastAlertTime c;
     channels := chs |}.

(** ** The dispatcher *)

(** The inner [try]/[catch] of the loop over the channels: the warning
    is sent from the [catch] block, to the user's own chat. *)
Definition sendToChannel (chatId : Z) (message : Message) (channel : string) : M unit :=
  try_catch (sendMessage (Channel channel) message)
            (fun _ => sendMessage (Chat chatId) (ChannelWarning channel)).

(** [userConfigs.get(chatId)!.lastAlertTime = Date.now()]; on a missing
    entry the assignment throws a TypeError. *)
Definition touchLastAlertTime (chatId : Z) : M unit :=
  entry <- getConfig chatId ;;
  now <- Date_now ;;
  match entry with
  | Some stored => setConfig chatId (with_lastAlertTime now stored)
  | None => throw TypeError
  end.

Definition sendRSIAlert (chatId : Z) (rsiData : RSIData) (userConfig : UserConfig) : M unit :=
  let isOversold :=
    (value rsiData <=? JS.of_Z (oversold (rsiThresholds userConfig)))%float in
  let message := AlertMsg isOversold rsiData in
  try_catch
    (sendMessage (Chat chatId) message ;;
     forEach (channels userConfig) (sendToChannel chatId message) ;;
     touchLastAlertTime chatId)
    (fun _ => ret tt).

(** ** Regular expressions

    The two patterns of [/add_channel] use literals, the classes [\w] and
    [\d], [+] and a counted repetition, anchored at both ends.  A string
    is a sequence of bytes; [\w] and [\d] match ASCII characters only, so
    no byte of a non-ASCII character matches them. *)

Module Regex.

Inductive regex : Type :=
| Void
| Eps
| Class (p : ascii -> bool)
| Cat (r1 r2 : regex)
| Alt (r1 r2 : regex)
| Star (r : regex).

Definition Chr (c : ascii) : regex := Class (Ascii.eqb c).
Definition Plus (r : regex) : regex := Cat r (Star r).

Fixpoint Rep (n : nat) (r : regex) : regex :=
  match n with
  | O => Eps
  | S n' => Cat r (Rep n' r)
  end.

Fixpoint Str (s : list ascii) : regex :=
  match s with
  | [] => Eps
  | c :: s' => Cat (Chr c) (Str s')
  end.

(** The language of a pattern. *)
Inductive lang : regex -> list ascii -> Prop :=
| lang_eps : lang Eps []
| lang_class p c : p c = true -> lang (Class p) [c]
| lang_cat r1 r2 s1 s2 : lang r1 s1 -> lang r2 s2 -> lang (Cat r1 r2) (s1 ++ s2)
| lang_alt_l r1 r2 s : lang r1 s -> lang (Alt r1 r2) s
| lang_alt_r r1 r2 s : lang r2 s -> lang (Alt r1 r2) s
| lang_star_nil r : lang (Star r) []
| lang_star_app r s1 s2 : lang r s1 -> lang (Star r) s2 -> lang (Star r) (s1 ++ s2).

(** Matching by derivatives. *)
Fixpoint nullable (r : regex) : bool :=
  match r with
  | Void => false
  | Eps => true
  | Class _ => false
  | Cat r1 r2 => nullable r1 && nullable r2
  | Alt r1 r2 => nullable r1 || nullable r2
  | Star _ => true
  end.

Fixpoint deriv (c : ascii) (r : regex) : regex :=
  match r with
  | Void => Void
  | Eps => Void
  | Class p => if p c then Eps else Void
  | Cat r1 r2 =>
      if nullable r1 then Alt (Cat (deriv c r1) r2) (deriv c r2)
      else Cat (deriv c r1) r2
  | Alt r1 r2 => Alt (deriv c r1) (deriv c r2)
  | Star r1 => Cat (deriv c r1) (Star r1)
  end.

Fixpoint matches (r : regex) (s : list ascii) : bool :=
  match s with
  | [] => nullable r
  | c :: s' => matches (deriv c r) s'
  end.

(** [\d] *)
Definition digit (c : ascii) : bool :=
  let n := nat_of_ascii c in (48 <=? n)%nat && (n <=? 57)%nat.

(** [\w]: [A-Za-z0-9_] *)
Definition word (c : ascii) : bool :=
  let n := nat_of_ascii c in
  ((65 <=? n)%nat && (n <=? 90)%nat) || ((97 <=? n)%nat && (n <=? 122)%nat)
  || digit c || (n =? 95)%nat.

(** [s.match(/^r$/)] is not null *)
Definition test (r : regex) (s : string) : bool :=
  matches r (list_ascii_of_string s).

End Regex.

(** [/^@\w+$/] *)
Definition usernamePattern : Regex.regex :=
  Regex.Cat (Regex.Chr "@"%char) (Regex.Plus (Regex.Class Regex.word)).

(** [/^-100\d{10}$/] *)
Definition chatIdPattern : Regex.regex :=
  Regex.Cat (Regex.Str (list_ascii_of_string "-100"))
            (Regex.Rep 10 (Regex.Class Regex.digit)).

(** ** Array helpers *)

(** [xs.includes(x)] *)
Definition includes (xs : list string) (x : string) : bool :=
  existsb (String.eqb x) xs.

(** [xs.indexOf(x)]; [None] stands for [-1]. *)
Fixpoint indexOf (xs : list string) (x : string) : option nat :=
  match xs with
  | [] => None
  | y :: rest =>
      if String.eqb y x then Some O
      else match indexOf rest x with
           | Some i => Some (S i)
           | None => None
           end
  end.

(** [xs.splice(index, 1)], as the array left behind. *)
Definition splice1 (xs : list string) (index : nat) : list string :=
  firstn index xs ++ skipn (S index) xs.

(** ** The command handlers *)

Definition defaultConfig (chatId : Z) : UserConfig :=
  {| chatId := chatId;
     rsiThresholds := {| oversold := 30; overbought := 70 |};
     alertsEnabled := true;
     lastAlertTime := 0;
     channels := [] |}.

(** [/start] *)
Definition onStart (chatId : Z) : M unit :=
  setConfig chatId (defaultConfig chatId) ;;
  try_catch (sendMessage (Chat chatId) Welcome) (fun _ => ret tt).

(** [/set_oversold (\d+)]; [value] is [parseInt(match[1])]. *)
Definition onSetOversold (chatId : Z) (value : Z) : M unit :=
  if ((value <? 1) || (99 <? value))%Z then sendMessage (Chat chatId) OutOfRange
  else
    userConfig <- getConfig chatId ;;
    match userConfig with
    | Some c =>
        setConfig chatId (with_oversold value c) ;;
        sendMessage (Chat chatId) (OversoldSet value)
    | None => sendMessage (Chat chatId) UseStartFirst
    end.

(** [/set_overbought (\d+)] *)
Definition onSetOverbought (chatId : Z) (value : Z) : M unit :=
  if ((value <? 1) || (99 <? value))%Z then sendMessage (Chat chatId) OutOfRange
  else
    userConfig <- getConfig chatId ;;
    match userConfig with
    | Some c =>
        setConfig chatId (with_overbought value c) ;;
        sendMessage (Chat chatId) (OverboughtSet value)
    | None => sendMessage (Chat chatId) UseStartFirst
    end.

(** The format check of [/add_channel]: [isUsername || isChatId]. *)
Definition validChannel (channelInput : string) : bool :=
  Regex.test usernamePattern channelInput || Regex.test chatIdPattern channelInput.

(** [/add_channel (.+)]; [channelInput] is [match[1].trim()]. *)
Definition onAddChannel (chatId : Z) (channelInput : string) : M unit :=
  userConfig <- getConfig chatId ;;
  match userConfig with
  | None => sendMessage (Chat chatId) UseStartFirst
  | Some c =>
      let isUsername := Regex.test usernamePattern channelInput in
      let isChatId := Regex.test chatIdPattern channelInput in
      if negb isUsername && negb isChatId then
        sendMessage (Chat chatId) InvalidFormat
      else if includes (channels c) channelInput then
        sendMessage (Chat chatId) (AlreadyListed channelInput)
      else
        try_catch
          (sendMessage (Channel channelInput) (ProbeMsg isUsername channelInput) ;;
           setConfig chatId (with_channels (channels c ++ [channelInput]) c) ;;
           sendMessage (Chat chatId) (ChannelAdded isUsername channelInput))
          (fun _ => sendMessage (Chat chatId) (CouldNotAdd isUsername channelInput))
  end.

(** [/remove_channel (.+)] *)
Definition onRemoveChannel (chatId : Z) (channelInput : string) : M unit :=
  userConfig <- getConfig chatId ;;
  match userConfig with
  | None => sendMessage (Chat chatId) UseStartFirst
  | Some c =>
      match indexOf (channels c) channelInput with
      | None => sendMessage (Chat chatId) (NotListed channelInput)
      | Some channelIndex =>
          setConfig chatId (with_channels (splice1 (channels c) channelIndex) c) ;;
          sendMessage (Chat chatId) (ChannelRemoved channelInput)
      end
  end.

(** [/list_channels] *)
Definition onListChannels (chatId : Z) : M unit :=
  userConfig <- getConfig chatId ;;
  match userConfig with
  | None => sendMessage (Chat chatId) UseStartFirst
  | Some c =>
      match channels c with
      | [] => sendMessage (Chat chatId) NoChannels
      | _ => sendMessage (Chat chatId) (ChannelList (channels c))
      end
  end.

(** [/status] *)
Definition onStatus (chatId : Z) : M unit :=
  userConfig <- getConfig chatId ;;
  match userConfig with
  | None => sendMessage (Chat chatId) UseStartFirst
  | Some c =>
      fun w => sendMessage (Chat chatId) (StatusMsg c (lastRSIValue w)) w
  end.

(** [/toggle] *)
Definition onToggle (chatId : Z) : M unit :=
  userConfig <- getConfig chatId ;;
  match userConfig with
  | None => sendMessage (Chat chatId) UseStartFirst
  | Some c =>
      setConfig chatId (with_alertsEnabled (negb (alertsEnabled c)) c) ;;
      sendMessage (Chat chatId) (AlertsToggled (negb (alertsEnabled c)))
  end.

(** [/help] *)
Definition onHelp (chatId : Z) : M unit :=
  sendMessage (Chat chatId) HelpMsg.

Inductive Command : Type :=
| Start
| SetOversold (value : Z)
| SetOverbought (value : Z)
| AddChannel (channelInput : string)
| RemoveChannel (channelInput : string)
| ListChannels
| Status
| Toggle
| Help.

Definition handle (chatId : Z) (cmd : Command) : M unit :=
  match cmd with
  | Start => onStart chatId
  | SetOversold v => onSetOversold chatId v
  | SetOverbought v => onSetOverbought chatId v
  | AddChannel s => onAddChannel chatId s
  | RemoveChannel s => onRemoveChannel chatId s
  | ListChannels => onListChannels chatId
  | Status => onStatus chatId
  | Toggle => onToggle chatId
  | Help => onHelp chatId
  end.

(** ** The monitoring cycle and the runs of the bot *)

Definition lift {A} (r : result A) : M A := fun w => (r, w).

(** The keys [userConfigs.entries()] goes through.  The [Map] of the
    source yields them in the order of their first [set]; the map of the
    model lists them in an order of its own. *)
Definition registeredIds : M (list Z) :=
  fun w => (Ok (map fst (map_to_list (userConfigs w))), w).

Section Bot.

Variable parseFloat : string -> float.

(** The body of the loop over [userConfigs.entries()]: the iterator
    yields the object stored under [chatId] at the time of the visit. *)
Definition checkUser (rsiData : RSIData) (chatId : Z) : M unit :=
  entry <- getConfig chatId ;;
  match entry with
  | None => ret tt
  | Some userConfig =>
      now <- Date_now ;;
      if shouldSendAlert userConfig rsiData now
      then sendRSIAlert chatId rsiData userConfig
      else ret tt
  end.

(** One run of [monitorRSI], up to the [setTimeout] that schedules the
    next one.  [fetched] is the outcome of [getBinanceKlines]. *)
Definition monitorRSI (fetched : result (list KlineData)) : M unit :=
  try_catch
    (klines <- lift fetched ;;
     now <- Date_now ;;
     rsiData <- lift (getCurrentRSI parseFloat klines now) ;;
     setLastRSIValue rsiData ;;
     ids <- registeredIds ;;
     forEach ids (checkUser rsiData))
    (fun _ => ret tt).

(** What happens to the bot: a command arrives, a monitoring cycle
    runs, or time passes. *)
Inductive Event : Type :=
| Incoming (chatId : Z) (cmd : Command)
| Cycle (fetched : result (list KlineData))
| Elapse (ms : Z).

Definition step (ev : Event) (w : World) : World :=
  match ev with
  | Incoming chatId cmd => snd (handle chatId cmd w)
  | Cycle fetched => snd (monitorRSI fetched w)
  | Elapse ms =>
      {| userConfigs := userConfigs w;
         lastRSIValue := lastRSIValue w;
         clock := clock w + ms;
         sendLog := sendLog w;
         telegram := telegram w |}
  end.

Definition run (evs : list Event) (w : World) : World :=
  fold_left (fun w ev => step ev w) evs w.

(** At start-up the registry is empty and no reading is stored. *)
Definition initial (w : World) : Prop :=
  userConfigs w = ∅ /\ lastRSIValue w = None.

Definition reachable (w : World) : Prop :=
  exists w0 evs, initial w0 /\ w = run evs w0.

End Bot.

(** * Specification vocabulary *)

(** ** Steps of the monad *)

(** A step that only talks to Telegram leaves the registry, the stored
    reading and Telegram's behaviour as they were, and extends the log. *)
Definition onlySends {A} (m : M A) : Prop :=
  forall w,
    userConfigs (snd (m w)) = userConfigs w /\
    lastRSIValue (snd (m w)) = lastRSIValue w /\
    telegram (snd (m w)) = telegram w /\
    exists atts, sendLog (snd (m w)) = sendLog w ++ atts.

(** A step that leaves an observation of the world as it was. *)
Definition keeps {A B} (f : World -> B) (m : M A) : Prop :=
  forall w, f (snd (m w)) = f w.

(** The world after a call to Telegram. *)
Definition afterSend (dest : Dest) (msg : Message) (w : World) : World :=
  snd (sendMessage dest msg w).

(** The calls a run adds to the log. *)
Definition newAttempts (w w' : World) : list Attempt :=
  skipn (length (sendLog w)) (sendLog w').

(** ** Logs of a dispatch *)

(** The first call of a dispatch: the alert, to the user's own chat. *)
Definition primaryAttempt (chatId : Z) (message : Message) (ok : bool) : Attempt :=
  {| to := Chat chatId; text := message; delivered := ok |}.

(** What the loop over the channels logs for one channel whose warning,
    if any, is delivered: the send to the channel and, when that send
    fails, the warning to the user's chat. *)
Definition channelAttempts (chatId : Z) (message : Message) (sent : string * bool)
    : list Attempt :=
  if snd sent
  then [{| to := Channel (fst sent); text := message; delivered := true |}]
  else [{| to := Channel (fst sent); text := message; delivered := false |};
        {| to := Chat chatId; text := ChannelWarning (fst sent); delivered := true |}].

Definition channelTrace (chatId : Z) (message : Message) (sent : list (string * bool))
    : list Attempt :=
  flat_map (channelAttempts chatId message) sent.

(** What it logs for a channel whose send and whose warning both fail. *)
Definition abortedAttempts (chatId : Z) (message : Message) (channel : string)
    : list Attempt :=
  [{| to := Channel channel; text := message; delivered := false |};
   {| to := Chat chatId; text := ChannelWarning channel; delivered := false |}].

(** The message of a dispatch. *)
Definition alertMessage (rsiData : RSIData) (userConfig : UserConfig) : Message :=
  AlertMsg (value rsiData <=? JS.of_Z (oversold (rsiThresholds userConfig)))%float rsiData.

(** The warnings a log holds for the chat, and the channels it reached. *)
Definition warningsTo (chatId : Z) (atts : list Attempt) : list string :=
  flat_map (fun a =>
              match to a, text a with
              | Chat id, ChannelWarning channel =>
                  if (id =? chatId)%Z && delivered a then [channel] else []
              | _, _ => []
              end) atts.

Definition channelsTried (atts : list Attempt) : list string :=
  flat_map (fun a => match to a with Channel name => [name] | Chat _ => [] end) atts.

Definition channelsReached (atts : list Attempt) : list string :=
  flat_map (fun a =>
              match to a with
              | Channel name => if delivered a then [name] else []
              | Chat _ => []
              end) atts.

(** Every call to the user's own chat in a log went through. *)
Definition primaryAllDelivered (chatId : Z) (atts : list Attempt) : Prop :=
  forall a, In a atts -> to a = Chat chatId -> delivered a = true.

(** What the dispatcher does to the registry when the loop over the
    channels completes: [lastAlertTime] of the entry stored under
    [chatId] is set to [now]. *)
Definition touched (chatId : Z) (now : Z) (configs : gmap Z UserConfig)
    : gmap Z UserConfig :=
  match configs !! chatId with
  | Some stored => <[chatId := with_lastAlertTime now stored]> configs
  | None => configs
  end.

(** ** Destination formats, in words *)

(** One of [0-9]. *)
Definition isDigit (c : ascii) : Prop :=
  (nat_of_ascii "0" <= nat_of_ascii c <= nat_of_ascii "9")%nat.

(** One of [A-Z], [a-z], [0-9] or the underscore. *)
Definition isWordChar (c : ascii) : Prop :=
  (nat_of_ascii "A" <= nat_of_ascii c <= nat_of_ascii "Z")%nat \/
  (nat_of_ascii "a" <= nat_of_ascii c <= nat_of_ascii "z")%nat \/
  isDigit c \/
  c = "_"%char.

(** ["@"] followed by one or more word characters, and nothing else. *)
Definition isHandle (s : string) : Prop :=
  exists name,
    s = String "@" name /\
    name <> EmptyString /\
    Forall isWordChar (list_ascii_of_string name).

(** ["-100"] followed by exactly ten digits, and nothing else. *)
Definition isNumericId (s : string) : Prop :=
  exists digits,
    s = String.append "-100" digits /\
    String.length digits = 10%nat /\
    Forall isDigit (list_ascii_of_string digits).

(** ** The invariant of the registry *)

(** A list of channels holds no channel twice, and each of them passed
    the format check. *)
Definition goodChannels (chs : list string) : Prop :=
  NoDup chs /\ Forall (fun ch => validChannel ch = true) chs.

Definition registryOk (configs : gmap Z UserConfig) : Prop :=
  forall id c, configs !! id = Some c -> goodChannels (channels c).

(** ** Shapes of price series *)

(** Whether each price stands in [rel] to the one after it. *)
Fixpoint pairwise (rel : float -> float -> bool) (prices : list float) : bool :=
  match prices with
  | [] => true
  | previous :: rest =>
      match rest with
      | [] => true
      | current :: _ => rel previous current && pairwise rel rest
      end
  end.

(** No price is below the one before it. *)
Definition increasing (prices : list float) : bool :=
  pairwise (fun previous current => previous <=? current)%float prices.

(** No price is above the one before it. *)
Definition decreasing (prices : list float) : bool :=
  pairwise (fun previous current => current <=? previous)%float prices.

(** Each price is below the one before it. *)
Definition strictlyDecreasing (prices : list float) : bool :=
  pairwise (fun previous current => current <? previous)%float prices.

(** No difference between a price and the next is infinite. *)
Definition finiteSteps (prices : list float) : bool :=
  forallb (fun difference => negb (is_infinity difference)) (differences prices).

(** A price that is not negative and not infinite. *)
Definition finitePrice (p : float) : bool := ((0 <=? p) && (p <? infinity))%float.

(** The most elements a JavaScript array can hold is [2^32 - 1]. *)
Definition arrayLength {A} (xs : list A) : Prop :=
  (Z.of_nat (length xs) < 2 ^ 32)%Z.

(** ** Magnitudes of binary64 numbers *)

(** [K * 2^E <= m * 2^e], over the integers. *)
Definition dle (K E m e : Z) : Prop :=
  (K * 2 ^ (E - Z.min E e) <= m * 2 ^ (e - Z.min E e))%Z.

(** A positive number (finite or infinite) that is at least [K * 2^E]. *)
Definition atLeastSF (K E : Z) (x : spec_float) : Prop :=
  match x with
  | S754_infinity false => True
  | S754_finite false m e => dle K E (Z.pos m) e
  | _ => False
  end.

Definition atLeast (K E : Z) (x : float) : Prop := atLeastSF K E (Prim2SF x).

(** The same with the sign [s]. *)
Definition signedAtLeastSF (s : bool) (K E : Z) (x : spec_float) : Prop :=
  match x with
  | S754_infinity s' => s' = s
  | S754_finite s' m e => s' = s /\ dle K E (Z.pos m) e
  | _ => False
  end.

(** ** Sample data: a dispatch *)

(** A reading in the oversold zone. *)
Definition sampleReading : RSIData :=
  {| value := 25; timestamp := 1000000; price := 50000 |}.

(** A subscriber with two channels. *)
Definition sampleConfig : UserConfig :=
  with_channels ["@a"; "@b"]%string (defaultConfig 1).

(** Telegram delivers alerts to chats and to every channel but ["@a"],
    and whether it delivers warnings is [warnings]; a call takes 10 ms. *)
Definition sampleTelegram (warnings : bool) : list Attempt -> Dest -> Message -> Reply :=
  fun _ dest msg =>
    {| resolves :=
         match dest, msg with
         | Chat _, ChannelWarning _ => warnings
         | Chat _, _ => true
         | Channel name, _ => negb (String.eqb name "@a")
         end;
       elapsed := 10 |}.

Definition sampleWorld (warnings : bool) : World :=
  {| userConfigs := {[ 1%Z := sampleConfig ]};
     lastRSIValue := None;
     clock := 1000000;
     sendLog := [];
     telegram := sampleTelegram warnings |}.

(** ** Sample data: a run of the bot *)

(** [parseFloat] on a string of decimal digits. *)
Definition parseDigits (s : string) : float :=
  fold_left (fun acc c => acc * 10 + JS.of_nat (nat_of_ascii c - 48))%float
            (list_ascii_of_string s) 0%float.

Definition sampleKline (closePrice : string) : KlineData :=
  {| openTime := 0; open := "0"; high := "0"; low := "0"; close := closePrice;
     volume := "0"; closeTime := 0; quoteAssetVolume := "0"; numberOfTrades := 0;
     takerBuyBaseAssetVolume := "0"; takerBuyQuoteAssetVolume := "0"; ignore := "0" |}.

Definition sampleKlines : list KlineData :=
  map sampleKline
      ["100"; "101"; "102"; "101"; "103"; "104"; "103"; "105";
       "106"; "105"; "107"; "108"; "107"; "109"; "110"]%string.

(** The bot at start-up, facing [sampleTelegram]. *)
Definition bootWorld : World :=
  {| userConfigs := ∅;
     lastRSIValue := None;
     clock := 1000000;
     sendLog := [];
     telegram := sampleTelegram true |}.

(** Subscriber 1 has sent [/start]. *)
Definition startedWorld : World :=
  run parseDigits [Incoming 1 Start] bootWorld.

(** Subscriber 1 has sent [/start] and [/add_channel @b]. *)
Definition subscribedWorld : World :=
  run parseDigits [Incoming 1 Start; Incoming 1 (AddChannel "@b")] bootWorld.

(** ** Sample data: price series *)

(** Fifteen equal prices. *)
Definition flatPrices : list float := repeat 5%float 15.

(** Three prices that fall by more than the largest binary64 number,
    then by [2^1022]. *)
Definition swingPrices : list float :=
  [0x1p+1023; -0x1p+1023; -0x1.8p+1023]%float.

(** Sixteen prices that never go down. *)
Definition risingPrices : list float :=
  [1; 2; 2; 3; 5; 8; 8; 9; 10; 11; 12; 13; 14; 15; 16; 17]%float.

(** Sixteen prices that fall at every step. *)
Definition fallingPrices : list float :=
  [17; 16; 15; 14; 13; 12; 11; 10; 9; 8; 7; 5; 3; 2; 1.5; 1]%float.

(** ** Vocabulary for the commands and the cycle *)

(** The calls a run adds to the log, as pairs of destination and text. *)
Definition sent (w w' : World) : list (Dest * Message) :=
  map (fun a => (to a, text a)) (newAttempts w w').

(** The range [/set_oversold] and [/set_overbought] accept. *)
Definition inRange (v : Z) : Prop := (1 <= v <= 99)%Z.

(** An entry of the registry is filed under its own chat id, and its
    thresholds are in range. *)
Definition configOk (id : Z) (c : UserConfig) : Prop :=
  chatId c = id /\
  inRange (oversold (rsiThresholds c)) /\
  inRange (overbought (rsiThresholds c)).

(** The commands that answer "use /start first" to a chat that is not
    registered: all of them but [/start], [/help], and a threshold
    command with a value out of range, which is turned down before the
    registry is looked at. *)
Definition needsRegistration (cmd : Command) : bool :=
  match cmd with
  | Start | Help => false
  | SetOversold v | SetOverbought v => negb ((v <? 1)%Z || (99 <? v)%Z)
  | AddChannel _ | RemoveChannel _ | ListChannels | Status | Toggle => true
  end.

(** A configuration with the time of its last alert forgotten. *)
Definition forgetTime (c : UserConfig) : UserConfig := with_lastAlertTime 0 c.

(** Telegram delivers everything but the "channel added" confirmation. *)
Definition unconfirmingTelegram : list Attempt -> Dest -> Message -> Reply :=
  fun _ _ msg =>
    {| resolves := match msg with ChannelAdded _ _ => false | _ => true end;
       elapsed := 10 |}.

(** Subscriber 1, with the default configuration, facing it. *)
Definition unconfirmingWorld : World :=
  {| userConfigs := {[ 1%Z := defaultConfig 1 ]};
     lastRSIValue := None;
     clock := 1000000;
     sendLog := [];
     telegram := unconfirmingTelegram |}.

(** Telegram never answers in negative time. *)
Definition patient (w : World) : Prop :=
  forall history dest msg, (0 <= elapsed (telegram w history dest msg))%Z.

(** A step that leaves Telegram's behaviour as it was, does not set the
    clock back when Telegram is patient, and only adds to the log. *)
Definition advances {A} (m : M A) : Prop :=
  forall w,
    telegram (snd (m w)) = telegram w /\
    (patient w -> (clock w <= clock (snd (m w)))%Z) /\
    exists atts, sendLog (snd (m w)) = sendLog w ++ atts.

(** The clock after the calls [atts], made one after the other from the
    time [start] with [history] in the log: each call takes the time
    Telegram's answer to it takes. *)
Fixpoint timeAfter (telegram : list Attempt -> Dest -> Message -> Reply)
    (history : list Attempt) (start : Z) (atts : list Attempt) : Z :=
  match atts with
  | [] => start
  | a :: rest =>
      timeAfter telegram (history ++ [a])
                (start + elapsed (telegram history (to a) (text a)))%Z rest
  end.

(** A step that leaves Telegram's behaviour as it was, only adds calls to
    the log, and takes the time these calls take. *)
Definition timed {A} (m : M A) : Prop :=
  forall w,
    telegram (snd (m w)) = telegram w /\
    exists atts,
      sendLog (snd (m w)) = sendLog w ++ atts /\
      clock (snd (m w)) = timeAfter (telegram w) (sendLog w) (clock w) atts.

(** The log of one dispatch to [chatId] with the channels [chs]: the
    alert to the chat, then sends to channels of [chs] and warnings to
    the chat; the channels tried are the first of [chs], in order. *)
Definition dispatchLog (chatId : Z) (message : Message) (chs : list string)
    (atts : list Attempt) : Prop :=
  exists ok rest,
    atts = primaryAttempt chatId message ok :: rest /\
    Forall (fun a => (to a = Chat chatId /\ exists ch, text a = ChannelWarning ch) \/
                     (exists ch, In ch chs /\ to a = Channel ch /\ text a = message))
           rest /\
    exists skipped, chs = channelsTried rest ++ skipped.

(** The log of the visit the monitoring loop pays to [id], whose entry
    was [c] at the start of the cycle: nothing when the policy says no at
    the time [now] of the visit, one dispatch when it says yes.  The
    visit is not before [start] when [inOrder] holds. *)
Definition visitLog (configs : gmap Z UserConfig) (rsiData : RSIData)
    (inOrder : Prop) (start : Z) (id : Z) (atts : list Attempt) : Prop :=
  exists c now,
    configs !! id = Some c /\
    (inOrder -> (start <= now)%Z) /\
    if shouldSendAlert c rsiData now
    then dispatchLog id (alertMessage rsiData c) (channels c) atts
    else atts = [].

(** The number of times the registry lists a channel. *)
Definition listings (configs : gmap Z UserConfig) (ch : string) : nat :=
  list_sum (map (fun entry => count_occ string_dec (channels (snd entry)) ch)
                (map_to_list configs)).

(** An alert sent to the chat [id]. *)
Definition isAlertTo (id : Z) (a : Attempt) : bool :=
  match to a, text a with
  | Chat id', AlertMsg _ _ => (id' =? id)%Z
  | _, _ => false
  end.

(** Fifteen candles whose closing prices rise at every step. *)
Definition risingKlines : list KlineData :=
  map sampleKline
      ["100"; "101"; "102"; "103"; "104"; "105"; "106"; "107";
       "108"; "109"; "110"; "111"; "112"; "113"; "114"]%string.

(** ** Upper bounds of binary64 numbers *)

(** A zero or a finite number of sign [s] whose magnitude is at most
    [K * 2^E]. *)
Definition signedAtMostSF (s : bool) (K E : Z) (x : spec_float) : Prop :=
  match x with
  | S754_zero s' => s' = s
  | S754_finite s' m e => s' = s /\ dle (Z.pos m) e K E
  | _ => False
  end.

Definition atMostSF (K E : Z) (x : spec_float) : Prop := signedAtMostSF false K E x.

Definition atMost (K E : Z) (x : float) : Prop := atMostSF K E (Prim2SF x).

(** A positive number that is not infinite. *)
Definition positiveFinite (x : float) : Prop :=
  atLeast 1 (-1074) x /\ atMost (2 ^ 53 - 1) 971 x.

(** NaN, or a number with the sign bit clear. *)
Definition notNegativeSF (x : spec_float) : Prop :=
  match x with
  | S754_nan => True
  | S754_zero s | S754_infinity s | S754_finite s _ _ => s = false
  end.

Definition notNegative (x : float) : Prop := notNegativeSF (Prim2SF x).

(** What a location adds to a truncated mantissa, rounded up to the next
    integer. *)
Definition inexact (l : location) : Z :=
  match l with
  | loc_Exact => 0
  | loc_Inexact _ => 1
  end.

(** A log that holds a probe of [/add_channel] delivered to [channel]. *)
Definition probed (log : list Attempt) (channel : string) : Prop :=
  exists a,
    In a log /\ to a = Channel channel /\ delivered a = true /\
    exists isUsername, text a = ProbeMsg isUsername channel.

(** A price from zero up to [2^971], about [2 * 10^292]. *)
Definition marketPrice (p : float) : bool :=
  ((0 <=? p) && (p <=? 0x1p+971))%float.

(** A zero of either sign, or a positive number that is at most
    [K * 2^E]. *)
Definition priceSF (K E : Z) (x : spec_float) : Prop :=
  match x with
  | S754_zero _ => True
  | S754_finite s m e => s = false /\ dle (Z.pos m) e K E
  | _ => False
  end.

(** Sixteen market prices that go up and down. *)
Definition mixedPrices : list float :=
  [100; 101; 102; 101; 103; 104; 103; 105; 106; 105; 107; 108; 107; 109; 110; 108]%float.

(** * Commands that overlap

    The handlers are [async] functions: each call of [bot.sendMessage] is
    awaited, and while one handler waits for Telegram the bot takes up
    the next command.  What a handler does between two [await]s is done
    without interruption.  This part embeds the handlers once more, with
    their [await]s as points of suspension, over a memory in which the
    registry holds references to configuration objects, as the [Map] of
    the source does: a handler that has looked its object up keeps the
    reference across its [await]s, and an assignment to a field changes
    the object for every holder of the reference. *)

Module Async.

(** A reference to a configuration object: its position among the
    objects created so far. *)
Abbreviation Ref := nat (only parsing).

Record Memory : Type := {
  objects : list UserConfig;    (* the objects [/start] has created *)
  registry : gmap Z Ref;        (* [userConfigs] *)
  reading : option RSIData      (* [lastRSIValue] *)
}.

(** An [async] function body: it returns, throws, looks at the memory,
    changes it, or awaits a call of [bot.sendMessage] and goes on once
    the promise has resolved ([true]) or been rejected ([false]). *)
Inductive Task (A : Type) : Type :=
| Return (a : A)
| Raise (e : exn)
| Read (k : Memory -> Task A)
| Write (f : Memory -> Memory) (k : Task A)
| Await (dest : Dest) (msg : Message) (k : bool -> Task A).
Arguments Return {A} a.
Arguments Raise {A} e.
Arguments Read {A} k.
Arguments Write {A} f k.
Arguments Await {A} dest msg k.

Fixpoint bind {A B} (m : Task A) (k : A -> Task B) : Task B :=
  match m with
  | Return a => k a
  | Raise e => Raise e
  | Read r => Read (fun mem => bind (r mem) k)
  | Write f m' => Write f (bind m' k)
  | Await dest msg r => Await dest msg (fun resolved => bind (r resolved) k)
  end.

(** [try { m } catch (error) { handler }] *)
Fixpoint try_catch {A} (m : Task A) (handler : exn -> Task A) : Task A :=
  match m with
  | Return a => Return a
  | Raise e => handler e
  | Read r => Read (fun mem => try_catch (r mem) handler)
  | Write f m' => Write f (try_catch m' handler)
  | Await dest msg r => Await dest msg (fun resolved => try_catch (r resolved) handler)
  end.

Declare Scope task_scope.
Delimit Scope task_scope with task.
Notation "x <- m ;; k" := (bind m (fun x => k))
  (at level 100, m at next level, right associativity) : task_scope.
Notation "m ;; k" := (bind m (fun _ => k))
  (at level 100, right associativity) : task_scope.
Local Open Scope task_scope.

(** [await bot.sendMessage(dest, text)] *)
Definition sendMessage (dest : Dest) (msg : Message) : Task unit :=
  Await dest msg (fun resolved => if resolved then Return tt else Raise TelegramError).

(** [userConfigs.get(chatId)]: the reference the map holds. *)
Definition getConfig (id : Z) : Task (option Ref) :=
  Read (fun mem => Return (registry mem !! id)).

(** The object behind a reference, as it is now. *)
Definition load (userConfig : Ref) : Task UserConfig :=
  Read (fun mem =>
          match objects mem !! userConfig with
          | Some c => Return c
          | None => Raise TypeError
          end).

(** An assignment to a field of the object, or a call that changes one
    of its arrays in place. *)
Definition update (userConfig : Ref) (f : UserConfig -> UserConfig) : Task unit :=
  Write (fun mem => {| objects := alter f userConfig (objects mem);
                       registry := registry mem;
                       reading := reading mem |})
        (Return tt).

(** [userConfigs.set(chatId, { ... })] with an object literal: a new
    object is created and the map is made to refer to it. *)
Definition setNew (id : Z) (c : UserConfig) : Task unit :=
  Write (fun mem => {| objects := objects mem ++ [c];
                       registry := <[id := length (objects mem)]> (registry mem);
                       reading := reading mem |})
        (Return tt).

(** [lastRSIValue] *)
Definition getLastRSIValue : Task (option RSIData) :=
  Read (fun mem => Return (reading mem)).

(** [/start] *)
Definition onStart (chatId : Z) : Task unit :=
  setNew chatId (defaultConfig chatId) ;;
  try_catch (sendMessage (Chat chatId) Welcome) (fun _ => Return tt).

(** [/set_oversold (\d+)] *)
Definition onSetOversold (chatId : Z) (value : Z) : Task unit :=
  if ((value <? 1) || (99 <? value))%Z then sendMessage (Chat chatId) OutOfRange
  else
    userConfig <- getConfig chatId ;;
    match userConfig with
    | Some userConfig =>
        update userConfig (with_oversold value) ;;
        sendMessage (Chat chatId) (OversoldSet value)
    | None => sendMessage (Chat chatId) UseStartFirst
    end.

(** [/set_overbought (\d+)] *)
Definition onSetOverbought (chatId : Z) (value : Z) : Task unit :=
  if ((value <? 1) || (99 <? value))%Z then sendMessage (Chat chatId) OutOfRange
  else
    userConfig <- getConfig chatId ;;
    match userConfig with
    | Some userConfig =>
        update userConfig (with_overbought value) ;;
        sendMessage (Chat chatId) (OverboughtSet value)
    | None => sendMessage (Chat chatId) UseStartFirst
    end.

(** [/add_channel (.+)]: the duplicate check reads the object before the
    probe is awaited, and [push] changes it after. *)
Definition onAddChannel (chatId : Z) (channelInput : string) : Task unit :=
  userConfig <- getConfig chatId ;;
  match userConfig with
  | None => sendMessage (Chat chatId) UseStartFirst
  | Some userConfig =>
      let isUsername := Regex.test usernamePattern channelInput in
      let isChatId := Regex.test chatIdPattern channelInput in
      if negb isUsername && negb isChatId then
        sendMessage (Chat chatId) InvalidFormat
      else
        c <- load userConfig ;;
        if includes (channels c) channelInput then
          sendMessage (Chat chatId) (AlreadyListed channelInput)
        else
          try_catch
            (sendMessage (Channel channelInput) (ProbeMsg isUsername channelInput) ;;
             update userConfig (fun c => with_channels (channels c ++ [channelInput]) c) ;;
             sendMessage (Chat chatId) (ChannelAdded isUsername channelInput))
            (fun _ => sendMessage (Chat chatId) (CouldNotAdd isUsername channelInput))
  end.

(** [/remove_channel (.+)] *)
Definition onRemoveChannel (chatId : Z) (channelInput : string) : Task unit :=
  userConfig <- getConfig chatId ;;
  match userConfig with
  | None => sendMessage (Chat chatId) UseStartFirst
  | Some userConfig =>
      c <- load userConfig ;;
      match indexOf (channels c) channelInput with
      | None => sendMessage (Chat chatId) (NotListed channelInput)
      | Some channelIndex =>
          update userConfig (fun c => with_channels (splice1 (channels c) channelIndex) c) ;;
          sendMessage (Chat chatId) (ChannelRemoved channelInput)
      end
  end.

(** [/list_channels] *)
Definition onListChannels (chatId : Z) : Task unit :=
  userConfig <- getConfig chatId ;;
  match userConfig with
  | None => sendMessage (Chat chatId) UseStartFirst
  | Some userConfig =>
      c <- load userConfig ;;
      match channels c with
      | [] => sendMessage (Chat chatId) NoChannels
      | _ => sendMessage (Chat chatId) (ChannelList (channels c))
      end
  end.

(** [/status] *)
Definition onStatus (chatId : Z) : Task unit :=
  userConfig <- getConfig chatId ;;
  match userConfig with
  | None => sendMessage (Chat chatId) UseStartFirst
  | Some userConfig =>
      currentRSI <- getLastRSIValue ;;
      c <- load userConfig ;;
      sendMessage (Chat chatId) (StatusMsg c currentRSI)
  end.

(** [/toggle] *)
Definition onToggle (chatId : Z) : Task unit :=
  userConfig <- getConfig chatId ;;
  match userConfig with
  | None => sendMessage (Chat chatId) UseStartFirst
  | Some userConfig =>
      update userConfig (fun c => with_alertsEnabled (negb (alertsEnabled c)) c) ;;
      c <- load userConfig ;;
      sendMessage (Chat chatId) (AlertsToggled (alertsEnabled c))
  end.

(** [/help] *)
Definition onHelp (chatId : Z) : Task unit :=
  sendMessage (Chat chatId) HelpMsg.

Definition handle (chatId : Z) (cmd : Command) : Task unit :=
  match cmd with
  | Start => onStart chatId
  | SetOversold v => onSetOversold chatId v
  | SetOverbought v => onSetOverbought chatId v
  | AddChannel s => onAddChannel chatId s
  | RemoveChannel s => onRemoveChannel chatId s
  | ListChannels => onListChannels chatId
  | Status => onStatus chatId
  | Toggle => onToggle chatId
  | Help => onHelp chatId
  end.

(** ** The bot with handlers in flight *)

(** What a task does up to its next [await], or to its end. *)
Fixpoint advance {A} (t : Task A) (mem : Memory) : Task A * Memory :=
  match t with
  | Read k => advance (k mem) mem
  | Write f k => advance k (f mem)
  | _ => (t, mem)
  end.

(** A handler that waits for Telegram: the call it made, and what it
    does when the promise is settled. *)
Record Waiting : Type := {
  dest : Dest;
  msg : Message;
  continuation : bool -> Task unit
}.

Record System : Type := {
  memory : Memory;
  waiting : list Waiting;
  settled : list Attempt     (* the calls Telegram has answered, in order *)
}.

(** Runs a handler, or what is left of one, up to its next [await]; a
    handler that returns or throws is over. *)
Definition resume (t : Task unit) (s : System) : System :=
  match advance t (memory s) with
  | (Await dest msg k, mem) =>
      {| memory := mem;
         waiting := waiting s ++ [{| dest := dest; msg := msg; continuation := k |}];
         settled := settled s |}
  | (_, mem) =>
      {| memory := mem; waiting := waiting s; settled := settled s |}
  end.

(** What happens to the bot: a command arrives and its handler starts,
    or Telegram settles the call one of the waiting handlers made. *)
Inductive Happening : Type :=
| Arrives (chatId : Z) (cmd : Command)
| Settles (n : nat) (resolved : bool).

Definition happen (h : Happening) (s : System) : System :=
  match h with
  | Arrives chatId cmd => resume (handle chatId cmd) s
  | Settles n resolved =>
      match waiting s !! n with
      | None => s
      | Some handler =>
          resume (continuation handler resolved)
                 {| memory := memory s;
                    waiting := delete n (waiting s);
                    settled := settled s ++ [{| to := dest handler; text := msg handler;
                                                delivered := resolved |}] |}
      end
  end.

Definition run (hs : list Happening) (s : System) : System :=
  fold_left (fun s h => happen h s) hs s.

(** At start-up no object exists, the registry is empty and no handler
    is waiting. *)
Definition boot : System :=
  {| memory := {| objects := []; registry := ∅; reading := None |};
     waiting := [];
     settled := [] |}.

(** The registry as a map from chat ids to configurations. *)
Definition view (mem : Memory) : gmap Z UserConfig :=
  omap (fun userConfig => objects mem !! userConfig) (registry mem).

End Async.

(** The calls to Telegram a log holds, with their outcomes. *)
Definition calls (log : list Attempt) : list (Dest * Message * bool) :=
  map (fun a => (to a, text a, delivered a)) log.

(** ** What overlapping handlers keep *)

(** The thresholds of a configuration are in range, and each channel it
    lists is well formed and has been sent a probe that Telegram
    delivered. *)
Definition vetted (log : list Attempt) (c : UserConfig) : Prop :=
  inRange (oversold (rsiThresholds c)) /\
  inRange (overbought (rsiThresholds c)) /\
  forall ch, In ch (channels c) -> validChannel ch = true /\ probed log ch.

(** Every entry of the registry refers to an object that holds the chat
    id it is filed under, and every object is vetted. *)
Definition sound (mem : Async.Memory) (log : list Attempt) : Prop :=
  (forall id ref, Async.registry mem !! id = Some ref ->
     exists c, Async.objects mem !! ref = Some c /\ chatId c = id) /\
  (forall ref c, Async.objects mem !! ref = Some c -> vetted log c).

(** A task that keeps the memory sound, whatever the other handlers do
    while it waits, as long as they keep it sound and only add to the
    log. *)
Fixpoint safe (log : list Attempt) (t : Async.Task unit) : Prop :=
  match t with
  | Async.Return _ | Async.Raise _ => True
  | Async.Read k => forall mem, sound mem log -> safe log (k mem)
  | Async.Write f k => (forall mem, sound mem log -> sound (f mem) log) /\ safe log k
  | Async.Await dest msg k =>
      forall more resolved,
        safe ((log ++ more) ++ [{| to := dest; text := msg; delivered := resolved |}])
             (k resolved)
  end.

(** The same of a bot with handlers in flight. *)
Definition steady (s : Async.System) : Prop :=
  sound (Async.memory s) (Async.settled s) /\
  forall handler, In handler (Async.waiting s) ->
    safe (Async.settled s)
         (Async.Await (Async.dest handler) (Async.msg handler) (Async.continuation handler)).

(** ** Handlers that do not overlap *)

(** A handler that runs to its end with no other handler in between:
    each call is answered by [telegram] as soon as it is made. *)
Fixpoint alone {A} (telegram : list Attempt -> Dest -> Message -> Reply)
    (t : Async.Task A) (mem : Async.Memory) (log : list Attempt)
    : Async.Memory * list Attempt :=
  match t with
  | Async.Return _ | Async.Raise _ => (mem, log)
  | Async.Read k => alone telegram (k mem) mem log
  | Async.Write f k => alone telegram k (f mem) log
  | Async.Await dest msg k =>
      let resolved := resolves (telegram log dest msg) in
      alone telegram (k resolved) mem
            (log ++ [{| to := dest; text := msg; delivered := resolved |}])
  end.

(** No two chats share an object, and every reference of the registry is
    to an object that exists. *)
Definition coherent (mem : Async.Memory) : Prop :=
  forall id ref,
    Async.registry mem !! id = Some ref ->
    (ref < length (Async.objects mem))%nat /\
    forall id', Async.registry mem !! id' = Some ref -> id' = id.

(** A bot with no handler in flight, whose registry, stored reading and
    log are those of a world. *)
Definition atRest (s : Async.System) (w : World) : Prop :=
  Async.waiting s = [] /\
  coherent (Async.memory s) /\
  Async.view (Async.memory s) = userConfigs w /\
  Async.reading (Async.memory s) = lastRSIValue w /\
  Async.settled s = sendLog w.

(** * Properties *)

(** ** Alert policy *)

(** C1: [shouldSendAlert] answers [true] exactly when alerts are enabled,
    at least 300000 ms have passed since [lastAlertTime], and the reading
    is at or below the oversold threshold or at or above the overbought
    one; in every other case it answers [false]. *)
Theorem shouldSendAlert_iff (userConfig : UserConfig) (rsiData : RSIData) (now : Z) :
  ALERT_COOLDOWN = 300000%Z /\
  (shouldSendAlert userConfig rsiData now = true <->
     alertsEnabled userConfig = true /\
     (300000 <= now - lastAlertTime userConfig)%Z /\
     ((value rsiData <=? JS.of_Z (oversold (rsiThresholds userConfig)))%float = true \/
      (JS.of_Z (overbought (rsiThresholds userConfig)) <=? value rsiData)%float = true)) /\
  (shouldSendAlert userConfig rsiData now = false <->
     ~ (alertsEnabled userConfig = true /\
        (300000 <= now - lastAlertTime userConfig)%Z /\
        ((value rsiData <=? JS.of_Z (oversold (rsiThresholds userConfig)))%float = true \/
         (JS.of_Z (overbought (rsiThresholds userConfig)) <=? value rsiData)%float = true))).
Proof.
  assert (Hiff : shouldSendAlert userConfig rsiData now = true <->
     alertsEnabled userConfig = true /\
     (300000 <= now - lastAlertTime userConfig)%Z /\
     ((value rsiData <=? JS.of_Z (oversold (rsiThresholds userConfig)))%float = true \/
      (JS.of_Z (overbought (rsiThresholds userConfig)) <=? value rsiData)%float = true)).
  { unfold shouldSendAlert, ALERT_COOLDOWN.
    destruct (alertsEnabled userConfig); simpl.
    - destruct (Z.ltb_spec (now - lastAlertTime userConfig) 300000).
      + split; [discriminate | intros (_ & Hge & _); lia].
      + rewrite orb_true_iff. tauto.
    - split; [discriminate | intros (Hen & _); discriminate]. }
  split; [reflexivity | split; [exact Hiff | ]].
  rewrite <- Hiff. destruct (shouldSendAlert userConfig rsiData now); split; congruence.
Qed.

(** ** Indicator: the length check *)

Lemma calculateRSI_enough (prices : list float) (period : nat) :
  (period + 1 <= length prices)%nat ->
  exists v, calculateRSI prices period = Ok v.
Proof.
  intros Hlen. unfold calculateRSI.
  destruct (Nat.ltb_spec (length prices) (period + 1)); [lia | ].
  destruct (smoothAll _ _ _ _) as [avgGain avgLoss].
  destruct (avgLoss =? 0)%float; eauto.
Qed.

(** C4: on fewer than [period + 1] prices [calculateRSI] throws its error
    and returns no value; on [period + 1] prices or more it does not
    throw and returns a number. *)
Theorem calculateRSI_length_check (prices : list float) (period : nat) :
  ((length prices < period + 1)%nat <->
     calculateRSI prices period = Throw (NotEnoughPrices (period + 1))) /\
  ((period + 1 <= length prices)%nat <->
     exists v, calculateRSI prices period = Ok v).
Proof.
  split; split.
  - intros Hlt. unfold calculateRSI.
    destruct (Nat.ltb_spec (length prices) (period + 1)); [reflexivity | lia].
  - intros Hthrow.
    destruct (Nat.lt_ge_cases (length prices) (period + 1)) as [Hlt | Hge]; [exact Hlt | ].
    destruct (calculateRSI_enough prices period Hge) as [v Hv]. congruence.
  - apply calculateRSI_enough.
  - intros [v Hv].
    destruct (Nat.lt_ge_cases (length prices) (period + 1)) as [Hlt | Hge]; [ | exact Hge].
    unfold calculateRSI in Hv.
    destruct (Nat.ltb_spec (length prices) (period + 1)); [discriminate | lia].
Qed.

(** ** The indicator on sample data *)

(** The series of the reference computation: the first fourteen
    differences hold gains summing to 4.5 and losses summing to 2, so
    [rs = 2.25] and the RSI is [100 - 100 / 3.25], rounded to 69.23. *)
Example calculateRSI_reference :
  calculateRSI [44; 44.25; 44.5; 43.75; 44.5; 45; 45.5; 45; 45.75; 46;
                46.5; 46.25; 47; 46.75; 46.5]%float 14
  = Ok (6923 / 100)%float.
Proof. reflexivity. Qed.

Example Math_round_ties :
  (JS.Math_round 2.5 = 3 /\ JS.Math_round (-2.5) = -2 /\
   JS.Math_round 0.25 = 0 /\ JS.Math_round (-0.5) = -0 /\
   JS.Math_round 6923.0625 = 6923 /\ JS.Math_round nan = nan)%float.
Proof. repeat split; reflexivity. Qed.

(** * Binary64 arithmetic

    Facts about the specification of binary64 arithmetic that the
    indicator's properties rest on. *)

Section Binary64.

Local Open Scope Z_scope.

Local Abbreviation fexp := (SpecFloat.fexp prec emax).
Local Abbreviation emin := (SpecFloat.emin prec emax).

Lemma emin_value : emin = -1074.
Proof. reflexivity. Qed.

Lemma fexp_value e : fexp e = Z.max (e - 53) (-1074).
Proof. reflexivity. Qed.

(** *** Digits and shifts *)

Lemma digits2_pos_bounds (m : positive) :
  2 ^ (Z.pos (digits2_pos m) - 1) <= Z.pos m < 2 ^ Z.pos (digits2_pos m).
Proof.
  induction m as [m IH | m IH | ]; simpl digits2_pos.
  - rewrite Pos2Z.inj_succ.
    replace (Z.succ (Z.pos (digits2_pos m)) - 1) with (Z.succ (Z.pos (digits2_pos m) - 1)) by lia.
    rewrite !Z.pow_succ_r by lia. lia.
  - rewrite Pos2Z.inj_succ.
    replace (Z.succ (Z.pos (digits2_pos m)) - 1) with (Z.succ (Z.pos (digits2_pos m) - 1)) by lia.
    rewrite !Z.pow_succ_r by lia. lia.
  - simpl. lia.
Qed.

Lemma iter_xO_spec (m d : positive) : Z.pos (Pos.iter xO m d) = Z.pos m * 2 ^ Z.pos d.
Proof.
  change (Pos.iter xO m d) with (shift_pos d m).
  rewrite shift_pos_correct, Zpower_pos_nat, Zpower_nat_Z, positive_nat_Z. lia.
Qed.

Lemma shl_align_spec (mx : positive) (ex ez : Z) :
  ez <= ex ->
  Z.pos (fst (shl_align mx ex ez)) = Z.pos mx * 2 ^ (ex - ez) /\
  snd (shl_align mx ex ez) = ez.
Proof.
  intros Hle. unfold shl_align.
  destruct (ez - ex) as [ | d | d] eqn:Hd; simpl.
  - assert (ex = ez) by lia. subst. rewrite Z.sub_diag. simpl. lia.
  - lia.
  - rewrite iter_xO_spec. replace (ex - ez) with (Z.pos d) by lia. auto.
Qed.

(** *** Well-formed numbers *)

Lemma valid_finite_inv s m e :
  valid_binary (S754_finite s m e) = true ->
  -1074 <= e <= 971 /\
  Z.pos (digits2_pos m) <= 53 /\
  (-1074 < e -> Z.pos (digits2_pos m) = 53).
Proof.
  simpl. unfold bounded, canonical_mantissa. rewrite andb_true_iff, Z.eqb_eq, Z.leb_le.
  rewrite fexp_value. change (emax - prec) with 971. lia.
Qed.

Lemma valid_finite_intro s m e :
  -1074 <= e <= 971 ->
  Z.pos (digits2_pos m) <= 53 ->
  (-1074 < e -> Z.pos (digits2_pos m) = 53) ->
  valid_binary (S754_finite s m e) = true.
Proof.
  intros He Hd Hn. simpl. unfold bounded, canonical_mantissa.
  rewrite andb_true_iff, Z.eqb_eq, Z.leb_le, fexp_value.
  change (emax - prec) with 971. lia.
Qed.

(** *** Comparing magnitudes *)

Lemma dle_base (B K E m e : Z) :
  B <= E -> B <= e ->
  dle K E m e <-> K * 2 ^ (E - B) <= m * 2 ^ (e - B).
Proof.
  intros HE He. unfold dle.
  set (c := Z.min E e).
  assert (Hc : B <= c) by (unfold c; lia).
  replace (E - B) with ((E - c) + (c - B)) by lia.
  replace (e - B) with ((e - c) + (c - B)) by lia.
  rewrite !Z.pow_add_r by (unfold c; lia).
  assert (0 < 2 ^ (c - B)) by (apply Z.pow_pos_nonneg; lia).
  rewrite !Z.mul_assoc. split; intros Hle.
  - apply Z.mul_le_mono_nonneg_r; lia.
  - apply Z.mul_le_mono_pos_r in Hle; lia.
Qed.

Lemma dle_mono (K E m m' e : Z) : dle K E m e -> m <= m' -> dle K E m' e.
Proof.
  unfold dle. intros H Hm.
  assert (0 <= 2 ^ (e - Z.min E e)) by (apply Z.pow_nonneg; lia).
  nia.
Qed.

Lemma dle_pos (K E m e : Z) : 0 < K -> dle K E m e -> 0 < m.
Proof.
  unfold dle. intros HK H.
  assert (0 < 2 ^ (E - Z.min E e)) by (apply Z.pow_pos_nonneg; lia).
  assert (0 < 2 ^ (e - Z.min E e)) by (apply Z.pow_pos_nonneg; lia).
  nia.
Qed.

(** *** Shifting to the right *)

Lemma iter_pos_nat {A} (f : A -> A) (p : positive) (x : A) :
  SpecFloat.iter_pos f p x = Nat.iter (Pos.to_nat p) f x.
Proof.
  revert x. induction p as [p IH | p IH | ]; intros x; simpl SpecFloat.iter_pos.
  - rewrite !IH, Pos2Nat.inj_xI.
    change (2 * Pos.to_nat p)%nat with (Pos.to_nat p + (Pos.to_nat p + 0))%nat.
    rewrite Nat.add_0_r. set (n := Pos.to_nat p).
    change (Nat.iter (S (n + n)) f x) with (f (Nat.iter (n + n) f x)).
    rewrite Nat.iter_add.
    rewrite <- (Nat.iter_succ_r n f x).
    change (Nat.iter (S n) f x) with (f (Nat.iter n f x)).
    rewrite <- Nat.iter_succ_r. reflexivity.
  - rewrite !IH, Pos2Nat.inj_xO. simpl Nat.mul.
    replace (Pos.to_nat p + (Pos.to_nat p + 0))%nat with (Pos.to_nat p + Pos.to_nat p)%nat by lia.
    now rewrite Nat.iter_add.
  - reflexivity.
Qed.

Lemma shr_1_m (mrs : shr_record) :
  0 <= shr_m mrs -> shr_m (shr_1 mrs) = shr_m mrs / 2.
Proof.
  destruct mrs as [m r s]. simpl. intros Hm.
  destruct m as [ | [p | p | ] | p]; simpl; try lia.
  - reflexivity.
  - apply Z.div_unique with 1; lia.
  - apply Z.div_unique with 0; lia.
  - reflexivity.
Qed.

Lemma shr_m_iter (n : nat) (mrs : shr_record) :
  0 <= shr_m mrs ->
  shr_m (Nat.iter n shr_1 mrs) = shr_m mrs / 2 ^ Z.of_nat n.
Proof.
  intros Hm. induction n as [ | n IH].
  - simpl. now rewrite Z.div_1_r.
  - simpl Nat.iter. rewrite shr_1_m.
    + rewrite IH, Nat2Z.inj_succ, Z.pow_succ_r by lia.
      rewrite Z.div_div by (try apply Z.pow_pos_nonneg; lia).
      f_equal. lia.
    + rewrite IH. apply Z.div_pos; [lia | apply Z.pow_pos_nonneg; lia].
Qed.

Lemma shr_record_of_loc_m m l : shr_m (shr_record_of_loc m l) = m.
Proof. destruct l as [ | []]; reflexivity. Qed.

Lemma shr_spec (m : Z) (l : location) (e n : Z) :
  0 <= m ->
  shr_m (fst (shr (shr_record_of_loc m l) e n)) = m / 2 ^ Z.max 0 n /\
  snd (shr (shr_record_of_loc m l) e n) = e + Z.max 0 n.
Proof.
  intros Hm. unfold shr. destruct n as [ | p | p]; simpl fst; simpl snd.
  - rewrite shr_record_of_loc_m. simpl. rewrite Z.div_1_r. lia.
  - rewrite iter_pos_nat, shr_m_iter by now rewrite shr_record_of_loc_m.
    rewrite shr_record_of_loc_m, positive_nat_Z.
    replace (Z.max 0 (Z.pos p)) with (Z.pos p) by lia. auto.
  - rewrite shr_record_of_loc_m. simpl. rewrite Z.div_1_r. lia.
Qed.

Lemma round_nearest_even_bounds m l :
  m <= round_nearest_even m l <= m + 1.
Proof.
  unfold round_nearest_even. destruct l as [ | []]; try lia.
  destruct (Z.even m); lia.
Qed.

(** *** Rounding keeps lower bounds

    A lower bound [K * 2^E] with [K <= 2^53] and [E] at least the least
    exponent is a binary64 number or lies between two of them in a way
    that rounding to nearest cannot cross. *)

Lemma shr_fexp_lb (m : positive) (e : Z) (l : location) (K E : Z) :
  0 < K <= 2 ^ 53 -> -1074 <= E ->
  dle K E (Z.pos m) e ->
  dle K E (shr_m (fst (shr_fexp prec emax (Z.pos m) e l)))
          (snd (shr_fexp prec emax (Z.pos m) e l)).
Proof.
  intros HK HE Hle. unfold shr_fexp.
  destruct (shr_spec (Z.pos m) l e (fexp (Zdigits2 (Z.pos m) + e) - e)) as [Hm He]; [lia | ].
  rewrite Hm, He. clear Hm He.
  simpl Zdigits2. rewrite fexp_value.
  pose proof (digits2_pos_bounds m) as Hd.
  set (d := Z.pos (digits2_pos m)) in *.
  set (n := Z.max (d + e - 53) (-1074) - e).
  destruct (Z.le_gt_cases n 0) as [Hn | Hn].
  - replace (Z.max 0 n) with 0 by lia. rewrite Z.div_1_r, Z.add_0_r. exact Hle.
  - replace (Z.max 0 n) with n by lia.
    assert (H2n : 0 < 2 ^ n) by (apply Z.pow_pos_nonneg; lia).
    destruct (Z.le_gt_cases (e + n) E) as [HeE | HeE].
    + apply (dle_base e) in Hle; [ | lia | lia].
      apply (dle_base (e + n)); [lia | lia | ].
      rewrite Z.sub_diag, Z.mul_1_r in *.
      apply Z.div_le_lower_bound; [assumption | ].
      replace (E - e) with (n + (E - (e + n))) in Hle by lia.
      rewrite Z.pow_add_r in Hle by lia. lia.
    + assert (Hn53 : n = d - 53) by (unfold n; lia).
      assert (Hq : 2 ^ 52 <= Z.pos m / 2 ^ n).
      { apply Z.div_le_lower_bound; [assumption | ].
        rewrite Hn53, <- Z.pow_add_r by lia.
        replace (d - 53 + 52) with (d - 1) by lia. lia. }
      apply (dle_base E); [lia | lia | ].
      rewrite Z.sub_diag, Z.mul_1_r.
      assert (H2 : 2 ^ 1 <= 2 ^ (e + n - E)) by (apply Z.pow_le_mono_r; lia).
      change (2 ^ 53) with (2 ^ 52 * 2 ^ 1) in HK.
      assert (0 < 2 ^ 52) by reflexivity. nia.
Qed.

Lemma binary_round_aux_lb (s : bool) (mx : positive) (ex : Z) (lx : location) (K E : Z) :
  0 < K <= 2 ^ 53 -> -1074 <= E ->
  dle K E (Z.pos mx) ex ->
  signedAtLeastSF s K E (binary_round_aux prec emax s (Z.pos mx) ex lx).
Proof.
  intros HK HE Hle. unfold binary_round_aux.
  pose proof (shr_fexp_lb mx ex lx K E HK HE Hle) as H1.
  destruct (shr_fexp prec emax (Z.pos mx) ex lx) as [mrs1 e1]. simpl fst in H1; simpl snd in H1.
  pose proof (round_nearest_even_bounds (shr_m mrs1) (loc_of_shr_record mrs1)) as Hrne.
  set (m1 := round_nearest_even (shr_m mrs1) (loc_of_shr_record mrs1)) in *.
  assert (Hm1 : dle K E m1 e1) by (apply (dle_mono K E (shr_m mrs1)); [assumption | lia]).
  assert (Hpos1 : 0 < m1) by (apply (dle_pos K E m1 e1); [lia | assumption]).
  destruct m1 as [ | p1 | p1]; try lia.
  pose proof (shr_fexp_lb p1 e1 loc_Exact K E HK HE Hm1) as H2.
  destruct (shr_fexp prec emax (Z.pos p1) e1 loc_Exact) as [mrs2 e2].
  simpl fst in H2; simpl snd in H2.
  assert (Hpos2 : 0 < shr_m mrs2) by (apply (dle_pos K E _ e2); [lia | assumption]).
  destruct (shr_m mrs2) as [ | p2 | p2]; try lia.
  destruct (e2 <=? emax - prec); simpl; auto.
Qed.

Lemma dle_shl (K E m e t : Z) :
  t <= e -> dle K E m e -> dle K E (m * 2 ^ (e - t)) t.
Proof.
  intros Ht Hle.
  apply (dle_base (Z.min E t)) in Hle; [ | lia | lia].
  apply (dle_base (Z.min E t)); [lia | lia | ].
  replace (e - Z.min E t) with ((e - t) + (t - Z.min E t)) in Hle by lia.
  rewrite Z.pow_add_r in Hle by lia. lia.
Qed.

Lemma binary_round_lb (s : bool) (mx : positive) (ex K E : Z) :
  0 < K <= 2 ^ 53 -> -1074 <= E ->
  dle K E (Z.pos mx) ex ->
  signedAtLeastSF s K E (binary_round prec emax s mx ex).
Proof.
  intros HK HE Hle. unfold binary_round.
  set (t := fexp (Z.pos (digits2_pos mx) + ex)).
  destruct (Z.le_gt_cases ex t) as [Ht | Ht].
  - assert (Hsh : shl_align mx ex t = (mx, ex)).
    { unfold shl_align. destruct (t - ex) eqn:Hd; try reflexivity. lia. }
    rewrite Hsh. now apply binary_round_aux_lb.
  - destruct (shl_align_spec mx ex t) as [Hm He]; [lia | ].
    destruct (shl_align mx ex t) as [mz ez]. simpl in Hm, He. subst ez.
    apply binary_round_aux_lb; try assumption.
    rewrite Hm. apply dle_shl; [lia | assumption].
Qed.

(** *** Rounding keeps the sign *)

Lemma binary_round_aux_not_negative m e l :
  SFltb (binary_round_aux prec emax false m e l) (S754_zero false) = false.
Proof.
  unfold binary_round_aux.
  destruct (shr_fexp prec emax m e l) as [mrs1 e1].
  destruct (shr_fexp prec emax _ e1 loc_Exact) as [mrs2 e2].
  destruct (shr_m mrs2); [reflexivity | | reflexivity].
  destruct (e2 <=? emax - prec); reflexivity.
Qed.

Lemma binary_round_aux_not_positive m e l :
  SFltb (S754_zero false) (binary_round_aux prec emax true m e l) = false.
Proof.
  unfold binary_round_aux.
  destruct (shr_fexp prec emax m e l) as [mrs1 e1].
  destruct (shr_fexp prec emax _ e1 loc_Exact) as [mrs2 e2].
  destruct (shr_m mrs2); [reflexivity | | reflexivity].
  destruct (e2 <=? emax - prec); reflexivity.
Qed.

Lemma binary_normalize_nonneg m e :
  0 <= m -> SFltb (binary_normalize prec emax m e false) (S754_zero false) = false.
Proof.
  intros Hm. destruct m as [ | p | p]; [reflexivity | | lia].
  unfold binary_normalize, binary_round.
  destruct (shl_align _ _ _). apply binary_round_aux_not_negative.
Qed.

Lemma binary_normalize_nonpos m e :
  m <= 0 -> SFltb (S754_zero false) (binary_normalize prec emax m e false) = false.
Proof.
  intros Hm. destruct m as [ | p | p]; [reflexivity | lia | ].
  unfold binary_normalize, binary_round.
  destruct (shl_align _ _ _). apply binary_round_aux_not_positive.
Qed.

(** *** Comparison of well-formed finite numbers *)

Lemma SFcompare_finite sx mx ex sy my ey :
  valid_binary (S754_finite sx mx ex) = true ->
  valid_binary (S754_finite sy my ey) = true ->
  SFcompare (S754_finite sx mx ex) (S754_finite sy my ey) =
    Some (cond_Zopp sx (Z.pos (fst (shl_align mx ex (Z.min ex ey))))
            ?= cond_Zopp sy (Z.pos (fst (shl_align my ey (Z.min ex ey))))).
Proof.
  intros Hx Hy.
  apply valid_finite_inv in Hx. destruct Hx as (Hex & Hdx & Hnx).
  apply valid_finite_inv in Hy. destruct Hy as (Hey & Hdy & Hny).
  destruct (shl_align_spec mx ex (Z.min ex ey)) as [-> _]; [lia | ].
  destruct (shl_align_spec my ey (Z.min ex ey)) as [-> _]; [lia | ].
  pose proof (digits2_pos_bounds mx) as Hbx.
  pose proof (digits2_pos_bounds my) as Hby.
  assert (Hmx : Z.pos mx < 2 ^ 53).
  { eapply Z.lt_le_trans; [apply Hbx | apply Z.pow_le_mono_r; lia]. }
  assert (Hmy : Z.pos my < 2 ^ 53).
  { eapply Z.lt_le_trans; [apply Hby | apply Z.pow_le_mono_r; lia]. }
  assert (Hcmp : (Z.pos mx * 2 ^ (ex - Z.min ex ey) ?= Z.pos my * 2 ^ (ey - Z.min ex ey)) =
                 match ex ?= ey with
                 | Lt => Lt
                 | Gt => Gt
                 | Eq => Pos.compare_cont Eq mx my
                 end).
  { destruct (Z.compare_spec ex ey) as [Heq | Hlt | Hgt].
    - subst ey. rewrite Z.min_id, Z.sub_diag, !Z.mul_1_r. reflexivity.
    - replace (Z.min ex ey) with ex by lia. rewrite Z.sub_diag, Z.mul_1_r.
      apply Z.compare_lt_iff.
      rewrite (Hny ltac:(lia)) in Hby. change (53 - 1) with 52 in Hby.
      assert (2 ^ 1 <= 2 ^ (ey - ex)) by (apply Z.pow_le_mono_r; lia).
      change (2 ^ 53) with (2 ^ 52 * 2 ^ 1) in Hmx.
      assert (0 < 2 ^ 52) by reflexivity. nia.
    - replace (Z.min ex ey) with ey by lia. rewrite Z.sub_diag, Z.mul_1_r.
      apply Z.compare_gt_iff.
      rewrite (Hnx ltac:(lia)) in Hbx. change (53 - 1) with 52 in Hbx.
      assert (2 ^ 1 <= 2 ^ (ex - ey)) by (apply Z.pow_le_mono_r; lia).
      change (2 ^ 53) with (2 ^ 52 * 2 ^ 1) in Hmy.
      assert (0 < 2 ^ 52) by reflexivity. nia. }
  set (X := Z.pos mx * 2 ^ (ex - Z.min ex ey)) in *.
  set (Y := Z.pos my * 2 ^ (ey - Z.min ex ey)) in *.
  assert (HX : 0 < X) by (apply Z.mul_pos_pos; [lia | apply Z.pow_pos_nonneg; lia]).
  assert (HY : 0 < Y) by (apply Z.mul_pos_pos; [lia | apply Z.pow_pos_nonneg; lia]).
  destruct sx, sy; simpl.
  - rewrite Z.compare_opp, (Z.compare_antisym X Y), Hcmp.
    destruct (ex ?= ey); reflexivity.
  - f_equal. symmetry. apply Z.compare_lt_iff. lia.
  - f_equal. symmetry. apply Z.compare_gt_iff. lia.
  - now rewrite Hcmp.
Qed.

(** *** Numbers that need no rounding *)

Lemma digits2_pos_unique (m : positive) (d : Z) :
  2 ^ (d - 1) <= Z.pos m < 2 ^ d -> Z.pos (digits2_pos m) = d.
Proof.
  intros Hd. pose proof (digits2_pos_bounds m) as Hb.
  set (d' := Z.pos (digits2_pos m)) in *.
  destruct (Z.lt_trichotomy d' d) as [Hlt | [Heq | Hgt]]; [ | assumption | ].
  - assert (2 ^ d' <= 2 ^ (d - 1)) by (apply Z.pow_le_mono_r; lia). lia.
  - assert (2 ^ d <= 2 ^ (d' - 1)) by (apply Z.pow_le_mono_r; lia). lia.
Qed.

Lemma digits2_pos_shift (m m' : positive) (k : Z) :
  0 <= k -> Z.pos m' = Z.pos m * 2 ^ k ->
  Z.pos (digits2_pos m') = Z.pos (digits2_pos m) + k.
Proof.
  intros Hk Hm'. apply digits2_pos_unique. rewrite Hm'.
  pose proof (digits2_pos_bounds m) as Hb.
  replace (Z.pos (digits2_pos m) + k - 1) with ((Z.pos (digits2_pos m) - 1) + k) by lia.
  rewrite !Z.pow_add_r by lia.
  assert (0 < 2 ^ k) by (apply Z.pow_pos_nonneg; lia). nia.
Qed.

Lemma shr_exact (n : nat) (m : Z) :
  Nat.iter n shr_1 (Build_shr_record (m * 2 ^ Z.of_nat n) false false) =
    Build_shr_record m false false.
Proof.
  revert m. induction n as [ | n IH]; intros m.
  - simpl. now rewrite Z.mul_1_r.
  - rewrite Nat.iter_succ_r, Nat2Z.inj_succ, Z.pow_succ_r by lia.
    rewrite <- (IH m). f_equal.
    assert (H2n : 0 < 2 ^ Z.of_nat n) by (apply Z.pow_pos_nonneg; lia).
    destruct (m * 2 ^ Z.of_nat n) as [ | q | q] eqn:Hq.
    + replace (m * (2 * 2 ^ Z.of_nat n)) with (2 * (m * 2 ^ Z.of_nat n)) by lia.
      rewrite Hq. reflexivity.
    + replace (m * (2 * 2 ^ Z.of_nat n)) with (2 * (m * 2 ^ Z.of_nat n)) by lia.
      rewrite Hq. reflexivity.
    + replace (m * (2 * 2 ^ Z.of_nat n)) with (2 * (m * 2 ^ Z.of_nat n)) by lia.
      rewrite Hq. reflexivity.
Qed.

Lemma binary_round_aux_canonical s m e :
  valid_binary (S754_finite s m e) = true ->
  binary_round_aux prec emax s (Z.pos m) e loc_Exact = S754_finite s m e.
Proof.
  intros Hv. simpl in Hv. unfold bounded, canonical_mantissa in Hv.
  apply andb_true_iff in Hv. destruct Hv as [Hc He]. apply Z.eqb_eq in Hc.
  unfold binary_round_aux, shr_fexp. simpl Zdigits2.
  rewrite Hc, Z.sub_diag. simpl. rewrite Hc, Z.sub_diag. simpl.
  now rewrite He.
Qed.

Lemma binary_round_exact s (M : positive) (E : Z) (m : positive) (e : Z) :
  valid_binary (S754_finite s m e) = true ->
  (E <= e /\ Z.pos M = Z.pos m * 2 ^ (e - E)) \/
  (e <= E /\ Z.pos m = Z.pos M * 2 ^ (E - e)) ->
  binary_round prec emax s M E = S754_finite s m e.
Proof.
  intros Hv Hrepr. pose proof Hv as Hv'. simpl in Hv'.
  unfold bounded, canonical_mantissa in Hv'.
  apply andb_true_iff in Hv'. destruct Hv' as [Hc He]. apply Z.eqb_eq in Hc.
  unfold binary_round.
  destruct Hrepr as [[HEe HM] | [HeE Hm]].
  - (* the mantissa is shifted to the right, exactly *)
    rewrite (digits2_pos_shift m M (e - E)) by lia.
    replace (Z.pos (digits2_pos m) + (e - E) + E) with (Z.pos (digits2_pos m) + e) by lia.
    rewrite Hc.
    assert (Hsh : shl_align M E e = (M, E)).
    { unfold shl_align. destruct (e - E) eqn:Hd; try reflexivity. lia. }
    rewrite Hsh. unfold binary_round_aux, shr_fexp at 1.
    simpl Zdigits2. rewrite (digits2_pos_shift m M (e - E)) by lia.
    replace (Z.pos (digits2_pos m) + (e - E) + E) with (Z.pos (digits2_pos m) + e) by lia.
    rewrite Hc. simpl shr_record_of_loc.
    assert (Hshr : shr (Build_shr_record (Z.pos M) false false) E (e - E) =
                   (Build_shr_record (Z.pos m) false false, e)).
    { unfold shr. destruct (e - E) as [ | n | n] eqn:Hd.
      - simpl in HM. f_equal; [f_equal | ]; lia.
      - rewrite iter_pos_nat, HM, <- (positive_nat_Z n), shr_exact.
        f_equal. rewrite positive_nat_Z. lia.
      - lia. }
    rewrite Hshr. simpl loc_of_shr_record. simpl round_nearest_even. simpl shr_m.
    unfold shr_fexp. simpl Zdigits2. rewrite Hc, Z.sub_diag. simpl.
    now rewrite He.
  - (* the mantissa is shifted to the left *)
    assert (Ht : fexp (Z.pos (digits2_pos M) + E) = e).
    { rewrite <- Hc. f_equal. rewrite (digits2_pos_shift M m (E - e)) by lia. lia. }
    rewrite Ht.
    destruct (shl_align_spec M E e HeE) as [HmZ HeZ].
    destruct (shl_align M E e) as [mz ez]. simpl in HmZ, HeZ. subst ez.
    assert (mz = m) by lia. subst mz.
    now apply binary_round_aux_canonical.
Qed.

(** The binary64 form of a positive integer below [2^53]. *)
Lemma int_repr (q : positive) :
  Z.pos q < 2 ^ 53 ->
  exists m e,
    valid_binary (S754_finite false m e) = true /\
    -52 <= e <= 0 /\
    Z.pos m = Z.pos q * 2 ^ (- e).
Proof.
  intros Hq. pose proof (digits2_pos_bounds q) as Hb.
  set (d := Z.pos (digits2_pos q)) in *.
  assert (Hd : 1 <= d <= 53).
  { split; [unfold d; lia | ].
    destruct (Z.le_gt_cases d 53) as [H | H]; [assumption | ].
    assert (2 ^ 53 <= 2 ^ (d - 1)) by (apply Z.pow_le_mono_r; lia). lia. }
  assert (H2 : 0 < 2 ^ (53 - d)) by (apply Z.pow_pos_nonneg; lia).
  destruct (Z.pos q * 2 ^ (53 - d)) as [ | m | m] eqn:Hm; try lia.
  exists m, (d - 53). split; [ | split; [lia | ]].
  - apply valid_finite_intro; try lia.
    + rewrite (digits2_pos_shift q m (53 - d)); [fold d; lia | lia | now rewrite Hm].
    + intros _. rewrite (digits2_pos_shift q m (53 - d)); [fold d; lia | lia | now rewrite Hm].
  - rewrite <- Hm. f_equal. f_equal. lia.
Qed.

(** *** Differences *)

Lemma SFsub_finite sx mx ex sy my ey :
  SFsub prec emax (S754_finite sx mx ex) (S754_finite sy my ey) =
    binary_normalize prec emax
      (cond_Zopp sx (Z.pos (fst (shl_align mx ex (Z.min ex ey))))
       - cond_Zopp sy (Z.pos (fst (shl_align my ey (Z.min ex ey)))))
      (Z.min ex ey) false.
Proof. reflexivity. Qed.

(** [x <= y] makes [y - x] not negative, and [x - y] not positive. *)
Lemma SFsub_not_negative (x y : spec_float) :
  valid_binary x = true -> valid_binary y = true ->
  SFleb x y = true ->
  SFltb (SFsub prec emax y x) (S754_zero false) = false.
Proof.
  intros Hx Hy Hle.
  destruct x as [sx | sx | | sx mx ex], y as [sy | sy | | sy my ey];
    try (destruct sx, sy; simpl in *; (reflexivity || discriminate));
    try (destruct sx; simpl in *; (reflexivity || discriminate));
    try (destruct sy; simpl in *; (reflexivity || discriminate));
    try discriminate.
  rewrite SFsub_finite. apply binary_normalize_nonneg.
  unfold SFleb in Hle. rewrite (SFcompare_finite sx mx ex sy my ey Hx Hy) in Hle.
  rewrite (Z.min_comm ey ex).
  destruct (Z.compare_spec
              (cond_Zopp sx (Z.pos (fst (shl_align mx ex (Z.min ex ey)))))
              (cond_Zopp sy (Z.pos (fst (shl_align my ey (Z.min ex ey))))));
    try discriminate; lia.
Qed.

Lemma SFsub_not_positive (x y : spec_float) :
  valid_binary x = true -> valid_binary y = true ->
  SFleb x y = true ->
  SFltb (S754_zero false) (SFsub prec emax x y) = false.
Proof.
  intros Hx Hy Hle.
  destruct x as [sx | sx | | sx mx ex], y as [sy | sy | | sy my ey];
    try (destruct sx, sy; simpl in *; (reflexivity || discriminate));
    try (destruct sx; simpl in *; (reflexivity || discriminate));
    try (destruct sy; simpl in *; (reflexivity || discriminate));
    try discriminate.
  rewrite SFsub_finite. apply binary_normalize_nonpos.
  unfold SFleb in Hle. rewrite (SFcompare_finite sx mx ex sy my ey Hx Hy) in Hle.
  destruct (Z.compare_spec
              (cond_Zopp sx (Z.pos (fst (shl_align mx ex (Z.min ex ey)))))
              (cond_Zopp sy (Z.pos (fst (shl_align my ey (Z.min ex ey))))));
    try discriminate; lia.
Qed.

(** *** Integers as numbers *)

Lemma of_Z_exact (q : positive) :
  Z.pos q < 2 ^ 53 ->
  exists m e,
    Prim2SF (JS.of_Z (Z.pos q)) = S754_finite false m e /\
    valid_binary (S754_finite false m e) = true /\
    -52 <= e <= 0 /\
    Z.pos m = Z.pos q * 2 ^ (- e).
Proof.
  intros Hq. destruct (int_repr q Hq) as (m & e & Hv & He & Hm).
  exists m, e. split; [ | auto].
  unfold JS.of_Z. simpl binary_normalize.
  rewrite (binary_round_exact false q 0 m e Hv).
  - now apply Prim2SF_SF2Prim.
  - right. split; [lia | ]. replace (0 - e) with (- e) by lia. exact Hm.
Qed.

Lemma Prim2SF_one : Prim2SF 1 = S754_finite false 4503599627370496 (-52).
Proof. reflexivity. Qed.

Lemma Prim2SF_zero : Prim2SF 0 = S754_zero false.
Proof. reflexivity. Qed.

(** [period - 1], for [period] at least 2. *)
Lemma of_Z_minus_one (q : positive) :
  1 < Z.pos q < 2 ^ 53 ->
  exists m e,
    Prim2SF (JS.of_Z (Z.pos q) - 1)%float = S754_finite false m e /\
    -52 <= e <= 0 /\
    Z.pos m = (Z.pos q - 1) * 2 ^ (- e).
Proof.
  intros Hq. destruct (of_Z_exact q) as (m & e & HP & Hv & He & Hm); [lia | ].
  destruct (Z.pos q - 1) as [ | q' | q'] eqn:Hq'; try lia.
  destruct (int_repr q') as (m' & e' & Hv' & He' & Hm'); [lia | ].
  exists m', e'. split; [ | auto].
  rewrite sub_spec, HP, Prim2SF_one. unfold SF64sub. rewrite SFsub_finite.
  replace (Z.min e (-52)) with (-52) by lia.
  destruct (shl_align_spec m e (-52)) as [-> _]; [lia | ].
  destruct (shl_align_spec 4503599627370496 (-52) (-52)) as [-> _]; [lia | ].
  simpl cond_Zopp. rewrite Z.sub_diag, Z.mul_1_r.
  assert (HD : Z.pos m * 2 ^ (e - -52) - 4503599627370496 = Z.pos q' * 2 ^ 52).
  { rewrite Hm, <- Z.mul_assoc, <- Z.pow_add_r by lia.
    replace (- e + (e - -52)) with 52 by lia.
    change 4503599627370496 with (2 ^ 52). lia. }
  rewrite HD.
  destruct (Z.pos q' * 2 ^ 52) as [ | M | M] eqn:HM; try lia.
  simpl binary_normalize.
  apply (binary_round_exact false M (-52) m' e' Hv').
  left. split; [lia | ].
  rewrite Hm', <- Z.mul_assoc, <- Z.pow_add_r by lia.
  replace (- e' + (e' - -52)) with 52 by lia. lia.
Qed.

Lemma of_Z_one_minus_one : (JS.of_Z 1 - 1)%float = 0%float.
Proof. reflexivity. Qed.

(** *** Averages of zeros *)

Lemma zero_of_Prim2SF (x : float) : Prim2SF x = S754_zero false -> x = 0%float.
Proof. intros H. apply Prim2SF_inj. now rewrite H. Qed.

Lemma zero_div_positive (P : float) m e :
  Prim2SF P = S754_finite false m e -> (0 / P)%float = 0%float.
Proof.
  intros HP. apply zero_of_Prim2SF. now rewrite div_spec, HP.
Qed.

Lemma zero_mul_nonneg (y : float) :
  (Prim2SF y = S754_zero false \/ exists m e, Prim2SF y = S754_finite false m e) ->
  (0 * y)%float = 0%float.
Proof.
  intros Hy. apply zero_of_Prim2SF. rewrite mul_spec.
  destruct Hy as [-> | (m & e & ->)]; reflexivity.
Qed.

(** What the averages need of [period]: as a number it is finite and
    positive, and [period - 1] is finite and not negative. *)
Lemma period_number (period : nat) :
  (1 <= period)%nat -> Z.of_nat period < 2 ^ 53 ->
  (exists m e, Prim2SF (JS.of_nat period) = S754_finite false m e) /\
  (Prim2SF (JS.of_nat period - 1)%float = S754_zero false \/
   exists m e, Prim2SF (JS.of_nat period - 1)%float = S754_finite false m e).
Proof.
  intros H1 H53. unfold JS.of_nat.
  destruct (Z.of_nat period) as [ | q | q] eqn:Hq; try lia.
  destruct (of_Z_exact q H53) as (m & e & HP & _). split; [eauto | ].
  destruct (Z.eq_dec (Z.pos q) 1) as [Hone | Hne].
  - left. injection Hone as ->. reflexivity.
  - right. destruct (of_Z_minus_one q) as (m' & e' & H' & _); [lia | eauto].
Qed.

Lemma smooth_zero (period : nat) :
  (1 <= period)%nat -> Z.of_nat period < 2 ^ 53 ->
  smooth period 0 0 = 0%float.
Proof.
  intros H1 H53. destruct (period_number period H1 H53) as [(m & e & HP) Hminus].
  unfold smooth. rewrite (zero_mul_nonneg _ Hminus).
  change (0 + 0)%float with 0%float. now apply (zero_div_positive _ m e).
Qed.

Lemma fold_add_zeros (xs : list float) :
  Forall (fun x => x = 0%float) xs ->
  fold_left (fun sum x => sum + x)%float xs 0%float = 0%float.
Proof.
  induction 1 as [ | x xs -> _ IH]; [reflexivity | exact IH].
Qed.

Lemma initialAvg_zeros (xs : list float) (period : nat) :
  (1 <= period)%nat -> Z.of_nat period < 2 ^ 53 ->
  Forall (fun x => x = 0%float) xs ->
  initialAvg xs period = 0%float.
Proof.
  intros H1 H53 Hxs. destruct (period_number period H1 H53) as [(m & e & HP) _].
  unfold initialAvg. rewrite fold_add_zeros.
  - now apply (zero_div_positive _ m e).
  - rewrite List.Forall_forall in *. intros x Hx. apply Hxs.
    rewrite <- (firstn_skipn period xs). apply in_or_app. now left.
Qed.

(** The smoothing loop keeps an average at zero as long as it is fed
    zeros. *)
Lemma smoothAll_snd_zeros (period : nat) (gls : list (float * float)) (init : float * float) :
  (1 <= period)%nat -> Z.of_nat period < 2 ^ 53 ->
  Forall (fun gl => snd gl = 0%float) gls ->
  snd init = 0%float ->
  snd (fold_left
         (fun avgs gl => (smooth period (fst avgs) (fst gl),
                          smooth period (snd avgs) (snd gl)))
         gls init) = 0%float.
Proof.
  intros H1 H53 Hgls. revert init.
  induction Hgls as [ | gl gls Hgl _ IH]; intros init Hinit; [exact Hinit | ].
  simpl. apply IH. simpl. rewrite Hinit, Hgl. now apply smooth_zero.
Qed.

Lemma smoothAll_fst_zeros (period : nat) (gls : list (float * float)) (init : float * float) :
  (1 <= period)%nat -> Z.of_nat period < 2 ^ 53 ->
  Forall (fun gl => fst gl = 0%float) gls ->
  fst init = 0%float ->
  fst (fold_left
         (fun avgs gl => (smooth period (fst avgs) (fst gl),
                          smooth period (snd avgs) (snd gl)))
         gls init) = 0%float.
Proof.
  intros H1 H53 Hgls. revert init.
  induction Hgls as [ | gl gls Hgl _ IH]; intros init Hinit; [exact Hinit | ].
  simpl. apply IH. simpl. rewrite Hinit, Hgl. now apply smooth_zero.
Qed.

(** *** Lower bounds through the operations *)

Lemma valid_dle_one s m e :
  valid_binary (S754_finite s m e) = true -> dle 1 (-1074) (Z.pos m) e.
Proof.
  intros Hv. apply valid_finite_inv in Hv. destruct Hv as (He & _).
  apply (dle_base (-1074)); [lia | lia | ].
  assert (0 < 2 ^ (e - -1074)) by (apply Z.pow_pos_nonneg; lia).
  rewrite Z.sub_diag. simpl. nia.
Qed.

Lemma signedAtLeastSF_false K E x : signedAtLeastSF false K E x -> atLeastSF K E x.
Proof.
  destruct x as [ | [] | | [] m e]; simpl; intuition congruence.
Qed.

(** [y < x] makes [y - x] negative, and at least the least positive
    number in magnitude. *)
Lemma SFsub_negative (x y : spec_float) :
  valid_binary x = true -> valid_binary y = true ->
  SFltb y x = true ->
  signedAtLeastSF true 1 (-1074) (SFsub prec emax y x).
Proof.
  intros Hx Hy Hlt.
  destruct x as [sx | sx | | sx mx ex], y as [sy | sy | | sy my ey];
    try discriminate;
    try (destruct sx, sy; simpl in *; (reflexivity || discriminate));
    try (destruct sx; simpl in *; (reflexivity || discriminate));
    try (destruct sy; simpl in *; (reflexivity || discriminate)).
  - (* y - 0, y finite and negative *)
    destruct sy; [ | discriminate]. simpl. split; [reflexivity | ].
    now apply (valid_dle_one true).
  - (* 0 - x, x finite and positive *)
    destruct sx; [discriminate | ]. simpl. split; [reflexivity | ].
    now apply (valid_dle_one false).
  - rewrite SFsub_finite.
    unfold SFltb in Hlt. rewrite (SFcompare_finite sy my ey sx mx ex Hy Hx) in Hlt.
    set (Y := cond_Zopp sy (Z.pos (fst (shl_align my ey (Z.min ey ex))))) in *.
    set (X := cond_Zopp sx (Z.pos (fst (shl_align mx ex (Z.min ey ex))))) in *.
    destruct (Z.compare_spec Y X) as [ | Hlt' | ]; try discriminate.
    destruct (Y - X) as [ | D | D] eqn:HD; try lia.
    simpl binary_normalize. apply binary_round_lb; [lia | lia | ].
    apply valid_finite_inv in Hx. apply valid_finite_inv in Hy.
    apply (dle_base (-1074)); [lia | lia | ].
    assert (0 < 2 ^ (Z.min ey ex - -1074)) by (apply Z.pow_pos_nonneg; lia).
    rewrite Z.sub_diag. simpl. nia.
Qed.

Lemma SFadd_atLeast (Kx Ky : Z) (x y : spec_float) :
  valid_binary x = true -> valid_binary y = true ->
  0 < Kx -> 0 < Ky -> Kx + Ky <= 2 ^ 53 ->
  atLeastSF Kx (-1074) x -> atLeastSF Ky (-1074) y ->
  atLeastSF (Kx + Ky) (-1074) (SFadd prec emax x y).
Proof.
  intros Hvx Hvy HKx HKy HK Hx Hy.
  destruct x as [ | [] | | [] mx ex]; try contradiction;
    destruct y as [ | [] | | [] my ey]; try contradiction; try exact I.
  simpl in Hx, Hy.
  apply valid_finite_inv in Hvx. apply valid_finite_inv in Hvy.
  unfold SFadd.
  destruct (shl_align_spec mx ex (Z.min ex ey)) as [-> _]; [lia | ].
  destruct (shl_align_spec my ey (Z.min ex ey)) as [-> _]; [lia | ].
  simpl cond_Zopp.
  apply (dle_base (-1074)) in Hx; [ | lia | lia].
  apply (dle_base (-1074)) in Hy; [ | lia | lia].
  rewrite Z.sub_diag, Z.mul_1_r in Hx, Hy.
  set (ez := Z.min ex ey) in *.
  assert (H2x : 0 < 2 ^ (ex - ez)) by (apply Z.pow_pos_nonneg; lia).
  assert (H2y : 0 < 2 ^ (ey - ez)) by (apply Z.pow_pos_nonneg; lia).
  destruct (Z.pos mx * 2 ^ (ex - ez) + Z.pos my * 2 ^ (ey - ez)) as [ | S | S] eqn:HS;
    try lia.
  simpl binary_normalize. apply signedAtLeastSF_false.
  apply binary_round_lb; [lia | lia | ].
  apply (dle_base (-1074)); [lia | lia | ].
  rewrite Z.sub_diag, Z.mul_1_r, <- HS, Z.mul_add_distr_r.
  rewrite <- !Z.mul_assoc, <- !Z.pow_add_r by lia.
  replace (ex - ez + (ez - -1074)) with (ex - -1074) by lia.
  replace (ey - ez + (ez - -1074)) with (ey - -1074) by lia.
  lia.
Qed.

Lemma SFmul_atLeast (K1 K2 : Z) (x y : spec_float) :
  valid_binary x = true -> valid_binary y = true ->
  0 < K1 -> 0 < K2 -> K1 * K2 <= 2 ^ 53 ->
  atLeastSF K1 (-1074) x -> atLeastSF K2 0 y ->
  atLeastSF (K1 * K2) (-1074) (SFmul prec emax x y).
Proof.
  intros Hvx Hvy HK1 HK2 HK Hx Hy.
  destruct x as [ | [] | | [] mx ex]; try contradiction;
    destruct y as [ | [] | | [] my ey]; try contradiction; try exact I.
  simpl in Hx, Hy.
  apply valid_finite_inv in Hvx. apply valid_finite_inv in Hvy.
  unfold SFmul. simpl xorb. apply signedAtLeastSF_false.
  apply binary_round_aux_lb; [lia | lia | ].
  set (b := Z.min 0 ey).
  apply (dle_base (-1074)) in Hx; [ | lia | lia].
  unfold dle in Hy. fold b in Hy.
  rewrite Z.sub_diag, Z.mul_1_r in Hx.
  apply (dle_base (-1074 + b)); [lia | lia | ].
  replace (-1074 - (-1074 + b)) with (0 - b) by lia.
  replace (ex + ey - (-1074 + b)) with ((ex - -1074) + (ey - b)) by lia.
  rewrite Z.pow_add_r by lia. rewrite Pos2Z.inj_mul.
  assert (0 < 2 ^ (ex - -1074)) by (apply Z.pow_pos_nonneg; lia).
  assert (0 < 2 ^ (ey - b)) by (apply Z.pow_pos_nonneg; lia).
  assert (0 < 2 ^ (0 - b)) by (apply Z.pow_pos_nonneg; lia).
  replace (K1 * K2 * 2 ^ (0 - b)) with (K1 * (K2 * 2 ^ (0 - b))) by lia.
  replace (Z.pos mx * Z.pos my * (2 ^ (ex - -1074) * 2 ^ (ey - b)))
    with ((Z.pos mx * 2 ^ (ex - -1074)) * (Z.pos my * 2 ^ (ey - b))) by lia.
  apply Z.mul_le_mono_nonneg; lia.
Qed.

(** Dividing a number that is at least [p * 2^-1074] by the integer [p]
    does not underflow to zero. *)
Lemma SFdiv_atLeast (p : Z) (x : spec_float) (mP : positive) (eP : Z) :
  valid_binary x = true ->
  0 < p -> -52 <= eP <= 0 -> Z.pos mP = p * 2 ^ (- eP) ->
  atLeastSF p (-1074) x ->
  atLeastSF 1 (-1074) (SFdiv prec emax x (S754_finite false mP eP)).
Proof.
  intros Hvx Hp HeP HmP Hx.
  destruct x as [ | [] | | [] mx ex]; try contradiction; try exact I.
  simpl in Hx. apply valid_finite_inv in Hvx. destruct Hvx as (Hex & Hd1 & _).
  apply (dle_base (-1074)) in Hx; [ | lia | lia].
  rewrite Z.sub_diag, Z.mul_1_r in Hx.
  unfold SFdiv, SFdiv_core_binary. simpl Zdigits2. simpl xorb.
  pose proof (digits2_pos_bounds mx) as Hb1.
  pose proof (digits2_pos_bounds mP) as Hb2.
  set (d1 := Z.pos (digits2_pos mx)) in *.
  set (d2 := Z.pos (digits2_pos mP)) in *.
  rewrite fexp_value.
  set (e' := Z.min (Z.max (d1 + ex - (d2 + eP) - 53) (-1074)) (ex - eP)).
  set (sh := ex - eP - e').
  assert (Hsh : 0 <= sh) by (unfold sh, e'; lia).
  assert (Hm' : match sh with
                | 0 => Z.pos mx
                | Z.pos _ => Z.shiftl (Z.pos mx) sh
                | Z.neg _ => 0
                end = Z.pos mx * 2 ^ sh).
  { destruct sh as [ | k | k] eqn:Hk; [simpl; lia | | lia].
    now rewrite Z.shiftl_mul_pow2 by lia. }
  rewrite Hm'.
  destruct (Z.div_eucl (Z.pos mx * 2 ^ sh) (Z.pos mP)) as [q r] eqn:Hdiv.
  assert (Hq : q = Z.pos mx * 2 ^ sh / Z.pos mP).
  { unfold Z.div. now rewrite Hdiv. }
  assert (H2sh : 0 < 2 ^ sh) by (apply Z.pow_pos_nonneg; lia).
  assert (Hle : dle 1 (-1074) q e').
  { destruct (Z.le_gt_cases e' (-1074)) as [Hcase | Hcase].
    - apply (dle_base e'); [lia | lia | ].
      rewrite Z.sub_diag, Z.mul_1_r, Z.mul_1_l, Hq.
      apply Z.div_le_lower_bound; [lia | ].
      rewrite HmP.
      replace sh with ((ex - -1074) + (- eP) + (-1074 - e')) by (unfold sh; lia).
      rewrite !Z.pow_add_r by lia.
      assert (0 < 2 ^ (- eP)) by (apply Z.pow_pos_nonneg; lia).
      assert (0 < 2 ^ (-1074 - e')) by (apply Z.pow_pos_nonneg; lia).
      replace (p * 2 ^ (- eP) * 2 ^ (-1074 - e'))
        with (p * (2 ^ (- eP) * 2 ^ (-1074 - e'))) by lia.
      replace (Z.pos mx * (2 ^ (ex - -1074) * 2 ^ (- eP) * 2 ^ (-1074 - e')))
        with (Z.pos mx * 2 ^ (ex - -1074) * (2 ^ (- eP) * 2 ^ (-1074 - e'))) by lia.
      apply Z.mul_le_mono_nonneg_r; lia.
    - assert (Hsh53 : 53 + d2 - d1 <= sh) by (unfold sh, e' in *; lia).
      assert (Hq1 : 1 <= q).
      { rewrite Hq. apply Z.div_le_lower_bound; [lia | ].
        assert (2 ^ d2 <= 2 ^ (d1 - 1 + sh)) by (apply Z.pow_le_mono_r; lia).
        rewrite Z.pow_add_r in * by (unfold d1; lia). nia. }
      apply (dle_base (-1074)); [lia | lia | ].
      assert (0 < 2 ^ (e' - -1074)) by (apply Z.pow_pos_nonneg; lia).
      rewrite Z.sub_diag. simpl. nia. }
  assert (Hqpos : 0 < q) by (apply (dle_pos 1 (-1074) q e'); [lia | assumption]).
  destruct q as [ | q | q]; try lia.
  apply signedAtLeastSF_false. apply binary_round_aux_lb; [lia | lia | assumption].
Qed.

Lemma SFdiv_zero_atLeast (K E : Z) (y : spec_float) :
  atLeastSF K E y -> SFdiv prec emax (S754_zero false) y = S754_zero false.
Proof.
  destruct y as [ | [] | | [] m e]; simpl; intros H; try contradiction; reflexivity.
Qed.

Lemma SFeqb_atLeast_zero (K E : Z) (y : spec_float) :
  atLeastSF K E y -> SFeqb y (S754_zero false) = false.
Proof.
  destruct y as [ | [] | | [] m e]; simpl; intros H; try contradiction; reflexivity.
Qed.

End Binary64.

(** ** Indicator: rising prices *)

Lemma loss_of_rise (a b : float) : (a <=? b)%float = true -> loss (b - a) = 0%float.
Proof.
  intros Hle. unfold loss.
  rewrite ltb_spec, sub_spec, Prim2SF_zero. rewrite leb_spec in Hle.
  unfold SF64sub.
  now rewrite (SFsub_not_negative _ _ (Prim2SF_valid a) (Prim2SF_valid b) Hle).
Qed.

Lemma gain_of_fall (a b : float) : (b <=? a)%float = true -> gain (b - a) = 0%float.
Proof.
  intros Hle. unfold gain.
  rewrite ltb_spec, sub_spec, Prim2SF_zero. rewrite leb_spec in Hle.
  unfold SF64sub.
  now rewrite (SFsub_not_positive _ _ (Prim2SF_valid b) (Prim2SF_valid a) Hle).
Qed.

Lemma losses_increasing (prices : list float) :
  increasing prices = true ->
  Forall (fun x => x = 0%float) (map loss (differences prices)).
Proof.
  unfold increasing. induction prices as [ | a prices IH]; [constructor | ].
  destruct prices as [ | b prices]; [constructor | ].
  simpl pairwise. intros H. apply andb_true_iff in H. destruct H as [Hab Hrest].
  simpl. constructor; [now apply loss_of_rise | now apply IH].
Qed.

Lemma gains_decreasing (prices : list float) :
  decreasing prices = true ->
  Forall (fun x => x = 0%float) (map gain (differences prices)).
Proof.
  unfold decreasing. induction prices as [ | a prices IH]; [constructor | ].
  destruct prices as [ | b prices]; [constructor | ].
  simpl pairwise. intros H. apply andb_true_iff in H. destruct H as [Hab Hrest].
  simpl. constructor; [now apply gain_of_fall | now apply IH].
Qed.

Lemma Forall_snd_skipn_combine {A B} (P : B -> Prop) (xs : list A) (ys : list B) (n : nat) :
  Forall P ys -> Forall (fun xy => P (snd xy)) (skipn n (combine xs ys)).
Proof.
  intros Hys. rewrite List.Forall_forall in *. intros [x y] Hin.
  apply Hys. simpl. apply (in_combine_r xs ys x y).
  rewrite <- (firstn_skipn n (combine xs ys)). apply in_or_app. now right.
Qed.

Lemma Forall_fst_skipn_combine {A B} (P : A -> Prop) (xs : list A) (ys : list B) (n : nat) :
  Forall P xs -> Forall (fun xy => P (fst xy)) (skipn n (combine xs ys)).
Proof.
  intros Hxs. rewrite List.Forall_forall in *. intros [x y] Hin.
  apply Hxs. simpl. apply (in_combine_l xs ys x y).
  rewrite <- (firstn_skipn n (combine xs ys)). apply in_or_app. now right.
Qed.

Lemma period_safe {A} (xs : list A) (period : nat) :
  (period + 1 <= length xs)%nat -> arrayLength xs -> (Z.of_nat period < 2 ^ 53)%Z.
Proof.
  unfold arrayLength. intros Hlen Harr.
  assert ((2 ^ 32 < 2 ^ 53)%Z) by reflexivity. lia.
Qed.

(** C5: on prices that never go down, with [period] at least 1 and at
    least [period + 1] prices, every loss is 0, the smoothed average loss
    is 0, and [calculateRSI] returns exactly 100 from the [avgLoss === 0]
    branch. *)
Theorem calculateRSI_increasing (prices : list float) (period : nat) :
  (1 <= period)%nat ->
  (period + 1 <= length prices)%nat ->
  arrayLength prices ->
  increasing prices = true ->
  let gains := map gain (differences prices) in
  let losses := map loss (differences prices) in
  Forall (fun x => x = 0%float) losses /\
  snd (smoothAll period gains losses
         (initialAvg gains period, initialAvg losses period)) = 0%float /\
  calculateRSI prices period = Ok 100%float.
Proof.
  intros H1 Hlen Harr Hinc. cbv zeta.
  pose proof (period_safe prices period Hlen Harr) as H53.
  pose proof (losses_increasing prices Hinc) as Hlosses.
  assert (Havg : snd (smoothAll period (map gain (differences prices))
                        (map loss (differences prices))
                        (initialAvg (map gain (differences prices)) period,
                         initialAvg (map loss (differences prices)) period)) = 0%float).
  { unfold smoothAll. apply smoothAll_snd_zeros; try assumption.
    - now apply (Forall_snd_skipn_combine (fun x => x = 0%float)).
    - simpl. now apply initialAvg_zeros. }
  split; [exact Hlosses | split; [exact Havg | ]].
  unfold calculateRSI.
  destruct (Nat.ltb_spec (length prices) (period + 1)); [lia | ].
  destruct (smoothAll _ _ _ _) as [avgGain avgLoss]. simpl in Havg. subst avgLoss.
  reflexivity.
Qed.

Lemma calculateRSI_increasing_witness :
  let gains := map gain (differences risingPrices) in
  let losses := map loss (differences risingPrices) in
  Forall (fun x => x = 0%float) losses /\
  snd (smoothAll 14 gains losses (initialAvg gains 14, initialAvg losses 14)) = 0%float /\
  calculateRSI risingPrices 14 = Ok 100%float.
Proof.
  apply (calculateRSI_increasing risingPrices 14).
  - lia.
  - simpl. lia.
  - unfold arrayLength. simpl. lia.
  - reflexivity.
Defined.

(** C5, as stated, fails for [period = 0]: a single price is a series of
    [period + 1] prices that never go down, the seed average is [0 / 0],
    and [calculateRSI] returns NaN. *)
Lemma calculateRSI_period_zero :
  increasing [1%float] = true /\
  (0 + 1 <= length [1%float])%nat /\
  initialAvg (map loss (differences [1%float])) 0 = nan /\
  calculateRSI [1%float] 0 = Ok nan.
Proof. repeat split; reflexivity. Qed.

(** ** Indicator: falling prices *)

Lemma ltb_leb (a b : float) : (a <? b)%float = true -> (a <=? b)%float = true.
Proof.
  rewrite ltb_spec, leb_spec. unfold SFltb, SFleb.
  destruct (SFcompare (Prim2SF a) (Prim2SF b)) as [[] | ]; congruence.
Qed.

Lemma strictlyDecreasing_decreasing (prices : list float) :
  strictlyDecreasing prices = true -> decreasing prices = true.
Proof.
  unfold strictlyDecreasing, decreasing.
  induction prices as [ | a prices IH]; [reflexivity | ].
  destruct prices as [ | b prices]; [reflexivity | ].
  simpl pairwise. intros H. apply andb_true_iff in H. destruct H as [Hab Hrest].
  apply andb_true_iff. split; [now apply ltb_leb | now apply IH].
Qed.

(** A fall leaves a loss that is positive, so at least the least
    positive number [2^-1074]. *)
Lemma loss_of_fall (a b : float) :
  (b <? a)%float = true -> atLeast 1 (-1074) (loss (b - a)).
Proof.
  intros Hlt. rewrite ltb_spec in Hlt.
  pose proof (SFsub_negative _ _ (Prim2SF_valid a) (Prim2SF_valid b) Hlt) as Hneg.
  unfold loss, atLeast.
  rewrite ltb_spec, Prim2SF_zero, sub_spec. unfold SF64sub.
  destruct (SFsub prec emax (Prim2SF b) (Prim2SF a)) as [ | s | | s m e] eqn:Hd;
    try contradiction; simpl in Hneg.
  - subst s. simpl. rewrite abs_spec, sub_spec. unfold SF64sub. now rewrite Hd.
  - destruct Hneg as [-> Hle]. simpl.
    rewrite abs_spec, sub_spec. unfold SF64sub. now rewrite Hd.
Qed.

Lemma losses_strictlyDecreasing (prices : list float) :
  strictlyDecreasing prices = true ->
  Forall (atLeast 1 (-1074)) (map loss (differences prices)).
Proof.
  unfold strictlyDecreasing. induction prices as [ | a prices IH]; [constructor | ].
  destruct prices as [ | b prices]; [constructor | ].
  simpl pairwise. intros H. apply andb_true_iff in H. destruct H as [Hab Hrest].
  simpl. constructor; [now apply loss_of_fall | now apply IH].
Qed.

Lemma add_atLeast (Kx Ky : Z) (x y : float) :
  (0 < Kx)%Z -> (0 < Ky)%Z -> (Kx + Ky <= 2 ^ 53)%Z ->
  atLeast Kx (-1074) x -> atLeast Ky (-1074) y ->
  atLeast (Kx + Ky) (-1074) (x + y).
Proof.
  intros HKx HKy HK Hx Hy. unfold atLeast in *. rewrite add_spec.
  apply SFadd_atLeast; auto using Prim2SF_valid.
Qed.

Lemma zero_add_atLeast (K E : Z) (y : float) :
  atLeast K E y -> atLeast K E (0 + y).
Proof.
  unfold atLeast. rewrite add_spec, Prim2SF_zero. unfold SF64add.
  destruct (Prim2SF y) as [ | [] | | [] m e]; simpl; intros H; try contradiction; exact H.
Qed.

Lemma fold_add_atLeast (xs : list float) :
  Forall (atLeast 1 (-1074)) xs ->
  forall (acc : float) (k : Z),
    (0 < k)%Z -> (k + Z.of_nat (length xs) <= 2 ^ 53)%Z ->
    atLeast k (-1074) acc ->
    atLeast (k + Z.of_nat (length xs)) (-1074)
            (fold_left (fun sum x => sum + x)%float xs acc).
Proof.
  induction 1 as [ | x xs Hx _ IH]; intros acc k Hk Hbound Hacc.
  - simpl. now rewrite Z.add_0_r.
  - simpl fold_left. simpl length in *. rewrite Nat2Z.inj_succ in *.
    replace (k + Z.succ (Z.of_nat (length xs)))%Z
      with ((k + 1) + Z.of_nat (length xs))%Z by lia.
    apply IH; [lia | lia | ].
    apply add_atLeast; [lia | lia | lia | assumption | assumption].
Qed.

Lemma div_period_atLeast (period : nat) (x : float) :
  (1 <= period)%nat -> (Z.of_nat period < 2 ^ 53)%Z ->
  atLeast (Z.of_nat period) (-1074) x ->
  atLeast 1 (-1074) (x / JS.of_nat period).
Proof.
  intros H1 H53 Hx. unfold JS.of_nat.
  destruct (Z.of_nat period) as [ | q | q] eqn:Hq; try lia.
  destruct (of_Z_exact q H53) as (m & e & HP & Hv & He & Hm).
  unfold atLeast in *. rewrite div_spec, HP. unfold SF64div.
  apply (SFdiv_atLeast (Z.pos q)); auto using Prim2SF_valid. lia.
Qed.

Lemma initialAvg_atLeast (xs : list float) (period : nat) :
  (1 <= period)%nat -> (period <= length xs)%nat -> (Z.of_nat period < 2 ^ 53)%Z ->
  Forall (atLeast 1 (-1074)) xs ->
  atLeast 1 (-1074) (initialAvg xs period).
Proof.
  intros H1 Hlen H53 Hxs. unfold initialAvg.
  apply div_period_atLeast; try assumption.
  assert (Hfirst : Forall (atLeast 1 (-1074)) (firstn period xs)).
  { rewrite List.Forall_forall in *. intros x Hx. apply Hxs.
    rewrite <- (firstn_skipn period xs). apply in_or_app. now left. }
  assert (Hlenf : length (firstn period xs) = period) by (rewrite length_firstn; lia).
  destruct (firstn period xs) as [ | x rest] eqn:Hf; [simpl in Hlenf; lia | ].
  apply Forall_cons in Hfirst. destruct Hfirst as [Hx Hrest].
  simpl fold_left. rewrite <- Hlenf. simpl length. rewrite Nat2Z.inj_succ.
  replace (Z.succ (Z.of_nat (length rest))) with (1 + Z.of_nat (length rest))%Z by lia.
  apply fold_add_atLeast; [assumption | lia | | now apply zero_add_atLeast].
  simpl in Hlenf. lia.
Qed.

Lemma minus_one_atLeast (period : nat) :
  (2 <= period)%nat -> (Z.of_nat period < 2 ^ 53)%Z ->
  atLeast (Z.of_nat period - 1) 0 (JS.of_nat period - 1).
Proof.
  intros H2 H53. unfold JS.of_nat.
  destruct (Z.of_nat period) as [ | q | q] eqn:Hq; try lia.
  destruct (of_Z_minus_one q) as (m & e & HP & He & Hm); [lia | ].
  unfold atLeast. rewrite HP. simpl.
  apply (dle_base e); [lia | lia | ].
  rewrite Z.sub_diag, Z.mul_1_r, Hm. replace (0 - e)%Z with (- e)%Z by lia. lia.
Qed.

Lemma smooth_atLeast (period : nat) (avg current : float) :
  (2 <= period)%nat -> (Z.of_nat period < 2 ^ 53)%Z ->
  atLeast 1 (-1074) avg -> atLeast 1 (-1074) current ->
  atLeast 1 (-1074) (smooth period avg current).
Proof.
  intros H2 H53 Havg Hcur. unfold smooth.
  apply div_period_atLeast; [lia | assumption | ].
  replace (Z.of_nat period) with ((1 * (Z.of_nat period - 1)) + 1)%Z by lia.
  apply add_atLeast; [lia | lia | lia | | assumption].
  unfold atLeast. rewrite mul_spec. unfold SF64mul.
  apply SFmul_atLeast; auto using Prim2SF_valid; try lia.
  now apply minus_one_atLeast.
Qed.

Lemma smoothAll_snd_atLeast (period : nat) (gls : list (float * float)) (init : float * float) :
  (2 <= period)%nat -> (Z.of_nat period < 2 ^ 53)%Z ->
  Forall (fun gl => atLeast 1 (-1074) (snd gl)) gls ->
  atLeast 1 (-1074) (snd init) ->
  atLeast 1 (-1074)
    (snd (fold_left
            (fun avgs gl => (smooth period (fst avgs) (fst gl),
                             smooth period (snd avgs) (snd gl)))
            gls init)).
Proof.
  intros H2 H53 Hgls. revert init.
  induction Hgls as [ | gl gls Hgl _ IH]; intros init Hinit; [exact Hinit | ].
  simpl. apply IH. simpl. now apply smooth_atLeast.
Qed.

Lemma length_differences (prices : list float) :
  length (differences prices) = (length prices - 1)%nat.
Proof.
  induction prices as [ | a prices IH]; [reflexivity | ].
  destruct prices as [ | b prices]; [reflexivity | ].
  change (differences (a :: b :: prices)) with ((b - a)%float :: differences (b :: prices)).
  simpl length in *. rewrite IH. lia.
Qed.

(** ** Running the monad *)

Lemma sendMessage_eq (dest : Dest) (msg : Message) (w : World) :
  sendMessage dest msg w =
    (if resolves (telegram w (sendLog w) dest msg) then Ok tt else Throw TelegramError,
     {| userConfigs := userConfigs w;
        lastRSIValue := lastRSIValue w;
        clock := clock w + elapsed (telegram w (sendLog w) dest msg);
        sendLog := sendLog w ++ [{| to := dest; text := msg;
                                    delivered := resolves (telegram w (sendLog w) dest msg) |}];
        telegram := telegram w |}).
Proof.
  unfold sendMessage. destruct (resolves _); reflexivity.
Qed.

Lemma onlySends_sendMessage dest msg : onlySends (sendMessage dest msg).
Proof.
  intros w. rewrite sendMessage_eq. simpl. repeat split; eauto.
Qed.

Lemma onlySends_ret {A} (a : A) : onlySends (ret a).
Proof.
  intros w. simpl. repeat split. exists []. now rewrite app_nil_r.
Qed.

Lemma onlySends_bind {A B} (m : M A) (k : A -> M B) :
  onlySends m -> (forall a, onlySends (k a)) -> onlySends (bind m k).
Proof.
  intros Hm Hk w. unfold bind.
  destruct (Hm w) as (Hu & Hl & Ht & atts & Hs).
  destruct (m w) as [[a | e] w1]; simpl in *.
  - destruct (Hk a w1) as (Hu' & Hl' & Ht' & atts' & Hs').
    rewrite Hu', Hl', Ht', Hs', Hu, Hl, Ht, Hs. repeat split.
    exists (atts ++ atts'). now rewrite app_assoc.
  - repeat split; eauto.
Qed.

Lemma onlySends_try_catch {A} (m : M A) (h : exn -> M A) :
  onlySends m -> (forall e, onlySends (h e)) -> onlySends (try_catch m h).
Proof.
  intros Hm Hh w. unfold try_catch.
  destruct (Hm w) as (Hu & Hl & Ht & atts & Hs).
  destruct (m w) as [[a | e] w1]; simpl in *.
  - repeat split; eauto.
  - destruct (Hh e w1) as (Hu' & Hl' & Ht' & atts' & Hs').
    rewrite Hu', Hl', Ht', Hs', Hu, Hl, Ht, Hs. repeat split.
    exists (atts ++ atts'). now rewrite app_assoc.
Qed.

Lemma onlySends_forEach {A} (xs : list A) (body : A -> M unit) :
  (forall x, onlySends (body x)) -> onlySends (forEach xs body).
Proof.
  intros Hbody. induction xs as [ | x xs IH]; simpl.
  - apply onlySends_ret.
  - apply onlySends_bind; auto.
Qed.

Lemma onlySends_sendToChannel chatId message channel :
  onlySends (sendToChannel chatId message channel).
Proof.
  apply onlySends_try_catch; intros; apply onlySends_sendMessage.
Qed.

(** ** The dispatcher *)

Lemma newAttempts_app (w w' : World) (atts : list Attempt) :
  sendLog w' = sendLog w ++ atts -> newAttempts w w' = atts.
Proof.
  intros H. unfold newAttempts. rewrite H.
  rewrite skipn_app, Nat.sub_diag, skipn_all. reflexivity.
Qed.

Lemma forEach_cons {A} (x : A) (xs : list A) (body : A -> M unit) (w : World) :
  forEach (x :: xs) body w =
    match body x w with
    | (Ok _, w1) => forEach xs body w1
    | (Throw e, w1) => (Throw e, w1)
    end.
Proof. reflexivity. Qed.

Lemma sendToChannel_eq chatId message channel (w : World) :
  sendToChannel chatId message channel w =
    let w1 := afterSend (Channel channel) message w in
    if resolves (telegram w (sendLog w) (Channel channel) message) then (Ok tt, w1)
    else
      let w2 := afterSend (Chat chatId) (ChannelWarning channel) w1 in
      if resolves (telegram w1 (sendLog w1) (Chat chatId) (ChannelWarning channel))
      then (Ok tt, w2) else (Throw TelegramError, w2).
Proof.
  unfold sendToChannel, try_catch, afterSend. rewrite !sendMessage_eq. simpl.
  destruct (resolves (telegram w (sendLog w) (Channel channel) message)); [reflexivity | ].
  rewrite ?sendMessage_eq. simpl.
  match goal with |- context [resolves ?x] => destruct (resolves x) end; reflexivity.
Qed.

Lemma sendLog_afterSend dest msg w :
  sendLog (afterSend dest msg w) =
    sendLog w ++ [{| to := dest; text := msg;
                     delivered := resolves (telegram w (sendLog w) dest msg) |}].
Proof. unfold afterSend. rewrite sendMessage_eq. reflexivity. Qed.

(** The loop over the channels either goes through all of them, or stops
    at the first channel whose send and whose warning both fail. *)
Lemma forEach_sendToChannel chatId message (chs : list string) (w : World) :
  match fst (forEach chs (sendToChannel chatId message) w) with
  | Ok _ =>
      exists outcomes,
        length outcomes = length chs /\
        sendLog (snd (forEach chs (sendToChannel chatId message) w)) =
          sendLog w ++ channelTrace chatId message (combine chs outcomes)
  | Throw _ =>
      exists before channel rest outcomes,
        chs = before ++ channel :: rest /\
        length outcomes = length before /\
        sendLog (snd (forEach chs (sendToChannel chatId message) w)) =
          sendLog w ++ channelTrace chatId message (combine before outcomes)
                    ++ abortedAttempts chatId message channel
  end.
Proof.
  revert w. induction chs as [ | ch chs IH]; intros w.
  - simpl. exists []. simpl. now rewrite app_nil_r.
  - rewrite forEach_cons, sendToChannel_eq. cbv zeta.
    destruct (resolves (telegram w (sendLog w) (Channel ch) message)) eqn:Hch.
    + (* the channel got the alert *)
      specialize (IH (afterSend (Channel ch) message w)).
      rewrite sendLog_afterSend, Hch in IH.
      destruct (fst (forEach chs _ _)).
      * destruct IH as (outcomes & Hlen & Hlog).
        exists (true :: outcomes). simpl. split; [lia | ].
        rewrite Hlog, <- app_assoc. reflexivity.
      * destruct IH as (before & channel & rest & outcomes & Hchs & Hlen & Hlog).
        exists (ch :: before), channel, rest, (true :: outcomes). simpl.
        split; [now rewrite Hchs | split; [lia | ]].
        rewrite Hlog, <- app_assoc. reflexivity.
    + (* the send failed: the warning goes to the chat *)
      set (w1 := afterSend (Channel ch) message w).
      destruct (resolves (telegram w1 (sendLog w1) (Chat chatId) (ChannelWarning ch))) eqn:Hwarn.
      * specialize (IH (afterSend (Chat chatId) (ChannelWarning ch) w1)).
        rewrite sendLog_afterSend, Hwarn in IH. subst w1.
        rewrite sendLog_afterSend, Hch in IH.
        destruct (fst (forEach chs _ _)).
        -- destruct IH as (outcomes & Hlen & Hlog).
           exists (false :: outcomes). simpl. split; [lia | ].
           rewrite Hlog, <- !app_assoc. reflexivity.
        -- destruct IH as (before & channel & rest & outcomes & Hchs & Hlen & Hlog).
           exists (ch :: before), channel, rest, (false :: outcomes). simpl.
           split; [now rewrite Hchs | split; [lia | ]].
           rewrite Hlog, <- !app_assoc. reflexivity.
      * simpl. exists [], ch, chs, []. simpl.
        split; [reflexivity | split; [reflexivity | ]].
        rewrite sendLog_afterSend, Hwarn. subst w1.
        rewrite sendLog_afterSend, Hch, <- app_assoc. reflexivity.
Qed.

Lemma sendRSIAlert_eq chatId rsiData userConfig (w : World) :
  sendRSIAlert chatId rsiData userConfig w =
    let message := alertMessage rsiData userConfig in
    let w1 := afterSend (Chat chatId) message w in
    if resolves (telegram w (sendLog w) (Chat chatId) message) then
      let w2 := snd (forEach (channels userConfig) (sendToChannel chatId message) w1) in
      match fst (forEach (channels userConfig) (sendToChannel chatId message) w1) with
      | Ok _ =>
          match userConfigs w2 !! chatId with
          | Some stored =>
              (Ok tt, snd (setConfig chatId (with_lastAlertTime (clock w2) stored) w2))
          | None => (Ok tt, w2)
          end
      | Throw _ => (Ok tt, w2)
      end
    else (Ok tt, w1).
Proof.
  unfold sendRSIAlert, alertMessage, try_catch, afterSend. cbv zeta.
  unfold bind at 1. rewrite sendMessage_eq.
  destruct (resolves _); [ | reflexivity].
  cbv beta iota. unfold bind at 1.
  destruct (forEach _ _ _) as [[[] | e] w2]; [ | reflexivity].
  simpl. unfold touchLastAlertTime, bind, getConfig, Date_now. simpl.
  destruct (userConfigs w2 !! chatId); reflexivity.
Qed.

Lemma channelTrace_primary chatId message sent :
  primaryAllDelivered chatId (channelTrace chatId message sent).
Proof.
  intros a Ha Hto. unfold channelTrace in Ha. apply in_flat_map in Ha.
  destruct Ha as ([ch ok] & _ & Ha). unfold channelAttempts in Ha. simpl in Ha.
  destruct ok; simpl in Ha; intuition (subst; simpl in *; congruence).
Qed.

Lemma channelsTried_trace chatId message chs outcomes :
  length outcomes = length chs ->
  channelsTried (channelTrace chatId message (combine chs outcomes)) = chs.
Proof.
  revert outcomes. induction chs as [ | ch chs IH]; intros [ | ok outcomes] Hlen;
    simpl in *; try discriminate; [reflexivity | ].
  unfold channelTrace, channelsTried in *. simpl.
  rewrite flat_map_app. rewrite IH by lia.
  unfold channelAttempts. destruct ok; reflexivity.
Qed.

Lemma channelsReached_trace chatId message sent :
  channelsReached (channelTrace chatId message sent) = map fst (List.filter snd sent).
Proof.
  induction sent as [ | [ch ok] sent IH]; [reflexivity | ].
  unfold channelTrace, channelsReached in *. simpl.
  rewrite flat_map_app, IH. unfold channelAttempts.
  destruct ok; reflexivity.
Qed.

Lemma warningsTo_trace chatId message sent :
  warningsTo chatId (channelTrace chatId message sent) =
    map fst (List.filter (fun s => negb (snd s)) sent).
Proof.
  induction sent as [ | [ch ok] sent IH]; [reflexivity | ].
  unfold channelTrace, warningsTo in *. simpl.
  rewrite flat_map_app, IH. unfold channelAttempts.
  destruct ok; simpl; [reflexivity | ].
  rewrite Z.eqb_refl. reflexivity.
Qed.

(** What a dispatch logs and what it does to the registry, by the way it
    ends: the alert to the user's chat fails; the loop over the channels
    completes; or a warning to the user's chat fails. *)
Lemma sendRSIAlert_cases chatId rsiData userConfig (w : World) :
  let w' := snd (sendRSIAlert chatId rsiData userConfig w) in
  let message := alertMessage rsiData userConfig in
  (newAttempts w w' = [primaryAttempt chatId message false] /\
   userConfigs w' = userConfigs w) \/
  (exists outcomes,
     length outcomes = length (channels userConfig) /\
     newAttempts w w' =
       primaryAttempt chatId message true
         :: channelTrace chatId message (combine (channels userConfig) outcomes) /\
     userConfigs w' = touched chatId (clock w') (userConfigs w)) \/
  (exists before channel rest outcomes,
     channels userConfig = before ++ channel :: rest /\
     length outcomes = length before /\
     newAttempts w w' =
       primaryAttempt chatId message true
         :: channelTrace chatId message (combine before outcomes)
         ++ abortedAttempts chatId message channel /\
     userConfigs w' = userConfigs w).
Proof.
  cbv zeta. rewrite sendRSIAlert_eq. cbv zeta.
  set (message := alertMessage rsiData userConfig).
  destruct (resolves (telegram w (sendLog w) (Chat chatId) message)) eqn:Hprimary.
  - set (w1 := afterSend (Chat chatId) message w).
    assert (Hlog1 : sendLog w1 = sendLog w ++ [primaryAttempt chatId message true]).
    { subst w1. rewrite sendLog_afterSend, Hprimary. reflexivity. }
    assert (Hreg1 : userConfigs w1 = userConfigs w).
    { subst w1. apply (onlySends_sendMessage (Chat chatId) message w). }
    pose proof (forEach_sendToChannel chatId message (channels userConfig) w1) as Hloop.
    destruct (onlySends_forEach (channels userConfig) (sendToChannel chatId message)
                (onlySends_sendToChannel chatId message) w1) as (Hreg2 & _ & _ & _).
    set (r := forEach (channels userConfig) (sendToChannel chatId message) w1) in *.
    destruct (fst r).
    + right; left. destruct Hloop as (outcomes & Hlen & Hlog).
      exists outcomes. unfold touched. rewrite Hreg2, Hreg1.
      destruct (userConfigs w !! chatId) as [stored | ]; simpl.
      * split; [exact Hlen | split; [ | now rewrite Hreg2, Hreg1]].
        apply newAttempts_app. rewrite Hlog, Hlog1, <- app_assoc. reflexivity.
      * split; [exact Hlen | split; [ | now rewrite Hreg2, Hreg1]].
        apply newAttempts_app. rewrite Hlog, Hlog1, <- app_assoc. reflexivity.
    + right; right. destruct Hloop as (before & channel & rest & outcomes & Hchs & Hlen & Hlog).
      exists before, channel, rest, outcomes. simpl.
      split; [exact Hchs | split; [exact Hlen | split]].
      * apply newAttempts_app. rewrite Hlog, Hlog1, <- !app_assoc. reflexivity.
      * now rewrite Hreg2, Hreg1.
  - left. simpl. split.
    + apply newAttempts_app. rewrite sendLog_afterSend, Hprimary. reflexivity.
    + apply (onlySends_sendMessage (Chat chatId) message w).
Qed.

Lemma abortedAttempts_not_delivered chatId message before channel :
  ~ primaryAllDelivered chatId
      (primaryAttempt chatId message true
         :: before ++ abortedAttempts chatId message channel).
Proof.
  intros Hall.
  specialize (Hall {| to := Chat chatId; text := ChannelWarning channel; delivered := false |}).
  simpl in Hall. discriminate Hall; [ | reflexivity].
  right. apply in_or_app. right. simpl. auto.
Qed.

(** X1: when [lastAlertTime] is set.  A dispatch starts with the alert to
    the user's own chat, and when that send fails nothing else is sent
    and the registry is left as it was.  The entry of the user gets the
    time at the end of the dispatch when every send to the user's own
    chat went through (the alert and each warning about a failed
    channel), whatever the sends to the channels did; it is left as it
    was when one of them failed. *)
Lemma sendRSIAlert_lastAlertTime chatId rsiData userConfig (w : World) :
  let w' := snd (sendRSIAlert chatId rsiData userConfig w) in
  let atts := newAttempts w w' in
  (exists ok rest,
     atts = primaryAttempt chatId (alertMessage rsiData userConfig) ok :: rest /\
     (ok = false -> rest = [] /\ userConfigs w' = userConfigs w)) /\
  (primaryAllDelivered chatId atts ->
     userConfigs w' = touched chatId (clock w') (userConfigs w)) /\
  (~ primaryAllDelivered chatId atts -> userConfigs w' = userConfigs w).
Proof.
  cbv zeta.
  destruct (sendRSIAlert_cases chatId rsiData userConfig w)
    as [(Hatts & Hsame) | [(outcomes & Hlen & Hatts & Hset)
                          | (before & channel & rest & outcomes & Hchs & Hlen & Hatts & Hsame)]];
    rewrite Hatts.
  - split; [eauto | split; [ | auto]].
    intros Hall. specialize (Hall _ (or_introl eq_refl) eq_refl). discriminate.
  - split; [ | split; [auto | ]].
    + eexists true, _. split; [reflexivity | discriminate].
    + intros Hnot. exfalso. apply Hnot.
      intros a [<- | Ha] Hto; [reflexivity | ].
      now apply (channelTrace_primary chatId _ _ a Ha).
  - split; [ | split; [ | auto]].
    + eexists true, _. split; [reflexivity | discriminate].
    + intros Hall. exfalso. revert Hall. apply abortedAttempts_not_delivered.
Qed.

(** C2: [lastAlertTime] should be set to the current time whenever the
    alert reaches the user's own chat, whatever happens to the channels.
    Here it is not: subscriber 1 lists ["@a"] and ["@b"] and last got an
    alert at time 0; Telegram delivers the alert to chat 1, rejects the
    send to ["@a"] and rejects the warning about it.  The dispatch ends at
    time 1000030 with ["@b"] never tried and [lastAlertTime] still 0. *)
Theorem sendRSIAlert_primary_sent_not_updated :
  let w := sampleWorld false in
  let w' := snd (sendRSIAlert 1 sampleReading sampleConfig w) in
  userConfigs w !! 1%Z = Some sampleConfig /\
  lastAlertTime sampleConfig = 0%Z /\
  map (fun a => (to a, delivered a)) (newAttempts w w') =
    [(Chat 1, true); (Channel "@a", false); (Chat 1, false)] /\
  head (newAttempts w w') =
    Some (primaryAttempt 1 (alertMessage sampleReading sampleConfig) true) /\
  clock w' = 1000030%Z /\
  userConfigs w' = userConfigs w /\
  lastAlertTime <$> userConfigs w' !! 1%Z = Some 0%Z.
Proof. vm_compute. repeat split; reflexivity. Qed.

(** X24: a failed channel does not stop the others as long as the
    warnings get through.  In a dispatch that runs to its end with no
    command handled in between, and in which every send to the user's
    own chat is delivered (the alert and each warning), every configured
    channel is tried once, in order, whatever happened to the channels
    before it; the channels reached are those whose own send succeeded;
    and the chat gets one warning for each failed send, naming its
    channel. *)
Theorem sendRSIAlert_fan_out chatId rsiData userConfig (w : World) :
  let w' := snd (sendRSIAlert chatId rsiData userConfig w) in
  let atts := newAttempts w w' in
  let message := alertMessage rsiData userConfig in
  primaryAllDelivered chatId atts ->
  exists outcomes,
    length outcomes = length (channels userConfig) /\
    atts = primaryAttempt chatId message true
             :: channelTrace chatId message (combine (channels userConfig) outcomes) /\
    channelsTried atts = channels userConfig /\
    channelsReached atts =
      map fst (List.filter snd (combine (channels userConfig) outcomes)) /\
    warningsTo chatId atts =
      map fst (List.filter (fun s => negb (snd s)) (combine (channels userConfig) outcomes)).
Proof.
  cbv zeta.
  destruct (sendRSIAlert_cases chatId rsiData userConfig w)
    as [(Hatts & Hsame) | [(outcomes & Hlen & Hatts & Hset)
                          | (before & channel & rest & outcomes & Hchs & Hlen & Hatts & Hsame)]];
    rewrite Hatts; intros Hall.
  - specialize (Hall _ (or_introl eq_refl) eq_refl). discriminate.
  - exists outcomes. split; [exact Hlen | split; [reflexivity | ]].
    split; [ | split].
    + unfold channelsTried. simpl. now apply channelsTried_trace.
    + unfold channelsReached. simpl. apply channelsReached_trace.
    + unfold warningsTo. simpl. apply warningsTo_trace.
  - exfalso. revert Hall. apply abortedAttempts_not_delivered.
Qed.

Lemma sendRSIAlert_fan_out_witness :
  let w := sampleWorld true in
  let w' := snd (sendRSIAlert 1 sampleReading sampleConfig w) in
  let atts := newAttempts w w' in
  let message := alertMessage sampleReading sampleConfig in
  exists outcomes,
    length outcomes = length (channels sampleConfig) /\
    atts = primaryAttempt 1 message true
             :: channelTrace 1 message (combine (channels sampleConfig) outcomes) /\
    channelsTried atts = channels sampleConfig /\
    channelsReached atts =
      map fst (List.filter snd (combine (channels sampleConfig) outcomes)) /\
    warningsTo 1 atts =
      map fst (List.filter (fun s => negb (snd s)) (combine (channels sampleConfig) outcomes)).
Proof.
  apply (sendRSIAlert_fan_out 1 sampleReading sampleConfig (sampleWorld true)).
  intros a Ha Hto. vm_compute in Ha.
  destruct Ha as [<- | [<- | [<- | [<- | []]]]]; try reflexivity; discriminate Hto.
Defined.

(** C3: a failure on one channel should not keep the alert from the
    others.  Here it does: subscriber 1 lists ["@a"] and ["@b"], and
    Telegram delivers every alert sent to a chat or to ["@b"], rejects
    the alert sent to ["@a"] and rejects the warning about it.  The
    rejected warning is thrown from the [catch] block of the loop and
    ends the loop: ["@b"] is never tried, and the chat has received no
    warning naming ["@a"]. *)
Theorem sendRSIAlert_warning_lost_skips_channels :
  let w := sampleWorld false in
  let message := alertMessage sampleReading sampleConfig in
  let w' := snd (sendRSIAlert 1 sampleReading sampleConfig w) in
  let atts := newAttempts w w' in
  channels sampleConfig = ["@a"; "@b"]%string /\
  (forall history, resolves (telegram w history (Channel "@b") message) = true) /\
  map (fun a => (to a, text a, delivered a)) atts =
    [(Chat 1, message, true);
     (Channel "@a", message, false);
     (Chat 1, ChannelWarning "@a", false)] /\
  channelsTried atts = ["@a"]%string /\
  channelsReached atts = [] /\
  warningsTo 1 atts = [].
Proof. vm_compute. repeat split; reflexivity. Qed.

(** ** Regular expressions: the matcher decides the language *)

Module RegexFacts.
Import Regex.

Lemma lang_void_inv s : ~ lang Void s.
Proof. intros H. inversion H. Qed.

Lemma lang_eps_inv s : lang Eps s -> s = [].
Proof. intros H. inversion H. reflexivity. Qed.

Lemma lang_class_inv p s : lang (Class p) s -> exists c, s = [c] /\ p c = true.
Proof. intros H. inversion H; subst. eauto. Qed.

Lemma lang_cat_inv r1 r2 s :
  lang (Cat r1 r2) s -> exists s1 s2, s = s1 ++ s2 /\ lang r1 s1 /\ lang r2 s2.
Proof. intros H. inversion H; subst. eauto. Qed.

Lemma lang_alt_inv r1 r2 s : lang (Alt r1 r2) s -> lang r1 s \/ lang r2 s.
Proof. intros H. inversion H; subst; auto. Qed.

(** A non-empty word of [Star r] starts with a non-empty word of [r]. *)
Lemma lang_star_cons_inv r c s :
  lang (Star r) (c :: s) ->
  exists s1 s2, s = s1 ++ s2 /\ lang r (c :: s1) /\ lang (Star r) s2.
Proof.
  intros H. remember (Star r) as r' eqn:Hr. remember (c :: s) as cs eqn:Hcs.
  revert c s Hcs. induction H; intros c0 s0 Hcs; try discriminate.
  injection Hr as ->.
  destruct s1 as [ | c1 s1]; simpl in Hcs.
  - apply IHlang2; auto.
  - injection Hcs as <- <-. eauto.
Qed.

Lemma nullable_spec r : nullable r = true <-> lang r [].
Proof.
  induction r as [ | | p | r1 IH1 r2 IH2 | r1 IH1 r2 IH2 | r IH]; simpl.
  - split; [discriminate | intros H; inversion H].
  - split; [constructor | reflexivity].
  - split; [discriminate | intros H; inversion H].
  - rewrite andb_true_iff, IH1, IH2. split.
    + intros [H1 H2]. change (@nil ascii) with (@nil ascii ++ []). now constructor.
    + intros H. apply lang_cat_inv in H. destruct H as (s1 & s2 & Hs & H1 & H2).
      symmetry in Hs. apply app_eq_nil in Hs. destruct Hs; subst. auto.
  - rewrite orb_true_iff, IH1, IH2. split.
    + intros [H | H]; [now apply lang_alt_l | now apply lang_alt_r].
    + apply lang_alt_inv.
  - split; [constructor | reflexivity].
Qed.

Lemma deriv_spec c r : forall s, lang (deriv c r) s <-> lang r (c :: s).
Proof.
  induction r as [ | | p | r1 IH1 r2 IH2 | r1 IH1 r2 IH2 | r IH]; intros s; simpl.
  - split; intros H; inversion H.
  - split; intros H; inversion H.
  - destruct (p c) eqn:Hp; split; intros H.
    + apply lang_eps_inv in H. subst. now constructor.
    + apply lang_class_inv in H. destruct H as (c' & Hs & _).
      injection Hs as -> ->. constructor.
    + inversion H.
    + apply lang_class_inv in H. destruct H as (c' & Hs & Hc).
      injection Hs as -> ->. congruence.
  - assert (Hcat : lang (Cat (deriv c r1) r2) s ->  lang (Cat r1 r2) (c :: s)).
    { intros H. apply lang_cat_inv in H. destruct H as (s1 & s2 & -> & H1 & H2).
      apply IH1 in H1. change (c :: s1 ++ s2) with ((c :: s1) ++ s2). now constructor. }
    assert (Hinv : lang (Cat r1 r2) (c :: s) ->
                   lang (Cat (deriv c r1) r2) s \/ (lang r1 [] /\ lang r2 (c :: s))).
    { intros H. apply lang_cat_inv in H. destruct H as (s1 & s2 & Hs & H1 & H2).
      destruct s1 as [ | c1 s1]; simpl in Hs.
      - right. subst. auto.
      - injection Hs as <- ->. left. constructor; [now apply IH1 | assumption]. }
    destruct (nullable r1) eqn:Hn.
    + split; intros H.
      * apply lang_alt_inv in H. destruct H as [H | H]; [now apply Hcat | ].
        apply IH2 in H. apply nullable_spec in Hn.
        change (c :: s) with ([] ++ c :: s). now constructor.
      * apply Hinv in H. destruct H as [H | [_ H]];
          [now apply lang_alt_l | apply lang_alt_r; now apply IH2].
    + split; intros H; [now apply Hcat | ].
      apply Hinv in H. destruct H as [H | [H _]]; [assumption | ].
      apply nullable_spec in H. congruence.
  - split; intros H.
    + apply lang_alt_inv in H.
      destruct H as [H | H]; [apply lang_alt_l; now apply IH1 | apply lang_alt_r; now apply IH2].
    + apply lang_alt_inv in H.
      destruct H as [H | H]; [apply lang_alt_l; now apply IH1 | apply lang_alt_r; now apply IH2].
  - split; intros H.
    + apply lang_cat_inv in H. destruct H as (s1 & s2 & -> & H1 & H2).
      apply IH in H1. change (c :: s1 ++ s2) with ((c :: s1) ++ s2). now constructor.
    + apply lang_star_cons_inv in H. destruct H as (s1 & s2 & -> & H1 & H2).
      constructor; [now apply IH | assumption].
Qed.

Lemma matches_spec r s : matches r s = true <-> lang r s.
Proof.
  revert r. induction s as [ | c s IH]; intros r; simpl.
  - apply nullable_spec.
  - rewrite IH. apply deriv_spec.
Qed.

(** The words of [(Class p)*], [(Class p)+] and [(Class p){n}]. *)
Lemma lang_star_class p s : lang (Star (Class p)) s <-> Forall (fun c => p c = true) s.
Proof.
  split.
  - intros H. remember (Star (Class p)) as r eqn:Hr.
    induction H; try discriminate; [constructor | ].
    injection Hr as ->. apply lang_class_inv in H. destruct H as (c & -> & Hc).
    simpl. constructor; auto.
  - induction 1 as [ | c s Hc _ IH]; [constructor | ].
    change (c :: s) with ([c] ++ s). constructor; [now constructor | assumption].
Qed.

Lemma lang_plus_class p s :
  lang (Plus (Class p)) s <-> s <> [] /\ Forall (fun c => p c = true) s.
Proof.
  unfold Plus. split.
  - intros H. apply lang_cat_inv in H. destruct H as (s1 & s2 & -> & H1 & H2).
    apply lang_class_inv in H1. destruct H1 as (c & -> & Hc).
    apply lang_star_class in H2. simpl. split; [discriminate | constructor; auto].
  - intros [Hne Hall]. destruct Hall as [ | c s Hc Hall]; [congruence | ].
    change (c :: s) with ([c] ++ s).
    constructor; [now constructor | now apply lang_star_class].
Qed.

Lemma lang_rep_class p n s :
  lang (Rep n (Class p)) s <-> length s = n /\ Forall (fun c => p c = true) s.
Proof.
  revert s. induction n as [ | n IH]; intros s; simpl.
  - split.
    + intros H. apply lang_eps_inv in H. subst. split; [reflexivity | constructor].
    + intros [Hlen _]. destruct s; [constructor | discriminate].
  - split.
    + intros H. apply lang_cat_inv in H. destruct H as (s1 & s2 & -> & H1 & H2).
      apply lang_class_inv in H1. destruct H1 as (c & -> & Hc).
      apply IH in H2. destruct H2 as [Hlen Hall]. simpl.
      split; [now rewrite Hlen | constructor; auto].
    + intros [Hlen Hall]. destruct Hall as [ | c s Hc Hall]; [discriminate | ].
      change (c :: s) with ([c] ++ s). constructor; [now constructor | ].
      apply IH. simpl in Hlen. split; [lia | assumption].
Qed.

Lemma lang_chr c s : lang (Chr c) s <-> s = [c].
Proof.
  unfold Chr. split.
  - intros H. apply lang_class_inv in H. destruct H as (c' & -> & Hc).
    apply Ascii.eqb_eq in Hc. now subst.
  - intros ->. constructor. apply Ascii.eqb_refl.
Qed.

Lemma lang_str prefix s : lang (Str prefix) s <-> s = prefix.
Proof.
  revert s. induction prefix as [ | c prefix IH]; intros s; simpl.
  - split; [apply lang_eps_inv | intros ->; constructor].
  - split.
    + intros H. apply lang_cat_inv in H. destruct H as (s1 & s2 & -> & H1 & H2).
      apply lang_chr in H1. apply IH in H2. now subst.
    + intros ->. change (c :: prefix) with ([c] ++ prefix).
      constructor; [now apply lang_chr | now apply IH].
Qed.

End RegexFacts.

(** ** The format check of [/add_channel] *)

Lemma digit_spec c : Regex.digit c = true <-> isDigit c.
Proof.
  unfold Regex.digit, isDigit. cbv zeta.
  rewrite andb_true_iff, !Nat.leb_le.
  change (nat_of_ascii "0") with 48%nat. change (nat_of_ascii "9") with 57%nat.
  reflexivity.
Qed.

Lemma word_spec c : Regex.word c = true <-> isWordChar c.
Proof.
  unfold Regex.word, isWordChar. cbv zeta.
  rewrite !orb_true_iff, !andb_true_iff, !Nat.leb_le, Nat.eqb_eq, digit_spec.
  change (nat_of_ascii "A") with 65%nat. change (nat_of_ascii "Z") with 90%nat.
  change (nat_of_ascii "a") with 97%nat. change (nat_of_ascii "z") with 122%nat.
  assert (Hus : nat_of_ascii c = 95%nat <-> c = "_"%char).
  { split; [ | now intros ->].
    intros H. rewrite <- (ascii_nat_embedding c), H. reflexivity. }
  rewrite Hus. tauto.
Qed.

Lemma test_usernamePattern s : Regex.test usernamePattern s = true <-> isHandle s.
Proof.
  unfold Regex.test, usernamePattern, isHandle.
  rewrite RegexFacts.matches_spec. split.
  - intros H. apply RegexFacts.lang_cat_inv in H. destruct H as (s1 & s2 & Hs & H1 & H2).
    apply RegexFacts.lang_chr in H1. apply RegexFacts.lang_plus_class in H2.
    destruct H2 as [Hne Hall]. subst s1.
    exists (string_of_list_ascii s2).
    rewrite list_ascii_of_string_of_list_ascii.
    split; [ | split].
    + rewrite <- (string_of_list_ascii_of_string s), Hs. reflexivity.
    + destruct s2; [congruence | discriminate].
    + revert Hall. apply List.Forall_impl. intros c. apply word_spec.
  - intros (name & -> & Hne & Hall). simpl.
    change ("@"%char :: list_ascii_of_string name)
      with (["@"%char] ++ list_ascii_of_string name).
    constructor; [now apply RegexFacts.lang_chr | ].
    apply RegexFacts.lang_plus_class. split.
    + destruct name; [congruence | discriminate].
    + revert Hall. apply List.Forall_impl. intros c. apply word_spec.
Qed.

Lemma list_ascii_of_string_append s1 s2 :
  list_ascii_of_string (String.append s1 s2) =
    list_ascii_of_string s1 ++ list_ascii_of_string s2.
Proof.
  induction s1 as [ | c s1 IH]; simpl; [reflexivity | now rewrite IH].
Qed.

Lemma length_list_ascii_of_string s :
  length (list_ascii_of_string s) = String.length s.
Proof.
  induction s as [ | c s IH]; simpl; [reflexivity | now rewrite IH].
Qed.

Lemma test_chatIdPattern s : Regex.test chatIdPattern s = true <-> isNumericId s.
Proof.
  unfold Regex.test, chatIdPattern, isNumericId.
  rewrite RegexFacts.matches_spec. split.
  - intros H. apply RegexFacts.lang_cat_inv in H. destruct H as (s1 & s2 & Hs & H1 & H2).
    apply RegexFacts.lang_str in H1. apply RegexFacts.lang_rep_class in H2.
    destruct H2 as [Hlen Hall]. subst s1.
    exists (string_of_list_ascii s2).
    rewrite list_ascii_of_string_of_list_ascii.
    split; [ | split].
    + rewrite <- (string_of_list_ascii_of_string s), Hs. reflexivity.
    + rewrite <- length_list_ascii_of_string, list_ascii_of_string_of_list_ascii.
      exact Hlen.
    + revert Hall. apply List.Forall_impl. intros c. apply digit_spec.
  - intros (digits & -> & Hlen & Hall).
    rewrite list_ascii_of_string_append.
    constructor; [now apply RegexFacts.lang_str | ].
    apply RegexFacts.lang_rep_class. split.
    + now rewrite length_list_ascii_of_string.
    + revert Hall. apply List.Forall_impl. intros c. apply digit_spec.
Qed.

(** A command that fails the format check changes nothing in the registry. *)
Lemma onAddChannel_invalid chatId channelInput (w : World) :
  validChannel channelInput = false ->
  userConfigs (snd (onAddChannel chatId channelInput w)) = userConfigs w.
Proof.
  unfold validChannel. intros Hbad. apply orb_false_iff in Hbad. destruct Hbad as [Hu Hc].
  unfold onAddChannel, bind, getConfig. simpl.
  destruct (userConfigs w !! chatId).
  - rewrite Hu, Hc. simpl. apply (onlySends_sendMessage (Chat chatId) InvalidFormat w).
  - apply (onlySends_sendMessage (Chat chatId) UseStartFirst w).
Qed.

(** The two patterns, in words. *)
Lemma validChannel_spec (s : string) :
  validChannel s = true <-> isHandle s \/ isNumericId s.
Proof.
  unfold validChannel.
  rewrite orb_true_iff, test_usernamePattern, test_chatIdPattern. reflexivity.
Qed.

(** ** Observations kept by the monad's steps *)

Section Keeps.

Context {B : Type} (f : World -> B).

Lemma keeps_ret {A} (a : A) : keeps f (ret a).
Proof. intros w. reflexivity. Qed.

Lemma keeps_throw {A} (e : exn) : keeps f (@throw A e).
Proof. intros w. reflexivity. Qed.

Lemma keeps_lift {A} (r : result A) : keeps f (lift r).
Proof. intros w. reflexivity. Qed.

Lemma keeps_bind {A C} (m : M A) (k : A -> M C) :
  keeps f m -> (forall a, keeps f (k a)) -> keeps f (bind m k).
Proof.
  intros Hm Hk w. unfold bind. specialize (Hm w).
  destruct (m w) as [[a | e] w1]; simpl in *; [ | exact Hm].
  now rewrite Hk.
Qed.

Lemma keeps_try_catch {A} (m : M A) (h : exn -> M A) :
  keeps f m -> (forall e, keeps f (h e)) -> keeps f (try_catch m h).
Proof.
  intros Hm Hh w. unfold try_catch. specialize (Hm w).
  destruct (m w) as [[a | e] w1]; simpl in *; [exact Hm | ].
  now rewrite Hh.
Qed.

Lemma keeps_forEach {A} (xs : list A) (body : A -> M unit) :
  (forall x, keeps f (body x)) -> keeps f (forEach xs body).
Proof.
  intros Hbody. induction xs as [ | x xs IH]; simpl.
  - apply keeps_ret.
  - apply keeps_bind; auto.
Qed.

Lemma keeps_getConfig id : keeps f (getConfig id).
Proof. intros w. reflexivity. Qed.

Lemma keeps_Date_now : keeps f Date_now.
Proof. intros w. reflexivity. Qed.

Lemma keeps_registeredIds : keeps f registeredIds.
Proof. intros w. reflexivity. Qed.

End Keeps.

Lemma keeps_reading_sendMessage dest msg : keeps lastRSIValue (sendMessage dest msg).
Proof. intros w. apply (onlySends_sendMessage dest msg w). Qed.

Lemma keeps_reading_setConfig id c : keeps lastRSIValue (setConfig id c).
Proof. intros w. reflexivity. Qed.

Lemma keeps_reading_sendRSIAlert chatId rsiData userConfig :
  keeps lastRSIValue (sendRSIAlert chatId rsiData userConfig).
Proof.
  unfold sendRSIAlert. apply keeps_try_catch; [ | intros; apply keeps_ret].
  apply keeps_bind; [apply keeps_reading_sendMessage | intros _].
  apply keeps_bind.
  - apply keeps_forEach. intros ch. unfold sendToChannel.
    apply keeps_try_catch; intros; apply keeps_reading_sendMessage.
  - intros _. unfold touchLastAlertTime.
    apply keeps_bind; [apply keeps_getConfig | intros entry].
    apply keeps_bind; [apply keeps_Date_now | intros now].
    destruct entry; [apply keeps_reading_setConfig | apply keeps_throw].
Qed.

Lemma keeps_reading_checkUser rsiData chatId :
  keeps lastRSIValue (checkUser rsiData chatId).
Proof.
  unfold checkUser. apply keeps_bind; [apply keeps_getConfig | intros entry].
  destruct entry as [userConfig | ]; [ | apply keeps_ret].
  apply keeps_bind; [apply keeps_Date_now | intros now].
  destruct (shouldSendAlert userConfig rsiData now);
    [apply keeps_reading_sendRSIAlert | apply keeps_ret].
Qed.

(** ** The reading of a cycle *)

Lemma monitorRSI_reading parseFloat klines rsiData (w : World) :
  getCurrentRSI parseFloat klines (clock w) = Ok rsiData ->
  lastRSIValue (snd (monitorRSI parseFloat (Ok klines) w)) = Some rsiData.
Proof.
  intros Hget. unfold monitorRSI, try_catch.
  unfold bind at 1. unfold lift at 1. cbv beta iota.
  unfold bind at 1. unfold Date_now at 1. cbv beta iota.
  unfold bind at 1. unfold lift at 1. rewrite Hget. cbv beta iota.
  unfold bind at 1. unfold setLastRSIValue at 1. cbv beta iota.
  unfold bind at 1. unfold registeredIds at 1. cbv beta iota.
  match goal with |- context [forEach ?ids ?body ?w1] =>
    pose proof (keeps_forEach lastRSIValue ids body (keeps_reading_checkUser rsiData) w1) as Hkeep;
    destruct (forEach ids body w1) as [[[] | e] w2] end;
  simpl in *; exact Hkeep.
Qed.

Lemma nth_last_map {A} (g : A -> float) (l : list A) (x : A) :
  last l = Some x ->
  nth (length (map g l) - 1) (map g l) nan = g x.
Proof.
  induction l as [ | y l IH]; [discriminate | ].
  destruct l as [ | z l]; simpl in *.
  - intros [= ->]. reflexivity.
  - intros Hlast. rewrite <- (IH Hlast). simpl. now rewrite Nat.sub_0_r.
Qed.

(** C10: for a non-empty series of candles, whenever [getCurrentRSI]
    produces a reading its [price] is [parseFloat] of the [close] of the
    last candle, and this is the reading the cycle stores; a reading is
    produced as soon as there are [RSI_PERIOD + 1] candles. *)
Theorem reading_price_is_last_close (parseFloat : string -> float)
    (klines : list KlineData) (w : World) :
  klines <> [] ->
  (forall rsiData,
      getCurrentRSI parseFloat klines (clock w) = Ok rsiData ->
      (exists kline, last klines = Some kline /\
                     price rsiData = parseFloat (close kline)) /\
      lastRSIValue (snd (monitorRSI parseFloat (Ok klines) w)) = Some rsiData) /\
  ((RSI_PERIOD + 1 <= length klines)%nat ->
   exists rsiData, getCurrentRSI parseFloat klines (clock w) = Ok rsiData).
Proof.
  intros Hne. split.
  - intros rsiData Hget. split; [ | now apply monitorRSI_reading].
    destruct (last klines) as [kline | ] eqn:Hlast.
    + exists kline. split; [reflexivity | ].
      unfold getCurrentRSI in Hget.
      destruct (calculateRSI _ _); [ | discriminate].
      injection Hget as <-. simpl.
      exact (nth_last_map (fun k => parseFloat (close k)) klines kline Hlast).
    + apply last_None in Hlast. contradiction.
  - intros Hlen. unfold getCurrentRSI.
    destruct (calculateRSI_enough (map (fun kline => parseFloat (close kline)) klines)
                RSI_PERIOD) as [v Hv].
    + now rewrite length_map.
    + rewrite Hv. eauto.
Qed.

(** ** Registration *)

Lemma onStart_registry chatId (w : World) :
  userConfigs (snd (onStart chatId w)) = <[chatId := defaultConfig chatId]> (userConfigs w).
Proof.
  unfold onStart, bind, setConfig, try_catch. rewrite sendMessage_eq.
  simpl. destruct (resolves _); reflexivity.
Qed.

(** C8: [/start] stores the default configuration (oversold 30,
    overbought 70, alerts on, last alert at 0, no channels) under the
    sender's id, whatever was stored there before, and touches no other
    subscriber; a second [/start] leaves the registry as the first one
    left it. *)
Theorem onStart_resets (chatId : Z) (w : World) :
  let w1 := snd (onStart chatId w) in
  userConfigs w1 !! chatId =
    Some {| chatId := chatId;
            rsiThresholds := {| oversold := 30; overbought := 70 |};
            alertsEnabled := true;
            lastAlertTime := 0;
            channels := [] |} /\
  (forall other, other <> chatId -> userConfigs w1 !! other = userConfigs w !! other) /\
  userConfigs (snd (onStart chatId w1)) = userConfigs w1.
Proof.
  cbv zeta. rewrite !onStart_registry. split; [ | split].
  - now rewrite lookup_insert_eq.
  - intros other Hne. now rewrite lookup_insert_ne.
  - now rewrite insert_insert_eq.
Qed.

(** ** The invariant of the registry *)

Lemma registryOk_empty : registryOk ∅.
Proof. intros id c H. rewrite lookup_empty in H. discriminate. Qed.

Lemma registryOk_insert (configs : gmap Z UserConfig) id c :
  registryOk configs -> goodChannels (channels c) -> registryOk (<[id := c]> configs).
Proof.
  intros Hok Hc id' c' Hlook.
  destruct (decide (id = id')) as [-> | Hne].
  - rewrite lookup_insert_eq in Hlook. now injection Hlook as <-.
  - rewrite lookup_insert_ne in Hlook by assumption. eauto.
Qed.

Lemma includes_spec chs x : includes chs x = true <-> In x chs.
Proof.
  unfold includes. rewrite existsb_exists. split.
  - intros (y & Hin & Heq). apply String.eqb_eq in Heq. now subst.
  - intros Hin. exists x. split; [assumption | apply String.eqb_refl].
Qed.

Lemma goodChannels_push chs x :
  goodChannels chs -> validChannel x = true -> ~ In x chs -> goodChannels (chs ++ [x]).
Proof.
  intros [Hnd Hall] Hx Hnin. split.
  - apply NoDup_app. split; [exact Hnd | split; [ | apply NoDup_singleton]].
    intros y Hy Hyx. apply list_elem_of_singleton in Hyx. subst y.
    apply Hnin. now apply list_elem_of_In.
  - apply Forall_app. split; [assumption | now constructor].
Qed.

Lemma splice1_In chs i x : In x (splice1 chs i) -> In x chs.
Proof.
  unfold splice1. rewrite in_app_iff. intros [H | H].
  - rewrite <- (firstn_skipn i chs). apply in_or_app. now left.
  - rewrite <- (firstn_skipn (S i) chs). apply in_or_app. now right.
Qed.

Lemma NoDup_splice1 (chs : list string) i : NoDup chs -> NoDup (splice1 chs i).
Proof.
  revert i. induction chs as [ | y chs IH]; intros i Hnd.
  - unfold splice1. now rewrite firstn_nil, skipn_nil.
  - apply NoDup_cons in Hnd. destruct Hnd as [Hy Hnd].
    destruct i as [ | i].
    + exact Hnd.
    + change (splice1 (y :: chs) (S i)) with (y :: splice1 chs i).
      apply NoDup_cons. split; [ | now apply IH].
      rewrite list_elem_of_In in *. intros H. apply Hy. now apply splice1_In in H.
Qed.

Lemma goodChannels_splice1 chs i : goodChannels chs -> goodChannels (splice1 chs i).
Proof.
  intros [Hnd Hall]. split; [now apply NoDup_splice1 | ].
  rewrite List.Forall_forall in *. intros x Hx. apply Hall. now apply splice1_In in Hx.
Qed.

Ltac registry_step :=
  repeat first
    [ progress (unfold bind, getConfig, setConfig, try_catch, Date_now, ret; cbv beta iota)
    | rewrite sendMessage_eq
    | progress simpl ].

Ltac case_reply :=
  match goal with |- context [resolves ?x] => destruct (resolves x) end.

Lemma handle_registryOk chatId cmd (w : World) :
  registryOk (userConfigs w) -> registryOk (userConfigs (snd (handle chatId cmd w))).
Proof.
  intros Hok.
  assert (Hset : forall c c', userConfigs w !! chatId = Some c ->
                   channels c' = channels c ->
                   registryOk (<[chatId := c']> (userConfigs w))).
  { intros c c' Hc Hch. apply registryOk_insert; [assumption | ]. rewrite Hch. eauto. }
  destruct cmd as [ | v | v | s | s | | | | ]; simpl.
  - rewrite onStart_registry. apply registryOk_insert; [assumption | ].
    split; constructor.
  - unfold onSetOversold. destruct ((v <? 1)%Z || (99 <? v)%Z).
    + now rewrite (proj1 (onlySends_sendMessage _ _ w)).
    + registry_step. destruct (userConfigs w !! chatId) as [c | ] eqn:Hc; registry_step;
        repeat case_reply; simpl; eauto.
  - unfold onSetOverbought. destruct ((v <? 1)%Z || (99 <? v)%Z).
    + now rewrite (proj1 (onlySends_sendMessage _ _ w)).
    + registry_step. destruct (userConfigs w !! chatId) as [c | ] eqn:Hc; registry_step;
        repeat case_reply; simpl; eauto.
  - unfold onAddChannel. registry_step.
    destruct (userConfigs w !! chatId) as [c | ] eqn:Hc; registry_step;
      [ | repeat case_reply; simpl; assumption].
    destruct (negb (Regex.test usernamePattern s) && negb (Regex.test chatIdPattern s)) eqn:Hfmt;
      [registry_step; repeat case_reply; simpl; assumption | ].
    destruct (includes (channels c) s) eqn:Hinc;
      [registry_step; repeat case_reply; simpl; assumption | ].
    assert (Hgood : goodChannels (channels c ++ [s])).
    { apply goodChannels_push; [eauto | | ].
      - unfold validChannel.
        destruct (Regex.test usernamePattern s), (Regex.test chatIdPattern s);
          simpl in *; congruence.
      - rewrite <- includes_spec. congruence. }
    registry_step. repeat (case_reply; registry_step);
      first [assumption | apply registryOk_insert; assumption].
  - unfold onRemoveChannel. registry_step.
    destruct (userConfigs w !! chatId) as [c | ] eqn:Hc; registry_step;
      [ | repeat case_reply; simpl; assumption].
    destruct (indexOf (channels c) s) as [i | ]; registry_step;
      repeat case_reply; simpl; try assumption.
    all: apply registryOk_insert; [assumption | apply goodChannels_splice1; eauto].
  - unfold onListChannels. registry_step.
    destruct (userConfigs w !! chatId) as [c | ] eqn:Hc; registry_step;
      [destruct (channels c); registry_step | ]; repeat case_reply; simpl; assumption.
  - unfold onStatus. registry_step.
    destruct (userConfigs w !! chatId) as [c | ] eqn:Hc; registry_step;
      repeat case_reply; simpl; assumption.
  - unfold onToggle. registry_step.
    destruct (userConfigs w !! chatId) as [c | ] eqn:Hc; registry_step;
      repeat case_reply; simpl; eauto.
  - unfold onHelp. now rewrite (proj1 (onlySends_sendMessage _ _ w)).
Qed.

Lemma forEach_registryOk {A} (xs : list A) (body : A -> M unit) :
  (forall x w, registryOk (userConfigs w) -> registryOk (userConfigs (snd (body x w)))) ->
  forall w, registryOk (userConfigs w) ->
            registryOk (userConfigs (snd (forEach xs body w))).
Proof.
  intros Hbody. induction xs as [ | x xs IH]; intros w Hok; [exact Hok | ].
  rewrite forEach_cons. specialize (Hbody x w Hok).
  destruct (body x w) as [[[] | e] w1]; simpl in *; auto.
Qed.

Lemma sendRSIAlert_registryOk chatId rsiData userConfig (w : World) :
  userConfigs w !! chatId = Some userConfig ->
  registryOk (userConfigs w) ->
  registryOk (userConfigs (snd (sendRSIAlert chatId rsiData userConfig w))).
Proof.
  intros Hreg Hok.
  destruct (sendRSIAlert_cases chatId rsiData userConfig w)
    as [(_ & ->) | [(outcomes & _ & _ & ->) | (before & channel & rest & outcomes & _ & _ & _ & ->)]];
    try assumption.
  unfold touched. rewrite Hreg.
  apply registryOk_insert; [assumption | ]. simpl. eauto.
Qed.

Lemma checkUser_registryOk rsiData chatId (w : World) :
  registryOk (userConfigs w) ->
  registryOk (userConfigs (snd (checkUser rsiData chatId w))).
Proof.
  intros Hok. unfold checkUser, bind, getConfig, Date_now. simpl.
  destruct (userConfigs w !! chatId) as [userConfig | ] eqn:Hreg; [ | exact Hok].
  destruct (shouldSendAlert userConfig rsiData (clock w)); [ | exact Hok].
  now apply sendRSIAlert_registryOk.
Qed.

Lemma monitorRSI_registryOk parseFloat fetched (w : World) :
  registryOk (userConfigs w) ->
  registryOk (userConfigs (snd (monitorRSI parseFloat fetched w))).
Proof.
  intros Hok. unfold monitorRSI, try_catch.
  unfold bind at 1. unfold lift at 1.
  destruct fetched as [klines | e]; [ | exact Hok]. cbv beta iota.
  unfold bind at 1. unfold Date_now at 1. cbv beta iota.
  unfold bind at 1. unfold lift at 1.
  destruct (getCurrentRSI parseFloat klines (clock w)) as [rsiData | e]; [ | exact Hok].
  cbv beta iota.
  unfold bind at 1. unfold setLastRSIValue at 1. cbv beta iota.
  unfold bind at 1. unfold registeredIds at 1. cbv beta iota.
  match goal with |- context [forEach ?ids ?body ?w1] =>
    pose proof (forEach_registryOk ids body (checkUser_registryOk rsiData) w1 Hok) as Hloop;
    destruct (forEach ids body w1) as [[[] | e] w2] end;
  simpl in *; exact Hloop.
Qed.

Lemma step_registryOk parseFloat ev (w : World) :
  registryOk (userConfigs w) -> registryOk (userConfigs (step parseFloat ev w)).
Proof.
  intros Hok. destruct ev as [chatId cmd | fetched | ms]; simpl.
  - now apply handle_registryOk.
  - now apply monitorRSI_registryOk.
  - exact Hok.
Qed.

Lemma reachable_registryOk parseFloat (w : World) :
  reachable parseFloat w -> registryOk (userConfigs w).
Proof.
  intros (w0 & evs & [Hempty _] & ->).
  assert (Hok : registryOk (userConfigs w0)) by (rewrite Hempty; apply registryOk_empty).
  clear Hempty. revert w0 Hok. induction evs as [ | ev evs IH]; intros w0 Hok; [exact Hok | ].
  simpl. apply IH. now apply step_registryOk.
Qed.

(** ** [/add_channel] *)

(** A channel that is already listed: the command is turned down with
    the "already in the list" message, no probe is sent and the registry
    is left as it was. *)
Lemma onAddChannel_listed chatId channelInput c (w : World) :
  userConfigs w !! chatId = Some c ->
  validChannel channelInput = true ->
  In channelInput (channels c) ->
  let w' := snd (onAddChannel chatId channelInput w) in
  userConfigs w' = userConfigs w /\
  map (fun a => (to a, text a)) (newAttempts w w') =
    [(Chat chatId, AlreadyListed channelInput)].
Proof.
  intros Hreg Hvalid Hin. cbv zeta.
  unfold onAddChannel, bind, getConfig. simpl. rewrite Hreg.
  unfold validChannel in Hvalid. apply orb_true_iff in Hvalid.
  assert (Hfmt : negb (Regex.test usernamePattern channelInput)
                 && negb (Regex.test chatIdPattern channelInput) = false).
  { destruct Hvalid as [-> | ->]; simpl; [reflexivity | apply andb_false_r]. }
  rewrite Hfmt. apply includes_spec in Hin. rewrite Hin.
  rewrite sendMessage_eq. simpl. split; [reflexivity | ].
  unfold newAttempts. simpl. rewrite skipn_app, Nat.sub_diag, skipn_all. reflexivity.
Qed.

Lemma onAddChannel_registered chatId channelInput c (w : World) :
  userConfigs w !! chatId = Some c ->
  onAddChannel chatId channelInput w =
    (let isUsername := Regex.test usernamePattern channelInput in
     let isChatId := Regex.test chatIdPattern channelInput in
     if negb isUsername && negb isChatId then
       sendMessage (Chat chatId) InvalidFormat
     else if includes (channels c) channelInput then
       sendMessage (Chat chatId) (AlreadyListed channelInput)
     else
       try_catch
         (sendMessage (Channel channelInput) (ProbeMsg isUsername channelInput) ;;
          setConfig chatId (with_channels (channels c ++ [channelInput]) c) ;;
          sendMessage (Chat chatId) (ChannelAdded isUsername channelInput))
         (fun _ => sendMessage (Chat chatId) (CouldNotAdd isUsername channelInput))) w.
Proof.
  intros Hreg. unfold onAddChannel, bind at 1, getConfig. cbv beta iota.
  rewrite Hreg. reflexivity.
Qed.

(** A well-formed channel that is not listed yet: it is appended when
    Telegram delivers the probe sent to it, and the registry is left as
    it was when the probe fails. *)
Lemma onAddChannel_fresh chatId channelInput c (w : World) :
  userConfigs w !! chatId = Some c ->
  validChannel channelInput = true ->
  ~ In channelInput (channels c) ->
  let probe := ProbeMsg (Regex.test usernamePattern channelInput) channelInput in
  let w' := snd (onAddChannel chatId channelInput w) in
  head (newAttempts w w') =
    Some {| to := Channel channelInput; text := probe;
            delivered := resolves (telegram w (sendLog w) (Channel channelInput) probe) |} /\
  userConfigs w' =
    if resolves (telegram w (sendLog w) (Channel channelInput) probe)
    then <[chatId := with_channels (channels c ++ [channelInput]) c]> (userConfigs w)
    else userConfigs w.
Proof.
  intros Hreg Hvalid Hnin. cbv zeta.
  rewrite (onAddChannel_registered chatId channelInput c w Hreg). cbv zeta.
  unfold validChannel in Hvalid. apply orb_true_iff in Hvalid.
  assert (Hfmt : negb (Regex.test usernamePattern channelInput)
                 && negb (Regex.test chatIdPattern channelInput) = false).
  { destruct Hvalid as [-> | ->]; simpl; [reflexivity | apply andb_false_r]. }
  rewrite Hfmt.
  assert (Hinc : includes (channels c) channelInput = false).
  { destruct (includes (channels c) channelInput) eqn:H; [ | reflexivity].
    apply includes_spec in H. contradiction. }
  rewrite Hinc.
  set (probe := ProbeMsg (Regex.test usernamePattern channelInput) channelInput).
  unfold try_catch, bind, setConfig, newAttempts. rewrite sendMessage_eq.
  destruct (resolves (telegram w (sendLog w) (Channel channelInput) probe));
    rewrite ?sendMessage_eq; cbn [fst snd userConfigs sendLog];
    repeat (case_reply; rewrite ?sendMessage_eq; cbn [fst snd userConfigs sendLog]);
    rewrite <- ?app_assoc, skipn_app, Nat.sub_diag, skipn_all; split; reflexivity.
Qed.

(** C9: the format check of [/add_channel].  For a registered chat the
    handler turns a string down with the "invalid format" message, and
    nothing else, exactly when the string is neither ["@"] followed by
    one or more word characters nor ["-100"] followed by exactly ten
    digits, and the registry is then left as it was.  A string of one of
    the two forms gets past the check: the handler answers "already in
    the list" when the channel is listed, and otherwise starts by sending
    the probe to the channel and appends the channel when the probe is
    delivered.  So ["@abc123"] and ["-1001234567890"] are probed and
    added, and ["abc123"] and ["-100123"] are turned down. *)
Theorem onAddChannel_format_check :
  (forall chatId s c (w : World),
      userConfigs w !! chatId = Some c ->
      let w' := snd (onAddChannel chatId s w) in
      let probe := ProbeMsg (Regex.test usernamePattern s) s in
      (sent w w' = [(Chat chatId, InvalidFormat)] <-> ~ (isHandle s \/ isNumericId s)) /\
      (~ (isHandle s \/ isNumericId s) -> userConfigs w' = userConfigs w) /\
      (isHandle s \/ isNumericId s ->
       head (sent w w') =
         Some (if includes (channels c) s then (Chat chatId, AlreadyListed s)
               else (Channel s, probe))) /\
      (isHandle s \/ isNumericId s ->
       includes (channels c) s = false ->
       resolves (telegram w (sendLog w) (Channel s) probe) = true ->
       userConfigs w' = <[chatId := with_channels (channels c ++ [s]) c]> (userConfigs w))) /\
  (let outcome s :=
     let w' := snd (onAddChannel 1 s startedWorld) in
     (head (sent startedWorld w'), channels <$> userConfigs w' !! 1%Z) in
   userConfigs startedWorld !! 1%Z = Some (defaultConfig 1) /\
   outcome "@abc123"%string =
     (Some (Channel "@abc123", ProbeMsg true "@abc123"), Some ["@abc123"%string]) /\
   outcome "-1001234567890"%string =
     (Some (Channel "-1001234567890", ProbeMsg false "-1001234567890"),
      Some ["-1001234567890"%string]) /\
   outcome "abc123"%string = (Some (Chat 1, InvalidFormat), Some []) /\
   outcome "-100123"%string = (Some (Chat 1, InvalidFormat), Some [])).
Proof.
  split; [ | vm_compute; repeat split; reflexivity].
  intros chatId s c w Hreg. cbv zeta.
  destruct (validChannel s) eqn:Hvalid.
  - pose proof (proj1 (validChannel_spec s) Hvalid) as Hform.
    assert (Hhead : head (sent w (snd (onAddChannel chatId s w))) =
                    Some (if includes (channels c) s then (Chat chatId, AlreadyListed s)
                          else (Channel s, ProbeMsg (Regex.test usernamePattern s) s))).
    { destruct (includes (channels c) s) eqn:Hinc.
      - apply includes_spec in Hinc.
        destruct (onAddChannel_listed chatId s c w Hreg Hvalid Hinc) as [_ Hsent].
        unfold sent. cbv zeta in Hsent. now rewrite Hsent.
      - assert (Hnin : ~ In s (channels c)).
        { intros Hin. apply includes_spec in Hin. congruence. }
        destruct (onAddChannel_fresh chatId s c w Hreg Hvalid Hnin) as [Hfirst _].
        cbv zeta in Hfirst. unfold sent.
        destruct (newAttempts w (snd (onAddChannel chatId s w))) as [ | a atts];
          [discriminate | ].
        simpl in Hfirst |- *. injection Hfirst as ->. reflexivity. }
    split; [ | split; [ | split]].
    + split; [ | intros Hnot; contradiction].
      intros Hsent. rewrite Hsent in Hhead. simpl in Hhead.
      destruct (includes (channels c) s); discriminate.
    + intros Hnot. contradiction.
    + intros _. exact Hhead.
    + intros _ Hinc Hprobe.
      assert (Hnin : ~ In s (channels c)).
      { intros Hin. apply includes_spec in Hin. congruence. }
      destruct (onAddChannel_fresh chatId s c w Hreg Hvalid Hnin) as [_ Hregistry].
      cbv zeta in Hregistry. now rewrite Hprobe in Hregistry.
  - assert (Hform : ~ (isHandle s \/ isNumericId s)).
    { intros H. apply validChannel_spec in H. congruence. }
    split; [ | split; [ | split]]; try (intros H; contradiction).
    + split; [intros _; exact Hform | intros _].
      rewrite (onAddChannel_registered chatId s c w Hreg). cbv zeta.
      unfold validChannel in Hvalid. apply orb_false_iff in Hvalid.
      destruct Hvalid as [-> ->]. simpl.
      rewrite sendMessage_eq. unfold sent, newAttempts. cbn [snd sendLog].
      destruct (resolves _); cbn [snd sendLog];
        now rewrite skipn_app, Nat.sub_diag, skipn_all.
    + intros _. now apply onAddChannel_invalid.
Qed.

(** X25: handlers that do not overlap leave no channel listed twice.  In
    every state reached from start-up by commands and monitoring cycles
    that each run to their end before the next one starts, no
    subscriber's list of channels holds a channel twice.  There,
    [/add_channel] with a channel that is already listed is turned down
    with the "already in the list" message and changes nothing; with a
    well-formed channel that is not listed, it first sends a probe to the
    channel, appends the channel when the probe is delivered, and changes
    nothing when the probe fails. *)
Theorem channels_no_duplicates (parseFloat : string -> float) (w : World) :
  reachable parseFloat w ->
  (forall id c, userConfigs w !! id = Some c -> NoDup (channels c)) /\
  (forall id c dest,
      userConfigs w !! id = Some c ->
      In dest (channels c) ->
      let w' := snd (onAddChannel id dest w) in
      userConfigs w' = userConfigs w /\
      map (fun a => (to a, text a)) (newAttempts w w') = [(Chat id, AlreadyListed dest)]) /\
  (forall id c dest,
      userConfigs w !! id = Some c ->
      validChannel dest = true ->
      ~ In dest (channels c) ->
      let probe := ProbeMsg (Regex.test usernamePattern dest) dest in
      let w' := snd (onAddChannel id dest w) in
      head (newAttempts w w') =
        Some {| to := Channel dest; text := probe;
                delivered := resolves (telegram w (sendLog w) (Channel dest) probe) |} /\
      userConfigs w' =
        if resolves (telegram w (sendLog w) (Channel dest) probe)
        then <[id := with_channels (channels c ++ [dest]) c]> (userConfigs w)
        else userConfigs w).
Proof.
  intros Hreach. pose proof (reachable_registryOk parseFloat w Hreach) as Hok.
  split; [ | split].
  - intros id c Hc. exact (proj1 (Hok id c Hc)).
  - intros id c dest Hc Hin. apply (onAddChannel_listed id dest c w Hc); [ | exact Hin].
    destruct (Hok id c Hc) as [_ Hall].
    rewrite List.Forall_forall in Hall. now apply Hall.
  - intros id c dest Hc Hvalid Hnin. now apply (onAddChannel_fresh id dest c w).
Qed.

Lemma subscribedWorld_reachable : reachable parseDigits subscribedWorld.
Proof.
  exists bootWorld, [Incoming 1 Start; Incoming 1 (AddChannel "@b")].
  split; [split; reflexivity | reflexivity].
Qed.

Lemma channels_no_duplicates_witness :
  let w := subscribedWorld in
  (forall id c, userConfigs w !! id = Some c -> NoDup (channels c)) /\
  (forall id c dest,
      userConfigs w !! id = Some c ->
      In dest (channels c) ->
      let w' := snd (onAddChannel id dest w) in
      userConfigs w' = userConfigs w /\
      map (fun a => (to a, text a)) (newAttempts w w') = [(Chat id, AlreadyListed dest)]) /\
  (forall id c dest,
      userConfigs w !! id = Some c ->
      validChannel dest = true ->
      ~ In dest (channels c) ->
      let probe := ProbeMsg (Regex.test usernamePattern dest) dest in
      let w' := snd (onAddChannel id dest w) in
      head (newAttempts w w') =
        Some {| to := Channel dest; text := probe;
                delivered := resolves (telegram w (sendLog w) (Channel dest) probe) |} /\
      userConfigs w' =
        if resolves (telegram w (sendLog w) (Channel dest) probe)
        then <[id := with_channels (channels c ++ [dest]) c]> (userConfigs w)
        else userConfigs w).
Proof.
  apply (channels_no_duplicates parseDigits subscribedWorld).
  exists bootWorld, [Incoming 1 Start; Incoming 1 (AddChannel "@b")].
  split; [split; reflexivity | reflexivity].
Defined.

(** A probe that Telegram rejects: subscriber 1 lists no channel, ["@a"]
    is well formed, and the list is still empty after [/add_channel @a]. *)
Lemma onAddChannel_probe_rejected_not_appended :
  let w := startedWorld in
  let w' := snd (onAddChannel 1 "@a" w) in
  w = run parseDigits [Incoming 1 Start] bootWorld /\
  channels <$> userConfigs w !! 1%Z = Some [] /\
  validChannel "@a" = true /\
  channels <$> userConfigs w' !! 1%Z = Some [].
Proof. vm_compute. auto. Qed.

Lemma reading_price_is_last_close_witness :
  (forall rsiData,
      getCurrentRSI parseDigits sampleKlines (clock bootWorld) = Ok rsiData ->
      (exists kline, last sampleKlines = Some kline /\
                     price rsiData = parseDigits (close kline)) /\
      lastRSIValue (snd (monitorRSI parseDigits (Ok sampleKlines) bootWorld)) = Some rsiData) /\
  ((RSI_PERIOD + 1 <= length sampleKlines)%nat ->
   exists rsiData, getCurrentRSI parseDigits sampleKlines (clock bootWorld) = Ok rsiData).
Proof.
  apply (reading_price_is_last_close parseDigits sampleKlines bootWorld).
  discriminate.
Defined.

(** * Further properties of the commands and the cycle *)

(** ** What a command touches *)

Lemma sent_app (w w' : World) (atts : list Attempt) :
  sendLog w' = sendLog w ++ atts -> sent w w' = map (fun a => (to a, text a)) atts.
Proof. intros H. unfold sent. now rewrite (newAttempts_app w w' atts H). Qed.

Ltac run_handler :=
  repeat first [ progress registry_step | case_reply ].

(** A command changes at most the entry of the chat it comes from. *)
Lemma handle_registry chatId cmd (w : World) :
  userConfigs (snd (handle chatId cmd w)) = userConfigs w \/
  exists c, userConfigs (snd (handle chatId cmd w)) = <[chatId := c]> (userConfigs w).
Proof.
  destruct cmd as [ | v | v | s | s | | | | ]; simpl.
  - right. rewrite onStart_registry. eauto.
  - unfold onSetOversold. destruct ((v <? 1)%Z || (99 <? v)%Z); run_handler; auto.
    destruct (userConfigs w !! chatId); run_handler; eauto.
  - unfold onSetOverbought. destruct ((v <? 1)%Z || (99 <? v)%Z); run_handler; auto.
    destruct (userConfigs w !! chatId); run_handler; eauto.
  - unfold onAddChannel. run_handler.
    destruct (userConfigs w !! chatId); run_handler; auto.
    destruct (negb _ && negb _); run_handler; auto.
    destruct (includes _ _); run_handler; eauto.
  - unfold onRemoveChannel. run_handler.
    destruct (userConfigs w !! chatId); run_handler; auto.
    destruct (indexOf _ _); run_handler; eauto.
  - unfold onListChannels. run_handler.
    destruct (userConfigs w !! chatId) as [c | ]; run_handler; auto.
    destruct (channels c); run_handler; auto.
  - unfold onStatus. run_handler.
    destruct (userConfigs w !! chatId); run_handler; auto.
  - unfold onToggle. run_handler.
    destruct (userConfigs w !! chatId); run_handler; eauto.
  - unfold onHelp. run_handler; auto.
Qed.

(** X2: a command sent from one chat leaves the entries of all other
    chats as they were, whatever the command and whatever Telegram
    answers. *)
Theorem handle_other_subscribers (chatId id : Z) (cmd : Command) (w : World) :
  id <> chatId ->
  userConfigs (snd (handle chatId cmd w)) !! id = userConfigs w !! id.
Proof.
  intros Hne.
  destruct (handle_registry chatId cmd w) as [-> | [c ->]]; [reflexivity | ].
  now rewrite lookup_insert_ne by congruence.
Qed.

Lemma handle_other_subscribers_witness :
  userConfigs (snd (handle 2 Start startedWorld)) !! 1%Z = userConfigs startedWorld !! 1%Z.
Proof.
  apply (handle_other_subscribers 2 1 Start startedWorld). discriminate.
Defined.

Ltac new_attempts :=
  unfold sent, newAttempts; cbn [sendLog fst snd];
  rewrite <- ?app_assoc, skipn_app, Nat.sub_diag, skipn_all; cbn [skipn app map to text].

(** X3: every command is answered in the chat it came from: each call it
    makes to Telegram goes to that chat, the probe of [/add_channel] to
    the channel it names apart, and at least one call goes to the chat. *)
Theorem handle_replies_to_sender (chatId : Z) (cmd : Command) (w : World) :
  let atts := newAttempts w (snd (handle chatId cmd w)) in
  Forall (fun a => to a = Chat chatId \/
                   exists s isUsername,
                     cmd = AddChannel s /\ to a = Channel s /\
                     text a = ProbeMsg isUsername s) atts /\
  Exists (fun a => to a = Chat chatId) atts.
Proof.
  cbv zeta.
  destruct cmd as [ | v | v | s | s | | | | ]; simpl.
  - unfold onStart. run_handler; new_attempts; split; repeat constructor.
  - unfold onSetOversold. destruct ((v <? 1)%Z || (99 <? v)%Z); run_handler;
      [new_attempts; split; repeat constructor .. | ].
    destruct (userConfigs w !! chatId); run_handler; new_attempts; split; repeat constructor.
  - unfold onSetOverbought. destruct ((v <? 1)%Z || (99 <? v)%Z); run_handler;
      [new_attempts; split; repeat constructor .. | ].
    destruct (userConfigs w !! chatId); run_handler; new_attempts; split; repeat constructor.
  - unfold onAddChannel. run_handler.
    destruct (userConfigs w !! chatId); run_handler;
      [ | new_attempts; split; repeat constructor ..].
    destruct (negb _ && negb _); run_handler;
      [new_attempts; split; repeat constructor .. | ].
    destruct (includes _ _); run_handler; new_attempts.
    all: split; [ | first [ now left | right; now left | right; right; now left ]].
    all: repeat first
           [ apply List.Forall_nil
           | apply List.Forall_cons;
             [cbn [to text]; first [ now left | right; eauto ] | ] ].
  - unfold onRemoveChannel. run_handler.
    destruct (userConfigs w !! chatId); run_handler;
      [ | new_attempts; split; repeat constructor ..].
    destruct (indexOf _ _); run_handler; new_attempts; split; repeat constructor.
  - unfold onListChannels. run_handler.
    destruct (userConfigs w !! chatId) as [c | ]; run_handler;
      [ | new_attempts; split; repeat constructor ..].
    destruct (channels c); run_handler; new_attempts; split; repeat constructor.
  - unfold onStatus. run_handler.
    destruct (userConfigs w !! chatId); run_handler; new_attempts; split; repeat constructor.
  - unfold onToggle. run_handler.
    destruct (userConfigs w !! chatId); run_handler; new_attempts; split; repeat constructor.
  - unfold onHelp. run_handler; new_attempts; split; repeat constructor.
Qed.

(** ** Commands from a chat that is not registered *)

(** X4: from a chat that has not sent [/start], no command but [/start]
    changes the registry, and the commands that need an entry answer
    with the "use /start first" message and nothing else. *)
Theorem handle_unregistered (chatId : Z) (cmd : Command) (w : World) :
  userConfigs w !! chatId = None ->
  let w' := snd (handle chatId cmd w) in
  (cmd <> Start -> userConfigs w' = userConfigs w) /\
  (needsRegistration cmd = true -> sent w w' = [(Chat chatId, UseStartFirst)]).
Proof.
  intros Hreg. cbv zeta.
  destruct cmd as [ | v | v | s | s | | | | ]; simpl.
  - split; [congruence | discriminate].
  - unfold onSetOversold. destruct ((v <? 1)%Z || (99 <? v)%Z); simpl.
    + split; [intros _ | discriminate]. run_handler; reflexivity.
    + run_handler; rewrite Hreg; run_handler; new_attempts; split; reflexivity.
  - unfold onSetOverbought. destruct ((v <? 1)%Z || (99 <? v)%Z); simpl.
    + split; [intros _ | discriminate]. run_handler; reflexivity.
    + run_handler; rewrite Hreg; run_handler; new_attempts; split; reflexivity.
  - unfold onAddChannel. run_handler; rewrite Hreg; run_handler; new_attempts;
      split; reflexivity.
  - unfold onRemoveChannel. run_handler; rewrite Hreg; run_handler; new_attempts;
      split; reflexivity.
  - unfold onListChannels. run_handler; rewrite Hreg; run_handler; new_attempts;
      split; reflexivity.
  - unfold onStatus. run_handler; rewrite Hreg; run_handler; new_attempts;
      split; reflexivity.
  - unfold onToggle. run_handler; rewrite Hreg; run_handler; new_attempts;
      split; reflexivity.
  - split; [intros _ | discriminate]. unfold onHelp. run_handler; reflexivity.
Qed.

Lemma handle_unregistered_witness :
  let w' := snd (handle 7 Toggle bootWorld) in
  (Toggle <> Start -> userConfigs w' = userConfigs bootWorld) /\
  (needsRegistration Toggle = true -> sent bootWorld w' = [(Chat 7, UseStartFirst)]).
Proof.
  apply (handle_unregistered 7 Toggle bootWorld). reflexivity.
Defined.

(** ** The registry after each command *)

Lemma with_lastAlertTime_same c : with_lastAlertTime (lastAlertTime c) c = c.
Proof. now destruct c. Qed.

Lemma with_channels_same c : with_channels (channels c) c = c.
Proof. now destruct c. Qed.

Lemma with_alertsEnabled_same c : with_alertsEnabled (alertsEnabled c) c = c.
Proof. now destruct c. Qed.

Lemma onSetOversold_registry chatId v (w : World) :
  userConfigs (snd (onSetOversold chatId v w)) =
    match userConfigs w !! chatId with
    | Some c =>
        if ((v <? 1)%Z || (99 <? v)%Z) then userConfigs w
        else <[chatId := with_oversold v c]> (userConfigs w)
    | None => userConfigs w
    end.
Proof.
  unfold onSetOversold.
  destruct ((v <? 1)%Z || (99 <? v)%Z); run_handler;
    destruct (userConfigs w !! chatId); run_handler; reflexivity.
Qed.

Lemma onSetOverbought_registry chatId v (w : World) :
  userConfigs (snd (onSetOverbought chatId v w)) =
    match userConfigs w !! chatId with
    | Some c =>
        if ((v <? 1)%Z || (99 <? v)%Z) then userConfigs w
        else <[chatId := with_overbought v c]> (userConfigs w)
    | None => userConfigs w
    end.
Proof.
  unfold onSetOverbought.
  destruct ((v <? 1)%Z || (99 <? v)%Z); run_handler;
    destruct (userConfigs w !! chatId); run_handler; reflexivity.
Qed.

Lemma onToggle_registry chatId (w : World) :
  userConfigs (snd (onToggle chatId w)) =
    match userConfigs w !! chatId with
    | Some c => <[chatId := with_alertsEnabled (negb (alertsEnabled c)) c]> (userConfigs w)
    | None => userConfigs w
    end.
Proof.
  unfold onToggle. run_handler.
  destruct (userConfigs w !! chatId); run_handler; reflexivity.
Qed.

Lemma onRemoveChannel_registry chatId s (w : World) :
  userConfigs (snd (onRemoveChannel chatId s w)) =
    match userConfigs w !! chatId with
    | Some c =>
        match indexOf (channels c) s with
        | Some i => <[chatId := with_channels (splice1 (channels c) i) c]> (userConfigs w)
        | None => userConfigs w
        end
    | None => userConfigs w
    end.
Proof.
  unfold onRemoveChannel. run_handler.
  destruct (userConfigs w !! chatId) as [c | ]; run_handler; try reflexivity.
  destruct (indexOf (channels c) s); run_handler; reflexivity.
Qed.

(** X5: the two threshold commands commute: whichever comes first, the
    registry is the same after both, whether or not the chat is
    registered, the values are in range, and the replies are delivered. *)
Theorem thresholds_commute (chatId a b : Z) (w : World) :
  userConfigs (snd (onSetOverbought chatId b (snd (onSetOversold chatId a w)))) =
  userConfigs (snd (onSetOversold chatId a (snd (onSetOverbought chatId b w)))).
Proof.
  rewrite onSetOverbought_registry, onSetOversold_registry.
  rewrite (onSetOversold_registry chatId a (snd (onSetOverbought chatId b w))).
  rewrite onSetOverbought_registry.
  destruct (userConfigs w !! chatId) as [c | ] eqn:Hreg.
  - destruct ((a <? 1)%Z || (99 <? a)%Z), ((b <? 1)%Z || (99 <? b)%Z);
      rewrite ?lookup_insert_eq, ?Hreg, ?insert_insert_eq; reflexivity.
  - rewrite Hreg. reflexivity.
Qed.

(** X6: [/toggle] twice leaves the registry as it was, whether or not the
    replies are delivered. *)
Theorem onToggle_twice (chatId : Z) (w : World) :
  userConfigs (snd (onToggle chatId (snd (onToggle chatId w)))) = userConfigs w.
Proof.
  rewrite onToggle_registry, onToggle_registry.
  destruct (userConfigs w !! chatId) as [c | ] eqn:Hreg.
  - rewrite lookup_insert_eq, insert_insert_eq. cbn [alertsEnabled with_alertsEnabled].
    rewrite negb_involutive.
    replace (with_alertsEnabled _ _) with c by now destruct c.
    now apply insert_id.
  - now rewrite Hreg.
Qed.

(** ** [/remove_channel] *)

Lemma indexOf_None (chs : list string) (s : string) :
  indexOf chs s = None <-> ~ In s chs.
Proof.
  induction chs as [ | y chs IH]; simpl; [tauto | ].
  destruct (String.eqb_spec y s) as [-> | Hne].
  - split; [discriminate | intros H; exfalso; apply H; now left].
  - destruct (indexOf chs s).
    + split; [discriminate | ]. intros H. exfalso.
      assert (Hin : In s chs).
      { destruct (in_dec string_dec s chs) as [Hin | Hnin]; [exact Hin | ].
        apply IH in Hnin. discriminate. }
      apply H. now right.
    + split; [ | reflexivity]. intros _ [H | H]; [congruence | ]. now apply IH.
Qed.

(** [indexOf] finds the first listing of a channel, and [splice] takes
    out that one. *)
Lemma splice1_indexOf (chs : list string) (s : string) (i : nat) :
  indexOf chs s = Some i ->
  exists before after,
    chs = before ++ s :: after /\ ~ In s before /\ splice1 chs i = before ++ after.
Proof.
  revert i. induction chs as [ | y chs IH]; intros i; [discriminate | ].
  simpl. destruct (String.eqb_spec y s) as [-> | Hne].
  - intros [= <-]. exists [], chs. repeat split. intros [].
  - destruct (indexOf chs s) as [j | ]; [ | discriminate].
    intros [= <-]. destruct (IH j eq_refl) as (before & after & -> & Hnin & Hsplice).
    exists (y :: before), after. repeat split.
    + intros [H | H]; [congruence | contradiction].
    + change (splice1 (y :: before ++ s :: after) (S j))
        with (y :: splice1 (before ++ s :: after) j).
      now rewrite Hsplice.
Qed.

(** X7: [/remove_channel] takes out the first listing of the channel and
    nothing else.  For a registered chat, when the channel is not listed
    the registry is left as it was and the reply says "not in the list";
    when it is listed, the channels before and after its first listing
    are kept in their order, no other field changes and the reply says
    "removed".  So a channel that was listed once is not listed
    afterwards, and one that was listed again further on still is. *)
Theorem onRemoveChannel_removes (chatId : Z) (s : string) (c : UserConfig) (w : World) :
  userConfigs w !! chatId = Some c ->
  let w' := snd (onRemoveChannel chatId s w) in
  (~ In s (channels c) ->
   userConfigs w' = userConfigs w /\
   sent w w' = [(Chat chatId, NotListed s)]) /\
  (In s (channels c) ->
   exists before after,
     channels c = before ++ s :: after /\
     ~ In s before /\
     userConfigs w' = <[chatId := with_channels (before ++ after) c]> (userConfigs w) /\
     sent w w' = [(Chat chatId, ChannelRemoved s)] /\
     (NoDup (channels c) -> ~ In s (before ++ after)) /\
     (In s after -> In s (before ++ after))).
Proof.
  intros Hreg. cbv zeta. split.
  - intros Hnin. pose proof (proj2 (indexOf_None (channels c) s) Hnin) as Hidx. split.
    + now rewrite onRemoveChannel_registry, Hreg, Hidx.
    + unfold onRemoveChannel. run_handler. rewrite Hreg. run_handler. rewrite Hidx.
      run_handler; new_attempts; reflexivity.
  - intros Hin.
    destruct (indexOf (channels c) s) as [i | ] eqn:Hidx;
      [ | apply indexOf_None in Hidx; contradiction].
    destruct (splice1_indexOf (channels c) s i Hidx) as (before & after & Hchs & Hnin & Hsplice).
    exists before, after.
    split; [exact Hchs | split; [exact Hnin | split; [ | split; [ | split]]]].
    + now rewrite onRemoveChannel_registry, Hreg, Hidx, Hsplice.
    + unfold onRemoveChannel. run_handler. rewrite Hreg. run_handler. rewrite Hidx.
      run_handler; new_attempts; reflexivity.
    + rewrite Hchs. intros Hnd Hkept.
      apply NoDup_ListNoDup, List.NoDup_remove_2 in Hnd. contradiction.
    + intros Hafter. apply in_or_app. now right.
Qed.

Lemma onRemoveChannel_removes_witness :
  let c := with_channels ["@b"]%string (defaultConfig 1) in
  let w' := snd (onRemoveChannel 1 "@b" subscribedWorld) in
  (~ In "@b"%string (channels c) ->
   userConfigs w' = userConfigs subscribedWorld /\
   sent subscribedWorld w' = [(Chat 1, NotListed "@b")]) /\
  (In "@b"%string (channels c) ->
   exists before after,
     channels c = before ++ "@b"%string :: after /\
     ~ In "@b"%string before /\
     userConfigs w' =
       <[1%Z := with_channels (before ++ after) c]> (userConfigs subscribedWorld) /\
     sent subscribedWorld w' = [(Chat 1, ChannelRemoved "@b")] /\
     (NoDup (channels c) -> ~ In "@b"%string (before ++ after)) /\
     (In "@b"%string after -> In "@b"%string (before ++ after))).
Proof.
  apply (onRemoveChannel_removes 1 "@b"
           (with_channels ["@b"]%string (defaultConfig 1)) subscribedWorld).
  reflexivity.
Defined.

(** X8: adding a channel and removing it again restores the registry: for
    a registered chat, a well-formed channel that is not listed and a
    probe that Telegram delivers, [/add_channel] puts the channel at the
    end of the list and [/remove_channel] then gives back the registry
    as it was before, whatever happens to the replies. *)
Theorem add_then_remove (chatId : Z) (s : string) (c : UserConfig) (w : World) :
  userConfigs w !! chatId = Some c ->
  validChannel s = true ->
  ~ In s (channels c) ->
  resolves (telegram w (sendLog w) (Channel s)
              (ProbeMsg (Regex.test usernamePattern s) s)) = true ->
  let w1 := snd (onAddChannel chatId s w) in
  let w2 := snd (onRemoveChannel chatId s w1) in
  channels <$> userConfigs w1 !! chatId = Some (channels c ++ [s]) /\
  userConfigs w2 = userConfigs w.
Proof.
  intros Hreg Hvalid Hnin Hprobe. cbv zeta.
  destruct (onAddChannel_fresh chatId s c w Hreg Hvalid Hnin) as [_ Hadd].
  cbv zeta in Hadd. rewrite Hprobe in Hadd.
  split.
  - rewrite Hadd, lookup_insert_eq. reflexivity.
  - rewrite onRemoveChannel_registry, Hadd, lookup_insert_eq.
    cbn [channels with_channels].
    assert (Hidx : indexOf (channels c ++ [s]) s = Some (length (channels c))).
    { clear - Hnin. induction (channels c) as [ | y chs IH]; simpl.
      - now rewrite String.eqb_refl.
      - destruct (String.eqb_spec y s) as [-> | Hne].
        + exfalso. apply Hnin. now left.
        + rewrite IH; [reflexivity | ]. intros H. apply Hnin. now right. }
    rewrite Hidx. unfold splice1.
    rewrite firstn_app, Nat.sub_diag, firstn_all, skipn_app.
    replace (S (length (channels c)) - length (channels c))%nat with 1%nat by lia.
    rewrite skipn_all2 by lia. simpl. rewrite !app_nil_r.
    rewrite insert_insert_eq.
    replace (with_channels (channels c) _) with c by now destruct c.
    now apply insert_id.
Qed.

Lemma add_then_remove_witness :
  let w1 := snd (onAddChannel 1 "@b" startedWorld) in
  let w2 := snd (onRemoveChannel 1 "@b" w1) in
  channels <$> userConfigs w1 !! 1%Z = Some (channels (defaultConfig 1) ++ ["@b"%string]) /\
  userConfigs w2 = userConfigs startedWorld.
Proof.
  apply (add_then_remove 1 "@b" (defaultConfig 1) startedWorld).
  - reflexivity.
  - reflexivity.
  - simpl. tauto.
  - reflexivity.
Defined.

(** X9: when Telegram delivers the probe of [/add_channel] but rejects the
    confirmation, the channel has been appended all the same, and the
    chat is then sent the "could not add" message. *)
Theorem onAddChannel_confirmation_lost (chatId : Z) (s : string) (c : UserConfig)
    (w : World) :
  let isUsername := Regex.test usernamePattern s in
  let probe := {| to := Channel s; text := ProbeMsg isUsername s; delivered := true |} in
  userConfigs w !! chatId = Some c ->
  validChannel s = true ->
  ~ In s (channels c) ->
  resolves (telegram w (sendLog w) (Channel s) (ProbeMsg isUsername s)) = true ->
  resolves (telegram w (sendLog w ++ [probe]) (Chat chatId) (ChannelAdded isUsername s))
    = false ->
  let w' := snd (onAddChannel chatId s w) in
  userConfigs w' = <[chatId := with_channels (channels c ++ [s]) c]> (userConfigs w) /\
  sent w w' =
    [(Channel s, ProbeMsg isUsername s);
     (Chat chatId, ChannelAdded isUsername s);
     (Chat chatId, CouldNotAdd isUsername s)].
Proof.
  cbv zeta. intros Hreg Hvalid Hnin Hprobe Hconfirm.
  rewrite (onAddChannel_registered chatId s c w Hreg). cbv zeta.
  unfold validChannel in Hvalid. apply orb_true_iff in Hvalid.
  assert (Hfmt : negb (Regex.test usernamePattern s)
                 && negb (Regex.test chatIdPattern s) = false).
  { destruct Hvalid as [-> | ->]; simpl; [reflexivity | apply andb_false_r]. }
  rewrite Hfmt.
  assert (Hinc : includes (channels c) s = false).
  { destruct (includes (channels c) s) eqn:H; [ | reflexivity].
    apply includes_spec in H. contradiction. }
  rewrite Hinc.
  unfold try_catch, bind, setConfig. rewrite sendMessage_eq, Hprobe.
  rewrite sendMessage_eq. cbn [fst snd userConfigs sendLog telegram].
  rewrite Hconfirm. rewrite sendMessage_eq. cbn [fst snd userConfigs sendLog telegram].
  split; [reflexivity | ]. new_attempts. reflexivity.
Qed.

Lemma onAddChannel_confirmation_lost_witness :
  let w' := snd (onAddChannel 1 "@b" unconfirmingWorld) in
  userConfigs w' =
    <[1%Z := with_channels (channels (defaultConfig 1) ++ ["@b"%string]) (defaultConfig 1)]>
      (userConfigs unconfirmingWorld) /\
  sent unconfirmingWorld w' =
    [(Channel "@b", ProbeMsg (Regex.test usernamePattern "@b") "@b");
     (Chat 1, ChannelAdded (Regex.test usernamePattern "@b") "@b");
     (Chat 1, CouldNotAdd (Regex.test usernamePattern "@b") "@b")].
Proof.
  apply (onAddChannel_confirmation_lost 1 "@b" (defaultConfig 1) unconfirmingWorld).
  - reflexivity.
  - reflexivity.
  - simpl. tauto.
  - reflexivity.
  - reflexivity.
Defined.

(** ** Invariants of the entries *)

Lemma inRange_checked (v : Z) : (v <? 1)%Z || (99 <? v)%Z = false -> inRange v.
Proof.
  intros H. apply orb_false_iff in H. destruct H as [H1 H2].
  apply Z.ltb_ge in H1, H2. unfold inRange. lia.
Qed.

(** The edits a command can make to the entry of its chat. *)
Lemma handle_registry_cases chatId cmd (w : World) :
  let configs := userConfigs w in
  let configs' := userConfigs (snd (handle chatId cmd w)) in
  configs' = configs \/
  configs' = <[chatId := defaultConfig chatId]> configs \/
  exists c,
    configs !! chatId = Some c /\
    ((exists v, inRange v /\ configs' = <[chatId := with_oversold v c]> configs) \/
     (exists v, inRange v /\ configs' = <[chatId := with_overbought v c]> configs) \/
     (exists chs, configs' = <[chatId := with_channels chs c]> configs) \/
     (exists b, configs' = <[chatId := with_alertsEnabled b c]> configs)).
Proof.
  cbv zeta. destruct cmd as [ | v | v | s | s | | | | ]; simpl.
  - right; left. apply onStart_registry.
  - rewrite onSetOversold_registry.
    destruct (userConfigs w !! chatId) as [c | ] eqn:Hreg; [ | now left].
    destruct ((v <? 1)%Z || (99 <? v)%Z) eqn:Hv; [now left | ].
    right; right. exists c. split; [reflexivity | ]. left. exists v.
    split; [now apply inRange_checked | reflexivity].
  - rewrite onSetOverbought_registry.
    destruct (userConfigs w !! chatId) as [c | ] eqn:Hreg; [ | now left].
    destruct ((v <? 1)%Z || (99 <? v)%Z) eqn:Hv; [now left | ].
    right; right. exists c. split; [reflexivity | ]. right; left. exists v.
    split; [now apply inRange_checked | reflexivity].
  - unfold onAddChannel. run_handler.
    destruct (userConfigs w !! chatId) as [c | ] eqn:Hreg; run_handler; auto.
    destruct (negb _ && negb _); run_handler; auto.
    destruct (includes _ _); run_handler; auto.
    all: right; right; exists c; split; [reflexivity | ]; right; right; left; eauto.
  - rewrite onRemoveChannel_registry.
    destruct (userConfigs w !! chatId) as [c | ] eqn:Hreg; [ | now left].
    destruct (indexOf (channels c) s) as [i | ]; [ | now left].
    right; right. exists c. split; [reflexivity | ]. right; right; left. eauto.
  - left. unfold onListChannels. run_handler.
    destruct (userConfigs w !! chatId) as [c | ]; run_handler; auto.
    destruct (channels c); run_handler; auto.
  - left. unfold onStatus. run_handler.
    destruct (userConfigs w !! chatId); run_handler; auto.
  - rewrite onToggle_registry.
    destruct (userConfigs w !! chatId) as [c | ] eqn:Hreg; [ | now left].
    right; right. exists c. split; [reflexivity | ]. right; right; right. eauto.
  - left. unfold onHelp. run_handler; auto.
Qed.

Lemma forEach_invariant {A} (I : World -> Prop) (xs : list A) (body : A -> M unit) :
  (forall x w, I w -> I (snd (body x w))) ->
  forall w, I w -> I (snd (forEach xs body w)).
Proof.
  intros Hbody. induction xs as [ | x xs IH]; intros w Hw; [exact Hw | ].
  rewrite forEach_cons. specialize (Hbody x w Hw).
  destruct (body x w) as [[[] | e] w1]; simpl in *; auto.
Qed.

(** A visit of the monitoring loop leaves the registry as it was or sets
    the time of the last alert of the entry visited. *)
Lemma checkUser_registry rsiData chatId (w : World) :
  userConfigs (snd (checkUser rsiData chatId w)) = userConfigs w \/
  exists now, userConfigs (snd (checkUser rsiData chatId w)) =
                touched chatId now (userConfigs w).
Proof.
  unfold checkUser, bind, getConfig, Date_now. simpl.
  destruct (userConfigs w !! chatId) as [userConfig | ]; [ | now left].
  destruct (shouldSendAlert userConfig rsiData (clock w)); [ | now left].
  destruct (sendRSIAlert_cases chatId rsiData userConfig w)
    as [(_ & ->) | [(outcomes & _ & _ & ->) | (before & channel & rest & outcomes & _ & _ & _ & ->)]];
    eauto.
Qed.

(** A property of the registry that setting a [lastAlertTime] keeps is
    kept by a monitoring cycle. *)
Lemma monitorRSI_invariant parseFloat (P : gmap Z UserConfig -> Prop) fetched (w : World) :
  (forall configs id now, P configs -> P (touched id now configs)) ->
  P (userConfigs w) -> P (userConfigs (snd (monitorRSI parseFloat fetched w))).
Proof.
  intros Htouch Hw. unfold monitorRSI, try_catch.
  unfold bind at 1. unfold lift at 1.
  destruct fetched as [klines | e]; [ | exact Hw]. cbv beta iota.
  unfold bind at 1. unfold Date_now at 1. cbv beta iota.
  unfold bind at 1. unfold lift at 1.
  destruct (getCurrentRSI parseFloat klines (clock w)) as [rsiData | e]; [ | exact Hw].
  cbv beta iota.
  unfold bind at 1. unfold setLastRSIValue at 1. cbv beta iota.
  unfold bind at 1. unfold registeredIds at 1. cbv beta iota.
  assert (Hvisit : forall id w1, P (userConfigs w1) ->
                     P (userConfigs (snd (checkUser rsiData id w1)))).
  { intros id w1 H1.
    destruct (checkUser_registry rsiData id w1) as [-> | [now ->]]; auto. }
  match goal with |- context [forEach ?ids ?body ?w1] =>
    pose proof (forEach_invariant (fun w => P (userConfigs w)) ids body Hvisit w1 Hw) as Hloop;
    destruct (forEach ids body w1) as [[[] | e] w2] end;
  simpl in *; exact Hloop.
Qed.

Lemma reachable_invariant parseFloat (P : gmap Z UserConfig -> Prop) :
  P ∅ ->
  (forall chatId cmd w, P (userConfigs w) -> P (userConfigs (snd (handle chatId cmd w)))) ->
  (forall configs id now, P configs -> P (touched id now configs)) ->
  forall w, reachable parseFloat w -> P (userConfigs w).
Proof.
  intros Hempty Hhandle Htouch w (w0 & evs & [Hw0 _] & ->).
  assert (H0 : P (userConfigs w0)) by now rewrite Hw0.
  clear Hw0. revert w0 H0. induction evs as [ | ev evs IH]; intros w0 H0; [exact H0 | ].
  simpl. apply IH. destruct ev as [chatId cmd | fetched | ms]; simpl.
  - now apply Hhandle.
  - now apply monitorRSI_invariant.
  - exact H0.
Qed.

Lemma configOk_insert (configs : gmap Z UserConfig) chatId c :
  (forall id c', configs !! id = Some c' -> configOk id c') ->
  configOk chatId c ->
  forall id c', <[chatId := c]> configs !! id = Some c' -> configOk id c'.
Proof.
  intros Hall Hc id c' Hlook.
  destruct (decide (chatId = id)) as [-> | Hne].
  - rewrite lookup_insert_eq in Hlook. now injection Hlook as <-.
  - rewrite lookup_insert_ne in Hlook by assumption. eauto.
Qed.

(** X10: in every state the bot can reach, each entry of the registry is
    filed under the chat id it holds, and both of its thresholds are
    between 1 and 99. *)
Theorem reachable_configOk (parseFloat : string -> float) (w : World)
    (id : Z) (c : UserConfig) :
  reachable parseFloat w ->
  userConfigs w !! id = Some c ->
  configOk id c.
Proof.
  intros Hreach. revert id c.
  apply (reachable_invariant parseFloat
           (fun configs => forall id c, configs !! id = Some c -> configOk id c));
    [ | | | exact Hreach].
  - intros id c H. rewrite lookup_empty in H. discriminate.
  - intros chatId cmd w0 Hall.
    destruct (handle_registry_cases chatId cmd w0)
      as [-> | [-> | (c0 & Hreg & [(v & Hv & ->) | [(v & Hv & ->) | [(chs & ->) | (b & ->)]]])]];
      [exact Hall | apply configOk_insert; [exact Hall | ] ..].
    + unfold configOk, inRange. simpl. lia.
    + pose proof (Hall chatId c0 Hreg). unfold configOk, inRange in *. simpl. lia.
    + pose proof (Hall chatId c0 Hreg). unfold configOk, inRange in *. simpl. lia.
    + exact (Hall chatId c0 Hreg).
    + exact (Hall chatId c0 Hreg).
  - intros configs chatId now Hall. unfold touched.
    destruct (configs !! chatId) as [stored | ] eqn:Hreg; [ | exact Hall].
    apply configOk_insert; [exact Hall | ]. exact (Hall chatId stored Hreg).
Qed.

Lemma reachable_configOk_witness :
  configOk 1 (with_channels ["@b"]%string (defaultConfig 1)).
Proof.
  apply (reachable_configOk parseDigits subscribedWorld 1).
  - apply subscribedWorld_reachable.
  - reflexivity.
Defined.

(** ** Where entries come from *)

Lemma handle_needs_start chatId cmd (w : World) :
  userConfigs w !! chatId = None ->
  cmd <> Start ->
  userConfigs (snd (handle chatId cmd w)) = userConfigs w.
Proof.
  intros Hreg Hcmd.
  destruct (handle_registry_cases chatId cmd w)
    as [H | [H | (c0 & Hc0 & _)]]; cbv zeta in *; [exact H | | congruence].
  destruct cmd as [ | v | v | s | s | | | | ]; [congruence | .. ]; simpl in *.
  - rewrite onSetOversold_registry, Hreg. reflexivity.
  - rewrite onSetOverbought_registry, Hreg. reflexivity.
  - unfold onAddChannel, bind, getConfig. simpl. rewrite Hreg.
    apply (onlySends_sendMessage (Chat chatId) UseStartFirst w).
  - rewrite onRemoveChannel_registry, Hreg. reflexivity.
  - unfold onListChannels, bind, getConfig. simpl. rewrite Hreg.
    apply (onlySends_sendMessage (Chat chatId) UseStartFirst w).
  - unfold onStatus, bind, getConfig. simpl. rewrite Hreg.
    apply (onlySends_sendMessage (Chat chatId) UseStartFirst w).
  - rewrite onToggle_registry, Hreg. reflexivity.
  - apply (onlySends_sendMessage (Chat chatId) HelpMsg w).
Qed.

(** X11: entries come from [/start] and stay.  Whatever happens, a chat
    that has an entry still has one afterwards, and a chat that has none
    gets one only by sending [/start] itself. *)
Theorem registration_lifecycle (parseFloat : string -> float) (ev : Event)
    (w : World) (id : Z) :
  (is_Some (userConfigs w !! id) ->
   is_Some (userConfigs (step parseFloat ev w) !! id)) /\
  (userConfigs w !! id = None ->
   is_Some (userConfigs (step parseFloat ev w) !! id) ->
   ev = Incoming id Start).
Proof.
  destruct ev as [chatId cmd | fetched | ms]; simpl.
  - split.
    + intros Hsome.
      destruct (handle_registry chatId cmd w) as [-> | [c ->]]; [exact Hsome | ].
      destruct (decide (chatId = id)) as [<- | Hne].
      * rewrite lookup_insert_eq. eauto.
      * now rewrite lookup_insert_ne.
    + intros Hnone [c Hc].
      destruct (decide (chatId = id)) as [<- | Hne].
      * destruct cmd as [ | v | v | s | s | | | | ]; [reflexivity | .. ];
          rewrite (handle_needs_start chatId _ w Hnone) in Hc by discriminate;
          congruence.
      * destruct (handle_registry chatId cmd w) as [H | [c' H]]; rewrite H in Hc.
        -- congruence.
        -- rewrite lookup_insert_ne in Hc by assumption. congruence.
  - split.
    + apply (monitorRSI_invariant parseFloat (fun configs => is_Some (configs !! id))).
      intros configs chatId now Hsome. unfold touched.
      destruct (configs !! chatId) as [stored | ] eqn:Hstored; [ | exact Hsome].
      destruct (decide (chatId = id)) as [<- | Hne].
      * rewrite lookup_insert_eq. eauto.
      * now rewrite lookup_insert_ne.
    + intros Hnone [c Hc]. exfalso.
      assert (H : userConfigs (snd (monitorRSI parseFloat fetched w)) !! id = None);
        [ | congruence].
      apply (monitorRSI_invariant parseFloat (fun configs => configs !! id = None));
        [ | exact Hnone].
      intros configs chatId now Hn. unfold touched.
      destruct (configs !! chatId) as [stored | ] eqn:Hstored; [ | exact Hn].
      destruct (decide (chatId = id)) as [<- | Hne]; [congruence | ].
      now rewrite lookup_insert_ne.
  - split; [auto | ]. intros Hnone [c Hc]. congruence.
Qed.

(** ** What a monitoring cycle touches *)

Lemma forgetTime_touched chatId now (configs : gmap Z UserConfig) :
  forgetTime <$> touched chatId now configs = forgetTime <$> configs.
Proof.
  unfold touched. destruct (configs !! chatId) as [stored | ] eqn:Hreg; [ | reflexivity].
  rewrite fmap_insert. apply insert_id. rewrite lookup_fmap, Hreg. reflexivity.
Qed.

(** X12: a monitoring cycle changes nothing in the registry but times of
    last alert: with those forgotten the registry is the same before and
    after, so no subscriber is added or dropped and no threshold, switch
    or list of channels changes. *)
Theorem monitorRSI_only_lastAlertTime (parseFloat : string -> float)
    (fetched : result (list KlineData)) (w : World) :
  forgetTime <$> userConfigs (snd (monitorRSI parseFloat fetched w)) =
  forgetTime <$> userConfigs w.
Proof.
  apply (monitorRSI_invariant parseFloat
           (fun configs => forgetTime <$> configs = forgetTime <$> userConfigs w));
    [ | reflexivity].
  intros configs id now H. now rewrite forgetTime_touched.
Qed.

Lemma monitorRSI_failed parseFloat klines e (w : World) :
  getCurrentRSI parseFloat klines (clock w) = Throw e ->
  monitorRSI parseFloat (Ok klines) w = (Ok tt, w).
Proof.
  intros Hget. unfold monitorRSI, try_catch.
  unfold bind at 1. unfold lift at 1. cbv beta iota.
  unfold bind at 1. unfold Date_now at 1. cbv beta iota.
  unfold bind at 1. unfold lift at 1. rewrite Hget. reflexivity.
Qed.

(** X13: a monitoring cycle that gets no reading changes nothing: when the
    request to Binance fails, or fewer than [RSI_PERIOD + 1] candles come
    back, the cycle ends normally, leaves the registry and the stored
    reading as they were, and sends nothing. *)
Theorem monitorRSI_no_reading (parseFloat : string -> float)
    (fetched : result (list KlineData)) (w : World) :
  (forall klines, fetched = Ok klines -> (length klines < RSI_PERIOD + 1)%nat) ->
  monitorRSI parseFloat fetched w = (Ok tt, w).
Proof.
  intros Hshort. destruct fetched as [klines | e]; [ | reflexivity].
  apply (monitorRSI_failed parseFloat klines (NotEnoughPrices (RSI_PERIOD + 1))).
  unfold getCurrentRSI, calculateRSI. rewrite length_map.
  specialize (Hshort klines eq_refl).
  destruct (Nat.ltb_spec (length klines) (RSI_PERIOD + 1)); [reflexivity | lia].
Qed.

Lemma monitorRSI_no_reading_witness :
  monitorRSI parseDigits (Ok (firstn 14 sampleKlines)) startedWorld = (Ok tt, startedWorld).
Proof.
  apply (monitorRSI_no_reading parseDigits (Ok (firstn 14 sampleKlines)) startedWorld).
  intros klines H. injection H as <-. simpl. lia.
Defined.

(** ** The steps of a cycle only add to the log *)

Section Advances.

Lemma advances_ret {A} (a : A) : advances (ret a).
Proof.
  intros w. simpl. split; [reflexivity | split; [lia | ]].
  exists []. now rewrite app_nil_r.
Qed.

Lemma advances_throw {A} (e : exn) : advances (@throw A e).
Proof.
  intros w. simpl. split; [reflexivity | split; [lia | ]].
  exists []. now rewrite app_nil_r.
Qed.

Lemma advances_bind {A B} (m : M A) (k : A -> M B) :
  advances m -> (forall a, advances (k a)) -> advances (bind m k).
Proof.
  intros Hm Hk w. unfold bind.
  destruct (Hm w) as (Ht & Hc & atts & Hs).
  destruct (m w) as [[a | e] w1]; simpl in *.
  - destruct (Hk a w1) as (Ht' & Hc' & atts' & Hs').
    split; [congruence | split].
    + intros Hp. specialize (Hc Hp).
      assert (Hp1 : patient w1) by (unfold patient in *; now rewrite Ht).
      specialize (Hc' Hp1). lia.
    + exists (atts ++ atts'). rewrite Hs', Hs. now rewrite app_assoc.
  - split; [exact Ht | split; [exact Hc | eauto]].
Qed.

Lemma advances_try_catch {A} (m : M A) (h : exn -> M A) :
  advances m -> (forall e, advances (h e)) -> advances (try_catch m h).
Proof.
  intros Hm Hh w. unfold try_catch.
  destruct (Hm w) as (Ht & Hc & atts & Hs).
  destruct (m w) as [[a | e] w1]; simpl in *.
  - split; [exact Ht | split; [exact Hc | eauto]].
  - destruct (Hh e w1) as (Ht' & Hc' & atts' & Hs').
    split; [congruence | split].
    + intros Hp. specialize (Hc Hp).
      assert (Hp1 : patient w1) by (unfold patient in *; now rewrite Ht).
      specialize (Hc' Hp1). lia.
    + exists (atts ++ atts'). rewrite Hs', Hs. now rewrite app_assoc.
Qed.

Lemma advances_forEach {A} (xs : list A) (body : A -> M unit) :
  (forall x, advances (body x)) -> advances (forEach xs body).
Proof.
  intros Hbody. induction xs as [ | x xs IH]; simpl.
  - apply advances_ret.
  - apply advances_bind; auto.
Qed.

Lemma advances_sendMessage dest msg : advances (sendMessage dest msg).
Proof.
  intros w. rewrite sendMessage_eq. simpl.
  split; [reflexivity | split; [ | eauto]].
  intros Hp. specialize (Hp (sendLog w) dest msg). lia.
Qed.

Lemma advances_getConfig id : advances (getConfig id).
Proof.
  intros w. simpl. split; [reflexivity | split; [lia | ]].
  exists []. now rewrite app_nil_r.
Qed.

Lemma advances_Date_now : advances Date_now.
Proof.
  intros w. simpl. split; [reflexivity | split; [lia | ]].
  exists []. now rewrite app_nil_r.
Qed.

Lemma advances_setConfig id c : advances (setConfig id c).
Proof.
  intros w. simpl. split; [reflexivity | split; [lia | ]].
  exists []. now rewrite app_nil_r.
Qed.

Lemma advances_sendRSIAlert chatId rsiData userConfig :
  advances (sendRSIAlert chatId rsiData userConfig).
Proof.
  unfold sendRSIAlert.
  apply advances_try_catch; [ | intros; apply advances_ret].
  apply advances_bind; [apply advances_sendMessage | intros _].
  apply advances_bind.
  - apply advances_forEach. intros ch. unfold sendToChannel.
    apply advances_try_catch; intros; apply advances_sendMessage.
  - intros _. unfold touchLastAlertTime.
    apply advances_bind; [apply advances_getConfig | intros entry].
    apply advances_bind; [apply advances_Date_now | intros now].
    destruct entry; [apply advances_setConfig | apply advances_throw].
Qed.

Lemma advances_checkUser rsiData chatId : advances (checkUser rsiData chatId).
Proof.
  unfold checkUser.
  apply advances_bind; [apply advances_getConfig | intros entry].
  destruct entry as [userConfig | ]; [ | apply advances_ret].
  apply advances_bind; [apply advances_Date_now | intros now].
  destruct (shouldSendAlert userConfig rsiData now);
    [apply advances_sendRSIAlert | apply advances_ret].
Qed.

End Advances.

(** ** The log of a cycle *)

Lemma channelTrace_shape chatId message (chs : list string) (outcomes : list (string * bool)) :
  (forall p, In p outcomes -> In (fst p) chs) ->
  Forall (fun a => (to a = Chat chatId /\ exists ch, text a = ChannelWarning ch) \/
                   (exists ch, In ch chs /\ to a = Channel ch /\ text a = message))
         (channelTrace chatId message outcomes).
Proof.
  intros Hin. unfold channelTrace. rewrite List.Forall_forall. intros a Ha.
  apply in_flat_map in Ha. destruct Ha as ([ch ok] & Hp & Ha).
  specialize (Hin _ Hp). unfold channelAttempts in Ha. simpl in *.
  destruct ok; simpl in Ha.
  - destruct Ha as [<- | []]. right. exists ch. auto.
  - destruct Ha as [<- | [<- | []]]; [right; exists ch; auto | left; simpl; eauto].
Qed.

Lemma sendRSIAlert_dispatchLog chatId rsiData userConfig (w : World) :
  dispatchLog chatId (alertMessage rsiData userConfig) (channels userConfig)
    (newAttempts w (snd (sendRSIAlert chatId rsiData userConfig w))).
Proof.
  destruct (sendRSIAlert_cases chatId rsiData userConfig w)
    as [(Hatts & _) | [(outcomes & Hlen & Hatts & _)
                      | (before & channel & rest & outcomes & Hchs & Hlen & Hatts & _)]];
    cbv zeta in Hatts; rewrite Hatts.
  - exists false, []. split; [reflexivity | split; [constructor | ]].
    exists (channels userConfig). reflexivity.
  - eexists true, _. split; [reflexivity | split].
    + apply channelTrace_shape. intros [ch ok] Hp. simpl. now apply in_combine_l in Hp.
    + exists []. now rewrite channelsTried_trace, app_nil_r.
  - eexists true, _. split; [reflexivity | split].
    + apply Forall_app. split.
      * apply channelTrace_shape. intros [ch ok] Hp. simpl. apply in_combine_l in Hp.
        rewrite Hchs. apply in_or_app. now left.
      * unfold abortedAttempts. repeat apply List.Forall_cons; [ | | apply List.Forall_nil].
        -- right. exists channel. simpl. split; [ | auto].
           rewrite Hchs. apply in_or_app. right. now left.
        -- left. simpl. eauto.
    + exists rest. unfold channelsTried. rewrite flat_map_app.
      fold (channelsTried (channelTrace chatId (alertMessage rsiData userConfig)
                             (combine before outcomes))).
      rewrite channelsTried_trace by assumption.
      simpl. rewrite Hchs, <- app_assoc. reflexivity.
Qed.

Lemma sendRSIAlert_returns chatId rsiData userConfig (w : World) :
  fst (sendRSIAlert chatId rsiData userConfig w) = Ok tt.
Proof.
  rewrite sendRSIAlert_eq. cbv zeta.
  destruct (resolves _); [ | reflexivity].
  destruct (fst (forEach _ _ _)); [ | reflexivity].
  destruct (userConfigs _ !! chatId); reflexivity.
Qed.

Lemma checkUser_eq rsiData chatId c (w : World) :
  userConfigs w !! chatId = Some c ->
  checkUser rsiData chatId w =
    if shouldSendAlert c rsiData (clock w) then sendRSIAlert chatId rsiData c w
    else (Ok tt, w).
Proof.
  intros Hreg. unfold checkUser, bind, getConfig, Date_now. simpl. rewrite Hreg.
  destruct (shouldSendAlert c rsiData (clock w)); reflexivity.
Qed.

Lemma touched_other chatId now (configs : gmap Z UserConfig) id :
  id <> chatId -> touched chatId now configs !! id = configs !! id.
Proof.
  intros Hne. unfold touched. destruct (configs !! chatId); [ | reflexivity].
  now rewrite lookup_insert_ne by congruence.
Qed.

(** The loop over the entries: each chat is visited once, with the entry
    it had when the loop began. *)
Lemma forEach_checkUser rsiData (configs : gmap Z UserConfig) (inOrder : Prop) (start : Z)
    (ids : list Z) :
  NoDup ids ->
  forall w,
    (forall id, In id ids -> exists c, configs !! id = Some c /\
                                       userConfigs w !! id = Some c) ->
    (inOrder -> patient w /\ (start <= clock w)%Z) ->
    exists logs,
      Forall2 (visitLog configs rsiData inOrder start) ids logs /\
      sendLog (snd (forEach ids (checkUser rsiData) w)) = sendLog w ++ concat logs.
Proof.
  induction ids as [ | id ids IH]; intros Hnd w Hreg Horder.
  - exists []. split; [constructor | ]. simpl. now rewrite app_nil_r.
  - apply NoDup_cons in Hnd. destruct Hnd as [Hid Hnd].
    rewrite list_elem_of_In in Hid.
    destruct (Hreg id (or_introl eq_refl)) as (c & Hc & Hw).
    destruct (advances_checkUser rsiData id w) as (Htel & Hclock & atts & Hlog).
    pose proof (checkUser_registry rsiData id w) as Hregistry.
    rewrite forEach_cons.
    assert (Hret : fst (checkUser rsiData id w) = Ok tt).
    { rewrite (checkUser_eq rsiData id c w Hw).
      destruct (shouldSendAlert c rsiData (clock w)); [apply sendRSIAlert_returns | reflexivity]. }
    assert (Hvisit : visitLog configs rsiData inOrder start id atts).
    { exists c, (clock w). split; [exact Hc | split; [intros H; now apply Horder | ]].
      rewrite <- (newAttempts_app _ _ _ Hlog).
      rewrite (checkUser_eq rsiData id c w Hw).
      destruct (shouldSendAlert c rsiData (clock w)).
      - apply sendRSIAlert_dispatchLog.
      - unfold newAttempts. simpl. apply skipn_all. }
    destruct (checkUser rsiData id w) as [[[] | e] w1]; simpl in *; [ | discriminate].
    destruct (IH Hnd w1) as (logs & Hlogs & Hrest).
    + intros id' Hin. destruct (Hreg id' (or_intror Hin)) as (c' & Hc' & Hw').
      exists c'. split; [exact Hc' | ].
      assert (Hne : id' <> id) by (intros ->; contradiction).
      destruct Hregistry as [-> | [now ->]]; [exact Hw' | ].
      now rewrite touched_other.
    + intros H. destruct (Horder H) as [Hp Hstart]. split.
      * unfold patient in *. now rewrite Htel.
      * specialize (Hclock Hp). lia.
    + exists (atts :: logs). split; [now constructor | ].
      rewrite Hrest, Hlog. simpl. now rewrite app_assoc.
Qed.

(** The log of a cycle that gets a reading. *)
Lemma monitorRSI_log parseFloat klines rsiData (w : World) :
  getCurrentRSI parseFloat klines (clock w) = Ok rsiData ->
  exists logs,
    Forall2 (visitLog (userConfigs w) rsiData (patient w) (clock w))
            (map fst (map_to_list (userConfigs w))) logs /\
    newAttempts w (snd (monitorRSI parseFloat (Ok klines) w)) = concat logs.
Proof.
  intros Hget.
  destruct (forEach_checkUser rsiData (userConfigs w) (patient w) (clock w)
              (map fst (map_to_list (userConfigs w)))
              (NoDup_fst_map_to_list (userConfigs w))
              (snd (setLastRSIValue rsiData w))) as (logs & Hlogs & Hlog).
  - intros id Hin. apply in_map_iff in Hin. destruct Hin as ([id' c] & <- & Hin).
    apply list_elem_of_In, elem_of_map_to_list in Hin. simpl. eauto.
  - intros Hp. split; [exact Hp | simpl; lia].
  - exists logs. split; [exact Hlogs | ].
    apply newAttempts_app.
    change (sendLog (snd (setLastRSIValue rsiData w))) with (sendLog w) in Hlog.
    rewrite <- Hlog. clear Hlog Hlogs.
    unfold monitorRSI, try_catch.
    unfold bind at 1. unfold lift at 1. cbv beta iota.
    unfold bind at 1. unfold Date_now at 1. cbv beta iota.
    unfold bind at 1. unfold lift at 1. rewrite Hget. cbv beta iota.
    unfold bind at 1. unfold setLastRSIValue at 1. cbv beta iota.
    unfold bind at 1. unfold registeredIds at 1. cbv beta iota.
    unfold setLastRSIValue. cbn [snd userConfigs].
    match goal with |- context [forEach ?ids ?body ?w1] =>
      destruct (forEach ids body w1) as [[[] | e] w2] end; reflexivity.
Qed.

Lemma newAttempts_same (w : World) : newAttempts w w = [].
Proof. unfold newAttempts. apply skipn_all. Qed.

Lemma dispatchLog_recipients chatId message chs atts :
  dispatchLog chatId message chs atts ->
  Forall (fun a => to a = Chat chatId \/ exists ch, In ch chs /\ to a = Channel ch) atts.
Proof.
  intros (ok & rest & -> & Hrest & _). constructor; [now left | ].
  eapply List.Forall_impl; [ | exact Hrest].
  intros a [[Hto _] | (ch & Hin & Hto & _)]; [now left | right; eauto].
Qed.

(** *** The time of each call *)

Lemma timeAfter_app telegram history start (atts1 atts2 : list Attempt) :
  timeAfter telegram history start (atts1 ++ atts2) =
  timeAfter telegram (history ++ atts1) (timeAfter telegram history start atts1) atts2.
Proof.
  revert history start. induction atts1 as [ | a atts1 IH]; intros history start; simpl.
  - now rewrite app_nil_r.
  - rewrite IH, <- app_assoc. reflexivity.
Qed.

Section Timed.

Lemma timed_ret {A} (a : A) : timed (ret a).
Proof. intros w. split; [reflexivity | exists []]. simpl. now rewrite app_nil_r. Qed.

Lemma timed_throw {A} (e : exn) : timed (@throw A e).
Proof. intros w. split; [reflexivity | exists []]. simpl. now rewrite app_nil_r. Qed.

Lemma timed_then (w w1 w2 : World) :
  telegram w1 = telegram w ->
  (exists atts, sendLog w1 = sendLog w ++ atts /\
                clock w1 = timeAfter (telegram w) (sendLog w) (clock w) atts) ->
  telegram w2 = telegram w1 ->
  (exists atts, sendLog w2 = sendLog w1 ++ atts /\
                clock w2 = timeAfter (telegram w1) (sendLog w1) (clock w1) atts) ->
  telegram w2 = telegram w /\
  exists atts, sendLog w2 = sendLog w ++ atts /\
               clock w2 = timeAfter (telegram w) (sendLog w) (clock w) atts.
Proof.
  intros Ht (atts & Hs & Hc) Ht' (atts' & Hs' & Hc').
  split; [congruence | ]. exists (atts ++ atts'). split.
  - rewrite Hs', Hs. now rewrite app_assoc.
  - rewrite timeAfter_app, <- Hs, <- Hc, <- Ht. exact Hc'.
Qed.

Lemma timed_bind {A B} (m : M A) (k : A -> M B) :
  timed m -> (forall a, timed (k a)) -> timed (bind m k).
Proof.
  intros Hm Hk w. unfold bind.
  destruct (Hm w) as (Ht & Hs).
  destruct (m w) as [[a | e] w1]; simpl in *; [ | auto].
  destruct (Hk a w1) as (Ht' & Hs'). now apply (timed_then w w1).
Qed.

Lemma timed_try_catch {A} (m : M A) (h : exn -> M A) :
  timed m -> (forall e, timed (h e)) -> timed (try_catch m h).
Proof.
  intros Hm Hh w. unfold try_catch.
  destruct (Hm w) as (Ht & Hs).
  destruct (m w) as [[a | e] w1]; simpl in *; [auto | ].
  destruct (Hh e w1) as (Ht' & Hs'). now apply (timed_then w w1).
Qed.

Lemma timed_forEach {A} (xs : list A) (body : A -> M unit) :
  (forall x, timed (body x)) -> timed (forEach xs body).
Proof.
  intros Hbody. induction xs as [ | x xs IH]; simpl.
  - apply timed_ret.
  - apply timed_bind; auto.
Qed.

Lemma timed_sendMessage dest msg : timed (sendMessage dest msg).
Proof.
  intros w. rewrite sendMessage_eq. simpl. split; [reflexivity | ].
  eexists. split; reflexivity.
Qed.

Lemma timed_getConfig id : timed (getConfig id).
Proof. intros w. split; [reflexivity | exists []]. simpl. now rewrite app_nil_r. Qed.

Lemma timed_Date_now : timed Date_now.
Proof. intros w. split; [reflexivity | exists []]. simpl. now rewrite app_nil_r. Qed.

Lemma timed_setConfig id c : timed (setConfig id c).
Proof. intros w. split; [reflexivity | exists []]. simpl. now rewrite app_nil_r. Qed.

Lemma timed_sendRSIAlert chatId rsiData userConfig :
  timed (sendRSIAlert chatId rsiData userConfig).
Proof.
  unfold sendRSIAlert.
  apply timed_try_catch; [ | intros; apply timed_ret].
  apply timed_bind; [apply timed_sendMessage | intros _].
  apply timed_bind.
  - apply timed_forEach. intros ch. unfold sendToChannel.
    apply timed_try_catch; intros; apply timed_sendMessage.
  - intros _. unfold touchLastAlertTime.
    apply timed_bind; [apply timed_getConfig | intros entry].
    apply timed_bind; [apply timed_Date_now | intros now].
    destruct entry; [apply timed_setConfig | apply timed_throw].
Qed.

Lemma timed_checkUser rsiData chatId : timed (checkUser rsiData chatId).
Proof.
  unfold checkUser.
  apply timed_bind; [apply timed_getConfig | intros entry].
  destruct entry as [userConfig | ]; [ | apply timed_ret].
  apply timed_bind; [apply timed_Date_now | intros now].
  destruct (shouldSendAlert userConfig rsiData now);
    [apply timed_sendRSIAlert | apply timed_ret].
Qed.

End Timed.

(** The loop over the entries: each call belongs to the visit of an
    entry, and the policy said yes at the time that visit began. *)
Lemma forEach_checkUser_times rsiData (configs : gmap Z UserConfig) (ids : list Z) :
  NoDup ids ->
  forall w,
    (forall id, In id ids -> exists c, configs !! id = Some c /\
                                       userConfigs w !! id = Some c) ->
    forall before a after,
      newAttempts w (snd (forEach ids (checkUser rsiData) w)) = before ++ a :: after ->
      exists id c earlier later,
        configs !! id = Some c /\
        before = earlier ++ later /\
        shouldSendAlert c rsiData
          (timeAfter (telegram w) (sendLog w) (clock w) earlier) = true /\
        Forall (fun b => to b = Chat id \/
                         exists ch, In ch (channels c) /\ to b = Channel ch)
               (later ++ [a]).
Proof.
  induction ids as [ | id ids IH]; intros Hnd w Hreg before a after Hsplit.
  - simpl in Hsplit. rewrite newAttempts_same in Hsplit.
    now destruct before.
  - apply NoDup_cons in Hnd. destruct Hnd as [Hid Hnd].
    rewrite list_elem_of_In in Hid.
    destruct (Hreg id (or_introl eq_refl)) as (c & Hc & Hw).
    destruct (timed_checkUser rsiData id w) as (Htel & atts1 & Hlog1 & Hclock1).
    pose proof (checkUser_registry rsiData id w) as Hregistry.
    assert (Hret : fst (checkUser rsiData id w) = Ok tt).
    { rewrite (checkUser_eq rsiData id c w Hw).
      destruct (shouldSendAlert c rsiData (clock w)); [apply sendRSIAlert_returns | reflexivity]. }
    assert (Hvisit : if shouldSendAlert c rsiData (clock w)
                     then dispatchLog id (alertMessage rsiData c) (channels c) atts1
                     else atts1 = []).
    { rewrite <- (newAttempts_app _ _ _ Hlog1).
      rewrite (checkUser_eq rsiData id c w Hw).
      destruct (shouldSendAlert c rsiData (clock w)).
      - apply sendRSIAlert_dispatchLog.
      - unfold newAttempts. simpl. apply skipn_all. }
    rewrite forEach_cons in Hsplit.
    destruct (checkUser rsiData id w) as [[[] | e] w1]; simpl in *; [ | discriminate].
    destruct (timed_forEach ids (checkUser rsiData) (timed_checkUser rsiData) w1)
      as (_ & atts2 & Hlog2 & _).
    assert (Hreg1 : forall id', In id' ids ->
                      exists c', configs !! id' = Some c' /\ userConfigs w1 !! id' = Some c').
    { intros id' Hin. destruct (Hreg id' (or_intror Hin)) as (c' & Hc' & Hw').
      exists c'. split; [exact Hc' | ].
      assert (Hne : id' <> id) by (intros ->; contradiction).
      destruct Hregistry as [-> | [now ->]]; [exact Hw' | ].
      now rewrite touched_other. }
    specialize (IH Hnd w1 Hreg1).
    rewrite (newAttempts_app _ _ _ Hlog2) in IH.
    assert (Hall : newAttempts w (snd (forEach ids (checkUser rsiData) w1)) = atts1 ++ atts2).
    { apply newAttempts_app. rewrite Hlog2, Hlog1. now rewrite app_assoc. }
    rewrite Hall in Hsplit. clear Hall.
    apply app_eq_app in Hsplit.
    destruct Hsplit as (l & [[Hatts1 Hrest] | [Hbefore Hatts2]]).
    + destruct l as [ | a' l].
      * simpl in Hrest. rewrite app_nil_r in Hatts1. subst atts1.
        destruct (IH [] a after (eq_sym Hrest))
          as (id' & c' & earlier & later & Hc' & Hsplit' & Hdue & Hto).
        symmetry in Hsplit'. apply app_eq_nil in Hsplit'. destruct Hsplit' as [-> ->].
        exists id', c', before, []. rewrite app_nil_r.
        simpl in Hdue. rewrite Hclock1 in Hdue. auto.
      * injection Hrest as <- Hafter.
        destruct (shouldSendAlert c rsiData (clock w)) eqn:Hdue;
          [ | subst atts1; now destruct before].
        exists id, c, [], before. simpl.
        split; [exact Hc | split; [reflexivity | split; [exact Hdue | ]]].
        pose proof (dispatchLog_recipients _ _ _ _ Hvisit) as Hrec.
        rewrite Hatts1 in Hrec.
        replace (before ++ a :: l) with ((before ++ [a]) ++ l) in Hrec
          by now rewrite <- app_assoc.
        apply Forall_app in Hrec. exact (proj1 Hrec).
    + destruct (IH l a after Hatts2)
        as (id' & c' & earlier & later & Hc' & Hsplit' & Hdue & Hto).
      exists id', c', (atts1 ++ earlier), later.
      split; [exact Hc' | split; [ | split; [ | exact Hto]]].
      * rewrite Hbefore, Hsplit'. now rewrite app_assoc.
      * rewrite timeAfter_app, <- Hlog1, <- Hclock1, <- Htel. exact Hdue.
Qed.

Lemma monitorRSI_loop parseFloat klines rsiData (w : World) :
  getCurrentRSI parseFloat klines (clock w) = Ok rsiData ->
  sendLog (snd (monitorRSI parseFloat (Ok klines) w)) =
  sendLog (snd (forEach (map fst (map_to_list (userConfigs w))) (checkUser rsiData)
                  (snd (setLastRSIValue rsiData w)))).
Proof.
  intros Hget.
  unfold monitorRSI, try_catch.
  unfold bind at 1. unfold lift at 1. cbv beta iota.
  unfold bind at 1. unfold Date_now at 1. cbv beta iota.
  unfold bind at 1. unfold lift at 1. rewrite Hget. cbv beta iota.
  unfold bind at 1. unfold setLastRSIValue at 1. cbv beta iota.
  unfold bind at 1. unfold registeredIds at 1. cbv beta iota.
  unfold setLastRSIValue. cbn [snd userConfigs].
  match goal with |- context [forEach ?ids ?body ?w1] =>
    destruct (forEach ids body w1) as [[[] | e] w2] end; reflexivity.
Qed.

(** X14: a monitoring cycle only writes where the policy said yes, at the
    time it said so.  Every call that a cycle makes to Telegram, when it
    runs to its end with no command handled in between, goes to the chat
    of an entry or to a channel that entry lists, as do the calls made
    since that entry was visited, and [shouldSendAlert] was true of the
    entry and the reading of the cycle at the time of the visit.  That
    time is the time at the start of the cycle plus what the calls made
    before the visit took. *)
Theorem monitorRSI_recipients (parseFloat : string -> float)
    (fetched : result (list KlineData)) (w : World) :
  let w' := snd (monitorRSI parseFloat fetched w) in
  forall before a after,
    newAttempts w w' = before ++ a :: after ->
    exists rsiData id c earlier later,
      lastRSIValue w' = Some rsiData /\
      userConfigs w !! id = Some c /\
      before = earlier ++ later /\
      shouldSendAlert c rsiData
        (timeAfter (telegram w) (sendLog w) (clock w) earlier) = true /\
      Forall (fun b => to b = Chat id \/
                       exists ch, In ch (channels c) /\ to b = Channel ch)
             (later ++ [a]).
Proof.
  cbv zeta. intros before a after Hsplit.
  destruct fetched as [klines | e];
    [ | simpl in Hsplit; rewrite newAttempts_same in Hsplit; now destruct before].
  destruct (getCurrentRSI parseFloat klines (clock w)) as [rsiData | e] eqn:Hget;
    [ | rewrite (monitorRSI_failed parseFloat klines e w Hget) in Hsplit; simpl in Hsplit;
        rewrite newAttempts_same in Hsplit; now destruct before].
  pose proof (monitorRSI_reading parseFloat klines rsiData w Hget) as Hreading.
  destruct (forEach_checkUser_times rsiData (userConfigs w)
              (map fst (map_to_list (userConfigs w)))
              (NoDup_fst_map_to_list (userConfigs w))
              (snd (setLastRSIValue rsiData w))) with (before := before) (a := a) (after := after)
    as (id & c & earlier & later & Hc & Hbefore & Hdue & Hto).
  - intros id Hin. apply in_map_iff in Hin. destruct Hin as ([id' c] & <- & Hin).
    apply list_elem_of_In, elem_of_map_to_list in Hin. simpl. eauto.
  - rewrite <- Hsplit. unfold newAttempts.
    rewrite (monitorRSI_loop parseFloat klines rsiData w Hget). reflexivity.
  - exists rsiData, id, c, earlier, later. auto.
Qed.

Lemma monitorRSI_recipients_witness :
  let w := startedWorld in
  let w' := snd (monitorRSI parseDigits (Ok risingKlines) w) in
  let rsiData := {| value := 100; timestamp := 1000010; price := 114 |} in
  let a := primaryAttempt 1 (alertMessage rsiData (defaultConfig 1)) true in
  newAttempts w w' = [] ++ a :: [] /\
  exists rsiData id c earlier later,
    lastRSIValue w' = Some rsiData /\
    userConfigs w !! id = Some c /\
    [] = earlier ++ later /\
    shouldSendAlert c rsiData
      (timeAfter (telegram w) (sendLog w) (clock w) earlier) = true /\
    Forall (fun b => to b = Chat id \/
                     exists ch, In ch (channels c) /\ to b = Channel ch)
           (later ++ [a]).
Proof.
  split; [reflexivity | ].
  apply (monitorRSI_recipients parseDigits (Ok risingKlines) startedWorld [] _ []).
  reflexivity.
Defined.




Lemma visitLog_alerts configs rsiData inOrder start id' atts id :
  visitLog configs rsiData inOrder start id' atts ->
  (id' <> id -> List.filter (isAlertTo id) atts = []) /\
  (length (List.filter (isAlertTo id) atts) <= 1)%nat.
Proof.
  intros (c & now & _ & _ & Hvisit).
  destruct (shouldSendAlert c rsiData now); [ | subst atts; simpl; split; [reflexivity | lia]].
  destruct Hvisit as (ok & rest & -> & Hrest & _).
  assert (Hnone : List.filter (isAlertTo id) rest = []).
  { clear - Hrest. induction Hrest as [ | a rest Ha _ IH]; [reflexivity | ].
    simpl. rewrite IH.
    replace (isAlertTo id a) with false; [reflexivity | ].
    unfold isAlertTo.
    destruct Ha as [[-> (ch & ->)] | (ch & _ & -> & _)]; reflexivity. }
  simpl. rewrite Hnone. unfold isAlertTo. simpl.
  destruct (Z.eqb_spec id' id); simpl; split; try reflexivity; try lia; congruence.
Qed.

Lemma visitLog_channels configs rsiData inOrder start id atts (ch : string) :
  visitLog configs rsiData inOrder start id atts ->
  exists c, configs !! id = Some c /\
            (count_occ string_dec (channelsTried atts) ch <=
             count_occ string_dec (channels c) ch)%nat.
Proof.
  intros (c & now & Hc & _ & Hvisit). exists c. split; [exact Hc | ].
  destruct (shouldSendAlert c rsiData now); [ | subst atts; simpl; lia].
  destruct Hvisit as (ok & rest & -> & _ & skipped & ->).
  change (channelsTried (primaryAttempt id (alertMessage rsiData c) ok :: rest))
    with (channelsTried rest).
  rewrite count_occ_app. lia.
Qed.

Lemma Forall2_map_l {A B C} (P : B -> C -> Prop) (f : A -> B) (l : list A) (k : list C) :
  Forall2 P (map f l) k -> Forall2 (fun x y => P (f x) y) l k.
Proof.
  revert k. induction l as [ | x l IH]; intros k H; inversion H; subst; constructor; auto.
Qed.

Lemma channelsTried_app (atts1 atts2 : list Attempt) :
  channelsTried (atts1 ++ atts2) = channelsTried atts1 ++ channelsTried atts2.
Proof. unfold channelsTried. apply flat_map_app. Qed.

(** X16: how often a cycle sends the alert.  Whatever Binance and
    Telegram answer, in a cycle that runs to its end with no command
    handled in between, at most one call that carries the alert is
    addressed to a given chat id, and the calls addressed to a channel
    are at most as many as the listings of that channel in the registry
    at the start of the cycle: one for each entry that lists it, and one
    more for each time an entry lists it again.  A chat that is listed
    as a channel is counted there as well. *)
Theorem monitorRSI_one_alert_each (parseFloat : string -> float)
    (fetched : result (list KlineData)) (w : World) :
  let atts := newAttempts w (snd (monitorRSI parseFloat fetched w)) in
  (forall id, (length (List.filter (isAlertTo id) atts) <= 1)%nat) /\
  (forall ch, (count_occ string_dec (channelsTried atts) ch <=
               listings (userConfigs w) ch)%nat).
Proof.
  cbv zeta.
  destruct fetched as [klines | e];
    [ | simpl; rewrite newAttempts_same; simpl; split; intros; lia].
  destruct (getCurrentRSI parseFloat klines (clock w)) as [rsiData | e] eqn:Hget;
    [ | rewrite (monitorRSI_failed parseFloat klines e w Hget); simpl;
        rewrite newAttempts_same; simpl; split; intros; lia].
  destruct (monitorRSI_log parseFloat klines rsiData w Hget) as (logs & Hlogs & ->).
  pose proof (NoDup_fst_map_to_list (userConfigs w)) as Hnd.
  split.
  - intros id. revert Hlogs Hnd.
    change ((map_to_list (userConfigs w)).*1) with (map fst (map_to_list (userConfigs w))).
    generalize (map fst (map_to_list (userConfigs w))). intros ids Hlogs Hnd.
    assert (H : (~ In id ids -> List.filter (isAlertTo id) (concat logs) = []) /\
                (length (List.filter (isAlertTo id) (concat logs)) <= 1)%nat);
      [ | exact (proj2 H)].
    induction Hlogs as [ | id' atts ids logs Hvisit _ IH];
      [simpl; split; [reflexivity | lia] | ].
    apply NoDup_cons in Hnd. destruct Hnd as [Hid' Hnd]. rewrite list_elem_of_In in Hid'.
    destruct (IH Hnd) as [IH0 IH1].
    destruct (visitLog_alerts _ _ _ _ _ _ id Hvisit) as [Hv0 Hv1].
    simpl. rewrite List.filter_app, length_app. split.
    + intros Hnin. rewrite Hv0, IH0; [reflexivity | | ];
        intros H; apply Hnin; [now right | now left].
    + destruct (Z.eq_dec id' id) as [-> | Hne].
      * rewrite (IH0 Hid'). simpl. lia.
      * rewrite (Hv0 Hne). simpl. lia.
  - intros ch. unfold listings. clear Hnd.
    assert (Hentries : Forall2 (fun entry atts =>
                          visitLog (userConfigs w) rsiData (patient w) (clock w)
                                   (fst entry) atts)
                         (map_to_list (userConfigs w)) logs).
    { now apply Forall2_map_l. }
    assert (Hin : forall entry, In entry (map_to_list (userConfigs w)) ->
                    userConfigs w !! fst entry = Some (snd entry)).
    { intros [id c] H. now apply list_elem_of_In, elem_of_map_to_list in H. }
    revert Hentries Hin. generalize (map_to_list (userConfigs w)). clear Hlogs.
    intros entries Hentries.
    induction Hentries as [ | entry atts entries logs Hvisit _ IH]; intros Hin;
      [simpl; lia | ].
    simpl. rewrite channelsTried_app, count_occ_app.
    destruct (visitLog_channels _ _ _ _ _ _ ch Hvisit) as (c & Hc & Hle).
    rewrite (Hin entry (or_introl eq_refl)) in Hc. injection Hc as <-.
    specialize (IH (fun e He => Hin e (or_intror He))). lia.
Qed.

(** ** Listed channels have been vetted *)

Lemma advances_lift {A} (r : result A) : advances (lift r).
Proof.
  intros w. simpl. split; [reflexivity | split; [lia | ]].
  exists []. now rewrite app_nil_r.
Qed.

Lemma advances_setLastRSIValue rsiData : advances (setLastRSIValue rsiData).
Proof.
  intros w. simpl. split; [reflexivity | split; [lia | ]].
  exists []. now rewrite app_nil_r.
Qed.

Lemma advances_registeredIds : advances registeredIds.
Proof.
  intros w. simpl. split; [reflexivity | split; [lia | ]].
  exists []. now rewrite app_nil_r.
Qed.

Ltac advance :=
  repeat first
    [ apply advances_sendMessage
    | apply advances_getConfig
    | apply advances_setConfig
    | apply advances_ret
    | apply advances_bind; [ | intros ?]
    | apply advances_try_catch; [ | intros ?]
    | match goal with |- advances (match ?x with _ => _ end) => destruct x end ].

Lemma advances_handle chatId cmd : advances (handle chatId cmd).
Proof.
  destruct cmd as [ | v | v | s | s | | | | ]; simpl.
  - unfold onStart. advance.
  - unfold onSetOversold. advance.
  - unfold onSetOverbought. advance.
  - unfold onAddChannel. advance.
  - unfold onRemoveChannel. advance.
  - unfold onListChannels. advance.
  - unfold onStatus. advance. intros w. apply advances_sendMessage.
  - unfold onToggle. advance.
  - unfold onHelp. advance.
Qed.

Lemma advances_monitorRSI parseFloat fetched : advances (monitorRSI parseFloat fetched).
Proof.
  unfold monitorRSI.
  apply advances_try_catch; [ | intros; apply advances_ret].
  apply advances_bind; [apply advances_lift | intros klines].
  apply advances_bind; [apply advances_Date_now | intros now].
  apply advances_bind; [apply advances_lift | intros rsiData].
  apply advances_bind; [apply advances_setLastRSIValue | intros _].
  apply advances_bind; [apply advances_registeredIds | intros ids].
  apply advances_forEach. intros id. apply advances_checkUser.
Qed.

Lemma probed_app (log atts : list Attempt) (ch : string) :
  probed log ch \/ probed atts ch -> probed (log ++ atts) ch.
Proof.
  intros [(a & Hin & H) | (a & Hin & H)]; exists a; (split; [ | exact H]);
    apply in_or_app; auto.
Qed.

(** The channels an entry lists after a command were listed before it,
    or were probed with success during it. *)
Lemma handle_channels chatId cmd (w : World) id c' ch :
  userConfigs (snd (handle chatId cmd w)) !! id = Some c' ->
  In ch (channels c') ->
  (exists c, userConfigs w !! id = Some c /\ In ch (channels c)) \/
  probed (newAttempts w (snd (handle chatId cmd w))) ch.
Proof.
  assert (Hsame : forall c0 c1,
             userConfigs w !! chatId = Some c0 ->
             (forall x, In x (channels c1) -> In x (channels c0)) ->
             <[chatId := c1]> (userConfigs w) !! id = Some c' ->
             In ch (channels c') ->
             exists c, userConfigs w !! id = Some c /\ In ch (channels c)).
  { intros c0 c1 Hc0 Hsub Hlook Hin. destruct (decide (chatId = id)) as [<- | Hne].
    - rewrite lookup_insert_eq in Hlook. injection Hlook as <-. eauto.
    - rewrite lookup_insert_ne in Hlook by assumption. eauto. }
  destruct cmd as [ | v | v | s | s | | | | ]; simpl.
  - rewrite onStart_registry. intros Hlook Hin. left.
    destruct (decide (chatId = id)) as [<- | Hne].
    + rewrite lookup_insert_eq in Hlook. injection Hlook as <-. destruct Hin.
    + rewrite lookup_insert_ne in Hlook by assumption. eauto.
  - rewrite onSetOversold_registry. intros Hlook Hin. left.
    destruct (userConfigs w !! chatId) as [c0 | ] eqn:Hc0; [ | eauto].
    destruct ((v <? 1)%Z || (99 <? v)%Z); [eauto | ].
    apply (Hsame c0 (with_oversold v c0)); auto.
  - rewrite onSetOverbought_registry. intros Hlook Hin. left.
    destruct (userConfigs w !! chatId) as [c0 | ] eqn:Hc0; [ | eauto].
    destruct ((v <? 1)%Z || (99 <? v)%Z); [eauto | ].
    apply (Hsame c0 (with_overbought v c0)); auto.
  - destruct (userConfigs w !! chatId) as [c0 | ] eqn:Hc0.
    + destruct (validChannel s) eqn:Hvalid.
      * destruct (in_dec string_dec s (channels c0)) as [Hlisted | Hfresh].
        -- destruct (onAddChannel_listed chatId s c0 w Hc0 Hvalid Hlisted) as [-> _]. eauto.
        -- destruct (onAddChannel_fresh chatId s c0 w Hc0 Hvalid Hfresh) as [Hhead Hreg].
           cbv zeta in Hhead, Hreg. rewrite Hreg.
           destruct (resolves _) eqn:Hprobe; [ | eauto].
           intros Hlook Hin.
           destruct (decide (chatId = id)) as [<- | Hne].
           ++ rewrite lookup_insert_eq in Hlook. injection Hlook as <-.
              simpl in Hin. apply in_app_or in Hin. destruct Hin as [Hin | [<- | []]].
              ** left. eauto.
              ** right.
                 destruct (newAttempts w (snd (onAddChannel chatId s w))) as [ | a atts];
                   [discriminate | ].
                 injection Hhead as ->. eexists. split; [now left | ].
                 simpl. eauto.
           ++ rewrite lookup_insert_ne in Hlook by assumption. eauto.
      * rewrite (onAddChannel_invalid chatId s w Hvalid). eauto.
    + unfold onAddChannel, bind, getConfig. simpl. rewrite Hc0.
      rewrite (proj1 (onlySends_sendMessage _ _ w)). eauto.
  - rewrite onRemoveChannel_registry. intros Hlook Hin. left.
    destruct (userConfigs w !! chatId) as [c0 | ] eqn:Hc0; [ | eauto].
    destruct (indexOf (channels c0) s) as [i | ]; [ | eauto].
    apply (Hsame c0 (with_channels (splice1 (channels c0) i) c0)); auto.
    intros x. simpl. apply splice1_In.
  - intros Hlook Hin. left. revert Hlook. unfold onListChannels. run_handler.
    destruct (userConfigs w !! chatId) as [c0 | ]; run_handler; eauto.
    destruct (channels c0); run_handler; eauto.
  - intros Hlook Hin. left. revert Hlook. unfold onStatus. run_handler.
    destruct (userConfigs w !! chatId) as [c0 | ]; run_handler; eauto.
  - rewrite onToggle_registry. intros Hlook Hin. left.
    destruct (userConfigs w !! chatId) as [c0 | ] eqn:Hc0; [ | eauto].
    apply (Hsame c0 (with_alertsEnabled (negb (alertsEnabled c0)) c0)); auto.
  - intros Hlook Hin. left. revert Hlook. unfold onHelp. run_handler; eauto.
Qed.

(** X17: a channel is listed only after it has been vetted.  In every
    state the bot can reach, each channel an entry lists has the form
    [@name] or [-100] and ten digits, and the log holds a probe of
    [/add_channel] that Telegram delivered to it. *)
Theorem reachable_channels_vetted (parseFloat : string -> float) (w : World)
    (id : Z) (c : UserConfig) (ch : string) :
  reachable parseFloat w ->
  userConfigs w !! id = Some c ->
  In ch (channels c) ->
  (isHandle ch \/ isNumericId ch) /\ probed (sendLog w) ch.
Proof.
  intros Hreach Hc Hin. split.
  - destruct (reachable_registryOk parseFloat w Hreach id c Hc) as [_ Hall].
    rewrite List.Forall_forall in Hall. specialize (Hall ch Hin).
    unfold validChannel in Hall. apply orb_true_iff in Hall.
    rewrite test_usernamePattern, test_chatIdPattern in Hall. exact Hall.
  - destruct Hreach as (w0 & evs & [Hempty _] & ->).
    assert (H0 : forall id c ch, userConfigs w0 !! id = Some c -> In ch (channels c) ->
                                 probed (sendLog w0) ch).
    { intros id0 c0 ch0 H. rewrite Hempty, lookup_empty in H. discriminate. }
    clear Hempty. revert id c ch Hc Hin. revert w0 H0.
    induction evs as [ | ev evs IH]; intros w0 H0; [exact H0 | ].
    simpl. apply IH. clear IH. intros id c ch Hc Hin.
    destruct ev as [chatId cmd | fetched | ms]; simpl in *.
    + destruct (advances_handle chatId cmd w0) as (_ & _ & atts & Hlog).
      rewrite Hlog. apply probed_app.
      destruct (handle_channels chatId cmd w0 id c ch Hc Hin) as [(c0 & Hc0 & Hin0) | Hp].
      * left. eauto.
      * right. now rewrite (newAttempts_app _ _ _ Hlog) in Hp.
    + destruct (advances_monitorRSI parseFloat fetched w0) as (_ & _ & atts & Hlog).
      rewrite Hlog. apply probed_app. left.
      revert id c ch Hc Hin.
      apply (monitorRSI_invariant parseFloat
               (fun configs => forall id c ch, configs !! id = Some c -> In ch (channels c) ->
                                               probed (sendLog w0) ch));
        [ | exact H0].
      intros configs chatId now Hall id c ch. unfold touched.
      destruct (configs !! chatId) as [stored | ] eqn:Hstored; [ | apply Hall].
      destruct (decide (chatId = id)) as [<- | Hne].
      * rewrite lookup_insert_eq. intros H. injection H as <-. simpl.
        now apply (Hall chatId stored).
      * rewrite lookup_insert_ne by assumption. apply Hall.
    + eauto.
Qed.

Lemma reachable_channels_vetted_witness :
  (isHandle "@b" \/ isNumericId "@b") /\ probed (sendLog subscribedWorld) "@b".
Proof.
  apply (reachable_channels_vetted parseDigits subscribedWorld 1
           (with_channels ["@b"]%string (defaultConfig 1)) "@b").
  - apply subscribedWorld_reachable.
  - reflexivity.
  - now left.
Defined.

(** * Further properties of the indicator and the policy *)

(** ** The order of binary64 numbers *)

Section Order.

Local Open Scope Z_scope.

Lemma SFcompare_refl (x : spec_float) : x <> S754_nan -> SFcompare x x = Some Eq.
Proof.
  destruct x as [s | s | | s m e]; intros Hx; try congruence; simpl.
  - reflexivity.
  - now destruct s.
  - rewrite Z.compare_refl, Pos.compare_cont_refl. now destruct s.
Qed.

Lemma SFcompare_None (x y : spec_float) :
  SFcompare x y = None -> x = S754_nan \/ y = S754_nan.
Proof.
  destruct x as [sx | sx | | sx mx ex], y as [sy | sy | | sy my ey]; simpl; auto;
    discriminate.
Qed.

Lemma SFleb_total (x y : spec_float) :
  x <> S754_nan -> y <> S754_nan -> SFleb x y = true \/ SFleb y x = true.
Proof.
  unfold SFleb.
  destruct x as [sx | sx | | sx mx ex], y as [sy | sy | | sy my ey]; intros Hx Hy;
    try congruence; simpl;
    try (destruct sx; auto; fail); try (destruct sy; auto; fail);
    try (destruct sx, sy; auto; fail); auto.
  rewrite !Pos.compare_cont_spec. simpl.
  destruct sx, sy; auto;
    destruct (Z.compare_spec ex ey), (Z.compare_spec ey ex); simpl; auto; try lia;
    destruct (Pos.compare_spec mx my), (Pos.compare_spec my mx); simpl; auto; lia.
Qed.

Lemma SFleb_trans (x y z : spec_float) :
  SFleb x y = true -> SFleb y z = true -> SFleb x z = true.
Proof.
  unfold SFleb.
  destruct x as [sx | sx | | sx mx ex], y as [sy | sy | | sy my ey],
           z as [sz | sz | | sz mz ez]; simpl; try discriminate; try reflexivity;
    try (destruct sx; simpl; (discriminate || reflexivity || (destruct sy; simpl; (discriminate || reflexivity) )); fail);
    try (destruct sx, sy, sz; simpl; (discriminate || reflexivity); fail).
  all: try (destruct sy; simpl; try discriminate; destruct sz; simpl;
            (discriminate || reflexivity); fail).
  all: try (destruct sx; simpl; try discriminate; destruct sz; simpl;
            (discriminate || reflexivity); fail).
  all: try (destruct sx, sy; simpl; try discriminate; try reflexivity;
            destruct (ex ?= ey); try destruct (Pos.compare_cont Eq mx my); simpl;
            discriminate || reflexivity).
  all: try (destruct sy, sz; simpl; try discriminate; try reflexivity;
            destruct (ey ?= ez); try destruct (Pos.compare_cont Eq my mz); simpl;
            discriminate || reflexivity).
  destruct sx, sy, sz; simpl; try discriminate; try reflexivity.
  - destruct (Z.compare_spec ex ey), (Z.compare_spec ey ez), (Z.compare_spec ex ez);
      try discriminate; try reflexivity; try lia; simpl; subst.
    rewrite !Pos.compare_cont_spec. simpl.
    destruct (Pos.compare_spec mx my), (Pos.compare_spec my mz), (Pos.compare_spec mx mz);
      simpl; try discriminate; try reflexivity; lia.
  - destruct (Z.compare_spec ex ey), (Z.compare_spec ey ez), (Z.compare_spec ex ez);
      try discriminate; try reflexivity; try lia; simpl; subst.
    rewrite !Pos.compare_cont_spec. simpl.
    destruct (Pos.compare_spec mx my), (Pos.compare_spec my mz), (Pos.compare_spec mx mz);
      simpl; try discriminate; try reflexivity; lia.
Qed.

End Order.

(** ** Thresholds that cross *)

Lemma of_Z_leb (a b : positive) :
  (Z.pos a <= Z.pos b < 2 ^ 53)%Z ->
  (JS.of_Z (Z.pos a) <=? JS.of_Z (Z.pos b))%float = true.
Proof.
  intros Hab.
  destruct (of_Z_exact a) as (ma & ea & Ha & Hva & Hea & Hma); [lia | ].
  destruct (of_Z_exact b) as (mb & eb & Hb & Hvb & Heb & Hmb); [lia | ].
  rewrite leb_spec, Ha, Hb. unfold SFleb.
  rewrite (SFcompare_finite false ma ea false mb eb Hva Hvb).
  destruct (shl_align_spec ma ea (Z.min ea eb)) as [-> _]; [lia | ].
  destruct (shl_align_spec mb eb (Z.min ea eb)) as [-> _]; [lia | ].
  simpl cond_Zopp. rewrite Hma, Hmb, <- !Z.mul_assoc, <- !Z.pow_add_r by lia.
  replace (- ea + (ea - Z.min ea eb))%Z with (- Z.min ea eb)%Z by lia.
  replace (- eb + (eb - Z.min ea eb))%Z with (- Z.min ea eb)%Z by lia.
  assert (H2 : (0 < 2 ^ (- Z.min ea eb))%Z) by (apply Z.pow_pos_nonneg; lia).
  destruct (Z.compare_spec (Z.pos a * 2 ^ (- Z.min ea eb)) (Z.pos b * 2 ^ (- Z.min ea eb)));
    try reflexivity. nia.
Qed.

Lemma is_nan_spec (x : float) :
  is_nan x = match Prim2SF x with S754_nan => true | _ => false end.
Proof.
  unfold is_nan. rewrite FloatAxioms.eqb_spec. unfold SFeqb.
  destruct (Prim2SF x) as [s | s | | s m e] eqn:Hx; try reflexivity.
  - now destruct s.
  - rewrite SFcompare_refl by discriminate. reflexivity.
Qed.

(** X18: nothing keeps the oversold threshold below the overbought one,
    and when they meet or cross every reading is at or beyond one of
    them.  For an entry with thresholds in range and the overbought
    threshold not above the oversold one, alerts enabled and the cooldown
    over, [shouldSendAlert] says yes to every reading but NaN. *)
Theorem shouldSendAlert_crossed (c : UserConfig) (rsiData : RSIData) (now : Z) :
  inRange (oversold (rsiThresholds c)) ->
  inRange (overbought (rsiThresholds c)) ->
  (overbought (rsiThresholds c) <= oversold (rsiThresholds c))%Z ->
  alertsEnabled c = true ->
  (ALERT_COOLDOWN <= now - lastAlertTime c)%Z ->
  shouldSendAlert c rsiData now = negb (is_nan (value rsiData)).
Proof.
  unfold inRange. intros Hos Hob Hcross Hon Hcool.
  unfold shouldSendAlert. rewrite Hon. simpl negb. cbv iota.
  destruct (Z.ltb_spec (now - lastAlertTime c) ALERT_COOLDOWN); [lia | ].
  destruct (oversold (rsiThresholds c)) as [ | os | os]; try lia.
  destruct (overbought (rsiThresholds c)) as [ | ob | ob]; try lia.
  pose proof (of_Z_leb ob os ltac:(assert ((99 < 2 ^ 53)%Z) by reflexivity; lia)) as Hle.
  rewrite is_nan_spec. rewrite leb_spec in Hle. rewrite !leb_spec.
  destruct (of_Z_exact os) as (mb & eb & Hb & _); [assert ((99 < 2 ^ 53)%Z) by reflexivity; lia | ].
  destruct (of_Z_exact ob) as (ma & ea & Ha & _); [assert ((99 < 2 ^ 53)%Z) by reflexivity; lia | ].
  destruct (Prim2SF (value rsiData)) as [s | s | | s m e] eqn:Hv.
  4: { destruct (SFleb_total (S754_finite s m e) (Prim2SF (JS.of_Z (Z.pos os))))
         as [H1 | H1]; [discriminate | rewrite Hb; discriminate | now rewrite H1 | ].
       rewrite (SFleb_trans _ _ _ Hle H1). apply orb_true_r. }
  3: { rewrite Hb, Ha. reflexivity. }
  - destruct (SFleb_total (S754_zero s) (Prim2SF (JS.of_Z (Z.pos os))))
      as [H1 | H1]; [discriminate | rewrite Hb; discriminate | now rewrite H1 | ].
    rewrite (SFleb_trans _ _ _ Hle H1). apply orb_true_r.
  - destruct (SFleb_total (S754_infinity s) (Prim2SF (JS.of_Z (Z.pos os))))
      as [H1 | H1]; [discriminate | rewrite Hb; discriminate | now rewrite H1 | ].
    rewrite (SFleb_trans _ _ _ Hle H1). apply orb_true_r.
Qed.

Lemma shouldSendAlert_crossed_witness :
  shouldSendAlert (with_oversold 80 (defaultConfig 1)) sampleReading 1000000 =
    negb (is_nan (value sampleReading)).
Proof.
  apply (shouldSendAlert_crossed (with_oversold 80 (defaultConfig 1)) sampleReading 1000000).
  - simpl. unfold inRange. lia.
  - simpl. unfold inRange. lia.
  - simpl. lia.
  - reflexivity.
  - simpl. unfold ALERT_COOLDOWN. lia.
Defined.

(** ** The cooldown after a dispatch *)



(** ** Prices that are not numbers *)

Lemma nan_differences (prices : list float) :
  Forall (fun p => p = nan) prices ->
  Forall (fun x => x = 0%float) (map loss (differences prices)).
Proof.
  induction 1 as [ | p prices Hp Hrest IH]; [constructor | ].
  destruct Hrest as [ | q prices Hq Hrest]; [constructor | ].
  change (differences (p :: q :: prices)) with ((q - p)%float :: differences (q :: prices)).
  simpl map. constructor; [subst; reflexivity | exact IH].
Qed.

Lemma calculateRSI_no_losses (prices : list float) (period : nat) :
  (1 <= period)%nat ->
  (period + 1 <= length prices)%nat ->
  arrayLength prices ->
  Forall (fun x => x = 0%float) (map loss (differences prices)) ->
  calculateRSI prices period = Ok 100%float.
Proof.
  intros H1 Hlen Harr Hlosses.
  pose proof (period_safe prices period Hlen Harr) as H53.
  assert (Havg : snd (smoothAll period (map gain (differences prices))
                        (map loss (differences prices))
                        (initialAvg (map gain (differences prices)) period,
                         initialAvg (map loss (differences prices)) period)) = 0%float).
  { unfold smoothAll. apply smoothAll_snd_zeros; try assumption.
    - now apply (Forall_snd_skipn_combine (fun x => x = 0%float)).
    - simpl. now apply initialAvg_zeros. }
  unfold calculateRSI.
  destruct (Nat.ltb_spec (length prices) (period + 1)); [lia | ].
  destruct (smoothAll _ _ _ _) as [avgGain avgLoss]. simpl in Havg. subst avgLoss.
  reflexivity.
Qed.

(** X20: closing prices that cannot be read give an overbought reading.
    When [parseFloat] yields NaN for the close of every candle, and there
    are at least [RSI_PERIOD + 1] candles, every difference is NaN, no
    loss is counted, and [getCurrentRSI] returns the value 100 with a
    price that is NaN. *)
Theorem getCurrentRSI_unparsed (parseFloat : string -> float)
    (klines : list KlineData) (now : Z) :
  (RSI_PERIOD + 1 <= length klines)%nat ->
  arrayLength klines ->
  Forall (fun kline => parseFloat (close kline) = nan) klines ->
  getCurrentRSI parseFloat klines now =
    Ok {| value := 100; timestamp := now; price := nan |}.
Proof.
  intros Hlen Harr Hnan. unfold getCurrentRSI.
  set (closePrices := map (fun kline => parseFloat (close kline)) klines).
  assert (Hall : Forall (fun p => p = nan) closePrices).
  { unfold closePrices. rewrite List.Forall_forall in *. intros p Hp.
    apply in_map_iff in Hp. destruct Hp as (kline & <- & Hin). now apply Hnan. }
  rewrite (calculateRSI_no_losses closePrices RSI_PERIOD).
  - f_equal. f_equal.
    clear - Hall. generalize (length closePrices - 1)%nat. intros n. revert n.
    induction Hall as [ | p prices Hp _ IH]; intros [ | n]; simpl; auto.
  - unfold RSI_PERIOD. lia.
  - unfold closePrices. now rewrite length_map.
  - unfold arrayLength, closePrices in *. now rewrite length_map.
  - now apply nan_differences.
Qed.

Lemma getCurrentRSI_unparsed_witness :
  getCurrentRSI (fun _ => nan) sampleKlines 1000000 =
    Ok {| value := 100; timestamp := 1000000; price := nan |}.
Proof.
  apply (getCurrentRSI_unparsed (fun _ => nan) sampleKlines 1000000).
  - simpl. lia.
  - unfold arrayLength. simpl. lia.
  - repeat constructor.
Defined.

(** ** A period of zero *)

Lemma nan_mul (y : float) : (nan * y)%float = nan.
Proof. apply Prim2SF_inj. rewrite mul_spec. reflexivity. Qed.

Lemma nan_add (y : float) : (nan + y)%float = nan.
Proof. apply Prim2SF_inj. rewrite add_spec. reflexivity. Qed.

Lemma nan_div (y : float) : (nan / y)%float = nan.
Proof. apply Prim2SF_inj. rewrite div_spec. reflexivity. Qed.

Lemma smooth_nan (period : nat) (current : float) : smooth period nan current = nan.
Proof. unfold smooth. now rewrite nan_mul, nan_add, nan_div. Qed.

Lemma smoothAll_nan (period : nat) (gls : list (float * float)) :
  fold_left (fun avgs gl => (smooth period (fst avgs) (fst gl),
                             smooth period (snd avgs) (snd gl)))
            gls (nan, nan) = (nan, nan).
Proof.
  induction gls as [ | gl gls IH]; [reflexivity | ].
  cbn [fold_left fst snd]. rewrite !smooth_nan. exact IH.
Qed.

Lemma zero_period_nan (p : float) (prices : list float) :
  calculateRSI (p :: prices) 0 = Ok nan.
Proof.
  unfold calculateRSI. simpl Nat.ltb. cbv iota.
  unfold smoothAll, initialAvg. simpl firstn. simpl fold_left at 2 3.
  change (0 / JS.of_nat 0)%float with nan.
  rewrite smoothAll_nan. reflexivity.
Qed.

(** X21: [calculateRSI] has no guard on its period: with a period of 0
    every series of at least one price passes the length check, the seed
    averages are [0 / 0], and the result is NaN. *)
Theorem calculateRSI_zero_period (p : float) (prices : list float) :
  calculateRSI (p :: prices) 0 = Ok nan.
Proof. exact (zero_period_nan p prices). Qed.

(** ** Rounding keeps upper bounds

    An upper bound [K * 2^E] with [K < 2^53] and [E] between the least
    and the greatest exponent is a binary64 number, so rounding to
    nearest cannot cross it. *)

Section Binary64Upper.

Local Open Scope Z_scope.

Local Abbreviation fexp := (SpecFloat.fexp prec emax).

Lemma dle_mono_l (m m' e K E : Z) : dle m e K E -> m' <= m -> dle m' e K E.
Proof.
  unfold dle. intros H Hm.
  assert (0 <= 2 ^ (e - Z.min e E)) by (apply Z.pow_nonneg; lia).
  nia.
Qed.

Lemma dle_trans (a ea b eb c ec : Z) :
  0 < b -> dle a ea b eb -> dle b eb c ec -> dle a ea c ec.
Proof.
  intros Hb H1 H2.
  set (B := Z.min ea (Z.min eb ec)).
  apply (proj1 (dle_base B a ea b eb ltac:(unfold B; lia) ltac:(unfold B; lia))) in H1.
  apply (proj1 (dle_base B b eb c ec ltac:(unfold B; lia) ltac:(unfold B; lia))) in H2.
  apply (dle_base B); [unfold B; lia | unfold B; lia | ].
  eapply Z.le_trans; eassumption.
Qed.

Lemma dle_shr (m e k K E : Z) :
  0 <= m -> 0 <= k -> dle m e K E -> dle (m / 2 ^ k) (e + k) K E.
Proof.
  intros Hm Hk H.
  set (B := Z.min e E).
  apply (proj1 (dle_base B m e K E ltac:(unfold B; lia) ltac:(unfold B; lia))) in H.
  apply (dle_base B); [unfold B; lia | unfold B; lia | ].
  replace (e + k - B) with (k + (e - B)) by lia.
  rewrite Z.pow_add_r by (unfold B; lia).
  assert (H2k : 0 < 2 ^ k) by (apply Z.pow_pos_nonneg; lia).
  assert (H2e : 0 <= 2 ^ (e - B)) by (apply Z.pow_nonneg; lia).
  pose proof (Z.mul_div_le m (2 ^ k) H2k) as Hdiv.
  assert (m / 2 ^ k * (2 ^ k * 2 ^ (e - B)) <= m * 2 ^ (e - B)); [ | lia].
  rewrite Z.mul_assoc. apply Z.mul_le_mono_nonneg_r; lia.
Qed.

(** A positive number below [K * 2^E] with [K < 2^53] has its leading
    digit at most 53 places above [E]. *)
Lemma digits_below (m : positive) (e K E : Z) :
  K < 2 ^ 53 -> dle (Z.pos m) e K E -> Z.pos (digits2_pos m) + e - 53 <= E.
Proof.
  intros HK H. pose proof (digits2_pos_bounds m) as Hd.
  set (d := Z.pos (digits2_pos m)) in *.
  destruct (Z.le_gt_cases (d + e - 53) E) as [Hle | Hgt]; [exact Hle | exfalso].
  set (B := Z.min e E).
  apply (proj1 (dle_base B (Z.pos m) e K E ltac:(unfold B; lia) ltac:(unfold B; lia))) in H.
  assert (H1 : 2 ^ (d - 1) * 2 ^ (e - B) <= Z.pos m * 2 ^ (e - B)).
  { apply Z.mul_le_mono_nonneg_r; [apply Z.pow_nonneg; lia | lia]. }
  assert (H2 : K * 2 ^ (E - B) < 2 ^ 53 * 2 ^ (E - B)).
  { apply Z.mul_lt_mono_pos_r; [apply Z.pow_pos_nonneg; unfold B; lia | lia]. }
  rewrite <- Z.pow_add_r in H1 by (unfold d, B; lia).
  rewrite <- Z.pow_add_r in H2 by (unfold B; lia).
  assert (H3 : 2 ^ (53 + (E - B)) <= 2 ^ (d - 1 + (e - B))).
  { apply Z.pow_le_mono_r; lia. }
  lia.
Qed.

Lemma loc_of_shr_record_of_loc m l : loc_of_shr_record (shr_record_of_loc m l) = l.
Proof. destruct l as [ | []]; reflexivity. Qed.

Lemma round_nearest_even_inexact m l :
  m <= round_nearest_even m l <= m + inexact l.
Proof.
  unfold round_nearest_even, inexact. destruct l as [ | []]; try lia.
  destruct (Z.even m); lia.
Qed.

(** The first shift of [binary_round_aux], and the rounding that follows. *)
Lemma shr_fexp_ub (mx ex : Z) (lx : location) (K E : Z) :
  0 <= mx -> ex <= 971 ->
  0 < K < 2 ^ 53 -> -1074 <= E <= 971 ->
  dle (mx + inexact lx) ex K E ->
  let mrs := fst (shr_fexp prec emax mx ex lx) in
  let e1 := snd (shr_fexp prec emax mx ex lx) in
  let m1 := round_nearest_even (shr_m mrs) (loc_of_shr_record mrs) in
  0 <= m1 /\ e1 <= 971 /\ dle m1 e1 K E.
Proof.
  intros Hmx Hex HK HE Hle. cbv zeta. unfold shr_fexp.
  set (n := fexp (Zdigits2 mx + ex) - ex).
  destruct (Z.le_gt_cases n 0) as [Hn | Hn].
  - (* nothing is shifted out *)
    assert (Hshr : shr (shr_record_of_loc mx lx) ex n = (shr_record_of_loc mx lx, ex)).
    { unfold shr. destruct n; try reflexivity. lia. }
    rewrite Hshr. simpl fst. simpl snd.
    rewrite shr_record_of_loc_m, loc_of_shr_record_of_loc.
    pose proof (round_nearest_even_inexact mx lx) as Hr.
    split; [lia | split; [exact Hex | ]].
    apply (dle_mono_l (mx + inexact lx)); [exact Hle | lia].
  - destruct (shr_spec mx lx ex n Hmx) as [Hm He].
    rewrite He. replace (Z.max 0 n) with n in * by lia.
    pose proof (round_nearest_even_bounds
                  (shr_m (fst (shr (shr_record_of_loc mx lx) ex n)))
                  (loc_of_shr_record (fst (shr (shr_record_of_loc mx lx) ex n)))) as Hr.
    rewrite Hm in Hr |- *.
    assert (H2n : 0 < 2 ^ n) by (apply Z.pow_pos_nonneg; lia).
    assert (Hinex : 0 <= inexact lx <= 1) by (destruct lx; simpl; lia).
    destruct mx as [ | p | p]; [ | | lia].
    + (* zero: at most one unit of the least exponent *)
      rewrite Z.div_0_l in Hr |- * by lia.
      assert (He1 : ex + n = -1074).
      { unfold n in *. simpl Zdigits2 in *. rewrite fexp_value in *. lia. }
      rewrite He1. split; [lia | split; [lia | ]].
      apply (dle_base (-1074)); [lia | lia | ].
      rewrite Z.sub_diag, Z.mul_1_r.
      assert (0 < 2 ^ (E - -1074)) by (apply Z.pow_pos_nonneg; lia). nia.
    + assert (Hp : dle (Z.pos p) ex K E).
      { apply (dle_mono_l (Z.pos p + inexact lx)); [exact Hle | lia]. }
      pose proof (digits_below p ex K E ltac:(lia) Hp) as Hd.
      assert (He1 : ex + n <= E).
      { unfold n. simpl Zdigits2. rewrite fexp_value. lia. }
      set (Kb := K * 2 ^ (E - (ex + n))).
      assert (Hbound : Z.pos p + inexact lx <= Kb * 2 ^ n).
      { apply (proj1 (dle_base ex (Z.pos p + inexact lx) ex K E ltac:(lia) ltac:(lia))) in Hle.
        rewrite Z.sub_diag, Z.mul_1_r in Hle.
        unfold Kb. rewrite <- Z.mul_assoc, <- Z.pow_add_r by lia.
        replace (E - (ex + n) + n) with (E - ex) by lia. exact Hle. }
      assert (Hq : Z.pos p / 2 ^ n <= Kb).
      { apply Z.div_le_upper_bound; lia. }
      split; [assert (0 <= Z.pos p / 2 ^ n) by (apply Z.div_pos; lia); lia | ].
      split; [lia | ].
      apply (dle_base (ex + n)); [lia | lia | ].
      rewrite Z.sub_diag, Z.mul_1_r. fold Kb.
      destruct (Z.eq_dec (Z.pos p / 2 ^ n) Kb) as [Heq | Hne].
      * (* the bound itself: nothing was cut off *)
        assert (Hexact : Z.pos p = Kb * 2 ^ n /\ inexact lx = 0).
        { pose proof (Z.mul_div_le (Z.pos p) (2 ^ n) H2n). rewrite Heq in *. lia. }
        destruct Hexact as [Hpn Hlx].
        assert (lx = loc_Exact) by (destruct lx; [reflexivity | discriminate]). subst lx.
        assert (Hrec : fst (shr (shr_record_of_loc (Z.pos p) loc_Exact) ex n) =
                       Build_shr_record Kb false false).
        { unfold shr. destruct n as [ | k | k] eqn:Hk; try lia. simpl fst.
          rewrite iter_pos_nat. simpl shr_record_of_loc. rewrite Hpn.
          rewrite <- (positive_nat_Z k). apply shr_exact. }
        rewrite Hrec, Heq. simpl. lia.
      * lia.
Qed.

Lemma binary_round_aux_ub (s : bool) (mx ex : Z) (lx : location) (K E : Z) :
  0 <= mx -> ex <= 971 ->
  0 < K < 2 ^ 53 -> -1074 <= E <= 971 ->
  dle (mx + inexact lx) ex K E ->
  signedAtMostSF s K E (binary_round_aux prec emax s mx ex lx).
Proof.
  intros Hmx Hex HK HE Hle.
  destruct (shr_fexp_ub mx ex lx K E Hmx Hex HK HE Hle) as (Hm1 & He1 & Hle1).
  unfold binary_round_aux.
  destruct (shr_fexp prec emax mx ex lx) as [mrs1 e1]. simpl fst in *. simpl snd in *.
  set (m1 := round_nearest_even (shr_m mrs1) (loc_of_shr_record mrs1)) in *.
  unfold shr_fexp.
  destruct (shr_spec m1 loc_Exact e1 (fexp (Zdigits2 m1 + e1) - e1) Hm1) as [Hm2 He2].
  destruct (shr (shr_record_of_loc m1 loc_Exact) e1 (fexp (Zdigits2 m1 + e1) - e1))
    as [mrs2 e2].
  simpl fst in *. simpl snd in *.
  set (n2 := Z.max 0 (fexp (Zdigits2 m1 + e1) - e1)) in *.
  assert (Hle2 : dle (shr_m mrs2) e2 K E).
  { rewrite Hm2, He2. apply dle_shr; [exact Hm1 | unfold n2; lia | exact Hle1]. }
  destruct (shr_m mrs2) as [ | m2 | m2] eqn:Hshr.
  - reflexivity.
  - assert (Hpos1 : 0 < m1).
    { destruct (Z.eq_dec m1 0) as [H0 | H0]; [ | lia].
      rewrite H0, Z.div_0_l in Hm2; [discriminate | ].
      apply Z.pow_nonzero; [lia | unfold n2; lia]. }
    assert (He2' : e2 <= 971).
    { destruct m1 as [ | p1 | p1]; try lia.
      pose proof (digits_below p1 e1 K E ltac:(lia) Hle1) as Hd.
      rewrite He2. unfold n2. simpl Zdigits2. rewrite fexp_value. lia. }
    change (emax - prec) with 971.
    destruct (Z.leb_spec e2 971); [ | lia].
    simpl. auto.
  - exfalso.
    assert (0 <= m1 / 2 ^ n2) by (apply Z.div_pos; [lia | apply Z.pow_pos_nonneg; unfold n2; lia]).
    lia.
Qed.

Lemma binary_round_ub (s : bool) (mx : positive) (ex K E : Z) :
  ex <= 971 ->
  0 < K < 2 ^ 53 -> -1074 <= E <= 971 ->
  dle (Z.pos mx) ex K E ->
  signedAtMostSF s K E (binary_round prec emax s mx ex).
Proof.
  intros Hex HK HE Hle. unfold binary_round.
  set (t := fexp (Z.pos (digits2_pos mx) + ex)).
  destruct (Z.le_gt_cases ex t) as [Ht | Ht].
  - assert (Hsh : shl_align mx ex t = (mx, ex)).
    { unfold shl_align. destruct (t - ex) eqn:Hd; try reflexivity. lia. }
    rewrite Hsh. apply binary_round_aux_ub; try assumption. lia.
  - destruct (shl_align_spec mx ex t) as [Hm He]; [lia | ].
    destruct (shl_align mx ex t) as [mz ez]. simpl in Hm, He. subst ez.
    apply binary_round_aux_ub; try assumption; [lia | lia | ].
    simpl inexact. rewrite Z.add_0_r, Hm.
    set (B := Z.min t E).
    apply (proj1 (dle_base B (Z.pos mx) ex K E ltac:(unfold B; lia) ltac:(unfold B; lia))) in Hle.
    apply (dle_base B); [unfold B; lia | unfold B; lia | ].
    rewrite <- Z.mul_assoc, <- Z.pow_add_r by (unfold B; lia).
    replace (ex - t + (t - B)) with (ex - B) by lia. exact Hle.
Qed.

End Binary64Upper.

(** ** Upper bounds and signs through the operations *)

Section Bounds.

Local Open Scope Z_scope.

Local Abbreviation fexp := (SpecFloat.fexp prec emax).

Lemma binary_round_aux_sign s m e l :
  match binary_round_aux prec emax s m e l with
  | S754_zero s' | S754_infinity s' | S754_finite s' _ _ => s' = s
  | S754_nan => True
  end.
Proof.
  unfold binary_round_aux.
  destruct (shr_fexp prec emax m e l) as [mrs1 e1].
  destruct (shr_fexp prec emax _ e1 loc_Exact) as [mrs2 e2].
  destruct (shr_m mrs2); [reflexivity | | exact I].
  destruct (e2 <=? emax - prec); reflexivity.
Qed.

Lemma binary_round_aux_notNegative m e l :
  notNegativeSF (binary_round_aux prec emax false m e l).
Proof.
  pose proof (binary_round_aux_sign false m e l) as H.
  destruct (binary_round_aux prec emax false m e l); simpl; auto.
Qed.

Lemma binary_round_notNegative m e : notNegativeSF (binary_round prec emax false m e).
Proof.
  unfold binary_round. destruct (shl_align _ _ _). apply binary_round_aux_notNegative.
Qed.

Lemma SFadd_notNegative (x y : spec_float) :
  notNegativeSF x -> notNegativeSF y -> notNegativeSF (SFadd prec emax x y).
Proof.
  destruct x as [sx | sx | | sx mx ex], y as [sy | sy | | sy my ey]; simpl;
    intros Hx Hy; subst; simpl; auto.
  set (S := Z.pos (fst (shl_align mx ex (Z.min ex ey)))
            + Z.pos (fst (shl_align my ey (Z.min ex ey)))).
  assert (0 < S) by (unfold S; lia).
  destruct S as [ | S | S]; try lia.
  simpl binary_normalize. apply binary_round_notNegative.
Qed.

Lemma SFmul_notNegative (x y : spec_float) :
  notNegativeSF x -> notNegativeSF y -> notNegativeSF (SFmul prec emax x y).
Proof.
  destruct x as [sx | sx | | sx mx ex], y as [sy | sy | | sy my ey]; simpl;
    intros Hx Hy; subst; simpl; auto.
  apply binary_round_aux_notNegative.
Qed.

Lemma SFdiv_notNegative (x y : spec_float) :
  notNegativeSF x -> notNegativeSF y -> notNegativeSF (SFdiv prec emax x y).
Proof.
  destruct x as [sx | sx | | sx mx ex], y as [sy | sy | | sy my ey]; simpl;
    intros Hx Hy; subst; simpl; auto.
  destruct (SFdiv_core_binary prec emax (Z.pos mx) ex (Z.pos my) ey) as [[mz ez] lz].
  apply binary_round_aux_notNegative.
Qed.

Lemma add_notNegative (x y : float) :
  notNegative x -> notNegative y -> notNegative (x + y).
Proof. unfold notNegative. rewrite add_spec. apply SFadd_notNegative. Qed.

Lemma mul_notNegative (x y : float) :
  notNegative x -> notNegative y -> notNegative (x * y).
Proof. unfold notNegative. rewrite mul_spec. apply SFmul_notNegative. Qed.

Lemma div_notNegative (x y : float) :
  notNegative x -> notNegative y -> notNegative (x / y).
Proof. unfold notNegative. rewrite div_spec. apply SFdiv_notNegative. Qed.

Lemma gain_notNegative (difference : float) : notNegative (gain difference).
Proof.
  unfold gain, notNegative.
  destruct (0 <? difference)%float eqn:Hlt; [ | reflexivity].
  rewrite ltb_spec, Prim2SF_zero in Hlt. unfold SFltb in Hlt.
  destruct (Prim2SF difference) as [s | [] | | [] m e]; simpl in *;
    try discriminate; reflexivity.
Qed.

Lemma loss_notNegative (difference : float) : notNegative (loss difference).
Proof.
  unfold loss, notNegative.
  destruct (difference <? 0)%float; [ | reflexivity].
  rewrite abs_spec. destruct (Prim2SF difference); simpl; auto.
Qed.

Lemma fold_add_notNegative (xs : list float) (init : float) :
  Forall notNegative xs -> notNegative init ->
  notNegative (fold_left (fun sum x => sum + x)%float xs init).
Proof.
  intros Hxs. revert init. induction Hxs as [ | x xs Hx _ IH]; intros init Hinit;
    [exact Hinit | ].
  simpl. apply IH. now apply add_notNegative.
Qed.

Lemma period_notNegative (period : nat) :
  (1 <= period)%nat -> Z.of_nat period < 2 ^ 53 ->
  notNegative (JS.of_nat period) /\ notNegative (JS.of_nat period - 1).
Proof.
  intros H1 H53.
  destruct (period_number period H1 H53) as [(m & e & HP) [H0 | (m' & e' & H')]];
    unfold notNegative; rewrite HP, ?H0, ?H'; simpl; auto.
Qed.

Lemma initialAvg_notNegative (xs : list float) (period : nat) :
  (1 <= period)%nat -> Z.of_nat period < 2 ^ 53 ->
  Forall notNegative xs -> notNegative (initialAvg xs period).
Proof.
  intros H1 H53 Hxs. unfold initialAvg.
  apply div_notNegative; [ | apply (period_notNegative period H1 H53)].
  apply fold_add_notNegative; [ | reflexivity].
  rewrite List.Forall_forall in *. intros x Hx. apply Hxs.
  rewrite <- (firstn_skipn period xs). apply in_or_app. now left.
Qed.

Lemma smooth_notNegative (period : nat) (avg current : float) :
  (1 <= period)%nat -> Z.of_nat period < 2 ^ 53 ->
  notNegative avg -> notNegative current -> notNegative (smooth period avg current).
Proof.
  intros H1 H53 Havg Hcur. destruct (period_notNegative period H1 H53) as [Hp Hp1].
  unfold smooth. apply div_notNegative; [ | exact Hp].
  apply add_notNegative; [ | exact Hcur]. now apply mul_notNegative.
Qed.

Lemma smoothAll_notNegative (period : nat) (gls : list (float * float))
    (init : float * float) :
  (1 <= period)%nat -> Z.of_nat period < 2 ^ 53 ->
  Forall (fun gl => notNegative (fst gl) /\ notNegative (snd gl)) gls ->
  notNegative (fst init) -> notNegative (snd init) ->
  let avgs := fold_left
                (fun avgs gl => (smooth period (fst avgs) (fst gl),
                                 smooth period (snd avgs) (snd gl)))
                gls init in
  notNegative (fst avgs) /\ notNegative (snd avgs).
Proof.
  intros H1 H53 Hgls. revert init.
  induction Hgls as [ | gl gls [Hg Hl] _ IH]; intros init Hi1 Hi2; [now split | ].
  cbn [fold_left]. apply IH; cbn [fst snd]; now apply smooth_notNegative.
Qed.

(** [1 + x] is at least 1 when [x] is a number that is not negative. *)
Lemma one_plus_atLeast (x : spec_float) :
  notNegativeSF x -> x <> S754_nan ->
  atLeastSF 1 0 (SFadd prec emax (Prim2SF 1) x).
Proof.
  rewrite Prim2SF_one.
  destruct x as [s | s | | s m e]; simpl notNegativeSF; intros Hs Hnan; subst;
    try congruence.
  - unfold SFadd, atLeastSF, dle. apply Z.leb_le. reflexivity.
  - exact I.
  - unfold SFadd.
    set (ez := Z.min (-52) e).
    destruct (shl_align_spec 4503599627370496 (-52) ez) as [-> _]; [unfold ez; lia | ].
    destruct (shl_align_spec m e ez) as [-> _]; [unfold ez; lia | ].
    simpl cond_Zopp.
    assert (H2a : 0 < 2 ^ (-52 - ez)) by (apply Z.pow_pos_nonneg; unfold ez; lia).
    assert (H2b : 0 < 2 ^ (e - ez)) by (apply Z.pow_pos_nonneg; unfold ez; lia).
    destruct (4503599627370496 * 2 ^ (-52 - ez) + Z.pos m * 2 ^ (e - ez))
      as [ | S | S] eqn:HS; try lia.
    simpl binary_normalize. apply signedAtLeastSF_false.
    apply binary_round_lb; [split; [lia | discriminate] | lia | ].
    apply (dle_base ez); [unfold ez; lia | lia | ].
    rewrite Z.sub_diag, Z.mul_1_r, Z.mul_1_l, <- HS.
    change 4503599627370496 with (2 ^ 52).
    assert (H : 2 ^ (0 - ez) = 2 ^ 52 * 2 ^ (-52 - ez)).
    { rewrite <- Z.pow_add_r by (unfold ez; lia). f_equal. lia. }
    rewrite H. lia.
Qed.

(** Dividing a positive number by a number that is at least 1 gives at
    most that number. *)
Lemma SFdiv_atMost (mx : positive) (ex : Z) (y : spec_float) :
  valid_binary (S754_finite false mx ex) = true ->
  atLeastSF 1 0 y ->
  atMostSF (Z.pos mx) ex (SFdiv prec emax (S754_finite false mx ex) y).
Proof.
  intros Hvx Hy.
  destruct y as [ | [] | | [] my ey]; try contradiction; [reflexivity | ].
  simpl in Hy.
  apply valid_finite_inv in Hvx. destruct Hvx as (Hex & Hd1 & Hn1).
  unfold SFdiv, SFdiv_core_binary. simpl Zdigits2. simpl xorb.
  pose proof (digits2_pos_bounds mx) as Hb1.
  pose proof (digits2_pos_bounds my) as Hb2.
  set (d1 := Z.pos (digits2_pos mx)) in *.
  set (d2 := Z.pos (digits2_pos my)) in *.
  rewrite fexp_value.
  set (e' := Z.min (Z.max (d1 + ex - (d2 + ey) - 53) (-1074)) (ex - ey)).
  set (sh := ex - ey - e').
  assert (Hsh : 0 <= sh) by (unfold sh, e'; lia).
  assert (Hm' : match sh with
                | 0 => Z.pos mx
                | Z.pos _ => Z.shiftl (Z.pos mx) sh
                | Z.neg _ => 0
                end = Z.pos mx * 2 ^ sh).
  { destruct sh as [ | k | k] eqn:Hk; [simpl; lia | | lia].
    now rewrite Z.shiftl_mul_pow2 by lia. }
  rewrite Hm'.
  (* the divisor is at least 1 *)
  assert (Hy1 : 1 <= d2 + ey).
  { destruct (Z.le_gt_cases 1 (d2 + ey)) as [H | H]; [exact H | exfalso].
    apply (proj1 (dle_base (Z.min 0 ey) 1 0 (Z.pos my) ey ltac:(lia) ltac:(lia))) in Hy.
    assert (H1 : Z.pos my * 2 ^ (ey - Z.min 0 ey) < 2 ^ d2 * 2 ^ (ey - Z.min 0 ey)).
    { apply Z.mul_lt_mono_pos_r; [apply Z.pow_pos_nonneg; lia | lia]. }
    rewrite <- Z.pow_add_r in H1 by (unfold d2; lia).
    assert (H2 : 2 ^ (d2 + (ey - Z.min 0 ey)) <= 2 ^ (0 - Z.min 0 ey)).
    { apply Z.pow_le_mono_r; lia. }
    lia. }
  assert (He' : e' <= ex) by (unfold e'; lia).
  pose proof (Z.div_eucl_eq (Z.pos mx * 2 ^ sh) (Z.pos my) ltac:(lia)) as Heucl.
  pose proof (Z.mod_pos_bound (Z.pos mx * 2 ^ sh) (Z.pos my) ltac:(lia)) as Hrem.
  unfold Z.modulo in Hrem.
  destruct (Z.div_eucl (Z.pos mx * 2 ^ sh) (Z.pos my)) as [q r].
  set (Kb := Z.pos mx * 2 ^ (ex - e')).
  assert (H2sh : 0 < 2 ^ sh) by (apply Z.pow_pos_nonneg; lia).
  assert (HKb : Z.pos mx * 2 ^ sh <= Kb * Z.pos my).
  { unfold Kb. destruct (Z.le_gt_cases 0 ey) as [Hey | Hey].
    - assert (2 ^ sh <= 2 ^ (ex - e')) by (apply Z.pow_le_mono_r; unfold sh; lia).
      assert (0 < 2 ^ (ex - e')) by (apply Z.pow_pos_nonneg; lia).
      apply Z.le_trans with (Z.pos mx * 2 ^ (ex - e')).
      + apply Z.mul_le_mono_nonneg_l; lia.
      + assert (0 < Z.pos mx * 2 ^ (ex - e')) by (apply Z.mul_pos_pos; lia).
        nia.
    - apply (proj1 (dle_base ey 1 0 (Z.pos my) ey ltac:(lia) ltac:(lia))) in Hy.
      rewrite Z.sub_diag, Z.mul_1_r, Z.mul_1_l in Hy.
      replace sh with ((ex - e') + (0 - ey)) by (unfold sh; lia).
      rewrite Z.pow_add_r by lia.
      assert (0 < 2 ^ (ex - e')) by (apply Z.pow_pos_nonneg; lia).
      rewrite <- !Z.mul_assoc. apply Z.mul_le_mono_nonneg_l; [lia | ].
      apply Z.mul_le_mono_nonneg_l; lia. }
  assert (Hq0 : 0 <= q) by nia.
  assert (Hq : q + inexact (new_location (Z.pos my) r) <= Kb).
  { assert (Hloc : inexact (new_location (Z.pos my) r) = if (r =? 0) then 0 else 1).
    { unfold new_location, new_location_even, new_location_odd.
      destruct (Z.even (Z.pos my)); destruct (r =? 0); reflexivity. }
    rewrite Hloc. destruct (Z.eqb_spec r 0) as [Hr0 | Hr0]; nia. }
  apply binary_round_aux_ub.
  - exact Hq0.
  - lia.
  - split; [lia | ].
    eapply Z.lt_le_trans; [apply Hb1 | apply Z.pow_le_mono_r; lia].
  - lia.
  - apply (dle_base e'); [lia | lia | ].
    rewrite Z.sub_diag, Z.mul_1_r. exact Hq.
Qed.

(** Subtracting from a positive number [x] a number between 0 and [x]
    gives a number between 0 and [x]. *)
Lemma SFsub_atMost (mx : positive) (ex : Z) (y : spec_float) :
  valid_binary (S754_finite false mx ex) = true ->
  atMostSF (Z.pos mx) ex y ->
  atMostSF (Z.pos mx) ex (SFsub prec emax (S754_finite false mx ex) y).
Proof.
  intros Hvx Hy.
  apply valid_finite_inv in Hvx. destruct Hvx as (Hex & Hd1 & Hn1).
  pose proof (digits2_pos_bounds mx) as Hb1.
  assert (Hmx : Z.pos mx < 2 ^ 53).
  { eapply Z.lt_le_trans; [apply Hb1 | apply Z.pow_le_mono_r; lia]. }
  destruct y as [sy | sy | | sy my ey]; simpl in Hy; try contradiction.
  - simpl. split; [reflexivity | ]. unfold dle. lia.
  - destruct Hy as [-> Hy]. rewrite SFsub_finite.
    set (ez := Z.min ex ey).
    destruct (shl_align_spec mx ex ez) as [-> _]; [unfold ez; lia | ].
    destruct (shl_align_spec my ey ez) as [-> _]; [unfold ez; lia | ].
    simpl cond_Zopp.
    apply (proj1 (dle_base ez (Z.pos my) ey (Z.pos mx) ex
                    ltac:(unfold ez; lia) ltac:(unfold ez; lia))) in Hy.
    assert (H2y : 0 < 2 ^ (ey - ez)) by (apply Z.pow_pos_nonneg; unfold ez; lia).
    destruct (Z.pos mx * 2 ^ (ex - ez) - Z.pos my * 2 ^ (ey - ez)) as [ | D | D] eqn:HD;
      try lia.
    + reflexivity.
    + simpl binary_normalize. apply binary_round_ub; [unfold ez; lia | lia | lia | ].
      apply (dle_base ez); [unfold ez; lia | unfold ez; lia | ].
      rewrite Z.sub_diag, Z.mul_1_r. lia.
Qed.

(** A number between 0 and 100, times 100, is between 0 and 10000. *)
Lemma SFmul_hundred (x : spec_float) :
  valid_binary x = true ->
  atMostSF 100 0 x ->
  atMostSF 10000 0 (SFmul prec emax x (Prim2SF 100)).
Proof.
  intros Hvx Hx.
  change (Prim2SF 100) with (S754_finite false 7036874417766400 (-46)).
  destruct x as [sx | sx | | sx mx ex]; simpl in Hx; try contradiction.
  - subst. reflexivity.
  - destruct Hx as [-> Hx]. unfold SFmul. simpl xorb.
    apply valid_finite_inv in Hvx. destruct Hvx as (Hex & _).
    apply binary_round_aux_ub; [lia | lia | split; reflexivity | lia | ].
    simpl inexact. rewrite Z.add_0_r.
    set (b := Z.min ex 0).
    apply (proj1 (dle_base b (Z.pos mx) ex 100 0 ltac:(unfold b; lia) ltac:(unfold b; lia)))
      in Hx.
    apply (dle_base (b - 46)); [unfold b; lia | unfold b; lia | ].
    replace (ex + -46 - (b - 46)) with (ex - b) by lia.
    replace (0 - (b - 46)) with ((0 - b) + 46) by lia.
    rewrite Z.pow_add_r by (unfold b; lia).
    rewrite Pos2Z.inj_mul. change (Z.pos 7036874417766400) with (100 * 2 ^ 46).
    assert (0 < 2 ^ 46) by reflexivity.
    nia.
Qed.

Lemma atMostSF_weaken (K E K' E' : Z) (x : spec_float) :
  0 < K -> dle K E K' E' -> atMostSF K E x -> atMostSF K' E' x.
Proof.
  intros HK Hle. destruct x as [s | s | | s m e]; simpl; auto.
  intros [-> Hx]. split; [reflexivity | ]. now apply (dle_trans _ _ K E).
Qed.

(** [Math.round] of a number between 0 and 10000 is an integer between 0
    and 10000. *)
Lemma Math_round_atMost (t : float) :
  atMost 10000 0 t ->
  exists n, 0 <= n <= 10000 /\ JS.Math_round t = JS.of_Z n.
Proof.
  unfold atMost, JS.Math_round. pose proof (Prim2SF_valid t) as Hv.
  destruct (Prim2SF t) as [s | s | | s m e] eqn:Ht; simpl atMostSF; try contradiction.
  - intros ->. exists 0. split; [lia | ]. now apply zero_of_Prim2SF.
  - intros [-> Hle]. destruct (Z.leb_spec 0 e) as [He | He].
    + (* an integer already *)
      apply (proj1 (dle_base 0 (Z.pos m) e 10000 0 ltac:(lia) ltac:(lia))) in Hle.
      rewrite Z.sub_0_r in Hle. change (10000 * 2 ^ (0 - 0)) with 10000 in Hle.
      assert (H2e : 0 < 2 ^ e) by (apply Z.pow_pos_nonneg; lia).
      destruct (Z.pos m * 2 ^ e) as [ | M | M] eqn:HM; try lia.
      exists (Z.pos M). split; [lia | ].
      unfold JS.of_Z. simpl binary_normalize.
      rewrite (binary_round_exact false M 0 m e Hv).
      * now rewrite <- Ht, SF2Prim_Prim2SF.
      * left. split; [exact He | ]. now rewrite Z.sub_0_r.
    + exists ((2 * Z.pos m + 2 ^ (- e)) / 2 ^ (1 - e)). split; [ | reflexivity].
      apply (proj1 (dle_base e (Z.pos m) e 10000 0 ltac:(lia) ltac:(lia))) in Hle.
      rewrite Z.sub_diag, Z.mul_1_r in Hle.
      replace (0 - e) with (- e) in Hle by lia.
      assert (H2e : 0 < 2 ^ (- e)) by (apply Z.pow_pos_nonneg; lia).
      assert (H2e1 : 2 ^ (1 - e) = 2 * 2 ^ (- e)).
      { replace (1 - e) with (Z.succ (- e)) by lia. rewrite Z.pow_succ_r; lia. }
      rewrite H2e1. split.
      * apply Z.div_pos; lia.
      * assert (H : (2 * Z.pos m + 2 ^ (- e)) / (2 * 2 ^ (- e)) < 10001); [ | lia].
        apply Z.div_lt_upper_bound; lia.
Qed.

(** The quotient of two positive numbers is at most [K * 2^E] when the
    dividend is at most [K * 2^E] times the divisor. *)
Lemma SFdiv_ub (mx : positive) (ex : Z) (my : positive) (ey K E : Z) :
  0 < K < 2 ^ 53 -> -1074 <= E <= 971 ->
  dle (Z.pos mx) ex (K * Z.pos my) (E + ey) ->
  atMostSF K E (SFdiv prec emax (S754_finite false mx ex) (S754_finite false my ey)).
Proof.
  intros HK HE Hle.
  unfold SFdiv, SFdiv_core_binary. simpl Zdigits2. simpl xorb.
  pose proof (digits2_pos_bounds mx) as Hb1.
  pose proof (digits2_pos_bounds my) as Hb2.
  set (d1 := Z.pos (digits2_pos mx)) in *.
  set (d2 := Z.pos (digits2_pos my)) in *.
  rewrite fexp_value.
  set (e' := Z.min (Z.max (d1 + ex - (d2 + ey) - 53) (-1074)) (ex - ey)).
  set (sh := ex - ey - e').
  assert (Hsh : 0 <= sh) by (unfold sh, e'; lia).
  assert (Hm' : match sh with
                | 0 => Z.pos mx
                | Z.pos _ => Z.shiftl (Z.pos mx) sh
                | Z.neg _ => 0
                end = Z.pos mx * 2 ^ sh).
  { destruct sh as [ | k | k] eqn:Hk; [simpl; lia | | lia].
    now rewrite Z.shiftl_mul_pow2 by lia. }
  rewrite Hm'.
  (* the leading digit of the quotient is at most 53 places above [E] *)
  assert (Hd : d1 + ex - (d2 + ey) - 53 <= E).
  { destruct (Z.le_gt_cases (d1 + ex - (d2 + ey) - 53) E) as [H | H]; [exact H | exfalso].
    set (B := Z.min ex (E + ey)).
    apply (proj1 (dle_base B (Z.pos mx) ex (K * Z.pos my) (E + ey)
                    ltac:(unfold B; lia) ltac:(unfold B; lia))) in Hle.
    assert (H1 : 2 ^ (d1 - 1) * 2 ^ (ex - B) <= Z.pos mx * 2 ^ (ex - B)).
    { apply Z.mul_le_mono_nonneg_r; [apply Z.pow_nonneg; lia | lia]. }
    assert (H2 : K * Z.pos my * 2 ^ (E + ey - B) < 2 ^ 53 * 2 ^ d2 * 2 ^ (E + ey - B)).
    { apply Z.mul_lt_mono_pos_r; [apply Z.pow_pos_nonneg; unfold B; lia | ].
      assert (0 < 2 ^ d2) by (apply Z.pow_pos_nonneg; unfold d2; lia). nia. }
    rewrite <- Z.pow_add_r in H1 by (unfold d1, B; lia).
    rewrite <- !Z.pow_add_r in H2 by (unfold d2, B; lia).
    assert (H3 : 2 ^ (53 + d2 + (E + ey - B)) <= 2 ^ (d1 - 1 + (ex - B))).
    { apply Z.pow_le_mono_r; lia. }
    lia. }
  assert (He' : e' <= E) by (unfold e'; lia).
  pose proof (Z.div_eucl_eq (Z.pos mx * 2 ^ sh) (Z.pos my) ltac:(lia)) as Heucl.
  pose proof (Z.mod_pos_bound (Z.pos mx * 2 ^ sh) (Z.pos my) ltac:(lia)) as Hrem.
  unfold Z.modulo in Hrem.
  destruct (Z.div_eucl (Z.pos mx * 2 ^ sh) (Z.pos my)) as [q r].
  set (Kb := K * 2 ^ (E - e')).
  assert (HKb : Z.pos mx * 2 ^ sh <= Kb * Z.pos my).
  { apply (proj1 (dle_base (ey + e') (Z.pos mx) ex (K * Z.pos my) (E + ey)
                    ltac:(unfold e'; lia) ltac:(lia))) in Hle.
    replace (ex - (ey + e')) with sh in Hle by (unfold sh; lia).
    replace (E + ey - (ey + e')) with (E - e') in Hle by lia.
    unfold Kb. lia. }
  assert (HKb0 : 0 <= Kb).
  { unfold Kb. assert (0 <= 2 ^ (E - e')) by (apply Z.pow_nonneg; lia). nia. }
  assert (Hq0 : 0 <= q) by nia.
  assert (Hq : q + inexact (new_location (Z.pos my) r) <= Kb).
  { assert (Hloc : inexact (new_location (Z.pos my) r) = if (r =? 0) then 0 else 1).
    { unfold new_location, new_location_even, new_location_odd.
      destruct (Z.even (Z.pos my)); destruct (r =? 0); reflexivity. }
    rewrite Hloc. destruct (Z.eqb_spec r 0) as [Hr0 | Hr0]; nia. }
  apply binary_round_aux_ub; [exact Hq0 | lia | exact HK | exact HE | ].
  apply (dle_base e'); [lia | lia | ].
  rewrite Z.sub_diag, Z.mul_1_r. exact Hq.
Qed.

(** A number that is at most 100 compares as such. *)
Lemma atMost_hundred_leb (v : float) :
  atMost 100 0 v -> (0 <=? v)%float = true /\ (v <=? 100)%float = true.
Proof.
  unfold atMost. intros Hv. pose proof (Prim2SF_valid v) as Hvalid.
  rewrite !leb_spec.
  change (Prim2SF 0) with (S754_zero false).
  change (Prim2SF 100) with (S754_finite false 7036874417766400 (-46)).
  destruct (Prim2SF v) as [s | s | | s m e]; simpl in Hv; try contradiction.
  - subst. split; reflexivity.
  - destruct Hv as [-> Hle]. split; [reflexivity | ].
    unfold SFleb.
    rewrite (SFcompare_finite false m e false 7036874417766400 (-46) Hvalid eq_refl).
    set (b := Z.min e (-46)).
    destruct (shl_align_spec m e b) as [-> _]; [unfold b; lia | ].
    destruct (shl_align_spec 7036874417766400 (-46) b) as [-> _]; [unfold b; lia | ].
    simpl cond_Zopp.
    apply (proj1 (dle_base b (Z.pos m) e 100 0 ltac:(unfold b; lia) ltac:(unfold b; lia)))
      in Hle.
    replace (0 - b) with (46 + (-46 - b)) in Hle by lia.
    rewrite Z.pow_add_r in Hle by (unfold b; lia).
    change (Z.pos 7036874417766400) with (100 * 2 ^ 46).
    destruct (Z.compare_spec (Z.pos m * 2 ^ (e - b)) (100 * 2 ^ 46 * 2 ^ (-46 - b)));
      try reflexivity. lia.
Qed.

(** The hundredths of the integers from 0 to 10000 lie between 0 and
    100. *)
Lemma hundredths_range (n : Z) :
  0 <= n <= 10000 ->
  (0 <=? JS.of_Z n / 100)%float = true /\ (JS.of_Z n / 100 <=? 100)%float = true.
Proof.
  intros Hn. apply atMost_hundred_leb. unfold atMost. rewrite div_spec.
  change (Prim2SF 100) with (S754_finite false 7036874417766400 (-46)).
  destruct n as [ | q | q]; [reflexivity | | lia].
  destruct (of_Z_exact q) as (m & e & HP & Hvalid & He & Hm);
    [assert (10000 < 2 ^ 53) by reflexivity; lia | ].
  rewrite HP. apply SFdiv_ub; [split; reflexivity | lia | ].
  apply (dle_base (-52)); [lia | lia | ].
  rewrite Hm, <- Z.mul_assoc, <- Z.pow_add_r by lia.
  replace (- e + (e - -52)) with 52 by lia.
  change (100 * Z.pos 7036874417766400 * 2 ^ (0 + -46 - -52)) with (10000 * 2 ^ 52).
  assert (0 < 2 ^ 52) by reflexivity. nia.
Qed.

End Bounds.

(** ** The range of the indicator *)

Lemma gains_losses_notNegative (ds : list float) (period : nat) :
  Forall (fun gl => notNegative (fst gl) /\ notNegative (snd gl))
         (skipn period (combine (map gain ds) (map loss ds))).
Proof.
  rewrite List.Forall_forall. intros [g l] Hin.
  assert (Hin' : In (g, l) (combine (map gain ds) (map loss ds))).
  { rewrite <- (firstn_skipn period (combine _ _)). apply in_or_app. now right. }
  pose proof (in_combine_l _ _ _ _ Hin') as Hg. pose proof (in_combine_r _ _ _ _ Hin') as Hl.
  apply in_map_iff in Hg. destruct Hg as (d & <- & _).
  apply in_map_iff in Hl. destruct Hl as (d' & <- & _).
  split; [apply gain_notNegative | apply loss_notNegative].
Qed.

(** The last steps of [calculateRSI], from a ratio [rs] that is a number
    and not negative. *)
Lemma rsi_of_ratio_number (rs : float) :
  notNegative rs -> Prim2SF rs <> S754_nan ->
  exists n, (0 <= n <= 10000)%Z /\
            (JS.Math_round ((100 - 100 / (1 + rs)) * 100) / 100)%float
              = (JS.of_Z n / 100)%float.
Proof.
  intros Hrs Hnan.
  assert (H1 : atLeast 1 0 (1 + rs)).
  { unfold atLeast. rewrite add_spec. now apply one_plus_atLeast. }
  assert (H2 : atMost 7036874417766400 (-46) (100 / (1 + rs))).
  { unfold atMost. rewrite div_spec.
    change (Prim2SF 100) with (S754_finite false 7036874417766400 (-46)).
    apply SFdiv_atMost; [reflexivity | exact H1]. }
  assert (H3 : atMost 100 0 (100 - 100 / (1 + rs))).
  { unfold atMost. rewrite sub_spec.
    change (Prim2SF 100) with (S754_finite false 7036874417766400 (-46)).
    apply (atMostSF_weaken 7036874417766400 (-46));
      [reflexivity | unfold dle; apply Z.leb_le; reflexivity | ].
    apply SFsub_atMost; [reflexivity | exact H2]. }
  assert (H4 : atMost 10000 0 ((100 - 100 / (1 + rs)) * 100)).
  { unfold atMost. rewrite mul_spec. apply SFmul_hundred; [apply Prim2SF_valid | exact H3]. }
  destruct (Math_round_atMost _ H4) as (n & Hn & ->). exists n. auto.
Qed.

Lemma rsi_of_ratio (rs : float) :
  notNegative rs ->
  let v := (JS.Math_round ((100 - 100 / (1 + rs)) * 100) / 100)%float in
  is_nan v = true \/
  exists n, (0 <= n <= 10000)%Z /\ v = (JS.of_Z n / 100)%float.
Proof.
  intros Hrs. cbv zeta.
  destruct (Prim2SF rs) as [s | s | | s m e] eqn:Hprs.
  3: { left. assert (rs = nan) by (apply Prim2SF_inj; now rewrite Hprs). subst rs.
       reflexivity. }
  all: right; apply rsi_of_ratio_number; [exact Hrs | rewrite Hprs; discriminate].
Qed.

(** NaN does come out: two swings that overflow make both averages
    infinite, and their ratio is NaN. *)
Example calculateRSI_overflow :
  calculateRSI [0; 0x1p+1023; -0x1p+1023; 0x1p+1023]%float 2 = Ok nan.
Proof. reflexivity. Qed.

(** X22: the value [calculateRSI] returns is NaN or one of the hundredths
    between 0 and 100.  For a series of at least [period + 1] prices,
    whatever numbers the prices are, the function returns, and what it
    returns is either NaN or the quotient by 100 of an integer from 0 to
    10000, a number that is at least 0 and at most 100. *)
Theorem calculateRSI_range (prices : list float) (period : nat) :
  (period + 1 <= length prices)%nat ->
  arrayLength prices ->
  exists v,
    calculateRSI prices period = Ok v /\
    (is_nan v = true \/
     exists n, (0 <= n <= 10000)%Z /\
               v = (JS.of_Z n / 100)%float /\
               (0 <=? v)%float = true /\ (v <=? 100)%float = true).
Proof.
  intros Hlen Harr.
  destruct period as [ | period'].
  { destruct prices as [ | p prices]; [simpl in Hlen; lia | ].
    exists nan. split; [apply zero_period_nan | now left]. }
  set (period := S period') in *.
  pose proof (period_safe prices period Hlen Harr) as H53.
  assert (H1 : (1 <= period)%nat) by (unfold period; lia).
  unfold calculateRSI.
  destruct (Nat.ltb_spec (length prices) (period + 1)); [lia | ].
  set (gains := map gain (differences prices)).
  set (losses := map loss (differences prices)).
  assert (Hgains : Forall notNegative gains).
  { unfold gains. rewrite List.Forall_forall. intros g Hg.
    apply in_map_iff in Hg. destruct Hg as (d & <- & _). apply gain_notNegative. }
  assert (Hlosses : Forall notNegative losses).
  { unfold losses. rewrite List.Forall_forall. intros l Hl.
    apply in_map_iff in Hl. destruct Hl as (d & <- & _). apply loss_notNegative. }
  destruct (smoothAll_notNegative period (skipn period (combine gains losses))
              (initialAvg gains period, initialAvg losses period) H1 H53
              (gains_losses_notNegative (differences prices) period)
              (initialAvg_notNegative gains period H1 H53 Hgains)
              (initialAvg_notNegative losses period H1 H53 Hlosses)) as [HavgGain HavgLoss].
  unfold smoothAll.
  destruct (fold_left _ _ _) as [avgGain avgLoss]. simpl in HavgGain, HavgLoss.
  destruct (avgLoss =? 0)%float.
  - exists 100%float. split; [reflexivity | right].
    exists 10000%Z. repeat split; reflexivity || lia.
  - eexists. split; [reflexivity | ].
    destruct (rsi_of_ratio (avgGain / avgLoss)%float
                (div_notNegative _ _ HavgGain HavgLoss)) as [Hnan | (n & Hn & Hv)].
    + now left.
    + right. exists n. rewrite Hv.
      destruct (hundredths_range n Hn) as [Hlo Hhi]. auto.
Qed.

Lemma calculateRSI_range_witness :
  exists v,
    calculateRSI fallingPrices 14 = Ok v /\
    (is_nan v = true \/
     exists n, (0 <= n <= 10000)%Z /\
               v = (JS.of_Z n / 100)%float /\
               (0 <=? v)%float = true /\ (v <=? 100)%float = true).
Proof.
  apply (calculateRSI_range fallingPrices 14).
  - simpl. lia.
  - unfold arrayLength. simpl. lia.
Defined.

(** ** The indicator on market prices

    On prices between 0 and [2^971] no sum overflows, the averages stay
    finite, and the result is a number. *)

Section Market.

Local Open Scope Z_scope.

Lemma marketPrice_spec (p : float) :
  marketPrice p = true -> priceSF 1 971 (Prim2SF p).
Proof.
  unfold marketPrice. rewrite andb_true_iff, !leb_spec.
  change (Prim2SF 0) with (S754_zero false).
  change (Prim2SF 0x1p+971) with (S754_finite false 4503599627370496 919).
  pose proof (Prim2SF_valid p) as Hvalid.
  destruct (Prim2SF p) as [s | s | | s m e]; intros [Hlo Hhi]; simpl; auto.
  - destruct s; discriminate.
  - discriminate.
  - destruct s; [discriminate | ]. split; [reflexivity | ].
    unfold SFleb in Hhi.
    rewrite (SFcompare_finite false m e false 4503599627370496 919 Hvalid eq_refl) in Hhi.
    set (b := Z.min e 919) in *.
    destruct (shl_align_spec m e b) as [Hm _]; [unfold b; lia | ].
    destruct (shl_align_spec 4503599627370496 919 b) as [Hb _]; [unfold b; lia | ].
    rewrite Hm, Hb in Hhi. simpl cond_Zopp in Hhi.
    apply valid_finite_inv in Hvalid.
    apply (dle_base b); [unfold b; lia | unfold b; lia | ].
    replace (971 - b) with (52 + (919 - b)) by lia.
    rewrite Z.pow_add_r by (unfold b; lia).
    change 4503599627370496 with (2 ^ 52) in Hhi.
    destruct (Z.compare_spec (Z.pos m * 2 ^ (e - b)) (2 ^ 52 * 2 ^ (919 - b)));
      try discriminate; lia.
Qed.

(** The difference of two prices is no larger than the larger of them. *)
Lemma SFsub_prices (K E : Z) (x y : spec_float) :
  0 < K < 2 ^ 53 -> -1074 <= E <= 971 ->
  valid_binary x = true -> valid_binary y = true ->
  priceSF K E x -> priceSF K E y ->
  signedAtMostSF false K E (SFsub prec emax x y) \/
  signedAtMostSF true K E (SFsub prec emax x y).
Proof.
  intros HK HE Hvx Hvy Hx Hy.
  destruct x as [sx | sx | | sx mx ex], y as [sy | sy | | sy my ey];
    simpl in Hx, Hy; try contradiction.
  - destruct sx, sy; simpl; auto.
  - destruct Hy as [-> Hy]. right. simpl. auto.
  - destruct Hx as [-> Hx]. left. simpl. auto.
  - destruct Hx as [-> Hx], Hy as [-> Hy]. rewrite SFsub_finite.
    apply valid_finite_inv in Hvx. apply valid_finite_inv in Hvy.
    set (ez := Z.min ex ey).
    destruct (shl_align_spec mx ex ez) as [-> _]; [unfold ez; lia | ].
    destruct (shl_align_spec my ey ez) as [-> _]; [unfold ez; lia | ].
    simpl cond_Zopp.
    assert (H2x : 0 < 2 ^ (ex - ez)) by (apply Z.pow_pos_nonneg; unfold ez; lia).
    assert (H2y : 0 < 2 ^ (ey - ez)) by (apply Z.pow_pos_nonneg; unfold ez; lia).
    assert (HX : dle (Z.pos mx * 2 ^ (ex - ez)) ez K E).
    { set (B := Z.min ez E).
      apply (proj1 (dle_base B (Z.pos mx) ex K E ltac:(unfold B, ez; lia)
                      ltac:(unfold B; lia))) in Hx.
      apply (dle_base B); [unfold B; lia | unfold B; lia | ].
      rewrite <- Z.mul_assoc, <- Z.pow_add_r by (unfold B, ez; lia).
      replace (ex - ez + (ez - B)) with (ex - B) by lia. exact Hx. }
    assert (HY : dle (Z.pos my * 2 ^ (ey - ez)) ez K E).
    { set (B := Z.min ez E).
      apply (proj1 (dle_base B (Z.pos my) ey K E ltac:(unfold B, ez; lia)
                      ltac:(unfold B; lia))) in Hy.
      apply (dle_base B); [unfold B; lia | unfold B; lia | ].
      rewrite <- Z.mul_assoc, <- Z.pow_add_r by (unfold B, ez; lia).
      replace (ey - ez + (ez - B)) with (ey - B) by lia. exact Hy. }
    destruct (Z.pos mx * 2 ^ (ex - ez) - Z.pos my * 2 ^ (ey - ez)) as [ | D | D] eqn:HD.
    + left. reflexivity.
    + left. simpl binary_normalize.
      apply binary_round_ub; [unfold ez; lia | exact HK | exact HE | ].
      apply (dle_mono_l (Z.pos mx * 2 ^ (ex - ez))); [exact HX | lia].
    + right. simpl binary_normalize.
      apply binary_round_ub; [unfold ez; lia | exact HK | exact HE | ].
      apply (dle_mono_l (Z.pos my * 2 ^ (ey - ez))); [exact HY | lia].
Qed.

Lemma gain_loss_market (previous current : float) :
  marketPrice previous = true -> marketPrice current = true ->
  atMost 1 971 (gain (current - previous)) /\ atMost 1 971 (loss (current - previous)).
Proof.
  intros Hp Hc.
  pose proof (SFsub_prices 1 971 (Prim2SF current) (Prim2SF previous)
                ltac:(split; reflexivity) ltac:(lia)
                (Prim2SF_valid current) (Prim2SF_valid previous)
                (marketPrice_spec _ Hc) (marketPrice_spec _ Hp)) as Hd.
  rewrite <- sub_spec in Hd.
  unfold gain, loss, atMost. rewrite !ltb_spec. change (Prim2SF 0) with (S754_zero false).
  destruct (SFltb (S754_zero false) (Prim2SF (current - previous))) eqn:Hpos;
    destruct (SFltb (Prim2SF (current - previous)) (S754_zero false)) eqn:Hneg;
    rewrite ?abs_spec; change (Prim2SF 0) with (S754_zero false);
    destruct (Prim2SF (current - previous)) as [s | s | | s m e];
    simpl in Hpos, Hneg, Hd |- *;
    try discriminate; try (destruct Hd as [[] | []]; fail);
    try (destruct s; discriminate);
    try (split; reflexivity).
  all: destruct s; try discriminate.
  all: destruct Hd as [[Hs Hle] | [Hs Hle]]; try discriminate; auto.
Qed.

(** The sum of two numbers that are not negative is at most the sum of
    their bounds. *)
Lemma SFadd_ub (Kx Ky E : Z) (x y : spec_float) :
  valid_binary x = true -> valid_binary y = true ->
  0 < Kx -> 0 < Ky -> Kx + Ky < 2 ^ 53 -> -1074 <= E <= 971 ->
  atMostSF Kx E x -> atMostSF Ky E y ->
  atMostSF (Kx + Ky) E (SFadd prec emax x y).
Proof.
  intros Hvx Hvy HKx HKy HK HE Hx Hy.
  destruct x as [sx | sx | | sx mx ex], y as [sy | sy | | sy my ey];
    simpl in Hx, Hy; try contradiction.
  - subst. reflexivity.
  - destruct Hy as [-> Hy]. simpl. split; [reflexivity | ].
    apply (dle_mono _ _ Ky); [exact Hy | lia].
  - destruct Hx as [-> Hx]. simpl. split; [reflexivity | ].
    apply (dle_mono _ _ Kx); [exact Hx | lia].
  - destruct Hx as [-> Hx], Hy as [-> Hy]. unfold SFadd.
    apply valid_finite_inv in Hvx. apply valid_finite_inv in Hvy.
    set (ez := Z.min ex ey).
    destruct (shl_align_spec mx ex ez) as [-> _]; [unfold ez; lia | ].
    destruct (shl_align_spec my ey ez) as [-> _]; [unfold ez; lia | ].
    simpl cond_Zopp.
    assert (H2x : 0 < 2 ^ (ex - ez)) by (apply Z.pow_pos_nonneg; unfold ez; lia).
    assert (H2y : 0 < 2 ^ (ey - ez)) by (apply Z.pow_pos_nonneg; unfold ez; lia).
    destruct (Z.pos mx * 2 ^ (ex - ez) + Z.pos my * 2 ^ (ey - ez)) as [ | S | S] eqn:HS;
      try lia.
    simpl binary_normalize.
    apply binary_round_ub; [unfold ez; lia | lia | exact HE | ].
    set (B := Z.min ez E).
    apply (proj1 (dle_base B (Z.pos mx) ex Kx E ltac:(unfold B, ez; lia)
                    ltac:(unfold B; lia))) in Hx.
    apply (proj1 (dle_base B (Z.pos my) ey Ky E ltac:(unfold B, ez; lia)
                    ltac:(unfold B; lia))) in Hy.
    apply (dle_base B); [unfold B; lia | unfold B; lia | ].
    rewrite <- HS, !Z.mul_add_distr_r.
    rewrite <- !Z.mul_assoc, <- !Z.pow_add_r by (unfold B, ez; lia).
    replace (ex - ez + (ez - B)) with (ex - B) by lia.
    replace (ey - ez + (ez - B)) with (ey - B) by lia.
    lia.
Qed.

(** The product by a positive integer written as a binary64 number. *)
Lemma SFmul_ub (Kx E p : Z) (x : spec_float) (mP : positive) (eP : Z) :
  valid_binary x = true ->
  0 < Kx -> 0 < p -> Kx * p < 2 ^ 53 -> -1074 <= E <= 971 ->
  -52 <= eP <= 0 -> Z.pos mP = p * 2 ^ (- eP) ->
  atMostSF Kx E x ->
  atMostSF (Kx * p) E (SFmul prec emax x (S754_finite false mP eP)).
Proof.
  intros Hvx HKx Hp HK HE HeP HmP Hx.
  destruct x as [sx | sx | | sx mx ex]; simpl in Hx; try contradiction.
  - subst. reflexivity.
  - destruct Hx as [-> Hx]. unfold SFmul. simpl xorb.
    apply valid_finite_inv in Hvx.
    apply binary_round_aux_ub; [lia | lia | lia | exact HE | ].
    simpl inexact. rewrite Z.add_0_r, Pos2Z.inj_mul, HmP.
    set (B := Z.min (ex + eP) E).
    apply (proj1 (dle_base B (Z.pos mx) ex Kx E ltac:(unfold B; lia)
                    ltac:(unfold B; lia))) in Hx.
    apply (dle_base B); [unfold B; lia | unfold B; lia | ].
    assert (H2 : 2 ^ (ex - B) = 2 ^ (- eP) * 2 ^ (ex + eP - B)).
    { rewrite <- Z.pow_add_r by (unfold B; lia). f_equal. lia. }
    rewrite H2 in Hx.
    assert (0 < 2 ^ (- eP)) by (apply Z.pow_pos_nonneg; lia).
    assert (0 <= 2 ^ (ex + eP - B)) by (apply Z.pow_nonneg; unfold B; lia).
    assert (0 <= 2 ^ (E - B)) by (apply Z.pow_nonneg; unfold B; lia).
    replace (Z.pos mx * (p * 2 ^ (- eP)) * 2 ^ (ex + eP - B))
      with (p * (Z.pos mx * (2 ^ (- eP) * 2 ^ (ex + eP - B)))) by lia.
    replace (Kx * p * 2 ^ (E - B)) with (p * (Kx * 2 ^ (E - B))) by lia.
    apply Z.mul_le_mono_nonneg_l; lia.
Qed.

(** The quotient by a positive integer written as a binary64 number. *)
Lemma SFdiv_integer_ub (K E p : Z) (x : spec_float) (mP : positive) (eP : Z) :
  0 < K < 2 ^ 53 -> 0 < p -> -1074 <= E <= 971 ->
  -52 <= eP <= 0 -> Z.pos mP = p * 2 ^ (- eP) ->
  atMostSF (K * p) E x ->
  atMostSF K E (SFdiv prec emax x (S754_finite false mP eP)).
Proof.
  intros HK Hp HE HeP HmP Hx.
  destruct x as [sx | sx | | sx mx ex]; simpl in Hx; try contradiction.
  - subst. reflexivity.
  - destruct Hx as [-> Hx]. apply SFdiv_ub; [exact HK | exact HE | ].
    rewrite HmP.
    set (B := Z.min ex (E + eP)).
    apply (proj1 (dle_base B (Z.pos mx) ex (K * p) E ltac:(unfold B; lia)
                    ltac:(unfold B; lia))) in Hx.
    apply (dle_base B); [unfold B; lia | unfold B; lia | ].
    assert (H2 : 2 ^ (E - B) = 2 ^ (- eP) * 2 ^ (E + eP - B)).
    { rewrite <- Z.pow_add_r by (unfold B; lia). f_equal. lia. }
    rewrite H2 in Hx. lia.
Qed.

Lemma binary_round_aux_number (s : bool) (m e : Z) (l : location) :
  0 <= m -> binary_round_aux prec emax s m e l <> S754_nan.
Proof.
  intros Hm. unfold binary_round_aux, shr_fexp.
  destruct (shr_spec m l e (SpecFloat.fexp prec emax (Zdigits2 m + e) - e) Hm) as [Hm1 _].
  destruct (shr (shr_record_of_loc m l) e _) as [mrs1 e1]. simpl fst in Hm1.
  pose proof (round_nearest_even_bounds (shr_m mrs1) (loc_of_shr_record mrs1)) as Hr.
  set (m1 := round_nearest_even (shr_m mrs1) (loc_of_shr_record mrs1)) in *.
  assert (H1 : 0 <= m1).
  { rewrite Hm1 in Hr.
    assert (0 <= m / 2 ^ Z.max 0 (SpecFloat.fexp prec emax (Zdigits2 m + e) - e))
      by (apply Z.div_pos; [lia | apply Z.pow_pos_nonneg; lia]).
    lia. }
  destruct (shr_spec m1 loc_Exact e1 (SpecFloat.fexp prec emax (Zdigits2 m1 + e1) - e1) H1)
    as [Hm2 _].
  destruct (shr (shr_record_of_loc m1 loc_Exact) e1 _) as [mrs2 e2]. simpl fst in Hm2.
  assert (H2 : 0 <= shr_m mrs2).
  { rewrite Hm2. apply Z.div_pos; [lia | apply Z.pow_pos_nonneg; lia]. }
  destruct (shr_m mrs2); [discriminate | | lia].
  destruct (e2 <=? emax - prec); discriminate.
Qed.

(** The quotient of a number that is not negative by a positive number
    is a number. *)
Lemma SFdiv_number (K E : Z) (x : spec_float) (my : positive) (ey : Z) :
  atMostSF K E x -> SFdiv prec emax x (S754_finite false my ey) <> S754_nan.
Proof.
  intros Hx. destruct x as [sx | sx | | sx mx ex]; simpl in Hx; try contradiction.
  - discriminate.
  - unfold SFdiv, SFdiv_core_binary.
    match goal with
    | |- context [Z.div_eucl ?a ?b] =>
        assert (Ha : 0 <= a);
        [ | pose proof (Z.div_eucl_eq a b ltac:(lia)) as Heucl;
            pose proof (Z.mod_pos_bound a b ltac:(lia)) as Hrem;
            unfold Z.modulo in Hrem;
            destruct (Z.div_eucl a b) as [q r] ]
    end.
    + match goal with |- 0 <= match ?sh with _ => _ end => destruct sh end;
        [lia | apply Z.shiftl_nonneg; lia | lia].
    + apply binary_round_aux_number. nia.
Qed.

End Market.

Lemma atMost_mono (K K' E : Z) (x : float) :
  (K <= K')%Z -> atMost K E x -> atMost K' E x.
Proof.
  unfold atMost. intros HK. destruct (Prim2SF x) as [s | s | | s m e]; simpl; auto.
  intros [-> Hle]. split; [reflexivity | ]. now apply (dle_mono _ _ K).
Qed.

Lemma atMost_notNegative (K E : Z) (x : float) : atMost K E x -> notNegative x.
Proof.
  unfold atMost, notNegative. destruct (Prim2SF x); simpl; intuition.
Qed.

Lemma add_ub (Kx Ky : Z) (x y : float) :
  (0 < Kx)%Z -> (0 < Ky)%Z -> (Kx + Ky < 2 ^ 53)%Z ->
  atMost Kx 971 x -> atMost Ky 971 y -> atMost (Kx + Ky) 971 (x + y).
Proof.
  intros HKx HKy HK Hx Hy. unfold atMost. rewrite add_spec.
  apply SFadd_ub; try assumption; try apply Prim2SF_valid. lia.
Qed.

Lemma fold_add_ub (xs : list float) (init : float) (k : Z) :
  Forall (atMost 1 971) xs ->
  (0 < k)%Z -> (k + Z.of_nat (length xs) < 2 ^ 53)%Z ->
  atMost k 971 init ->
  atMost (k + Z.of_nat (length xs)) 971 (fold_left (fun sum x => sum + x)%float xs init).
Proof.
  intros Hxs. revert init k.
  induction Hxs as [ | x xs Hx _ IH]; intros init k Hk Hlen Hinit.
  - simpl. now rewrite Z.add_0_r.
  - simpl fold_left. simpl length in *. rewrite Nat2Z.inj_succ in *.
    replace (k + Z.succ (Z.of_nat (length xs)))%Z
      with ((k + 1) + Z.of_nat (length xs))%Z by lia.
    apply IH; [lia | lia | ]. apply add_ub; try lia; assumption.
Qed.

Lemma initialAvg_ub (xs : list float) (period : nat) :
  (1 <= period)%nat -> (Z.of_nat period < 2 ^ 32)%Z ->
  Forall (atMost 1 971) xs ->
  atMost 2 971 (initialAvg xs period).
Proof.
  intros H1 H32 Hxs. unfold initialAvg, JS.of_nat.
  assert (H2 : (2 ^ 32 < 2 ^ 52)%Z) by reflexivity.
  assert (H3 : (2 ^ 52 < 2 ^ 53)%Z) by reflexivity.
  destruct (Z.of_nat period) as [ | q | q] eqn:Hq; try lia.
  destruct (of_Z_exact q ltac:(lia)) as (mP & eP & HP & _ & HeP & HmP).
  assert (Hfirst : Forall (atMost 1 971) (firstn period xs)).
  { rewrite List.Forall_forall in *. intros x Hx. apply Hxs.
    rewrite <- (firstn_skipn period xs). apply in_or_app. now left. }
  pose proof (fold_add_ub (firstn period xs) 0%float 1 Hfirst ltac:(lia)) as Hsum.
  assert (Hlen : (Z.of_nat (length (firstn period xs)) <= Z.pos q)%Z).
  { rewrite length_firstn. lia. }
  specialize (Hsum ltac:(lia) ltac:(reflexivity)).
  apply (atMost_mono _ (2 * Z.pos q)) in Hsum; [ | lia].
  unfold atMost in *. rewrite div_spec, HP.
  apply (SFdiv_integer_ub 2 971 (Z.pos q));
    first [lia | exact Hsum | split; reflexivity].
Qed.

Lemma smooth_ub (period : nat) (avg current : float) :
  (1 <= period)%nat -> (Z.of_nat period < 2 ^ 32)%Z ->
  atMost 2 971 avg -> atMost 1 971 current ->
  atMost 2 971 (smooth period avg current).
Proof.
  intros H1 H32 Havg Hcur. unfold smooth, JS.of_nat.
  assert (H2 : (2 ^ 32 < 2 ^ 52)%Z) by reflexivity.
  assert (H3 : (2 ^ 52 < 2 ^ 53)%Z) by reflexivity.
  destruct (Z.of_nat period) as [ | q | q] eqn:Hq; try lia.
  destruct (of_Z_exact q ltac:(lia)) as (mP & eP & HP & _ & HeP & HmP).
  assert (Hprod : atMost (2 * Z.pos q - 1) 971 (avg * (JS.of_Z (Z.pos q) - 1))%float).
  { destruct (Z.eq_dec (Z.pos q) 1%Z) as [Hone | Hne].
    - injection Hone as ->. rewrite of_Z_one_minus_one.
      unfold atMost in *. rewrite mul_spec. change (Prim2SF 0) with (S754_zero false).
      destruct (Prim2SF avg) as [s | s | | s m e]; simpl in Havg |- *; try contradiction.
      + now subst.
      + now destruct Havg as [-> _].
    - destruct (of_Z_minus_one q ltac:(lia)) as (m' & e' & H' & He' & Hm').
      apply (atMost_mono (2 * (Z.pos q - 1))); [lia | ].
      unfold atMost in *. rewrite mul_spec, H'.
      apply SFmul_ub; try lia; [apply Prim2SF_valid | exact Havg]. }
  assert (Hsum : atMost (2 * Z.pos q) 971 (avg * (JS.of_Z (Z.pos q) - 1) + current)%float).
  { replace (2 * Z.pos q)%Z with ((2 * Z.pos q - 1) + 1)%Z by lia.
    apply add_ub; try lia; assumption. }
  unfold atMost in *. rewrite div_spec, HP.
  apply (SFdiv_integer_ub 2 971 (Z.pos q));
    first [lia | exact Hsum | split; reflexivity].
Qed.

Lemma smoothAll_ub (period : nat) (gls : list (float * float)) (init : float * float) :
  (1 <= period)%nat -> (Z.of_nat period < 2 ^ 32)%Z ->
  Forall (fun gl => atMost 1 971 (fst gl) /\ atMost 1 971 (snd gl)) gls ->
  atMost 2 971 (fst init) -> atMost 2 971 (snd init) ->
  let avgs := fold_left
                (fun avgs gl => (smooth period (fst avgs) (fst gl),
                                 smooth period (snd avgs) (snd gl)))
                gls init in
  atMost 2 971 (fst avgs) /\ atMost 2 971 (snd avgs).
Proof.
  intros H1 H32 Hgls. revert init.
  induction Hgls as [ | gl gls [Hg Hl] _ IH]; intros init Hi1 Hi2; [now split | ].
  cbn [fold_left]. apply IH; cbn [fst snd]; now apply smooth_ub.
Qed.

Lemma differences_market (prices : list float) :
  forallb marketPrice prices = true ->
  Forall (fun d => atMost 1 971 (gain d) /\ atMost 1 971 (loss d)) (differences prices).
Proof.
  induction prices as [ | p prices IH]; [constructor | ].
  destruct prices as [ | q prices]; [constructor | ].
  intros H. simpl forallb in H. apply andb_true_iff in H. destruct H as [Hp H].
  pose proof H as Hrest. simpl forallb in H. apply andb_true_iff in H. destruct H as [Hq _].
  change (differences (p :: q :: prices)) with ((q - p)%float :: differences (q :: prices)).
  constructor; [now apply gain_loss_market | now apply IH].
Qed.

(** X23: on market prices the indicator is a number between 0 and 100.
    For a period of at least 1 and a series of at least [period + 1]
    prices, each from 0 to [2^971], [calculateRSI] returns the quotient
    by 100 of an integer from 0 to 10000: no sum or average overflows,
    the result is never NaN, and it is at least 0 and at most 100. *)
Theorem calculateRSI_market (prices : list float) (period : nat) :
  (1 <= period)%nat ->
  (period + 1 <= length prices)%nat ->
  arrayLength prices ->
  forallb marketPrice prices = true ->
  exists n,
    (0 <= n <= 10000)%Z /\
    calculateRSI prices period = Ok (JS.of_Z n / 100)%float /\
    (0 <=? JS.of_Z n / 100)%float = true /\
    (JS.of_Z n / 100 <=? 100)%float = true.
Proof.
  intros H1 Hlen Harr Hmarket.
  assert (H32 : (Z.of_nat period < 2 ^ 32)%Z) by (unfold arrayLength in Harr; lia).
  pose proof (differences_market prices Hmarket) as Hdiffs.
  unfold calculateRSI.
  destruct (Nat.ltb_spec (length prices) (period + 1)); [lia | ].
  set (gains := map gain (differences prices)).
  set (losses := map loss (differences prices)).
  assert (Hgains : Forall (atMost 1 971) gains).
  { unfold gains. rewrite List.Forall_forall in *. intros g Hg.
    apply in_map_iff in Hg. destruct Hg as (d & <- & Hd). now apply Hdiffs. }
  assert (Hlosses : Forall (atMost 1 971) losses).
  { unfold losses. rewrite List.Forall_forall in *. intros l Hl.
    apply in_map_iff in Hl. destruct Hl as (d & <- & Hd). now apply Hdiffs. }
  assert (Hpairs : Forall (fun gl => atMost 1 971 (fst gl) /\ atMost 1 971 (snd gl))
                          (skipn period (combine gains losses))).
  { rewrite List.Forall_forall in *. intros [g l] Hin.
    assert (Hin' : In (g, l) (combine gains losses)).
    { rewrite <- (firstn_skipn period (combine _ _)). apply in_or_app. now right. }
    split; [apply Hgains; now apply in_combine_l in Hin'
           | apply Hlosses; now apply in_combine_r in Hin']. }
  destruct (smoothAll_ub period (skipn period (combine gains losses))
              (initialAvg gains period, initialAvg losses period) H1 H32 Hpairs
              (initialAvg_ub gains period H1 H32 Hgains)
              (initialAvg_ub losses period H1 H32 Hlosses)) as [HavgGain HavgLoss].
  unfold smoothAll.
  destruct (fold_left _ _ _) as [avgGain avgLoss]. simpl in HavgGain, HavgLoss.
  destruct (avgLoss =? 0)%float eqn:Hzero.
  - exists 10000%Z. repeat split; reflexivity || lia.
  - assert (Hrs : notNegative (avgGain / avgLoss) /\
                  Prim2SF (avgGain / avgLoss) <> S754_nan).
    { split.
      - apply div_notNegative; eapply atMost_notNegative; eassumption.
      - rewrite div_spec. unfold atMost in HavgGain, HavgLoss.
        rewrite FloatAxioms.eqb_spec in Hzero. change (Prim2SF 0) with (S754_zero false) in Hzero.
        destruct (Prim2SF avgLoss) as [s | s | | s m e]; simpl in HavgLoss;
          try contradiction.
        + discriminate.
        + destruct HavgLoss as [-> _]. apply (SFdiv_number 2 971). exact HavgGain. }
    destruct (rsi_of_ratio_number _ (proj1 Hrs) (proj2 Hrs)) as (n & Hn & Hv).
    exists n. rewrite Hv. destruct (hundredths_range n Hn) as [Hlo Hhi]. auto.
Qed.

Lemma calculateRSI_market_witness :
  exists n,
    (0 <= n <= 10000)%Z /\
    calculateRSI mixedPrices 14 = Ok (JS.of_Z n / 100)%float /\
    (0 <=? JS.of_Z n / 100)%float = true /\
    (JS.of_Z n / 100 <=? 100)%float = true.
Proof.
  apply (calculateRSI_market mixedPrices 14).
  - lia.
  - simpl. lia.
  - unfold arrayLength. simpl. lia.
  - reflexivity.
Defined.

(** ** Falling prices, for every period from 1 *)

(** Without gains, and with an average loss that has not dropped to
    zero, the result is 0. *)
Lemma calculateRSI_no_gain (prices : list float) (period : nat) :
  (1 <= period)%nat ->
  (period + 1 <= length prices)%nat ->
  arrayLength prices ->
  decreasing prices = true ->
  atLeast 1 (-1074)
    (snd (smoothAll period (map gain (differences prices)) (map loss (differences prices))
            (initialAvg (map gain (differences prices)) period,
             initialAvg (map loss (differences prices)) period))) ->
  calculateRSI prices period = Ok 0%float.
Proof.
  intros H1 Hlen Harr Hdec Hloss.
  pose proof (period_safe prices period Hlen Harr) as H53.
  pose proof (gains_decreasing prices Hdec) as Hgains.
  set (gains := map gain (differences prices)) in *.
  set (losses := map loss (differences prices)) in *.
  assert (Hgain : fst (smoothAll period gains losses
                         (initialAvg gains period, initialAvg losses period)) = 0%float).
  { unfold smoothAll. apply smoothAll_fst_zeros; try assumption.
    - now apply (Forall_fst_skipn_combine (fun x => x = 0%float)).
    - simpl. apply initialAvg_zeros; assumption. }
  unfold calculateRSI.
  destruct (Nat.ltb_spec (length prices) (period + 1)); [lia | ].
  fold gains losses.
  destruct (smoothAll period gains losses _) as [avgGain avgLoss].
  simpl in Hgain, Hloss. subst avgGain. unfold atLeast in Hloss.
  rewrite FloatAxioms.eqb_spec, Prim2SF_zero, (SFeqb_atLeast_zero _ _ _ Hloss).
  assert (Hrs : (0 / avgLoss)%float = 0%float).
  { apply zero_of_Prim2SF. rewrite div_spec, Prim2SF_zero. unfold SF64div.
    now apply (SFdiv_zero_atLeast 1 (-1074)). }
  rewrite Hrs. reflexivity.
Qed.

Lemma positiveFinite_inv (x : float) :
  positiveFinite x -> exists m e, Prim2SF x = S754_finite false m e.
Proof.
  unfold positiveFinite, atLeast, atMost. intros [Hlo Hhi].
  destruct (Prim2SF x) as [s | s | | s m e]; simpl in *; try contradiction.
  destruct Hhi as [-> _]. eauto.
Qed.

(** The loss of a fall that is not infinite. *)
Lemma loss_of_finite_fall (a b : float) :
  (b <? a)%float = true -> is_infinity (b - a) = false -> positiveFinite (loss (b - a)).
Proof.
  intros Hlt Hfin. split; [now apply loss_of_fall | ].
  pose proof (loss_of_fall a b Hlt) as Hlo.
  pose proof (Prim2SF_valid (loss (b - a))) as Hvalid.
  unfold is_infinity in Hfin. rewrite FloatAxioms.eqb_spec, abs_spec in Hfin.
  revert Hlo Hvalid. unfold loss, atLeast, atMost.
  destruct (b - a <? 0)%float; [ | rewrite Prim2SF_zero; contradiction].
  rewrite abs_spec.
  destruct (Prim2SF (b - a)) as [s | s | | s m e]; simpl; try contradiction.
  - discriminate Hfin.
  - intros _ Hvalid. split; [reflexivity | ].
    apply (valid_finite_inv false m e) in Hvalid. destruct Hvalid as (He & Hd & _).
    pose proof (digits2_pos_bounds m) as Hb.
    apply (dle_base e); [lia | lia | ].
    rewrite Z.sub_diag, Z.mul_1_r.
    assert (Hm : (Z.pos m < 2 ^ 53)%Z).
    { eapply Z.lt_le_trans; [apply Hb | ]. apply Z.pow_le_mono_r; lia. }
    assert (H2 : (1 <= 2 ^ (971 - e))%Z) by (apply Z.lt_pred_le, Z.pow_pos_nonneg; lia).
    nia.
Qed.

Lemma zero_add_finite (y : float) : positiveFinite y -> (0 + y)%float = y.
Proof.
  intros Hy. destruct (positiveFinite_inv y Hy) as (m & e & Hm).
  apply Prim2SF_inj. rewrite add_spec, Prim2SF_zero, Hm. reflexivity.
Qed.

Lemma mul_zero_finite (x : float) : positiveFinite x -> (x * 0)%float = 0%float.
Proof.
  intros Hx. destruct (positiveFinite_inv x Hx) as (m & e & Hm).
  apply Prim2SF_inj. rewrite mul_spec, Prim2SF_zero, Hm. reflexivity.
Qed.

Lemma div_one_finite (x : float) : positiveFinite x -> positiveFinite (x / JS.of_nat 1).
Proof.
  intros [Hlo Hhi]. split.
  - apply div_period_atLeast; [lia | reflexivity | exact Hlo].
  - unfold JS.of_nat. change (Z.of_nat 1) with 1%Z.
    destruct (of_Z_exact 1 ltac:(reflexivity)) as (mP & eP & HP & _ & HeP & HmP).
    unfold atMost in *. rewrite div_spec, HP.
    apply (SFdiv_integer_ub (2 ^ 53 - 1) 971 1);
      first [lia | exact HmP | split; reflexivity | rewrite Z.mul_1_r; exact Hhi].
Qed.

(** With a period of 1 the smoothed average is the last value fed in. *)
Lemma smooth_one_finite (avg current : float) :
  positiveFinite avg -> positiveFinite current -> positiveFinite (smooth 1 avg current).
Proof.
  intros Havg Hcur. unfold smooth.
  change (JS.of_nat 1 - 1)%float with (JS.of_Z 1 - 1)%float.
  rewrite of_Z_one_minus_one, (mul_zero_finite avg Havg), (zero_add_finite current Hcur).
  now apply div_one_finite.
Qed.

Lemma initialAvg_one_finite (x : float) (xs : list float) :
  positiveFinite x -> positiveFinite (initialAvg (x :: xs) 1).
Proof.
  intros Hx. unfold initialAvg. simpl firstn. simpl fold_left.
  rewrite (zero_add_finite x Hx). now apply div_one_finite.
Qed.

Lemma losses_finiteSteps (prices : list float) :
  strictlyDecreasing prices = true -> finiteSteps prices = true ->
  Forall positiveFinite (map loss (differences prices)).
Proof.
  unfold strictlyDecreasing, finiteSteps.
  induction prices as [ | a prices IH]; [constructor | ].
  destruct prices as [ | b prices]; [constructor | ].
  simpl pairwise. intros H. apply andb_true_iff in H. destruct H as [Hab Hrest].
  change (differences (a :: b :: prices)) with ((b - a)%float :: differences (b :: prices)).
  simpl forallb. intros H. apply andb_true_iff in H. destruct H as [Hfin Hfins].
  apply negb_true_iff in Hfin.
  simpl map. constructor; [now apply loss_of_finite_fall | now apply IH].
Qed.

(** Prices that are finite and not negative differ by finite amounts. *)
Lemma finitePrice_spec (p : float) :
  finitePrice p = true -> priceSF (2 ^ 53 - 1) 971 (Prim2SF p).
Proof.
  unfold finitePrice. rewrite andb_true_iff, leb_spec, ltb_spec.
  change (Prim2SF 0) with (S754_zero false).
  change (Prim2SF infinity) with (S754_infinity false).
  pose proof (Prim2SF_valid p) as Hvalid.
  destruct (Prim2SF p) as [s | s | | s m e]; intros [Hlo Hhi]; simpl; auto.
  - destruct s; discriminate.
  - discriminate.
  - destruct s; [discriminate | ]. split; [reflexivity | ].
    apply (valid_finite_inv false m e) in Hvalid. destruct Hvalid as (He & Hd & _).
    pose proof (digits2_pos_bounds m) as Hb.
    apply (dle_base e); [lia | lia | ].
    rewrite Z.sub_diag, Z.mul_1_r.
    assert (Hm : (Z.pos m < 2 ^ 53)%Z).
    { eapply Z.lt_le_trans; [apply Hb | ]. apply Z.pow_le_mono_r; lia. }
    assert (H2 : (1 <= 2 ^ (971 - e))%Z) by (apply Z.lt_pred_le, Z.pow_pos_nonneg; lia).
    nia.
Qed.

Lemma finiteSteps_prices (prices : list float) :
  forallb finitePrice prices = true -> finiteSteps prices = true.
Proof.
  unfold finiteSteps.
  induction prices as [ | p prices IH]; [reflexivity | ].
  destruct prices as [ | q prices]; [reflexivity | ].
  intros H. simpl forallb in H. apply andb_true_iff in H. destruct H as [Hp H].
  pose proof H as Hrest. simpl forallb in H. apply andb_true_iff in H. destruct H as [Hq _].
  change (differences (p :: q :: prices)) with ((q - p)%float :: differences (q :: prices)).
  cbn [forallb]. apply andb_true_iff. split; [ | exact (IH Hrest)]. apply negb_true_iff.
  pose proof (SFsub_prices (2 ^ 53 - 1) 971 (Prim2SF q) (Prim2SF p)
                ltac:(split; reflexivity) ltac:(lia)
                (Prim2SF_valid q) (Prim2SF_valid p)
                (finitePrice_spec _ Hq) (finitePrice_spec _ Hp)) as Hd.
  rewrite <- sub_spec in Hd.
  unfold is_infinity. rewrite FloatAxioms.eqb_spec, abs_spec.
  destruct (Prim2SF (q - p)) as [s | s | | s m e]; simpl in Hd |- *;
    try reflexivity; destruct Hd as [[] | []].
Qed.

Lemma pairwise_removelast rel (prices : list float) :
  pairwise rel prices = true -> pairwise rel (removelast prices) = true.
Proof.
  induction prices as [ | a prices IH]; [reflexivity | ].
  destruct prices as [ | b prices]; [reflexivity | ].
  simpl pairwise. intros H. apply andb_true_iff in H. destruct H as [Hab Hrest].
  specialize (IH Hrest).
  destruct prices as [ | c prices]; [reflexivity | ].
  change (removelast (a :: b :: c :: prices)) with (a :: b :: removelast (c :: prices)).
  change (removelast (b :: c :: prices)) with (b :: removelast (c :: prices)) in IH.
  change (pairwise rel (a :: b :: removelast (c :: prices)))
    with (rel a b && pairwise rel (b :: removelast (c :: prices))).
  now rewrite Hab, IH.
Qed.

Lemma differences_removelast (prices : list float) :
  differences (removelast prices) = removelast (differences prices).
Proof.
  induction prices as [ | a prices IH]; [reflexivity | ].
  destruct prices as [ | b prices]; [reflexivity | ].
  destruct prices as [ | c prices]; [reflexivity | ].
  change (removelast (a :: b :: c :: prices)) with (a :: b :: removelast (c :: prices)).
  change (removelast (b :: c :: prices)) with (b :: removelast (c :: prices)) in IH.
  change (differences (a :: b :: removelast (c :: prices)))
    with ((b - a)%float :: differences (b :: removelast (c :: prices))).
  rewrite IH.
  change (differences (a :: b :: c :: prices))
    with ((b - a)%float :: differences (b :: c :: prices)).
  change (differences (b :: c :: prices))
    with ((c - b)%float :: differences (c :: prices)).
  reflexivity.
Qed.

Lemma removelast_map {A B} (f : A -> B) (l : list A) :
  removelast (map f l) = map f (removelast l).
Proof.
  induction l as [ | a l IH]; [reflexivity | ].
  destruct l as [ | b l]; [reflexivity | ].
  change (removelast (map f (a :: b :: l))) with (f a :: removelast (map f (b :: l))).
  now rewrite IH.
Qed.

Lemma combine_map_same {A B C} (f : A -> B) (g : A -> C) (l : list A) :
  combine (map f l) (map g l) = map (fun x => (f x, g x)) l.
Proof. induction l as [ | a l IH]; [reflexivity | ]. simpl. now rewrite IH. Qed.

Lemma smooth_one_atLeast (avg current : float) :
  positiveFinite avg -> atLeast 1 (-1074) current -> atLeast 1 (-1074) (smooth 1 avg current).
Proof.
  intros Havg Hcur. unfold smooth.
  change (JS.of_nat 1 - 1)%float with (JS.of_Z 1 - 1)%float.
  rewrite of_Z_one_minus_one, (mul_zero_finite avg Havg).
  apply div_period_atLeast; [lia | reflexivity | ]. now apply zero_add_atLeast.
Qed.

(** With a period of 1 the smoothed average stays a number as long as
    every value fed in before the last is finite. *)
Lemma smoothAll_snd_one (gls : list (float * float)) :
  Forall (fun gl => atLeast 1 (-1074) (snd gl)) gls ->
  Forall (fun gl => positiveFinite (snd gl)) (removelast gls) ->
  forall init,
    positiveFinite (snd init) ->
    atLeast 1 (-1074)
      (snd (fold_left
              (fun avgs gl => (smooth 1 (fst avgs) (fst gl), smooth 1 (snd avgs) (snd gl)))
              gls init)).
Proof.
  induction gls as [ | gl gls IH]; intros Hlo Hfin init Hinit; [exact (proj1 Hinit) | ].
  apply Forall_cons in Hlo. destruct Hlo as [Hgl Hlo].
  destruct gls as [ | gl' gls].
  - simpl. now apply smooth_one_atLeast.
  - change (removelast (gl :: gl' :: gls)) with (gl :: removelast (gl' :: gls)) in Hfin.
    apply Forall_cons in Hfin. destruct Hfin as [Hglf Hfin].
    change (fold_left ?f (gl :: ?l) init) with (fold_left f l (f init gl)).
    apply IH; [exact Hlo | exact Hfin | ]. simpl. now apply smooth_one_finite.
Qed.

(** C6, as the code has it: on prices that fall at every step, with
    [period] at least 1 and at least [period + 1] prices, [calculateRSI]
    returns 0, provided that with [period = 1] no difference between a
    price and the next, other than the last, is infinite.  In the proof
    every gain is 0, so the smoothed average gain is 0, and the smoothed
    average loss never drops below the smallest positive binary64 number,
    so [rs] is [0 / avgLoss = 0].  With [period = 1] the smoothing
    multiplies the average by 0, which is only a number when the average
    is finite. *)
Theorem calculateRSI_strictlyDecreasing (prices : list float) (period : nat) :
  (1 <= period)%nat ->
  (period + 1 <= length prices)%nat ->
  arrayLength prices ->
  strictlyDecreasing prices = true ->
  (period = 1%nat -> finiteSteps (removelast prices) = true) ->
  calculateRSI prices period = Ok 0%float.
Proof.
  intros H1 Hlen Harr Hdec Hfinite.
  pose proof (period_safe prices period Hlen Harr) as H53.
  pose proof (losses_strictlyDecreasing prices Hdec) as Hlosses.
  apply calculateRSI_no_gain; try assumption;
    [now apply strictlyDecreasing_decreasing | ].
  assert (Hlen' : (period <= length (map loss (differences prices)))%nat).
  { rewrite length_map, length_differences. lia. }
  unfold smoothAll.
  destruct (Nat.eq_dec period 1) as [-> | Hne].
  - pose proof (losses_finiteSteps (removelast prices)
                  (pairwise_removelast _ prices Hdec) (Hfinite eq_refl)) as Hfin.
    rewrite differences_removelast in Hfin.
    rewrite combine_map_same, skipn_map.
    destruct (differences prices) as [ | d ds] eqn:Hds; [simpl in Hlen'; lia | ].
    simpl skipn. destruct ds as [ | d' ds].
    + simpl. apply initialAvg_atLeast; [lia | simpl; lia | reflexivity | exact Hlosses].
    + apply smoothAll_snd_one.
      * rewrite List.Forall_forall in *. intros gl Hin.
        apply in_map_iff in Hin. destruct Hin as (x & <- & Hx). simpl.
        apply Hlosses. apply in_map. now right.
      * rewrite removelast_map. rewrite List.Forall_forall in *. intros gl Hin.
        apply in_map_iff in Hin. destruct Hin as (x & <- & Hx). simpl.
        apply Hfin. apply in_map.
        change (removelast (d :: d' :: ds)) with (d :: removelast (d' :: ds)). now right.
      * simpl. apply initialAvg_one_finite.
        change (removelast (d :: d' :: ds)) with (d :: removelast (d' :: ds)) in Hfin.
        simpl map in Hfin. now apply Forall_cons in Hfin.
  - apply smoothAll_snd_atLeast; try assumption; [lia | | ].
    + now apply (Forall_snd_skipn_combine (atLeast 1 (-1074))).
    + simpl. apply initialAvg_atLeast; [lia | | assumption | assumption]. exact Hlen'.
Qed.

Lemma calculateRSI_strictlyDecreasing_witness :
  calculateRSI fallingPrices 1 = Ok 0%float.
Proof.
  apply (calculateRSI_strictlyDecreasing fallingPrices 1).
  - lia.
  - simpl. lia.
  - unfold arrayLength. simpl. lia.
  - reflexivity.
  - intros _. reflexivity.
Defined.

(** C6, as stated, fails.  Fifteen equal prices never go up, every loss
    is 0, and [calculateRSI] returns 100 from the [avgLoss === 0] branch.
    With [period = 0] two falling prices give the seed average [0 / 0],
    and [calculateRSI] returns NaN.  With [period = 1], three prices that
    fall at every step, the first fall overflowing to infinity, give the
    average loss [(Infinity * 0 + loss) / 1], and [calculateRSI] returns
    NaN. *)
Lemma calculateRSI_decreasing_not_zero :
  (decreasing flatPrices = true /\
   (14 + 1 <= length flatPrices)%nat /\
   calculateRSI flatPrices 14 = Ok 100%float) /\
  (strictlyDecreasing [2; 1]%float = true /\
   (0 + 1 <= length [2; 1]%float)%nat /\
   calculateRSI [2; 1]%float 0 = Ok nan) /\
  (strictlyDecreasing swingPrices = true /\
   decreasing swingPrices = true /\
   (1 + 1 <= length swingPrices)%nat /\
   map loss (differences swingPrices) = [infinity; 0x1p+1022]%float /\
   finiteSteps (removelast swingPrices) = false /\
   calculateRSI swingPrices 1 = Ok nan).
Proof. repeat split; try reflexivity; simpl; repeat constructor. Qed.
(** * Commands that overlap *)

(** ** Two overlapping [/add_channel] commands *)

(** C7: no list of channels should hold a channel twice.  Here one does:
    chat 1 sends [/start] and then [/add_channel @b] twice, the second
    before Telegram has answered the probe of the first.  Each handler
    looks the list up before it awaits its probe and finds it empty, so
    each sends a probe, and each appends the channel when its probe is
    delivered: the list ends as ["@b"; "@b"].  When the first handler
    runs to its end before the second command is taken up, the second is
    answered "already in the list" and the list ends as ["@b"]. *)
Theorem onAddChannel_overlapping_duplicates :
  let overlapping :=
    [Async.Arrives 1 Start; Async.Settles 0 true;
     Async.Arrives 1 (AddChannel "@b"); Async.Arrives 1 (AddChannel "@b");
     Async.Settles 0 true; Async.Settles 0 true;
     Async.Settles 0 true; Async.Settles 0 true] in
  let s := Async.run overlapping Async.boot in
  Async.waiting s = [] /\
  calls (Async.settled s) =
    [(Chat 1, Welcome, true);
     (Channel "@b", ProbeMsg true "@b", true);
     (Channel "@b", ProbeMsg true "@b", true);
     (Chat 1, ChannelAdded true "@b", true);
     (Chat 1, ChannelAdded true "@b", true)] /\
  channels <$> Async.view (Async.memory s) !! 1%Z = Some ["@b"; "@b"]%string /\
  (let w := run parseDigits [Incoming 1 Start; Incoming 1 (AddChannel "@b");
                             Incoming 1 (AddChannel "@b")] bootWorld in
   calls (sendLog w) =
     [(Chat 1, Welcome, true);
      (Channel "@b", ProbeMsg true "@b", true);
      (Chat 1, ChannelAdded true "@b", true);
      (Chat 1, AlreadyListed "@b", true)] /\
   channels <$> userConfigs w !! 1%Z = Some ["@b"]%string).
Proof. vm_compute. repeat split; reflexivity. Qed.

(** ** What overlapping handlers keep *)

Lemma probed_more (log more : list Attempt) ch : probed log ch -> probed (log ++ more) ch.
Proof.
  intros (a & Hin & H). exists a. split; [apply in_or_app; now left | exact H].
Qed.

Lemma vetted_more (log more : list Attempt) c : vetted log c -> vetted (log ++ more) c.
Proof.
  intros (Hlo & Hhi & Hchs). split; [exact Hlo | split; [exact Hhi | ]].
  intros ch Hin. destruct (Hchs ch Hin). split; [assumption | now apply probed_more].
Qed.

Lemma sound_more mem (log more : list Attempt) : sound mem log -> sound mem (log ++ more).
Proof.
  intros [Hreg Hobj]. split; [exact Hreg | ].
  intros ref c Hc. apply vetted_more. eauto.
Qed.


Lemma safe_await_more log more dest msg k :
  safe log (Async.Await dest msg k) -> safe (log ++ more) (Async.Await dest msg k).
Proof.
  simpl. intros H more' resolved. rewrite <- (app_assoc log more more'). apply H.
Qed.

Lemma advance_safe (t : Async.Task unit) :
  forall mem log,
    sound mem log -> safe log t ->
    sound (snd (Async.advance t mem)) log /\ safe log (fst (Async.advance t mem)).
Proof.
  induction t as [a | e | k IH | f k IH | dest msg k IH]; intros mem log Hsound Hsafe;
    simpl in *; auto.
  destruct Hsafe as [Hf Hk]. auto.
Qed.

Lemma resume_steady (t : Async.Task unit) (s : Async.System) :
  steady s -> safe (Async.settled s) t -> steady (Async.resume t s).
Proof.
  intros [Hsound Hwaiting] Hsafe.
  destruct (advance_safe t _ _ Hsound Hsafe) as [Hsound' Hsafe'].
  unfold Async.resume.
  destruct (Async.advance t (Async.memory s)) as [t' mem']. simpl in *.
  destruct t' as [a | e | k | f k | dest msg k]; split; simpl; auto.
  intros handler Hin. apply in_app_or in Hin.
  destruct Hin as [Hin | [<- | []]]; [now apply Hwaiting | exact Hsafe'].
Qed.

(** *** The handlers keep the memory sound *)

Lemma sound_update mem log ref (f : UserConfig -> UserConfig) :
  (forall c, chatId (f c) = chatId c) ->
  (forall c, vetted log c -> vetted log (f c)) ->
  sound mem log ->
  sound {| Async.objects := alter f ref (Async.objects mem);
           Async.registry := Async.registry mem;
           Async.reading := Async.reading mem |} log.
Proof.
  intros Hid Hvet [Hreg Hobj]. split; simpl.
  - intros id ref' Hlook. destruct (Hreg id ref' Hlook) as (c & Hc & Hchat).
    destruct (Nat.eq_dec ref ref') as [-> | Hne].
    + exists (f c). rewrite list_lookup_alter_eq, Hc. simpl. split; [reflexivity | ].
      now rewrite Hid.
    + exists c. now rewrite list_lookup_alter_ne.
  - intros ref' c Hc. destruct (Nat.eq_dec ref ref') as [-> | Hne].
    + rewrite list_lookup_alter_eq in Hc.
      destruct (Async.objects mem !! ref') as [c0 | ] eqn:Hc0; [ | discriminate].
      simpl in Hc. injection Hc as <-. apply Hvet. eauto.
    + rewrite list_lookup_alter_ne in Hc by assumption. eauto.
Qed.

Lemma vetted_default log id : vetted log (defaultConfig id).
Proof. unfold vetted, inRange. simpl. repeat split; try lia; contradiction. Qed.

Lemma sound_setNew mem log id :
  sound mem log ->
  sound {| Async.objects := Async.objects mem ++ [defaultConfig id];
           Async.registry := <[id := length (Async.objects mem)]> (Async.registry mem);
           Async.reading := Async.reading mem |} log.
Proof.
  intros [Hreg Hobj]. split; simpl.
  - intros id' ref Hlook. destruct (Z.eq_dec id id') as [-> | Hne].
    + rewrite lookup_insert_eq in Hlook. injection Hlook as <-.
      exists (defaultConfig id'). split; [ | reflexivity].
      rewrite lookup_app_r by lia. now rewrite Nat.sub_diag.
    + rewrite lookup_insert_ne in Hlook by assumption.
      destruct (Hreg id' ref Hlook) as (c & Hc & Hchat). exists c. split; [ | exact Hchat].
      rewrite lookup_app_l; [exact Hc | ]. now apply lookup_lt_Some in Hc.
  - intros ref c Hc. apply lookup_app_Some in Hc.
    destruct Hc as [Hc | [_ Hc]]; [eauto | ].
    apply list_lookup_singleton_Some in Hc. destruct Hc as [_ <-]. apply vetted_default.
Qed.

Ltac safe_step :=
  match goal with
  | |- forall _, _ => intro
  | |- _ /\ _ => split
  | |- True => exact I
  | |- safe _ _ => progress (cbn [safe Async.bind Async.try_catch Async.sendMessage
                                   Async.getConfig Async.load Async.update Async.setNew
                                   Async.getLastRSIValue])
  | |- safe _ ?t =>
      match t with
      | context [if ?b then _ else _] => destruct b eqn:?
      | context [match ?x with _ => _ end] => destruct x eqn:?
      end
  end.

Lemma vetted_with_oversold log v c :
  (v <? 1)%Z || (99 <? v)%Z = false -> vetted log c -> vetted log (with_oversold v c).
Proof.
  intros Hv (Hlo & Hhi & Hchs). split; [ | split; assumption].
  simpl. now apply inRange_checked.
Qed.

Lemma vetted_with_overbought log v c :
  (v <? 1)%Z || (99 <? v)%Z = false -> vetted log c -> vetted log (with_overbought v c).
Proof.
  intros Hv (Hlo & Hhi & Hchs). split; [assumption | split; [ | assumption]].
  simpl. now apply inRange_checked.
Qed.

Lemma handle_safe (log : list Attempt) (chatId : Z) (cmd : Command) :
  safe log (Async.handle chatId cmd).
Proof.
  destruct cmd as [ | v | v | s | s | | | | ];
    unfold Async.handle, Async.onStart, Async.onSetOversold, Async.onSetOverbought,
           Async.onAddChannel, Async.onRemoveChannel, Async.onListChannels,
           Async.onStatus, Async.onToggle, Async.onHelp.
  - repeat safe_step. now apply sound_setNew.
  - repeat safe_step.
    apply sound_update; auto. intros c. now apply vetted_with_oversold.
  - repeat safe_step.
    apply sound_update; auto. intros c. now apply vetted_with_overbought.
  - repeat safe_step.
    apply sound_update; auto.
    intros c (Hlo & Hhi & Hchs). split; [exact Hlo | split; [exact Hhi | ]].
    simpl. intros ch Hin. apply in_app_or in Hin. destruct Hin as [Hin | [<- | []]].
    + exact (Hchs ch Hin).
    + split.
      * unfold validChannel.
        destruct (Regex.test usernamePattern s), (Regex.test chatIdPattern s);
          simpl in *; congruence.
      * eexists. split; [apply in_or_app; right; left; reflexivity | ].
        simpl. eauto.
  - repeat safe_step.
    apply sound_update; auto.
    intros c (Hlo & Hhi & Hchs). split; [exact Hlo | split; [exact Hhi | ]].
    simpl. intros ch Hin. apply Hchs. eapply splice1_In. exact Hin.
  - repeat safe_step.
  - repeat safe_step.
  - repeat safe_step. now apply sound_update.
  - repeat safe_step.
Qed.

(** *** Every state the overlapping commands reach *)

Lemma happen_steady (h : Async.Happening) (s : Async.System) :
  steady s -> steady (Async.happen h s).
Proof.
  intros Hsteady. destruct h as [chatId cmd | n resolved]; simpl.
  - apply resume_steady; [exact Hsteady | apply handle_safe].
  - destruct (Async.waiting s !! n) as [handler | ] eqn:Hn; [ | exact Hsteady].
    destruct Hsteady as [Hsound Hwaiting].
    apply resume_steady.
    + split; simpl.
      * now apply sound_more.
      * intros handler' Hin. apply safe_await_more. apply Hwaiting.
        apply list_elem_of_In in Hin. apply list_elem_of_In.
        eapply list_elem_of_delete_inv. exact Hin.
    + simpl. assert (Hin : In handler (Async.waiting s)).
      { apply list_elem_of_In. eapply list_elem_of_lookup_2. exact Hn. }
      specialize (Hwaiting handler Hin [] resolved).
      now rewrite app_nil_r in Hwaiting.
Qed.

Lemma run_steady (hs : list Async.Happening) (s : Async.System) :
  steady s -> steady (Async.run hs s).
Proof.
  revert s. induction hs as [ | h hs IH]; intros s Hs; [exact Hs | ].
  simpl. apply IH. now apply happen_steady.
Qed.

Lemma boot_steady : steady Async.boot.
Proof.
  split; [split | ]; simpl.
  - intros id ref H. rewrite lookup_empty in H. discriminate.
  - intros ref c H. discriminate.
  - intros handler [].
Qed.

Lemma lookup_view (mem : Async.Memory) (id : Z) (c : UserConfig) :
  Async.view mem !! id = Some c <->
  exists ref, Async.registry mem !! id = Some ref /\ Async.objects mem !! ref = Some c.
Proof.
  unfold Async.view. rewrite lookup_omap.
  destruct (Async.registry mem !! id) as [ref | ]; simpl.
  - split; [eauto | intros (ref' & [= <-] & H); exact H].
  - split; [discriminate | intros (ref' & H & _); discriminate].
Qed.

(** X27: what holds however the commands overlap.  In every state the
    bot reaches from start-up through commands that arrive and calls
    that Telegram settles, in any order and with any outcomes, each entry
    of the registry is filed under the chat id it holds, both of its
    thresholds are between 1 and 99, and each channel it lists has the
    form [@name] or [-100] and ten digits and has been sent a probe that
    Telegram delivered. *)
Theorem overlapping_commands_invariant (hs : list Async.Happening) (id : Z)
    (c : UserConfig) :
  let s := Async.run hs Async.boot in
  Async.view (Async.memory s) !! id = Some c ->
  configOk id c /\
  forall ch, In ch (channels c) ->
             (isHandle ch \/ isNumericId ch) /\ probed (Async.settled s) ch.
Proof.
  cbv zeta. intros Hc.
  destruct (run_steady hs Async.boot boot_steady) as [[Hreg Hobj] _].
  apply lookup_view in Hc. destruct Hc as (ref & Hid & Hc).
  destruct (Hreg id ref Hid) as (c' & Hc' & Hchat).
  assert (c' = c) by congruence. subst c'.
  destruct (Hobj ref c Hc) as (Hlo & Hhi & Hchs).
  split; [split; [exact Hchat | split; assumption] | ].
  intros ch Hin. destruct (Hchs ch Hin) as [Hvalid Hprobed].
  split; [now apply validChannel_spec | exact Hprobed].
Qed.
Lemma overlapping_commands_invariant_witness :
  let hs := [Async.Arrives 1 Start; Async.Settles 0 true;
             Async.Arrives 1 (AddChannel "@b"); Async.Arrives 1 (AddChannel "@b");
             Async.Settles 0 true; Async.Settles 0 true] in
  let c := with_channels ["@b"; "@b"]%string (defaultConfig 1) in
  let s := Async.run hs Async.boot in
  Async.view (Async.memory s) !! 1%Z = Some c /\
  configOk 1 c /\
  forall ch, In ch (channels c) ->
             (isHandle ch \/ isNumericId ch) /\ probed (Async.settled s) ch.
Proof.
  split; [reflexivity | ].
  apply (overlapping_commands_invariant
           [Async.Arrives 1 Start; Async.Settles 0 true;
            Async.Arrives 1 (AddChannel "@b"); Async.Arrives 1 (AddChannel "@b");
            Async.Settles 0 true; Async.Settles 0 true] 1).
  reflexivity.
Defined.

(** ** Handlers that do not overlap *)

Lemma run_alone (t : Async.Task unit) :
  forall telegram mem log,
    exists atts,
      snd (alone telegram t mem log) = log ++ atts /\
      Async.run (map (fun a => Async.Settles 0 (delivered a)) atts)
                (Async.resume t {| Async.memory := mem; Async.waiting := [];
                                   Async.settled := log |}) =
        {| Async.memory := fst (alone telegram t mem log);
           Async.waiting := [];
           Async.settled := snd (alone telegram t mem log) |}.
Proof.
  induction t as [a | e | k IH | f k IH | dest msg k IH]; intros telegram mem log.
  - exists []. simpl. now rewrite app_nil_r.
  - exists []. simpl. now rewrite app_nil_r.
  - destruct (IH mem telegram mem log) as (atts & Hlog & Hrun).
    exists atts. split; [exact Hlog | exact Hrun].
  - destruct (IH telegram (f mem) log) as (atts & Hlog & Hrun).
    exists atts. split; [exact Hlog | exact Hrun].
  - set (resolved := resolves (telegram log dest msg)).
    set (a := {| to := dest; text := msg; delivered := resolved |}).
    destruct (IH resolved telegram mem (log ++ [a])) as (atts & Hlog & Hrun).
    exists (a :: atts). split.
    + simpl. fold resolved. fold a. rewrite Hlog, <- app_assoc. reflexivity.
    + simpl. fold resolved. fold a. exact Hrun.
Qed.

Lemma coherent_update mem ref (f : UserConfig -> UserConfig) :
  coherent mem ->
  coherent {| Async.objects := alter f ref (Async.objects mem);
              Async.registry := Async.registry mem;
              Async.reading := Async.reading mem |}.
Proof.
  intros Hco id ref' Hlook. simpl in *. rewrite length_alter. now apply Hco.
Qed.

Lemma coherent_setNew mem id c :
  coherent mem ->
  coherent {| Async.objects := Async.objects mem ++ [c];
              Async.registry := <[id := length (Async.objects mem)]> (Async.registry mem);
              Async.reading := Async.reading mem |}.
Proof.
  intros Hco id1 ref Hlook. simpl in *. rewrite length_app. simpl.
  destruct (Z.eq_dec id id1) as [-> | Hne].
  - rewrite lookup_insert_eq in Hlook. injection Hlook as <-. split; [lia | ].
    intros id' Hlook'. destruct (Z.eq_dec id1 id') as [-> | Hne']; [reflexivity | ].
    rewrite lookup_insert_ne in Hlook' by assumption.
    apply Hco in Hlook'. lia.
  - rewrite lookup_insert_ne in Hlook by assumption.
    destruct (Hco id1 ref Hlook) as [Hlt Hinj]. split; [lia | ].
    intros id' Hlook'. destruct (Z.eq_dec id id') as [-> | Hne'].
    + rewrite lookup_insert_eq in Hlook'. injection Hlook' as <-. lia.
    + rewrite lookup_insert_ne in Hlook' by assumption. now apply Hinj.
Qed.

Lemma view_update mem id ref c (f : UserConfig -> UserConfig) :
  coherent mem ->
  Async.registry mem !! id = Some ref ->
  Async.objects mem !! ref = Some c ->
  Async.view {| Async.objects := alter f ref (Async.objects mem);
                Async.registry := Async.registry mem;
                Async.reading := Async.reading mem |} =
    <[id := f c]> (Async.view mem).
Proof.
  intros Hco Hid Hc. apply map_eq. intros id'. unfold Async.view. simpl.
  destruct (Z.eq_dec id id') as [<- | Hne].
  - rewrite lookup_insert_eq, lookup_omap, Hid. simpl.
    now rewrite list_lookup_alter_eq, Hc.
  - rewrite lookup_insert_ne by assumption. rewrite !lookup_omap.
    destruct (Async.registry mem !! id') as [ref' | ] eqn:Hid'; [simpl | reflexivity].
    apply list_lookup_alter_ne. intros <-.
    destruct (Hco id ref Hid) as [_ Hinj]. apply Hne. symmetry. now apply Hinj.
Qed.

Lemma view_setNew mem id c :
  coherent mem ->
  Async.view {| Async.objects := Async.objects mem ++ [c];
                Async.registry := <[id := length (Async.objects mem)]> (Async.registry mem);
                Async.reading := Async.reading mem |} =
    <[id := c]> (Async.view mem).
Proof.
  intros Hco. apply map_eq. intros id'. unfold Async.view. simpl.
  destruct (Z.eq_dec id id') as [<- | Hne].
  - rewrite lookup_insert_eq, lookup_omap, lookup_insert_eq. simpl.
    rewrite lookup_app_r by lia. now rewrite Nat.sub_diag.
  - rewrite lookup_insert_ne by assumption. rewrite !lookup_omap.
    rewrite lookup_insert_ne by assumption.
    destruct (Async.registry mem !! id') as [ref' | ] eqn:Hid'; [simpl | reflexivity].
    apply lookup_app_l. now apply Hco in Hid'.
Qed.

(** The entry of a chat, in the registry of references and in its view. *)
Lemma view_cases mem id :
  coherent mem ->
  (Async.registry mem !! id = None /\ Async.view mem !! id = None) \/
  (exists ref c, Async.registry mem !! id = Some ref /\
                 Async.objects mem !! ref = Some c /\
                 Async.view mem !! id = Some c).
Proof.
  intros Hco. unfold Async.view. rewrite lookup_omap.
  destruct (Async.registry mem !! id) as [ref | ] eqn:Hid; [right | left; auto].
  destruct (Hco id ref Hid) as [Hlt _].
  destruct (lookup_lt_is_Some_2 _ _ Hlt) as [c Hc].
  exists ref, c. simpl. auto.
Qed.

Ltac alone_done Hview :=
  split;
  [ auto using coherent_setNew, coherent_update
  | split;
    [ first [ exact Hview
            | rewrite view_setNew by assumption; now rewrite Hview
            | erewrite view_update by eassumption; now rewrite Hview ]
    | split; [assumption | reflexivity] ] ].

Ltac unfold_handlers :=
  unfold onStart, onSetOversold, onSetOverbought, onAddChannel, onRemoveChannel,
         onListChannels, onStatus, onToggle, onHelp,
         Async.onStart, Async.onSetOversold, Async.onSetOverbought,
         Async.onAddChannel, Async.onRemoveChannel, Async.onListChannels,
         Async.onStatus, Async.onToggle, Async.onHelp.

(** A handler that runs alone does what the handler that runs to its end
    does. *)
Lemma handle_alone chatId cmd mem (w : World) :
  coherent mem ->
  Async.view mem = userConfigs w ->
  Async.reading mem = lastRSIValue w ->
  let w' := snd (handle chatId cmd w) in
  let after := alone (telegram w) (Async.handle chatId cmd) mem (sendLog w) in
  coherent (fst after) /\
  Async.view (fst after) = userConfigs w' /\
  Async.reading (fst after) = lastRSIValue w' /\
  snd after = sendLog w'.
Proof.
  intros Hco Hview Hreading. cbv zeta.
  destruct (view_cases mem chatId Hco) as [[Href Hvc] | (ref & c & Href & Hc & Hvc)];
    rewrite Hview in Hvc.
  - destruct cmd as [ | v | v | s | s | | | | ]; simpl; unfold_handlers;
      try destruct ((v <? 1)%Z || (99 <? v)%Z);
      repeat (run_handler; rewrite ?Href, ?Hvc).
    all: alone_done Hview.
  - destruct cmd as [ | v | v | s | s | | | | ]; simpl; unfold_handlers.
    + repeat (run_handler; rewrite ?Href, ?Hvc, ?Hc). all: alone_done Hview.
    + destruct ((v <? 1)%Z || (99 <? v)%Z);
        repeat (run_handler; rewrite ?Href, ?Hvc, ?Hc).
      all: alone_done Hview.
    + destruct ((v <? 1)%Z || (99 <? v)%Z);
        repeat (run_handler; rewrite ?Href, ?Hvc, ?Hc).
      all: alone_done Hview.
    + repeat (run_handler; rewrite ?Href, ?Hvc, ?Hc).
      destruct (negb _ && negb _); repeat (run_handler; rewrite ?Href, ?Hvc, ?Hc);
        [alone_done Hview .. | ].
      destruct (includes _ _); repeat (run_handler; rewrite ?Href, ?Hvc, ?Hc).
      all: alone_done Hview.
    + repeat (run_handler; rewrite ?Href, ?Hvc, ?Hc).
      destruct (indexOf _ _); repeat (run_handler; rewrite ?Href, ?Hvc, ?Hc).
      all: alone_done Hview.
    + repeat (run_handler; rewrite ?Href, ?Hvc, ?Hc).
      destruct (channels c); repeat (run_handler; rewrite ?Href, ?Hvc, ?Hc).
      all: alone_done Hview.
    + repeat (registry_step; rewrite ?Href, ?Hvc, ?Hc, ?Hreading).
      run_handler. all: alone_done Hview.
    + repeat (registry_step; rewrite ?Href, ?Hvc, ?Hc, ?list_lookup_alter_eq).
      run_handler. all: alone_done Hview.
    + repeat (run_handler; rewrite ?Href, ?Hvc, ?Hc). all: alone_done Hview.
Qed.

(** X26: the two embeddings of the handlers agree when handlers do not
    overlap.  From a bot with no handler in flight, whose registry,
    stored reading and log are those of a world, let a command arrive
    and let Telegram settle the calls of its handler one by one, as it
    answers them in that world, before anything else happens.  Then no
    handler is in flight, and the registry, the stored reading and the
    log are those of the world after [handle], the handler that runs to
    its end, has run. *)
Theorem handle_without_overlap (chatId : Z) (cmd : Command) (s : Async.System)
    (w : World) :
  atRest s w ->
  let w' := snd (handle chatId cmd w) in
  let settlements :=
    map (fun a => Async.Settles 0 (delivered a)) (newAttempts w w') in
  atRest (Async.run (Async.Arrives chatId cmd :: settlements) s) w'.
Proof.
  intros (Hwaiting & Hco & Hview & Hreading & Hsettled). cbv zeta.
  destruct s as [mem waiting settled]. simpl in *. subst waiting settled.
  destruct (handle_alone chatId cmd mem w Hco Hview Hreading)
    as (Hco' & Hview' & Hreading' & Hlog').
  destruct (run_alone (Async.handle chatId cmd) (telegram w) mem (sendLog w))
    as (atts & Hlog & Hrun).
  rewrite Hlog' in Hlog. rewrite (newAttempts_app _ _ _ Hlog).
  unfold Async.happen. rewrite Hrun.
  split; [reflexivity | split; [exact Hco' | split; [exact Hview' | split]]];
    [exact Hreading' | exact Hlog'].
Qed.

Lemma handle_without_overlap_witness :
  let s := Async.run [Async.Arrives 1 Start; Async.Settles 0 true] Async.boot in
  let w' := snd (handle 1 (AddChannel "@b") startedWorld) in
  let settlements :=
    map (fun a => Async.Settles 0 (delivered a)) (newAttempts startedWorld w') in
  atRest (Async.run (Async.Arrives 1 (AddChannel "@b") :: settlements) s) w'.
Proof.
  apply (handle_without_overlap 1 (AddChannel "@b")).
  split; [reflexivity | split; [ | split; [ | split; reflexivity]]].
  - intros id ref Hlook. simpl in Hlook.
    destruct (Z.eq_dec id 1%Z) as [-> | Hne].
    + rewrite lookup_insert_eq in Hlook. injection Hlook as <-.
      split; [simpl; lia | ].
      intros id' Hlook'. simpl in Hlook'.
      destruct (Z.eq_dec id' 1%Z) as [-> | Hne']; [reflexivity | ].
      rewrite lookup_insert_ne, lookup_empty in Hlook' by congruence. discriminate.
    + rewrite lookup_insert_ne, lookup_empty in Hlook by congruence. discriminate.
  - vm_compute. reflexivity.
Defined.
